(** * Control-flow flattening of Scratch scripts: a verification development

    Shallow embedding of [src/transforms/cff.ts] (CFG decomposition,
    dispatch-tree generation, state-body emission, thread registry and
    wait bridge) together with the helpers of [src/blocks.ts] and
    [src/uid.ts] it relies on.

    Conventions.
    - Program counters, thread tokens and loop counters are integers well
      inside the range in which IEEE doubles are exact; they are modelled
      as [Z].  Where the emitted code divides, evaluation is defined only
      when the division is exact.
    - Every [Math.random] outcome is an explicit input: a finite supply of
      draws for the retry loops of the decomposer, an oracle per emitted
      state for the code generator.
    - Blocks created by the [BlockBuilder] are referenced exactly once by
      the block that consumes them, so generated code is kept as a tree
      ([Expr], [Stmt]); blocks of the original project stay in the block
      store and are referenced by id. *)

From Equations Require Import Equations.
From stdpp Require Import gmap strings list fin_maps pretty sorting.
From Stdlib Require Import ZArith Lia.

Local Open Scope Z_scope.
Set Warnings "-register-all,-clear-no-such-hyp".

(** ** Constants *)

Definition PC_MIN : Z := -10000000000000.
Definition PC_MAX : Z := 10000000000000.
Definition EXIT_PC : Z := 0.

(** ** CFG states ([interface CFGState]) *)

Record Branch := mkBranch {
  conditionBlockId : string;
  truePc : Z;
  falsePc : Z }.

Record RepeatInit := mkRepeatInit {
  countExprBlockId : string;
  ri_loopStaticId : string }.

Record RepeatCheck := mkRepeatCheck {
  rc_loopStaticId : string;
  rc_bodyPc : Z;
  rc_exitPc : Z }.

Record WaitStart := mkWaitStart {
  durationExprBlockId : string;
  ws_pollPc : Z }.

Record WaitPoll := mkWaitPoll {
  continuationPc : Z;
  isTimer : bool }.

Record BroadcastWaitStart := mkBroadcastWaitStart {
  broadcastExprBlockId : string;
  bws_pollPc : Z }.

Record ForEachInit := mkForEachInit {
  valueExprBlockId : string;
  fi_loopCounterStaticId : string;
  fi_loopBoundStaticId : string }.

Record ForEachCheck := mkForEachCheck {
  varName : string;
  varId : option string;
  fc_loopCounterStaticId : string;
  fc_loopBoundStaticId : string;
  fc_bodyPc : Z;
  fc_exitPc : Z }.

Record CFGState := mkState {
  pc : Z;
  bodyBlockIds : list string;
  nextPc : Z;
  branch : option Branch;
  repeatInit : option RepeatInit;
  repeatCheck : option RepeatCheck;
  isTerminal : bool;
  waitStart : option WaitStart;
  waitPoll : option WaitPoll;
  broadcastWaitStart : option BroadcastWaitStart;
  forEachInit : option ForEachInit;
  forEachCheck : option ForEachCheck;
  isDead : bool }.

(** The object literals of the decomposer set [pc], [bodyBlockIds],
    [nextPc], [isDead] and at most one of the optional fields. *)
Definition plainState (p : Z) (body : list string) (n : Z) (dead : bool) : CFGState :=
  mkState p body n None None None false None None None None None dead.

Definition branchState (p n : Z) (b : Branch) : CFGState :=
  mkState p [] n (Some b) None None false None None None None None false.

Definition repeatInitState (p n : Z) (r : RepeatInit) : CFGState :=
  mkState p [] n None (Some r) None false None None None None None false.

Definition repeatCheckState (p n : Z) (r : RepeatCheck) : CFGState :=
  mkState p [] n None None (Some r) false None None None None None false.

Definition terminalState (p : Z) (body : list string) : CFGState :=
  mkState p body EXIT_PC None None None true None None None None None false.

Definition waitStartState (p n : Z) (w : WaitStart) : CFGState :=
  mkState p [] n None None None false (Some w) None None None None false.

Definition waitPollState (p n : Z) (w : WaitPoll) : CFGState :=
  mkState p [] n None None None false None (Some w) None None None false.

Definition broadcastWaitStartState (p n : Z) (w : BroadcastWaitStart) : CFGState :=
  mkState p [] n None None None false None None (Some w) None None false.

Definition forEachInitState (p n : Z) (f : ForEachInit) : CFGState :=
  mkState p [] n None None None false None None None (Some f) None false.

Definition forEachCheckState (p n : Z) (f : ForEachCheck) : CFGState :=
  mkState p [] n None None None false None None None None (Some f) false.

(** ** Dispatch tree ([buildStepFunction], [buildBSTNode]) *)

(** [[...states].sort((a, b) => a.pc - b.pc)]: a stable sort by [pc];
    written as insertion sort.  A state is inserted before the first
    state whose [pc] is not below its own, so states with equal [pc]
    keep the order they have in [states]. *)
Fixpoint insertByPc (s : CFGState) (l : list CFGState) : list CFGState :=
  match l with
  | [] => [s]
  | t :: l' => if pc t <? pc s then t :: insertByPc s l' else s :: t :: l'
  end.

Definition sortByPc (states : list CFGState) : list CFGState :=
  foldr insertByPc [] states.

Section BST.
(** What the builder does at a leaf ([buildStateBody] on [sorted[i]]), at
    an inner node ([controlIfElse] on [cachedPc < pivot]) and when an
    index is out of range ([sorted[i]] is [undefined], a TypeError; with
    [hi < lo] the source recurses until the stack overflows). *)
Context {A : Type}.
Variable leaf : nat -> CFGState -> A.
Variable node : Z -> A -> A -> A.
Variable crash : A.

Definition leafAt (sorted : list CFGState) (i : nat) : A :=
  match sorted !! i with
  | Some s => leaf i s
  | None => crash
  end.

Definition pivotAt (sorted : list CFGState) (i : nat) (l r : A) : A :=
  match sorted !! i with
  | Some s => node (pc s) l r
  | None => crash
  end.

Equations? buildBSTNode (sorted : list CFGState) (lo hi : nat) : A
  by wf (hi - lo)%nat lt :=
  buildBSTNode sorted lo hi with decide (lo = hi) => {
    | left _ := leafAt sorted lo;
    | right _ with decide (lo + 1 = hi)%nat => {
      | left _ := pivotAt sorted hi (leafAt sorted lo) (leafAt sorted hi);
      | right _ with decide (hi < lo)%nat => {
        | left _ := crash;
        | right _ :=
            let mid := ((lo + hi) / 2)%nat in
            pivotAt sorted (mid + 1)
              (buildBSTNode sorted lo mid)
              (buildBSTNode sorted (mid + 1) hi) } } }.
Proof.
  all: pose proof (Nat.div_mod_eq (lo + hi) 2) as Hd;
    pose proof (Nat.mod_upper_bound (lo + hi) 2 ltac:(lia)) as Hm;
    fold mid in Hd |- *; lia.
Qed.

End BST.

(** ** The block store ([SB3Target.blocks], [BlockBuilder]) *)

(** The second component of an SB3 input: a block id, an inline primitive
    array, or [null]. *)
Inductive InputVal :=
| IVId (id : string)
| IVPrim (tag : Z) (text : string)
| IVNull.

Record SB3Block := mkBlock {
  opcode : string;
  next : option string;
  parent : option string;
  inputs : gmap string InputVal;
  fields : gmap string (string * option string);
  topLevel : bool }.

(** Numeric literals are kept symbolically: [PNum z] for a number the
    transform computed, [PParsed s] for [parseFloat(s) || 0]. *)
Inductive Literal :=
| PNum (z : Z)
| PParsed (s : string)
| PText (s : string).

Inductive Entry :=
| EntBlock (b : SB3Block)
| EntPrim (l : Literal).

(** [input ? input[1] as string : null], followed by the truthiness test
    every use site applies.  An inline primitive array is a truthy value;
    as an object key it is its JS string form. *)
Definition inputRef (b : SB3Block) (name : string) : option string :=
  match inputs b !! name with
  | Some (IVId id) => if decide (id = "") then None else Some id
  | Some (IVPrim tag text) => Some (pretty tag +:+ "," +:+ text)
  | Some IVNull => None
  | None => None
  end.

Definition getFullBlock (blocks : gmap string Entry) (id : string) : option SB3Block :=
  match blocks !! id with
  | Some (EntBlock b) => Some b
  | _ => None
  end.

Definition setParent (blocks : gmap string Entry) (blockId : string)
    (parentId : option string) : gmap string Entry :=
  match getFullBlock blocks blockId with
  | Some b =>
      <[blockId := EntBlock (mkBlock (opcode b) (next b) parentId (inputs b) (fields b) (topLevel b))]> blocks
  | None => blocks
  end.

Definition setNext (blocks : gmap string Entry) (blockId : string)
    (nextId : option string) : gmap string Entry :=
  match getFullBlock blocks blockId with
  | Some b =>
      <[blockId := EntBlock (mkBlock (opcode b) nextId (parent b) (inputs b) (fields b) (topLevel b))]> blocks
  | None => blocks
  end.

Definition deleteBlock (blocks : gmap string Entry) (id : string) : gmap string Entry :=
  delete id blocks.

(** [walkChain]: follow [next] from [startId] until [null], a block seen
    before, or an id that is not a full block.  Every iteration adds a new
    key of the store to [seen] except possibly the last, so
    [S (size blocks)] iterations always suffice. *)
Fixpoint walkChainFrom (n : nat) (blocks : gmap string Entry) (seen : gset string)
    (current : option string) : list string :=
  match n, current with
  | S n', Some cur =>
      if decide (cur = "") then []
      else if decide (cur ∈ seen) then []
      else cur :: match getFullBlock blocks cur with
                  | Some b => walkChainFrom n' blocks ({[cur]} ∪ seen) (next b)
                  | None => []
                  end
  | _, _ => []
  end.

Definition walkChain (blocks : gmap string Entry) (startId : string) : list string :=
  walkChainFrom (S (size blocks)) blocks ∅ (Some startId).

(** [bb.chain(a, b, ...)] and the linking loops: [next]/[parent] links
    between consecutive ids. *)
Fixpoint linkChain (blocks : gmap string Entry) (ids : list string) : gmap string Entry :=
  match ids with
  | a :: (b :: _) as rest =>
      linkChain (setParent (setNext blocks a (Some b)) b (Some a)) rest
  | _ => blocks
  end.

(** ** The decomposer ([decomposeToCFG]) *)

(** The mutable variables of one [decomposeToCFG] call, plus the supplies
    that stand for [Math.random]: [draws] holds the successive values of
    [Math.floor(Math.random() * (PC_MAX - PC_MIN + 1))], [uids] the
    successive results of [uid()]. *)
Record DState := mkDState {
  blocks : gmap string Entry;
  states : list CFGState;
  usedPcs : gset Z;
  yieldRedirects : gmap Z Z;
  draws : list Z;
  uids : list string }.

(** A computation of the decomposer.  [None]: the supply ran out before a
    retry loop ended, the recursion budget ran out, or the source throws. *)
Definition M (A : Type) : Type := DState -> option (A * DState).

Definition ret {A} (a : A) : M A := fun st => Some (a, st).

Definition bind {A B} (m : M A) (k : A -> M B) : M B :=
  fun st => match m st with
            | Some (a, st') => k a st'
            | None => None
            end.

Definition failM {A} : M A := fun _ => None.

Notation "'let*' x ':=' m 'in' k" := (bind m (fun x => k))
  (at level 10, x name, m at level 100, k at level 200).
Notation "m ';;' k" := (bind m (fun _ => k))
  (at level 100, k at level 200, right associativity).

Definition getBlocks : M (gmap string Entry) := fun st => Some (blocks st, st).

Definition modifyBlocks (f : gmap string Entry -> gmap string Entry) : M unit :=
  fun st => Some (tt, mkDState (f (blocks st)) (states st) (usedPcs st)
                        (yieldRedirects st) (draws st) (uids st)).

Definition pushState (s : CFGState) : M unit :=
  fun st => Some (tt, mkDState (blocks st) (states st ++ [s]) (usedPcs st)
                        (yieldRedirects st) (draws st) (uids st)).

Definition setRedirect (k v : Z) : M unit :=
  fun st => Some (tt, mkDState (blocks st) (states st) (usedPcs st)
                        (<[k := v]> (yieldRedirects st)) (draws st) (uids st)).

Definition uid : M string :=
  fun st => match uids st with
            | u :: rest => Some (u, mkDState (blocks st) (states st) (usedPcs st)
                                       (yieldRedirects st) (draws st) rest)
            | [] => None
            end.

(** [randomHugeInt]: redraw while the value is 0. *)
Fixpoint randomHugeInt (ds : list Z) : option (Z * list Z) :=
  match ds with
  | [] => None
  | d :: rest =>
      let p := d + PC_MIN in
      if decide (p = 0) then randomHugeInt rest else Some (p, rest)
  end.

(** The retry loop shared by [allocPc] and [generateDeadStates]:
    [do { pc = randomHugeInt(); } while (usedPcs.has(pc) || pc === EXIT_PC)]. *)
Fixpoint drawFreshPc (n : nat) (used : gset Z) (ds : list Z) : option (Z * list Z) :=
  match n with
  | O => None
  | S n' =>
      match randomHugeInt ds with
      | None => None
      | Some (p, rest) =>
          if decide (p ∈ used) then drawFreshPc n' used rest
          else if decide (p = EXIT_PC) then drawFreshPc n' used rest
          else Some (p, rest)
      end
  end.

Definition allocPc : M Z :=
  fun st => match drawFreshPc (S (length (draws st))) (usedPcs st) (draws st) with
            | Some (p, rest) =>
                Some (p, mkDState (blocks st) (states st) ({[p]} ∪ usedPcs st)
                            (yieldRedirects st) rest (uids st))
            | None => None
            end.

Definition numberLiteral (l : Literal) : M string :=
  let* id := uid in
  modifyBlocks (fun bs => <[id := EntPrim l]> bs) ;;
  ret id.

Definition textLiteral (s : string) : M string :=
  let* id := uid in
  modifyBlocks (fun bs => <[id := EntPrim (PText s)]> bs) ;;
  ret id.

(** [const b = bb.getFullBlock(id); if (b) b.parent = null] *)
Definition clearParent (id : option string) : M unit :=
  match id with
  | Some i => modifyBlocks (fun bs => setParent bs i None)
  | None => ret tt
  end.

Definition C_BLOCK_OPCODES : list string :=
  ["control_if"; "control_if_else"; "control_repeat"; "control_repeat_until";
   "control_while"; "control_for_each"; "control_all_at_once"; "control_forever"].

Definition TERMINATOR_OPCODES : list string :=
  ["control_forever"; "control_stop"; "control_delete_this_clone"].

Definition isControlOpcode (op : string) : bool :=
  bool_decide (op ∈ C_BLOCK_OPCODES) || bool_decide (op ∈ TERMINATOR_OPCODES) ||
  bool_decide (op = "control_wait") || bool_decide (op = "control_wait_until") ||
  bool_decide (op = "event_broadcastandwait").

Inductive Segment :=
| SegLinear (blockIds : list string)
| SegControl (blockId : string).

(** The segmentation loop of [decomposeChain]; [currentLinear] is the run
    of linear blocks collected so far. *)
Fixpoint segmentize (bs : gmap string Entry) (blockIds currentLinear : list string)
    : list Segment :=
  match blockIds with
  | [] => if decide (currentLinear = []) then [] else [SegLinear currentLinear]
  | blockId :: rest =>
      match getFullBlock bs blockId with
      | None => segmentize bs rest currentLinear
      | Some block =>
          if isControlOpcode (opcode block) then
            (if decide (currentLinear = []) then [] else [SegLinear currentLinear])
              ++ SegControl blockId :: segmentize bs rest []
          else segmentize bs rest (currentLinear ++ [blockId])
      end
  end.

Definition unlinkBlock (bs : gmap string Entry) (id : string) : gmap string Entry :=
  setParent (setNext bs id None) id None.

Definition substackChain (rec : list string -> Z -> M Z) (substackFirstId : option string)
    (continuation : Z) : M Z :=
  match substackFirstId with
  | Some first =>
      let* bs := getBlocks in
      rec (walkChain bs first) continuation
  | None => ret continuation
  end.

Definition fieldName (b : SB3Block) (name : string) : string :=
  match fields b !! name with
  | Some (n, _) => n
  | None => ""
  end.

Definition fieldId (b : SB3Block) (name : string) : option string :=
  match fields b !! name with
  | Some (_, i) => i
  | None => None
  end.

(** [decomposeControlBlock]; [rec] is [decomposeChain]. *)
Definition decomposeControlBlock (rec : list string -> Z -> M Z)
    (block : SB3Block) (blockId : string) (continuation : Z) : M Z :=
  let op := opcode block in
  if decide (op = "control_if") then
    let condBlockId := inputRef block "CONDITION" in
    let substackFirstId := inputRef block "SUBSTACK" in
    let* branchPc := allocPc in
    let* bodyEntryPc := substackChain rec substackFirstId continuation in
    clearParent condBlockId ;;
    pushState (branchState branchPc continuation
                 (mkBranch (default "" condBlockId) bodyEntryPc continuation)) ;;
    modifyBlocks (fun bs => deleteBlock bs blockId) ;;
    ret branchPc
  else if decide (op = "control_if_else") then
    let condBlockId := inputRef block "CONDITION" in
    let substackFirstId := inputRef block "SUBSTACK" in
    let substack2FirstId := inputRef block "SUBSTACK2" in
    let* branchPc := allocPc in
    let* trueEntryPc := substackChain rec substackFirstId continuation in
    let* falseEntryPc := substackChain rec substack2FirstId continuation in
    clearParent condBlockId ;;
    pushState (branchState branchPc continuation
                 (mkBranch (default "" condBlockId) trueEntryPc falseEntryPc)) ;;
    modifyBlocks (fun bs => deleteBlock bs blockId) ;;
    ret branchPc
  else if decide (op = "control_forever") then
    match inputRef block "SUBSTACK" with
    | Some first =>
        let* bs := getBlocks in
        let bodyChain := walkChain bs first in
        let* yieldRedirectPc := allocPc in
        let* bodyFirstPc := rec bodyChain yieldRedirectPc in
        setRedirect yieldRedirectPc bodyFirstPc ;;
        modifyBlocks (fun bs => deleteBlock bs blockId) ;;
        ret bodyFirstPc
    | None =>
        let* loopPc := allocPc in
        pushState (plainState loopPc [] loopPc false) ;;
        setRedirect loopPc loopPc ;;
        modifyBlocks (fun bs => deleteBlock bs blockId) ;;
        ret loopPc
    end
  else if decide (op = "control_repeat") then
    let timesBlockId := inputRef block "TIMES" in
    let substackFirstId := inputRef block "SUBSTACK" in
    let* loopStaticId := uid in
    let* initPc := allocPc in
    let* checkPc := allocPc in
    clearParent timesBlockId ;;
    let* yieldRedirectPc := allocPc in
    setRedirect yieldRedirectPc checkPc ;;
    let* bodyEntryPc := substackChain rec substackFirstId yieldRedirectPc in
    pushState (repeatInitState initPc checkPc
                 (mkRepeatInit (default "" timesBlockId) loopStaticId)) ;;
    pushState (repeatCheckState checkPc continuation
                 (mkRepeatCheck loopStaticId bodyEntryPc continuation)) ;;
    modifyBlocks (fun bs => deleteBlock bs blockId) ;;
    ret initPc
  else if decide (op = "control_for_each") then
    let vName := fieldName block "VARIABLE" in
    let vId := fieldId block "VARIABLE" in
    let valueBlockId := inputRef block "VALUE" in
    let substackFirstId := inputRef block "SUBSTACK" in
    clearParent valueBlockId ;;
    let* loopCounterStaticId := uid in
    let* loopBoundStaticId := uid in
    let* initPc := allocPc in
    let* checkPc := allocPc in
    let* yieldRedirectPc := allocPc in
    setRedirect yieldRedirectPc checkPc ;;
    let* bodyEntryPc := substackChain rec substackFirstId yieldRedirectPc in
    pushState (forEachInitState initPc checkPc
                 (mkForEachInit (default "" valueBlockId) loopCounterStaticId loopBoundStaticId)) ;;
    pushState (forEachCheckState checkPc continuation
                 (mkForEachCheck vName vId loopCounterStaticId loopBoundStaticId
                    bodyEntryPc continuation)) ;;
    modifyBlocks (fun bs => deleteBlock bs blockId) ;;
    ret initPc
  else if decide (op = "control_repeat_until") then
    let condBlockId := inputRef block "CONDITION" in
    let substackFirstId := inputRef block "SUBSTACK" in
    let* checkPc := allocPc in
    clearParent condBlockId ;;
    let* yieldRedirectPc := allocPc in
    setRedirect yieldRedirectPc checkPc ;;
    let* bodyEntryPc := substackChain rec substackFirstId yieldRedirectPc in
    pushState (branchState checkPc continuation
                 (mkBranch (default "" condBlockId) continuation bodyEntryPc)) ;;
    modifyBlocks (fun bs => deleteBlock bs blockId) ;;
    ret checkPc
  else if decide (op = "control_while") then
    let condBlockId := inputRef block "CONDITION" in
    let substackFirstId := inputRef block "SUBSTACK" in
    let* checkPc := allocPc in
    clearParent condBlockId ;;
    let* yieldRedirectPc := allocPc in
    setRedirect yieldRedirectPc checkPc ;;
    let* bodyEntryPc := substackChain rec substackFirstId yieldRedirectPc in
    pushState (branchState checkPc continuation
                 (mkBranch (default "" condBlockId) bodyEntryPc continuation)) ;;
    modifyBlocks (fun bs => deleteBlock bs blockId) ;;
    ret checkPc
  else if decide (op = "control_all_at_once") then
    let substackFirstId := inputRef block "SUBSTACK" in
    modifyBlocks (fun bs => deleteBlock bs blockId) ;;
    substackChain rec substackFirstId continuation
  else if decide (op = "control_wait") then
    let* durExprId :=
      match inputs block !! "DURATION" with
      | Some (IVId durVal) => clearParent (Some durVal) ;; ret durVal
      | Some (IVPrim _ text) => numberLiteral (PParsed text)
      | Some IVNull => numberLiteral (PNum 0)
      | None => numberLiteral (PNum 0)
      end in
    modifyBlocks (fun bs => deleteBlock bs blockId) ;;
    let* startPc := allocPc in
    let* pollPc := allocPc in
    pushState (waitStartState startPc pollPc (mkWaitStart durExprId pollPc)) ;;
    pushState (waitPollState pollPc continuation (mkWaitPoll continuation true)) ;;
    ret startPc
  else if decide (op = "control_wait_until") then
    let condBlockId := inputRef block "CONDITION" in
    let* checkPc := allocPc in
    let* yieldRedirectPc := allocPc in
    setRedirect yieldRedirectPc checkPc ;;
    clearParent condBlockId ;;
    pushState (branchState checkPc continuation
                 (mkBranch (default "" condBlockId) continuation yieldRedirectPc)) ;;
    modifyBlocks (fun bs => deleteBlock bs blockId) ;;
    ret checkPc
  else if decide (op = "event_broadcastandwait") then
    let* bcastExprId :=
      match inputs block !! "BROADCAST_INPUT" with
      | Some (IVId bcastVal) =>
          let* bs := getBlocks in
          match getFullBlock bs bcastVal with
          | Some refBlock =>
              if decide (opcode refBlock = "event_broadcast_menu") then
                let* id := textLiteral (fieldName refBlock "BROADCAST_OPTION") in
                modifyBlocks (fun bs => deleteBlock bs bcastVal) ;;
                ret id
              else
                clearParent (Some bcastVal) ;; ret bcastVal
          | None => textLiteral ""
          end
      | Some (IVPrim _ text) => textLiteral text
      | Some IVNull => textLiteral ""
      | None => textLiteral ""
      end in
    modifyBlocks (fun bs => deleteBlock bs blockId) ;;
    let* startPc := allocPc in
    let* pollPc := allocPc in
    pushState (broadcastWaitStartState startPc pollPc
                 (mkBroadcastWaitStart bcastExprId pollPc)) ;;
    pushState (waitPollState pollPc continuation (mkWaitPoll continuation false)) ;;
    ret startPc
  else if decide (op = "control_stop" \/ op = "control_delete_this_clone") then
    let* p := allocPc in
    modifyBlocks (fun bs => unlinkBlock bs blockId) ;;
    pushState (terminalState p [blockId]) ;;
    ret p
  else
    let* p := allocPc in
    modifyBlocks (fun bs => unlinkBlock bs blockId) ;;
    pushState (plainState p [blockId] continuation false) ;;
    ret p.

(** One iteration of the right-to-left loop of [decomposeChain]. *)
Definition decomposeSegment (rec : list string -> Z -> M Z) (seg : Segment)
    (nextSegmentPc : Z) : M Z :=
  match seg with
  | SegLinear ids =>
      let* p := allocPc in
      modifyBlocks (fun bs => linkChain (foldl unlinkBlock bs ids) ids) ;;
      pushState (plainState p ids nextSegmentPc false) ;;
      ret p
  | SegControl blockId =>
      let* bs := getBlocks in
      match getFullBlock bs blockId with
      | Some block => decomposeControlBlock rec block blockId nextSegmentPc
      | None => failM
      end
  end.

(** [for (let i = segments.length - 1; i >= 0; i--)], threading
    [nextSegmentPc]; the value returned is [segmentPcs[0]]. *)
Fixpoint decomposeSegments (rec : list string -> Z -> M Z) (segs : list Segment)
    (continuation : Z) : M Z :=
  match segs with
  | [] => ret continuation
  | seg :: rest =>
      let* nextSegmentPc := decomposeSegments rec rest continuation in
      decomposeSegment rec seg nextSegmentPc
  end.

(** [decomposeChain]; [fuel] bounds the nesting depth of substacks. *)
Fixpoint decomposeChain (fuel : nat) (blockIds : list string) (continuation : Z) : M Z :=
  match blockIds with
  | [] => ret continuation
  | _ =>
      match fuel with
      | O => failM
      | S fuel' =>
          let* bs := getBlocks in
          decomposeSegments (decomposeChain fuel') (segmentize bs blockIds []) continuation
      end
  end.

(** ** Dead states and the result of [decomposeToCFG] *)

Record CffConfig := mkCffConfig {
  enabled : bool;
  deadStatesPerScript : nat;
  minBlocksToFlatten : nat;
  flattenProcedures : bool;
  obfuscatePcTransitions : bool }.

(** [do { nextPc = randomHugeInt(); } while (nextPc === EXIT_PC)] *)
Fixpoint drawNonExit (n : nat) (ds : list Z) : option (Z * list Z) :=
  match n with
  | O => None
  | S n' =>
      match randomHugeInt ds with
      | None => None
      | Some (p, rest) =>
          if decide (p = EXIT_PC) then drawNonExit n' rest else Some (p, rest)
      end
  end.

Definition allocDeadPc : M Z := allocPc.

Definition drawNextPc : M Z :=
  fun st => match drawNonExit (S (length (draws st))) (draws st) with
            | Some (p, rest) =>
                Some (p, mkDState (blocks st) (states st) (usedPcs st)
                            (yieldRedirects st) rest (uids st))
            | None => None
            end.

(** [generateDeadStates].  The decoy chains come from [deadcode.ts], which
    is outside this development: [deadBody i] is the list of block ids the
    generator returned for the [i]-th dead state. *)
Fixpoint generateDeadStatesFrom (deadBody : nat -> list string) (i count : nat)
    : M (list CFGState) :=
  match count with
  | O => ret []
  | S count' =>
      let* p := allocDeadPc in
      let bodyIds := deadBody i in
      modifyBlocks (fun bs => linkChain bs bodyIds) ;;
      let* n := drawNextPc in
      let* rest := generateDeadStatesFrom deadBody (S i) count' in
      ret (plainState p bodyIds n true :: rest)
  end.

Definition generateDeadStates (config : CffConfig) (deadBody : nat -> list string)
    : M (list CFGState) :=
  generateDeadStatesFrom deadBody 0 (deadStatesPerScript config).

(** [shuffle] of [uid.ts] (Fisher-Yates); [pick i] stands for
    [Math.floor(Math.random() * (i + 1))] at index [i]. *)
Definition swapAt {A} (a : list A) (i j : nat) : list A :=
  match a !! i, a !! j with
  | Some x, Some y => <[i := y]> (<[j := x]> a)
  | _, _ => a
  end.

Fixpoint shuffleFrom {A} (pick : nat -> nat) (i : nat) (a : list A) : list A :=
  match i with
  | O => a
  | S i' => shuffleFrom pick i' (swapAt a i (pick i mod (i + 1))%nat)
  end.

Definition shuffle {A} (pick : nat -> nat) (arr : list A) : list A :=
  shuffleFrom pick (length arr - 1) arr.

Record CFG := mkCFG {
  cfgStates : list CFGState;
  entryPc : Z;
  cfgRedirects : gmap Z Z;
  cfgBlocks : gmap string Entry;
  cfgDraws : list Z;
  cfgUids : list string }.

Definition initialDState (bs : gmap string Entry) (ds : list Z) (us : list string) : DState :=
  mkDState bs [] ∅ ∅ ds us.

Definition decomposeBody (fuel : nat) (config : CffConfig) (deadBody : nat -> list string)
    (chainIds : list string) : M Z :=
  let* entry := decomposeChain fuel chainIds EXIT_PC in
  let* deadStates := generateDeadStates config deadBody in
  (fun st => Some (entry, mkDState (blocks st) (states st ++ deadStates) (usedPcs st)
                            (yieldRedirects st) (draws st) (uids st))).

(** [decomposeToCFG]; besides the returned record, the store after the
    call and what is left of the supplies. *)
Definition decomposeToCFG (fuel : nat) (config : CffConfig) (deadBody : nat -> list string)
    (pick : nat -> nat) (bs : gmap string Entry) (ds : list Z) (us : list string)
    (chainIds : list string) : option CFG :=
  match decomposeBody fuel config deadBody chainIds (initialDState bs ds us) with
  | Some (entry, st) =>
      Some (mkCFG (shuffle pick (states st)) entry (yieldRedirects st) (blocks st)
                  (draws st) (uids st))
  | None => None
  end.

(** ** Generated code *)

(** Reporter blocks.  Variables, lists and broadcasts are named by their
    ids.  [EUser id] is a reporter of the original project (or a literal
    the decomposer stored), referenced by its id in the block store. *)
Inductive Expr :=
| ENum (z : Z)
| EText (s : string)
| EVar (id : string)
| EArg (name : string)
| EArgBool (name : string)
| EAdd (a b : Expr)
| ESub (a b : Expr)
| EMul (a b : Expr)
| EDiv (a b : Expr)
| ELt (a b : Expr)
| EGt (a b : Expr)
| EEquals (a b : Expr)
| EJoin (a b : Expr)
| ECeiling (a : Expr)
| ERandom (a b : Expr)
| EItemOf (list : string) (idx : Expr)
| EItemNum (list : string) (item : Expr)
| ELength (list : string)
| EUser (id : string).

(** Stack blocks; a substack is the list of blocks chained by [next]. *)
Inductive Stmt :=
| SSetVar (id : string) (e : Expr)
| SAddToList (list : string) (e : Expr)
| SDeleteOfList (list : string) (idx : Expr)
| SDeleteAll (list : string)
| SReplace (list : string) (idx e : Expr)
| SIf (c : Expr) (t : list Stmt)
| SIfElse (c : Expr) (t e : list Stmt)
| SRepeatUntil (c : Expr) (body : list Stmt)
| SBroadcast (id : string)
| SBroadcastAndWait (msg : Expr)
| SWait (dur : Expr)
| SCall (proccode : string) (args : list Expr)
| SUser (id : string).

Record TargetCFFLists := mkLists {
  pcIdId : string;
  pcValId : string;
  counterKeyId : string;
  counterValId : string;
  waitFlagId : string;
  bcastPendingMsgId : string;
  waitQueueId : string;
  waitBroadcastName : string;
  waitBroadcastId : string;
  startBroadcastName : string;
  startBroadcastId : string;
  hasTimerWait : bool;
  hasBroadcastWait : bool }.

Record ScriptCFFContext := mkCtx {
  lists : TargetCFFLists;
  runProccode : string;
  runArgNames : list string;
  runArgTypes : list string;
  stepProccode : string;
  stepArgNames : list string;
  cachedPcVarId : string;
  keepGoingVarId : string;
  baseIndexVarId : string }.

(** [ctx.stepArgNames[0]] and [ctx.runArgNames[0]]. *)
Definition stepThreadArg (ctx : ScriptCFFContext) : string :=
  default "" (head (stepArgNames ctx)).

Definition runThreadArg (ctx : ScriptCFFContext) : string :=
  default "" (head (runArgNames ctx)).

Definition needsWait (l : TargetCFFLists) : bool :=
  hasTimerWait l || hasBroadcastWait l.

(** The random outcomes consumed while one state body is emitted:
    [rKind n] and [rScramble n] are the results of [randomInt(1, 4)] and
    [randomInt(1000, 99999)] in the [n]-th call of [buildObfuscatedPcExpr],
    [rVarId n] the id of the [n]-th temporary variable created. *)
Record Rand := mkRand {
  rKind : nat -> Z;
  rScramble : nat -> Z;
  rVarId : nat -> string }.

Definition readCached (ctx : ScriptCFFContext) : Expr := EVar (cachedPcVarId ctx).

Definition buildObfuscatedPcExpr (ctx : ScriptCFFContext) (kind scramble : Z)
    (currentPc nextPc : Z) : Expr :=
  let offset := nextPc - currentPc in
  if decide (kind = 1) then
    EAdd (readCached ctx) (ENum offset)
  else if decide (kind = 2) then
    ESub (readCached ctx) (ENum (- offset))
  else if decide (kind = 3) then
    ESub (EAdd (readCached ctx) (ENum scramble)) (ENum (scramble - offset))
  else if decide (kind = 4) then
    EDiv (EAdd (EMul (readCached ctx) (ENum 2)) (ENum (offset * 2))) (ENum 2)
  else
    ENum nextPc.

Definition writePcToList (ctx : ScriptCFFContext) (value : Expr) : Stmt :=
  SReplace (pcValId (lists ctx)) (EVar (baseIndexVarId ctx)) value.

Definition resolvePc (yr : gmap Z Z) (p : Z) : Z := default p (yr !! p).

Definition shouldYield (yr : gmap Z Z) (p : Z) : bool :=
  bool_decide (is_Some (yr !! p)) || bool_decide (resolvePc yr p = EXIT_PC).

Definition pcValue (ctx : ScriptCFFContext) (config : CffConfig) (rnd : Rand) (n : nat)
    (currentPc target : Z) : Expr :=
  if obfuscatePcTransitions config
  then buildObfuscatedPcExpr ctx (rKind rnd n) (rScramble rnd n) currentPc target
  else ENum target.

(** [resolveAndWritePc]: the chain [setPc -> setCached] or
    [setPc -> setKG], and the [yielded] flag. *)
Definition resolveAndWritePc (ctx : ScriptCFFContext) (config : CffConfig)
    (yr : gmap Z Z) (rnd : Rand) (n : nat) (p currentPc : Z) : list Stmt * bool :=
  let resolvedPc := resolvePc yr p in
  let setPc := writePcToList ctx (pcValue ctx config rnd n currentPc resolvedPc) in
  if shouldYield yr p
  then ([setPc; SSetVar (cachedPcVarId ctx) (ENum resolvedPc)], true)
  else ([setPc; SSetVar (keepGoingVarId ctx) (ENum 1)], false).

(** [buildCounterKey]: [join(threadId, join(" ", loopStaticId))]. *)
Definition buildCounterKey (ctx : ScriptCFFContext) (loopStaticId : string) : Expr :=
  EJoin (EArg (stepThreadArg ctx)) (EJoin (EText " ") (EText loopStaticId)).

(** The closing loop of [buildStateBody] sets [next] of every entry of
    [blocks] but the last to the following entry, which replaces whatever
    chain hung there; only the last entry keeps its own tail. *)
Fixpoint linkBlocks (blocks : list (list Stmt)) : list Stmt :=
  match blocks with
  | [] => []
  | [c] => c
  | c :: rest => take 1 c ++ linkBlocks rest
  end.

Definition counterIndex (ctx : ScriptCFFContext) (loopStaticId : string) : Expr :=
  EItemNum (counterKeyId (lists ctx)) (buildCounterKey ctx loopStaticId).

Definition counterRead (ctx : ScriptCFFContext) (loopStaticId : string) : Expr :=
  EItemOf (counterValId (lists ctx)) (counterIndex ctx loopStaticId).

(** The row deletions of the terminal state and of [run_N]'s cleanup. *)
Definition deleteRow (ctx : ScriptCFFContext) : list Stmt :=
  [SDeleteOfList (pcIdId (lists ctx)) (EVar (baseIndexVarId ctx));
   SDeleteOfList (pcValId (lists ctx)) (EVar (baseIndexVarId ctx))] ++
  (if needsWait (lists ctx)
   then [SDeleteOfList (waitFlagId (lists ctx)) (EVar (baseIndexVarId ctx));
         SDeleteOfList (bcastPendingMsgId (lists ctx)) (EVar (baseIndexVarId ctx))]
   else []).

(** Saving an index in a fresh temporary and deleting the key/value pair. *)
Definition deleteCounterEntry (ctx : ScriptCFFContext) (loopStaticId tmp : string) : list Stmt :=
  [SSetVar tmp (counterIndex ctx loopStaticId);
   SDeleteOfList (counterKeyId (lists ctx)) (EVar tmp);
   SDeleteOfList (counterValId (lists ctx)) (EVar tmp)].

Definition buildStateBody (ctx : ScriptCFFContext) (config : CffConfig)
    (yr : gmap Z Z) (rnd : Rand) (state : CFGState) : list Stmt :=
  let L := lists ctx in
  let base := EVar (baseIndexVarId ctx) in
  let rw := fun n p => resolveAndWritePc ctx config yr rnd n p (pc state) in
  let blocks : list (list Stmt) :=
    match branch state with
    | Some br =>
        let setTrue := (rw 0%nat (truePc br)).1 in
        let setFalse := (rw 1%nat (falsePc br)).1 in
        if decide (conditionBlockId br = "") then [setFalse]
        else [[SIfElse (EUser (conditionBlockId br)) setTrue setFalse]]
    | None =>
    match repeatInit state with
    | Some ri =>
        [[SAddToList (counterKeyId L) (buildCounterKey ctx (ri_loopStaticId ri))];
         [SAddToList (counterValId L) (ECeiling (EUser (countExprBlockId ri)))];
         (rw 0%nat (nextPc state)).1]
    | None =>
    match repeatCheck state with
    | Some rc =>
        let id := rc_loopStaticId rc in
        let replaceDecr :=
          SReplace (counterValId L) (counterIndex ctx id)
                   (ESub (counterRead ctx id) (ENum 1)) in
        let setPcBody := (rw 0%nat (rc_bodyPc rc)).1 in
        let setPcExit := (rw 1%nat (rc_exitPc rc)).1 in
        [[SIfElse (EGt (counterRead ctx id) (ENum 0))
            (replaceDecr :: setPcBody)
            (deleteCounterEntry ctx id (rVarId rnd 0) ++ setPcExit)]]
    | None =>
    match forEachInit state with
    | Some fi =>
        [[SAddToList (counterKeyId L) (buildCounterKey ctx (fi_loopBoundStaticId fi))];
         [SAddToList (counterValId L) (ECeiling (EUser (valueExprBlockId fi)))];
         [SAddToList (counterKeyId L) (buildCounterKey ctx (fi_loopCounterStaticId fi))];
         [SAddToList (counterValId L) (ENum 0)];
         (rw 0%nat (nextPc state)).1]
    | None =>
    match forEachCheck state with
    | Some fc =>
        let cid := fc_loopCounterStaticId fc in
        let bid := fc_loopBoundStaticId fc in
        let newCtr := rVarId rnd 0 in
        let setPcBody := (rw 0%nat (fc_bodyPc fc)).1 in
        let setPcExit := (rw 1%nat (fc_exitPc fc)).1 in
        [[SIfElse (ELt (counterRead ctx cid) (counterRead ctx bid))
            ([SSetVar newCtr (EAdd (counterRead ctx cid) (ENum 1));
              SReplace (counterValId L) (counterIndex ctx cid) (EVar newCtr);
              SSetVar (default "" (varId fc)) (EVar newCtr)] ++ setPcBody)
            (deleteCounterEntry ctx cid (rVarId rnd 1) ++
             deleteCounterEntry ctx bid (rVarId rnd 2) ++ setPcExit)]]
    | None =>
    if isTerminal state then
      map (fun s => [s]) (deleteRow ctx) ++
      [[SSetVar (keepGoingVarId ctx) (ENum 0)]] ++
      map (fun bid => [SUser bid]) (bodyBlockIds state)
    else
    match waitStart state with
    | Some ws =>
        [[SReplace (bcastPendingMsgId L) base (EUser (durationExprBlockId ws))];
         [SReplace (waitFlagId L) base (ENum 1)];
         [SAddToList (waitQueueId L) (EArg (stepThreadArg ctx))];
         [SBroadcast (waitBroadcastId L)];
         [writePcToList ctx (pcValue ctx config rnd 0 (pc state) (ws_pollPc ws))];
         [SSetVar (cachedPcVarId ctx) (ENum (ws_pollPc ws))]]
    | None =>
    match broadcastWaitStart state with
    | Some bws =>
        [[SReplace (bcastPendingMsgId L) base (EUser (broadcastExprBlockId bws))];
         [SReplace (waitFlagId L) base (ENum (-1))];
         [SAddToList (waitQueueId L) (EArg (stepThreadArg ctx))];
         [SBroadcast (waitBroadcastId L)];
         [writePcToList ctx (pcValue ctx config rnd 0 (pc state) (bws_pollPc bws))];
         [SSetVar (cachedPcVarId ctx) (ENum (bws_pollPc bws))]]
    | None =>
    match waitPoll state with
    | Some wp =>
        let resolvedCont := resolvePc yr (continuationPc wp) in
        let setPcContinue :=
          writePcToList ctx (pcValue ctx config rnd 0 (pc state) resolvedCont) in
        let after :=
          if shouldYield yr (continuationPc wp)
          then SSetVar (cachedPcVarId ctx) (ENum resolvedCont)
          else SSetVar (keepGoingVarId ctx) (ENum 1) in
        [[SIfElse (EEquals (EItemOf (waitFlagId L) base) (ENum 0))
            [setPcContinue; after]
            [SSetVar (cachedPcVarId ctx) (ENum (pc state))]]]
    | None =>
        let '(setPc, yielded) := rw 0%nat (nextPc state) in
        map (fun bid => [SUser bid]) (bodyBlockIds state) ++ [setPc] ++
        (if isDead state && negb yielded
         then [[SSetVar (keepGoingVarId ctx) (ENum 0)]] else [])
    end end end end end end end end in
  match blocks with
  | [] => (rw 0%nat (nextPc state)).1
  | _ => linkBlocks blocks
  end.

(** ** Procedures and scripts emitted per flattened script *)

Record Procedure := mkProcedure {
  proccode : string;
  argNames : list string;
  warp : bool;
  procBody : list Stmt }.

Record Script := mkScript {
  hatOpcode : string;
  hatFields : gmap string (string * option string);
  scriptBody : list Stmt }.

(** The dispatch skeleton: which state sits at which leaf, and the pivot
    of every comparison. *)
Inductive Dispatch :=
| DLeaf (i : nat) (s : CFGState)
| DNode (pivot : Z) (l r : Dispatch).

Definition nodeOpt {A} (f : Z -> A -> A -> A) (p : Z) (l r : option A) : option A :=
  match l, r with
  | Some a, Some b => Some (f p a b)
  | _, _ => None
  end.

(** [buildBSTNode(bb, sorted, 0, sorted.length - 1, ...)] as a skeleton. *)
Definition dispatchTree (states : list CFGState) : option Dispatch :=
  let sorted := sortByPc states in
  buildBSTNode (fun i s => Some (DLeaf i s)) (nodeOpt DNode) None
               sorted 0 (length sorted - 1).

Definition readPcFromList (ctx : ScriptCFFContext) : Expr := EVar (cachedPcVarId ctx).

(** The block [buildBSTNode] creates at an inner node: an if-else on
    [operator_lt(cachedPc, pivot)]. *)
Definition ifLess (ctx : ScriptCFFContext) (pivot : Z) (l r : list Stmt) : list Stmt :=
  [SIfElse (ELt (readPcFromList ctx) (ENum pivot)) l r].

Definition buildDispatch (ctx : ScriptCFFContext) (config : CffConfig) (yr : gmap Z Z)
    (oracle : nat -> Rand) (states : list CFGState) : option (list Stmt) :=
  let sorted := sortByPc states in
  buildBSTNode (fun i s => Some (buildStateBody ctx config yr (oracle i) s))
               (nodeOpt (ifLess ctx)) None
               sorted 0 (length sorted - 1).

(** The code a skeleton stands for. *)
Fixpoint emit (ctx : ScriptCFFContext) (config : CffConfig) (yr : gmap Z Z)
    (oracle : nat -> Rand) (t : Dispatch) : list Stmt :=
  match t with
  | DLeaf i s => buildStateBody ctx config yr (oracle i) s
  | DNode p l r => ifLess ctx p (emit ctx config yr oracle l) (emit ctx config yr oracle r)
  end.

(** Walking the skeleton with a cached PC: the leaf reached and the number
    of comparisons evaluated on the way. *)
Fixpoint query (t : Dispatch) (cached : Z) : nat * CFGState * nat :=
  match t with
  | DLeaf i s => (i, s, 0%nat)
  | DNode p l r =>
      let '(i, s, n) := if cached <? p then query l cached else query r cached in
      (i, s, S n)
  end.

(** The blocks of [step_N] before its loop, and those at the top of every
    iteration of the loop. *)
Definition stepPrologue (ctx : ScriptCFFContext) : list Stmt :=
  [SSetVar (keepGoingVarId ctx) (ENum 1);
   SSetVar (baseIndexVarId ctx) (EItemNum (pcIdId (lists ctx)) (EArg (stepThreadArg ctx)))].

Definition iterPrologue (ctx : ScriptCFFContext) : list Stmt :=
  [SSetVar (keepGoingVarId ctx) (ENum 0);
   SSetVar (cachedPcVarId ctx) (EItemOf (pcValId (lists ctx)) (EVar (baseIndexVarId ctx)))].

(** The exit test of the loop of [step_N]. *)
Definition stepLoopCond (ctx : ScriptCFFContext) : Expr :=
  EEquals (EVar (keepGoingVarId ctx)) (ENum 0).

Definition buildStepFunction (ctx : ScriptCFFContext) (config : CffConfig) (yr : gmap Z Z)
    (oracle : nat -> Rand) (states : list CFGState) : option Procedure :=
  match buildDispatch ctx config yr oracle states with
  | Some bst =>
      Some (mkProcedure (stepProccode ctx) (stepArgNames ctx) true
        (stepPrologue ctx ++
         [SRepeatUntil (stepLoopCond ctx) (iterPrologue ctx ++ bst)]))
  | None => None
  end.

(** The three parts of [run_N]'s body. *)
Definition runRegistration (ctx : ScriptCFFContext) (entry : Z) : list Stmt :=
  [SAddToList (pcIdId (lists ctx)) (EArg (runThreadArg ctx));
   SAddToList (pcValId (lists ctx)) (ENum entry)] ++
  (if needsWait (lists ctx)
   then [SAddToList (waitFlagId (lists ctx)) (ENum 0);
         SAddToList (bcastPendingMsgId (lists ctx)) (EText "")]
   else []).

Fixpoint forwardArgs (names types : list string) : list Expr :=
  match names with
  | [] => []
  | n :: names' =>
      (if decide (head types = Some "b") then EArgBool n else EArg n)
        :: forwardArgs names' (drop 1 types)
  end.

(** The exit test of the loop of [run_N]: the PC of the thread, read from
    the list, is 0. *)
Definition runLoopCond (ctx : ScriptCFFContext) : Expr :=
  EEquals (EItemOf (pcValId (lists ctx))
             (EItemNum (pcIdId (lists ctx)) (EArg (runThreadArg ctx))))
          (ENum 0).

Definition runLoop (ctx : ScriptCFFContext) : Stmt :=
  SRepeatUntil (runLoopCond ctx)
    [SCall (stepProccode ctx)
       (EArg (runThreadArg ctx) :: forwardArgs (drop 1 (runArgNames ctx)) (runArgTypes ctx))].

Definition runCleanup (ctx : ScriptCFFContext) : list Stmt :=
  SSetVar (baseIndexVarId ctx) (EItemNum (pcIdId (lists ctx)) (EArg (runThreadArg ctx)))
    :: deleteRow ctx.

Definition buildRunFunction (ctx : ScriptCFFContext) (entry : Z) : Procedure :=
  mkProcedure (runProccode ctx) (runArgNames ctx) false
    (runRegistration ctx entry ++ [runLoop ctx] ++ runCleanup ctx).

(** ** Per-target infrastructure *)

(** The lists [createTargetLists] registers in [target.lists]. *)
Definition cffLists (l : TargetCFFLists) : list string :=
  [pcIdId l; pcValId l; counterKeyId l; counterValId l] ++
  (if needsWait l then [waitFlagId l; bcastPendingMsgId l; waitQueueId l] else []).

(** The outcomes of the [uid()] and [confusableName()] calls made by
    [createTargetLists]. *)
Record ListNames := mkListNames {
  n_pcId : string; n_pcVal : string; n_counterKey : string; n_counterVal : string;
  n_waitFlag : string; n_bcastPendingMsg : string; n_waitQueue : string;
  n_waitBroadcastName : string; n_waitBroadcast : string;
  n_startBroadcastName : string; n_startBroadcast : string }.

Definition createTargetLists (n : ListNames) (timer bcast : bool) : TargetCFFLists :=
  let w := timer || bcast in
  mkLists (n_pcId n) (n_pcVal n) (n_counterKey n) (n_counterVal n)
          (if w then n_waitFlag n else "")
          (if w then n_bcastPendingMsg n else "")
          (if w then n_waitQueue n else "")
          (if w then n_waitBroadcastName n else "")
          (if w then n_waitBroadcast n else "")
          (n_startBroadcastName n) (n_startBroadcast n) timer bcast.

Definition buildGreenFlagCleanup (l : TargetCFFLists) : Script :=
  let clears :=
    [SDeleteAll (pcIdId l); SDeleteAll (pcValId l);
     SDeleteAll (counterKeyId l); SDeleteAll (counterValId l)] ++
    (if needsWait l
     then [SDeleteAll (waitFlagId l); SDeleteAll (bcastPendingMsgId l);
           SDeleteAll (waitQueueId l)]
     else []) in
  mkScript "event_whenflagclicked" ∅ (clears ++ [SBroadcast (startBroadcastId l)]).

(** [buildWaitHandler]: the [handleWait] procedure and the receiver of
    the wait signal. *)
Definition inlineBaseIndex (l : TargetCFFLists) (hwArgName : string) : Expr :=
  EItemNum (pcIdId l) (EArg hwArgName).

Definition buildClearFlag (l : TargetCFFLists) (hwArgName : string) : Stmt :=
  SReplace (waitFlagId l) (inlineBaseIndex l hwArgName) (ENum 0).

Definition handleWaitBody (l : TargetCFFLists) (hwArgName : string) : list Stmt :=
  let readFlag := EItemOf (waitFlagId l) (inlineBaseIndex l hwArgName) in
  let readData := EItemOf (bcastPendingMsgId l) (inlineBaseIndex l hwArgName) in
  let timerArm := [SWait readData; buildClearFlag l hwArgName] in
  let bcastArm := [SBroadcastAndWait readData; buildClearFlag l hwArgName] in
  if hasTimerWait l && hasBroadcastWait l
  then [SIfElse (EGt readFlag (ENum 0)) timerArm bcastArm]
  else if hasTimerWait l then timerArm
  else bcastArm.

Definition waitReceiverBody (l : TargetCFFLists) (hwProccode savedTidId : string)
    : list Stmt :=
  [SIf (EGt (ELength (waitQueueId l)) (ENum 0))
     [SSetVar savedTidId (EItemOf (waitQueueId l) (ENum 1));
      SDeleteOfList (waitQueueId l) (ENum 1);
      SIf (EGt (ELength (waitQueueId l)) (ENum 0)) [SBroadcast (waitBroadcastId l)];
      SCall hwProccode [EVar savedTidId]]].

Definition buildWaitHandler (l : TargetCFFLists) (hwArgName hwProccode savedTidId : string)
    : Procedure * Script :=
  (mkProcedure hwProccode [hwArgName] false (handleWaitBody l hwArgName),
   mkScript "event_whenbroadcastreceived"
     {[ "BROADCAST_OPTION" := (waitBroadcastName l, Some (waitBroadcastId l)) ]}
     (waitReceiverBody l hwProccode savedTidId)).

(** ** Flattening a hat script *)

Record Flattened := mkFlattened {
  flStep : Procedure;
  flRun : Procedure;
  flHatBody : list Stmt;
  flBlocks : gmap string Entry;
  flDraws : list Z;
  flUids : list string }.

(** [Skipped]: an early [return], with the store as it is at that point;
    [Failed]: the model gave out (supply or recursion budget) or the
    source throws. *)
Inductive Outcome :=
| Skipped (bs : gmap string Entry)
| Failed
| Done (f : Flattened).

(** The in-place update of the hat block at the end of
    [flattenHatScript]. *)
Definition rewireHat (l : TargetCFFLists) (runCall : string) (h : SB3Block) : SB3Block :=
  if decide (opcode h = "event_whenflagclicked") then
    mkBlock "event_whenbroadcastreceived" (Some runCall) (parent h) (inputs h)
      {[ "BROADCAST_OPTION" := (startBroadcastName l, Some (startBroadcastId l)) ]}
      (topLevel h)
  else
    mkBlock (opcode h) (Some runCall) (parent h) (inputs h) (fields h) (topLevel h).

Definition flattenHatScript (fuel : nat) (config : CffConfig)
    (deadBody : nat -> list string) (pick : nat -> nat) (oracle : nat -> Rand)
    (ctx : ScriptCFFContext) (runCall : string)
    (bs : gmap string Entry) (ds : list Z) (us : list string) (hatId : string) : Outcome :=
  match getFullBlock bs hatId with
  | None => Skipped bs
  | Some hatBlock =>
      match next hatBlock with
      | None => Skipped bs
      | Some first =>
          if decide (first = "") then Skipped bs else
          let chainIds := walkChain bs first in
          if decide (length chainIds < minBlocksToFlatten config)%nat then Skipped bs else
          match decomposeToCFG fuel config deadBody pick bs ds us chainIds with
          | None => Failed
          | Some cfg =>
              if decide (cfgStates cfg = []) then Skipped (cfgBlocks cfg) else
              match buildStepFunction ctx config (cfgRedirects cfg) oracle (cfgStates cfg) with
              | None => Failed
              | Some step =>
                  let run := buildRunFunction ctx (entryPc cfg) in
                  let call :=
                    SCall (runProccode ctx)
                          [ERandom (ENum (-999999999999)) (ENum 999999999999)] in
                  let bs' :=
                    match getFullBlock (cfgBlocks cfg) hatId with
                    | Some h =>
                        <[hatId := EntBlock (rewireHat (lists ctx) runCall h)]> (cfgBlocks cfg)
                    | None => cfgBlocks cfg
                    end in
                  Done (mkFlattened step run [call] bs' (cfgDraws cfg) (cfgUids cfg))
              end
          end
      end
  end.

(** ** Run-time model of the emitted blocks

    The interpreter of the blocks is the Scratch VM, which is not part of
    the repository.  The model below covers the blocks the transform
    emits, on the values the transform stores (integers and strings):
    list indices are 1-based; reading outside a list gives the empty
    string; deleting or replacing outside a list does nothing; "item # of"
    gives 0 when the item is absent; two values are equal when both are
    numbers and equal, or when their string forms agree up to letter case.
    Arithmetic and ordering are defined on numbers only; arithmetic only
    on integers for which the double computation is exact, division only
    when it leaves no remainder.  The 200000-item cap of lists is not
    modelled. *)

Inductive Value :=
| VNum (z : Z)
| VStr (s : string)
| VBool (b : bool).

Inductive Event :=
| EvBroadcast (id : string)
| EvBroadcastAndWait (msg : Value)
| EvWait (dur : Value)
| EvCall (proccode : string) (args : list Value).

Record Runtime := mkRuntime {
  rtVars : gmap string Value;
  rtLists : gmap string (list Value);
  rtTrace : list Event }.

Definition toStr (v : Value) : string :=
  match v with
  | VNum z => pretty z
  | VStr s => s
  | VBool true => "true"
  | VBool false => "false"
  end.

Definition toNum (v : Value) : option Z :=
  match v with
  | VNum z => Some z
  | _ => None
  end.

Definition lowerAscii (c : Ascii.ascii) : Ascii.ascii :=
  let n := Ascii.N_of_ascii c in
  if ((65 <=? n) && (n <=? 90))%N then Ascii.ascii_of_N (n + 32) else c.

Fixpoint lowerString (s : string) : string :=
  match s with
  | EmptyString => EmptyString
  | String c r => String (lowerAscii c) (lowerString r)
  end.

Definition looseEq (v w : Value) : bool :=
  match v, w with
  | VNum a, VNum b => a =? b
  | _, _ => bool_decide (lowerString (toStr v) = lowerString (toStr w))
  end.

Definition getList (rt : Runtime) (id : string) : list Value :=
  default [] (rtLists rt !! id).

Definition getVar (rt : Runtime) (id : string) : Value :=
  default (VNum 0) (rtVars rt !! id).

Definition validIndex (l : list Value) (i : Z) : bool :=
  (1 <=? i) && (i <=? Z.of_nat (length l)).

Definition itemOf (l : list Value) (i : Z) : Value :=
  if validIndex l i then default (VStr "") (l !! Z.to_nat (i - 1)) else VStr "".

Fixpoint itemNumFrom (l : list Value) (v : Value) (i : Z) : Z :=
  match l with
  | [] => 0
  | x :: r => if looseEq x v then i else itemNumFrom r v (i + 1)
  end.

Definition itemNum (l : list Value) (v : Value) : Z := itemNumFrom l v 1.

Definition deleteAt (l : list Value) (i : Z) : list Value :=
  if validIndex l i then delete (Z.to_nat (i - 1)) l else l.

Definition replaceAt (l : list Value) (i : Z) (v : Value) : list Value :=
  if validIndex l i then <[Z.to_nat (i - 1) := v]> l else l.

Definition setList (rt : Runtime) (id : string) (l : list Value) : Runtime :=
  mkRuntime (rtVars rt) (<[id := l]> (rtLists rt)) (rtTrace rt).

Definition setVar (rt : Runtime) (id : string) (v : Value) : Runtime :=
  mkRuntime (<[id := v]> (rtVars rt)) (rtLists rt) (rtTrace rt).

Definition emitEvent (rt : Runtime) (e : Event) : Runtime :=
  mkRuntime (rtVars rt) (rtLists rt) (rtTrace rt ++ [e]).

(** Integers up to [Number.MAX_SAFE_INTEGER] in magnitude: on these, and
    as long as the result is one of them, double arithmetic is exact. *)
Definition MAX_SAFE : Z := 9007199254740991.

Definition safe (z : Z) : bool := (- MAX_SAFE <=? z) && (z <=? MAX_SAFE).

Definition arith (f : Z -> Z -> option Z) (a b : option Value) : option Value :=
  match a, b with
  | Some x, Some y =>
      match toNum x, toNum y with
      | Some m, Some n =>
          if safe m && safe n then
            match f m n with
            | Some r => if safe r then Some (VNum r) else None
            | None => None
            end
          else None
      | _, _ => None
      end
  | _, _ => None
  end.

Definition order (f : Z -> Z -> bool) (a b : option Value) : option Value :=
  match a, b with
  | Some x, Some y =>
      match toNum x, toNum y with
      | Some m, Some n => Some (VBool (f m n))
      | _, _ => None
      end
  | _, _ => None
  end.

Definition exactDiv (m n : Z) : option Z :=
  if decide (n <> 0 /\ m mod n = 0) then Some (m / n) else None.

Section Semantics.
(** What the blocks of the original project do is left open. *)
Variable userExpr : string -> Runtime -> option Value.
Variable userStmt : string -> Runtime -> option Runtime.

(** The arguments of the procedure being run. *)
Variable args : gmap string Value.

Fixpoint eval (rt : Runtime) (e : Expr) : option Value :=
  match e with
  | ENum z => Some (VNum z)
  | EText s => Some (VStr s)
  | EVar id => Some (getVar rt id)
  | EArg name => Some (default (VNum 0) (args !! name))
  | EArgBool name => Some (default (VBool false) (args !! name))
  | EAdd a b => arith (fun m n => Some (m + n)) (eval rt a) (eval rt b)
  | ESub a b => arith (fun m n => Some (m - n)) (eval rt a) (eval rt b)
  | EMul a b => arith (fun m n => Some (m * n)) (eval rt a) (eval rt b)
  | EDiv a b => arith exactDiv (eval rt a) (eval rt b)
  | ELt a b => order Z.ltb (eval rt a) (eval rt b)
  | EGt a b => order Z.gtb (eval rt a) (eval rt b)
  | EEquals a b =>
      match eval rt a, eval rt b with
      | Some x, Some y => Some (VBool (looseEq x y))
      | _, _ => None
      end
  | EJoin a b =>
      match eval rt a, eval rt b with
      | Some x, Some y => Some (VStr (toStr x +:+ toStr y))
      | _, _ => None
      end
  | ECeiling a => VNum <$> (eval rt a ≫= toNum)
  | ERandom _ _ => None
  | EItemOf l idx => itemOf (getList rt l) <$> (eval rt idx ≫= toNum)
  | EItemNum l item => (fun v => VNum (itemNum (getList rt l) v)) <$> eval rt item
  | ELength l => Some (VNum (Z.of_nat (length (getList rt l))))
  | EUser id => userExpr id rt
  end.

Definition evalBool (rt : Runtime) (e : Expr) : option bool :=
  match eval rt e with
  | Some (VBool b) => Some b
  | _ => None
  end.

Definition evalNum (rt : Runtime) (e : Expr) : option Z := eval rt e ≫= toNum.

(** [loopFuel] bounds the number of iterations of each
    [control_repeat_until]; every other block runs to completion. *)
Variable loopFuel : nat.

Fixpoint execStmt (s : Stmt) (rt : Runtime) {struct s} : option Runtime :=
  let execList :=
    fix execList (l : list Stmt) (rt : Runtime) {struct l} : option Runtime :=
      match l with
      | [] => Some rt
      | x :: r =>
          match execStmt x rt with
          | Some rt' => execList r rt'
          | None => None
          end
      end in
  match s with
  | SSetVar id e => setVar rt id <$> eval rt e
  | SAddToList l e => (fun v => setList rt l (getList rt l ++ [v])) <$> eval rt e
  | SDeleteOfList l idx => (fun i => setList rt l (deleteAt (getList rt l) i)) <$> evalNum rt idx
  | SDeleteAll l => Some (setList rt l [])
  | SReplace l idx e =>
      match evalNum rt idx, eval rt e with
      | Some i, Some v => Some (setList rt l (replaceAt (getList rt l) i v))
      | _, _ => None
      end
  | SIf c t =>
      match evalBool rt c with
      | Some true => execList t rt
      | Some false => Some rt
      | None => None
      end
  | SIfElse c t e =>
      match evalBool rt c with
      | Some true => execList t rt
      | Some false => execList e rt
      | None => None
      end
  | SRepeatUntil c body =>
      (fix loop (n : nat) (rt : Runtime) {struct n} : option Runtime :=
         match n with
         | O => None
         | S n' =>
             match evalBool rt c with
             | Some true => Some rt
             | Some false =>
                 match execList body rt with
                 | Some rt' => loop n' rt'
                 | None => None
                 end
             | None => None
             end
         end) loopFuel rt
  | SBroadcast id => Some (emitEvent rt (EvBroadcast id))
  | SBroadcastAndWait msg => (fun v => emitEvent rt (EvBroadcastAndWait v)) <$> eval rt msg
  | SWait dur => (fun v => emitEvent rt (EvWait v)) <$> eval rt dur
  | SCall p es =>
      (fun vs => emitEvent rt (EvCall p vs)) <$> mapM (eval rt) es
  | SUser id => userStmt id rt
  end.

Fixpoint exec (l : list Stmt) (rt : Runtime) {struct l} : option Runtime :=
  match l with
  | [] => Some rt
  | x :: r =>
      match execStmt x rt with
      | Some rt' => exec r rt'
      | None => None
      end
  end.

End Semantics.

(** ** Vocabulary of the statements below *)

Definition statePcs (st : DState) : list Z := pc <$> states st.

(** The bookkeeping invariant of the decomposer.  [pend] holds program
    counters that were allocated and not yet given to a state. *)
Definition J (pend : gset Z) (st : DState) : Prop :=
  NoDup (statePcs st) ∧
  (∀ p, p ∈ statePcs st → p ∈ usedPcs st) ∧
  (0 ∉ usedPcs st) ∧
  (pend ⊆ usedPcs st) ∧
  (∀ p, p ∈ pend → p ∉ statePcs st).

Definition hoare {A} (P : DState → Prop) (m : M A) (Q : A → DState → Prop) : Prop :=
  ∀ st a st', P st → m st = Some (a, st') → Q a st'.

(** A computation that keeps the invariant whatever is pending. *)
Definition framed {A} (m : M A) : Prop :=
  ∀ pend, hoare (J pend) m (fun _ => J pend).

(** In-order leaves of a skeleton, its size, the PC of its leftmost leaf,
    and what "bisected on the upper half's minimum" means for it. *)
Fixpoint leaves (t : Dispatch) : list (nat * CFGState) :=
  match t with
  | DLeaf i s => [(i, s)]
  | DNode _ l r => leaves l ++ leaves r
  end.

Fixpoint minPc (t : Dispatch) : Z :=
  match t with
  | DLeaf _ s => pc s
  | DNode _ l _ => minPc l
  end.

Fixpoint bisected (t : Dispatch) : Prop :=
  match t with
  | DLeaf _ _ => True
  | DNode p l r =>
      p = minPc r ∧
      (length (leaves r) <= length (leaves l) <= length (leaves r) + 1)%nat ∧
      bisected l ∧ bisected r
  end.

(** The decomposer never changes the opcode of a block that survives. *)
Definition blocksStable (bs bs' : gmap string Entry) : Prop :=
  ∀ id b', getFullBlock bs' id = Some b' →
    ∃ b, getFullBlock bs id = Some b ∧ opcode b = opcode b'.

Definition stableM {A} (m : M A) : Prop :=
  ∀ st a st', m st = Some (a, st') → blocksStable (blocks st) (blocks st').

(** ** A worked example: [if <cond> then s1 else s2] under a green flag *)

Definition exBlock (op : string) (nxt : option string) (ins : list (string * InputVal))
    : Entry :=
  EntBlock (mkBlock op nxt None (list_to_map ins) ∅ false).

Definition exStore : gmap string Entry :=
  list_to_map
    [("hat", exBlock "event_whenflagclicked" (Some "ife") []);
     ("ife", exBlock "control_if_else" None
               [("CONDITION", IVId "cond"); ("SUBSTACK", IVId "s1");
                ("SUBSTACK2", IVId "s2")]);
     ("cond", exBlock "operator_gt" None []);
     ("s1", exBlock "data_setvariableto" None []);
     ("s2", exBlock "data_setvariableto" None [])].

(** Raw draws: 7, then 0 (redrawn), 3, 3 again (redrawn), 9. *)
Definition exDraws : list Z :=
  [10000000000007; 10000000000000; 10000000000003; 10000000000003; 10000000000009].

Definition exConfig : CffConfig := mkCffConfig true 0 1 false true.

Definition exStates : list CFGState :=
  [plainState 9 ["s2"] 0 false;
   branchState 7 0 (mkBranch "cond" 3 9);
   plainState 3 ["s1"] 0 false].

Definition exLists : TargetCFFLists :=
  mkLists "pcIds" "pcVals" "counterKeys" "counterVals" "waitFlags"
          "bcastPendingMsg" "waitQueue" "waitSignal" "waitSignalId"
          "start" "startId" true true.

Definition exCtx : ScriptCFFContext :=
  mkCtx exLists "run %s" ["tid"] [] "step %s" ["tid"] "cachedPc" "keepGoing" "baseIndex".

Definition exRand : Rand :=
  mkRand (fun _ => 4) (fun _ => 5000) (fun n => "tmp" +:+ pretty n).

(** No reporter of the project is evaluated; its stack blocks leave the
    run-time state alone. *)
Definition exUserExpr : string -> Runtime -> option Value := fun _ _ => None.
Definition exUserStmt : string -> Runtime -> option Runtime := fun _ rt => Some rt.

Definition exArgs : gmap string Value := {[ "tid" := VNum 42 ]}.

Definition exRuntime (vars : list (string * Value)) (ls : list (string * list Value))
    : Runtime :=
  mkRuntime (list_to_map vars) (list_to_map ls) [].

Definition exDeadConfig : CffConfig := mkCffConfig true 1 1 false true.

Definition exDeadRuntime : Runtime :=
  exRuntime [("baseIndex", VNum 1)] [("pcIds", [VNum 42]); ("pcVals", [VNum 5])].

Definition exForeverStore : gmap string Entry :=
  list_to_map
    [("loop", exBlock "control_forever" None [("SUBSTACK", IVId "s1")]);
     ("s1", exBlock "data_changevariableby" None [])].

(** The key under which a thread keeps the counter of one loop. *)
Definition counterKey (tid : Value) (loopStaticId : string) : Value :=
  VStr (toStr tid +:+ " " +:+ loopStaticId).

(** What a PC write leaves behind: the PC column updated at the row of the
    thread, and either the cached PC (yield) or the keep-going flag
    (continue) set. *)
Definition afterPcWrite (ctx : ScriptCFFContext) (yr : gmap Z Z) (row p : Z)
    (rt : Runtime) : Runtime :=
  let rt1 := setList rt (pcValId (lists ctx))
               (replaceAt (getList rt (pcValId (lists ctx))) row (VNum (resolvePc yr p))) in
  if shouldYield yr p
  then setVar rt1 (cachedPcVarId ctx) (VNum (resolvePc yr p))
  else setVar rt1 (keepGoingVarId ctx) (VNum 1).

Definition exRepeatBlock : SB3Block :=
  mkBlock "control_repeat" None None
    (list_to_map [("TIMES", IVId "times"); ("SUBSTACK", IVId "s1")]) ∅ false.

Definition exRepeatStore : gmap string Entry :=
  list_to_map
    [("rep", EntBlock exRepeatBlock);
     ("times", exBlock "operator_add" None []);
     ("s1", exBlock "data_changevariableby" None [])].

Definition exRepeatState : DState :=
  initialDState exRepeatStore (exDraws ++ [10000000000012]) ["loopA"].

Definition exRepeatResult : DState :=
  match decomposeControlBlock (decomposeChain 3) exRepeatBlock "rep" 0 exRepeatState with
  | Some (_, st') => st'
  | None => exRepeatState
  end.

(** ** The thread registry *)

(** The token list and the value lists kept parallel to it. *)
Definition parallelLists (l : TargetCFFLists) : list string :=
  [pcIdId l; pcValId l] ++
  (if needsWait l then [waitFlagId l; bcastPendingMsgId l] else []).

Definition aligned (l : TargetCFFLists) (rt : Runtime) (n : nat) : Prop :=
  ∀ id, id ∈ parallelLists l → length (getList rt id) = n.

(** The parallel lists are pairwise different lists, none of them is the
    counter store or the wait queue, and the token list is none of the
    lists a state body replaces items of. *)
Definition listsSeparate (l : TargetCFFLists) : Prop :=
  NoDup (parallelLists l) ∧
  (counterKeyId l ∉ parallelLists l) ∧ (counterValId l ∉ parallelLists l) ∧
  (waitQueueId l ∉ parallelLists l) ∧
  waitFlagId l ≠ pcIdId l ∧ bcastPendingMsgId l ≠ pcIdId l.

(** The base-index variable is a variable of its own. *)
Definition ctxSeparate (ctx : ScriptCFFContext) : Prop :=
  listsSeparate (lists ctx) ∧
  keepGoingVarId ctx ≠ baseIndexVarId ctx ∧
  cachedPcVarId ctx ≠ baseIndexVarId ctx.

Definition idsSeparate (ctx : ScriptCFFContext) (rnd : Rand) (s : CFGState) : Prop :=
  (∀ k, rVarId rnd k ≠ baseIndexVarId ctx) ∧
  (∀ fc, forEachCheck s = Some fc → default "" (varId fc) ≠ baseIndexVarId ctx).

(** The states for which [buildStateBody] takes its [isTerminal] branch. *)
Definition runsTerminalBody (s : CFGState) : bool :=
  match branch s, repeatInit s, repeatCheck s, forEachInit s, forEachCheck s with
  | None, None, None, None, None => isTerminal s
  | _, _, _, _, _ => false
  end.

(** Blocks that keep every row of the registry in place: no item is added
    to or deleted from a parallel list, the token list is not written, and
    the base-index variable is not assigned. *)
Fixpoint rowSafe (l : TargetCFFLists) (base : string) (s : Stmt) : Prop :=
  let all :=
    fix all (ss : list Stmt) : Prop :=
      match ss with
      | [] => True
      | x :: r => rowSafe l base x ∧ all r
      end in
  match s with
  | SSetVar id _ => id ≠ base
  | SAddToList li _ => li ∉ parallelLists l
  | SDeleteOfList li _ => li ∉ parallelLists l
  | SDeleteAll li => li ∉ parallelLists l
  | SReplace li _ _ => li ≠ pcIdId l
  | SIf _ t => all t
  | SIfElse _ t e => all t ∧ all e
  | SRepeatUntil _ body => all body
  | _ => True
  end.

Definition rowSafeAll (l : TargetCFFLists) (base : string) : list Stmt → Prop :=
  fix all (ss : list Stmt) : Prop :=
    match ss with
    | [] => True
    | x :: r => rowSafe l base x ∧ all r
    end.

(** What such blocks leave unchanged. *)
Definition rowsKept (l : TargetCFFLists) (base : string) (rt rt' : Runtime) : Prop :=
  getList rt' (pcIdId l) = getList rt (pcIdId l) ∧
  (∀ id, id ∈ parallelLists l → length (getList rt' id) = length (getList rt id)) ∧
  getVar rt' base = getVar rt base.

(** A sequence of updates, each of one list. *)
Definition applyUpdates (us : list (string * (list Value → list Value))) (rt : Runtime)
    : Runtime :=
  foldl (fun r u => setList r u.1 (u.2 (getList r u.1))) rt us.

(** The rows appended by the registration blocks of [run_N]. *)
Definition registrationUpdates (ctx : ScriptCFFContext) (entry : Z) (tok : Value)
    : list (string * (list Value → list Value)) :=
  [(pcIdId (lists ctx), fun l => l ++ [tok]);
   (pcValId (lists ctx), fun l => l ++ [VNum entry])] ++
  (if needsWait (lists ctx)
   then [(waitFlagId (lists ctx), fun l => l ++ [VNum 0]);
         (bcastPendingMsgId (lists ctx), fun l => l ++ [VStr ""])]
   else []).

Definition deletionUpdates (ctx : ScriptCFFContext) (i : Z)
    : list (string * (list Value → list Value)) :=
  (fun li => (li, fun l => deleteAt l i)) <$> parallelLists (lists ctx).

(** ** The life of a thread *)

(** A token that no item of the list compares equal to. *)
Definition freshToken (tok : Value) (l : list Value) : Prop :=
  ∀ x, x ∈ l → looseEq x tok = false.

(** The row of a thread that found the token list [old] when it started:
    present, as the last row, or deleted. *)
Definition registered (l : TargetCFFLists) (tok : Value) (old : list Value)
    (rt : Runtime) : Prop :=
  getList rt (pcIdId l) = old ++ [tok] ∧ aligned l rt (S (length old)).

Definition released (l : TargetCFFLists) (old : list Value) (rt : Runtime) : Prop :=
  getList rt (pcIdId l) = old ∧ aligned l rt (length old).

(** Inside a call of [step_N] the base index is the number of the row, or
    of no row once the row is deleted. *)
Definition atRow (ctx : ScriptCFFContext) (tok : Value) (old : list Value)
    (rt : Runtime) : Prop :=
  registered (lists ctx) tok old rt ∧
  getVar rt (baseIndexVarId ctx) = VNum (Z.of_nat (length old) + 1).

Definition offRow (ctx : ScriptCFFContext) (old : list Value) (rt : Runtime) : Prop :=
  released (lists ctx) old rt ∧
  (getVar rt (baseIndexVarId ctx) = VNum 0 ∨
   getVar rt (baseIndexVarId ctx) = VNum (Z.of_nat (length old) + 1)).

Definition within (ctx : ScriptCFFContext) (tok : Value) (old : list Value)
    (rt : Runtime) : Prop :=
  atRow ctx tok old rt ∨ offRow ctx old rt.

(** Blocks of the project leave the registry alone. *)
Definition userFrame (userStmt : string → Runtime → option Runtime)
    (l : TargetCFFLists) (base : string) : Prop :=
  ∀ id rt rt', userStmt id rt = Some rt' →
    (∀ li, li ∈ parallelLists l → getList rt' li = getList rt li) ∧
    getVar rt' base = getVar rt base.

Section Lifecycle.
Variable userExpr : string → Runtime → option Value.
Variable userStmt : string → Runtime → option Runtime.
Variable fuel : nat.
Variable ctx : ScriptCFFContext.
Variable config : CffConfig.
Variable yr : gmap Z Z.
Variable oracle : nat → Rand.
Variable states : list CFGState.
Variable entry : Z.

(** The arguments of [run_N] and [step_N] other than the thread token. *)
Variable extra : gmap string Value.

Definition threadArgs (tok : Value) : gmap string Value :=
  <[runThreadArg ctx := tok]> (<[stepThreadArg ctx := tok]> extra).

(** A call of [step_N] that returns. *)
Definition stepCall (tok : Value) (rt rt' : Runtime) : Prop :=
  ∃ p, buildStepFunction ctx config yr oracle states = Some p ∧
       exec userExpr userStmt (threadArgs tok) fuel (procBody p) rt = Some rt'.

(** The loop of [run_N]: [step_N] is called until the PC of the thread
    reads 0. *)
Inductive runLoopReturns (tok : Value) : Runtime → Runtime → Prop :=
| runLoop_exit rt :
    evalBool userExpr (threadArgs tok) rt (runLoopCond ctx) = Some true →
    runLoopReturns tok rt rt
| runLoop_iter rt rt1 rt' :
    evalBool userExpr (threadArgs tok) rt (runLoopCond ctx) = Some false →
    stepCall tok rt rt1 →
    runLoopReturns tok rt1 rt' →
    runLoopReturns tok rt rt'.

(** [run_N] running to its end: registration, loop, cleanup. *)
Definition runReturns (tok : Value) (rt rt' : Runtime) : Prop :=
  ∃ rt1 rt2,
    exec userExpr userStmt (threadArgs tok) fuel (runRegistration ctx entry) rt = Some rt1 ∧
    runLoopReturns tok rt1 rt2 ∧
    exec userExpr userStmt (threadArgs tok) fuel (runCleanup ctx) rt2 = Some rt'.

(** The iterations of the loop of [step_N] when the thread ends in one of
    them: the last one dispatches to a terminal state, whose body ends
    with the block that stops the thread. *)
Inductive stepLoopStops (tok : Value) : Runtime → Runtime → Prop :=
| stepLoop_terminal rt rt1 t c i s n rt' :
    evalBool userExpr (threadArgs tok) rt (stepLoopCond ctx) = Some false →
    exec userExpr userStmt (threadArgs tok) fuel (iterPrologue ctx) rt = Some rt1 →
    dispatchTree states = Some t →
    getVar rt1 (cachedPcVarId ctx) = VNum c →
    query t c = (i, s, n) →
    runsTerminalBody s = true →
    exec userExpr userStmt (threadArgs tok) fuel
         (buildStateBody ctx config yr (oracle i) s) rt1 = Some rt' →
    stepLoopStops tok rt rt'
| stepLoop_next rt bst rt1 rt' :
    evalBool userExpr (threadArgs tok) rt (stepLoopCond ctx) = Some false →
    buildDispatch ctx config yr oracle states = Some bst →
    exec userExpr userStmt (threadArgs tok) fuel (iterPrologue ctx ++ bst) rt = Some rt1 →
    stepLoopStops tok rt1 rt' →
    stepLoopStops tok rt rt'.

Definition stepStops (tok : Value) (rt rt' : Runtime) : Prop :=
  ∃ rt1,
    exec userExpr userStmt (threadArgs tok) fuel (stepPrologue ctx) rt = Some rt1 ∧
    stepLoopStops tok rt1 rt'.

(** The calls of [step_N] made by [run_N] when the last of them ends the
    thread. *)
Inductive runLoopStops (tok : Value) : Runtime → Runtime → Prop :=
| runLoop_stop rt rt' :
    evalBool userExpr (threadArgs tok) rt (runLoopCond ctx) = Some false →
    stepStops tok rt rt' →
    runLoopStops tok rt rt'
| runLoop_later rt rt1 rt' :
    evalBool userExpr (threadArgs tok) rt (runLoopCond ctx) = Some false →
    stepCall tok rt rt1 →
    runLoopStops tok rt1 rt' →
    runLoopStops tok rt rt'.

Definition runStops (tok : Value) (rt rt' : Runtime) : Prop :=
  ∃ rt1,
    exec userExpr userStmt (threadArgs tok) fuel (runRegistration ctx entry) rt = Some rt1 ∧
    runLoopStops tok rt1 rt'.

(** A thread started and fully completed, on either path. *)
Definition threadCompletes (tok : Value) (rt rt' : Runtime) : Prop :=
  runReturns tok rt rt' ∨ runStops tok rt rt'.

(** Threads started and completed one after the other. *)
Inductive threadsComplete : list Value → Runtime → Runtime → Prop :=
| threads_nil rt : threadsComplete [] rt rt
| threads_cons tok toks rt rt1 rt' :
    threadCompletes tok rt rt1 →
    threadsComplete toks rt1 rt' →
    threadsComplete (tok :: toks) rt rt'.

End Lifecycle.

(** ** A worked example: two threads of a one-state script *)

Definition exOneState : list CFGState := [plainState 5 ["s1"] 0 false].

Definition exEmptyRuntime : Runtime := exRuntime [] [].

Definition exStopState : list CFGState := [terminalState 5 ["stop"]].

(** ** Vocabulary of the further properties *)

(** Consecutive ids of a list are joined by [next] links of the store. *)
Fixpoint nextLinked (bs : gmap string Entry) (ids : list string) : Prop :=
  match ids with
  | a :: (b :: _) as rest =>
      (∃ blk, getFullBlock bs a = Some blk ∧ next blk = Some b) ∧ nextLinked bs rest
  | _ => True
  end.

(** Where [walkChain] stops: at an id that is no full block, at a block
    without successor, or at a block whose successor was seen before. *)
Definition chainEnds (bs : gmap string Entry) (seen : gset string) (ids : list string)
    : Prop :=
  match last ids with
  | None => True
  | Some z =>
      match getFullBlock bs z with
      | None => True
      | Some blk =>
          match next blk with
          | None => True
          | Some nx => nx = "" ∨ nx ∈ seen ∨ nx ∈ ids
          end
      end
  end.

(** The block ids a segment stands for. *)
Definition segmentIds (s : Segment) : list string :=
  match s with
  | SegLinear ids => ids
  | SegControl id => [id]
  end.

Definition isLinear (s : Segment) : bool :=
  match s with
  | SegLinear _ => true
  | SegControl _ => false
  end.

(** What [segmentize] guarantees of a segment: a linear segment is a
    non-empty run of full blocks that are not control blocks, a control
    segment is one control block. *)
Definition segmentOk (bs : gmap string Entry) (s : Segment) : Prop :=
  match s with
  | SegLinear ids =>
      ids ≠ [] ∧
      Forall (fun id => ∃ b, getFullBlock bs id = Some b ∧
                             isControlOpcode (opcode b) = false) ids
  | SegControl id =>
      ∃ b, getFullBlock bs id = Some b ∧ isControlOpcode (opcode b) = true
  end.

(** No two linear segments follow each other. *)
Fixpoint linearSeparated (segs : list Segment) : Prop :=
  match segs with
  | s :: (t :: _) as rest => isLinear s && isLinear t = false ∧ linearSeparated rest
  | _ => True
  end.

(** ** The allocation domain and the origin of states *)

Definition inDomain (p : Z) : Prop := PC_MIN <= p <= PC_MAX.

(** The values [Math.floor(Math.random() * (PC_MAX - PC_MIN + 1))] can
    take. *)
Definition drawOk (d : Z) : Prop := 0 <= d <= PC_MAX - PC_MIN.

(** Every program counter a state names: its own, and the targets of its
    transitions. *)
Definition pcsOf (s : CFGState) : list Z :=
  pc s :: nextPc s ::
  match branch s with Some b => [truePc b; falsePc b] | None => [] end ++
  match repeatCheck s with Some r => [rc_bodyPc r; rc_exitPc r] | None => [] end ++
  match waitStart s with Some w => [ws_pollPc w] | None => [] end ++
  match waitPoll s with Some w => [continuationPc w] | None => [] end ++
  match broadcastWaitStart s with Some w => [bws_pollPc w] | None => [] end ++
  match forEachCheck s with Some f => [fc_bodyPc f; fc_exitPc f] | None => [] end.

Definition hasOpcode (bs : gmap string Entry) (op : string) : Prop :=
  ∃ id b, getFullBlock bs id = Some b ∧ opcode b = op.

(** The pre-scan of [applyCFFToTarget]: is there a [control_wait], an
    [event_broadcastandwait] among the blocks of the target? *)
Definition hasOpcodeb (bs : gmap string Entry) (op : string) : bool :=
  existsb (fun e => match e.2 with
                    | EntBlock b => bool_decide (opcode b = op)
                    | EntPrim _ => false
                    end) (map_to_list bs).

Definition preScan (bs : gmap string Entry) : bool * bool :=
  (hasOpcodeb bs "control_wait", hasOpcodeb bs "event_broadcastandwait").

(** The states that use the wait lists, and the blocks they come from. *)
Definition usesWaitLists (s : CFGState) : bool :=
  bool_decide (is_Some (waitStart s)) || bool_decide (is_Some (waitPoll s)) ||
  bool_decide (is_Some (broadcastWaitStart s)).

Definition stateOrigin (bs : gmap string Entry) (s : CFGState) : Prop :=
  (is_Some (waitStart s) → hasOpcode bs "control_wait") ∧
  (is_Some (broadcastWaitStart s) → hasOpcode bs "event_broadcastandwait") ∧
  (is_Some (waitPoll s) →
     hasOpcode bs "control_wait" ∨ hasOpcode bs "event_broadcastandwait").

Definition goodState (inD : Z → Prop) (bs : gmap string Entry) (s : CFGState) : Prop :=
  Forall inD (pcsOf s) ∧ stateOrigin bs s.

(** What the decomposer keeps true of its variables, for a store [bs0]
    the current store descends from, a set [inD] of program counters and
    a set [okD] of draws. *)
Definition K (inD okD : Z → Prop) (bs0 : gmap string Entry) (st : DState) : Prop :=
  Forall okD (draws st) ∧
  blocksStable bs0 (blocks st) ∧
  Forall (fun s => goodState inD bs0 s ∧ isDead s = false) (states st) ∧
  map_Forall (fun k v => inD k ∧ inD v) (yieldRedirects st).

(** A decomposition procedure that keeps [K] and returns a program
    counter of [inD] when given one. *)
Definition keepsK (inD okD : Z → Prop) (bs0 : gmap string Entry)
    (rec : list string → Z → M Z) : Prop :=
  ∀ ids c st a st', K inD okD bs0 st → inD c → rec ids c st = Some (a, st') →
    K inD okD bs0 st' ∧ inD a.

(** Steps that leave the redirect map and the supply of draws alone. *)
Definition still {A} (m : M A) : Prop :=
  ∀ st a st', m st = Some (a, st') →
    yieldRedirects st' = yieldRedirects st ∧ draws st' = draws st.

(** The lists [applyCFFToTarget] creates for a target with the blocks
    [bs]: the flags of [createTargetLists] are the outcome of the
    pre-scan. *)
Definition targetLists (names : ListNames) (bs : gmap string Entry) : TargetCFFLists :=
  createTargetLists names (preScan bs).1 (preScan bs).2.

(** ** A worked example: a script that waits *)

Definition exWaitStore : gmap string Entry :=
  list_to_map
    [("hat", exBlock "event_whenflagclicked" (Some "w") []);
     ("w", exBlock "control_wait" None [("DURATION", IVPrim 4 "1")])].

Definition exNames : ListNames :=
  mkListNames "pcIds" "pcVals" "counterKeys" "counterVals" "waitFlags"
              "bcastPendingMsg" "waitQueue" "waitSignal" "waitSignalId"
              "start" "startId".

(** The blocks shared by the two kinds of wait-start state: [data] is the
    duration or the message, [flag] the kind of wait. *)
Definition startBlocks (ctx : ScriptCFFContext) (config : CffConfig) (rnd : Rand)
    (data : Expr) (flag cur pollPc : Z) : list Stmt :=
  [SReplace (bcastPendingMsgId (lists ctx)) (EVar (baseIndexVarId ctx)) data;
   SReplace (waitFlagId (lists ctx)) (EVar (baseIndexVarId ctx)) (ENum flag);
   SAddToList (waitQueueId (lists ctx)) (EArg (stepThreadArg ctx));
   SBroadcast (waitBroadcastId (lists ctx));
   writePcToList ctx (pcValue ctx config rnd 0 cur pollPc);
   SSetVar (cachedPcVarId ctx) (ENum pollPc)].

(** Which arm of [handleWait] runs for a flag value: the timer arm
    ([true]) or the broadcast arm. *)
Definition timerArmRuns (l : TargetCFFLists) (flag : Z) : bool :=
  if hasTimerWait l && hasBroadcastWait l then flag >? 0 else hasTimerWait l.

Definition waitEvent (l : TargetCFFLists) (flag : Z) (data : Value) : Event :=
  if timerArmRuns l flag then EvWait data else EvBroadcastAndWait data.

(** The start state the decomposer pushes for a [control_wait]
    ([timer = true]) or an [event_broadcastandwait] block, and the flag
    its body stores. *)
Definition startStateOf (timer : bool) (p pollPc : Z) (dataId : string) : CFGState :=
  if timer then waitStartState p pollPc (mkWaitStart dataId pollPc)
  else broadcastWaitStartState p pollPc (mkBroadcastWaitStart dataId pollPc).

Definition startFlag (timer : bool) : Z := if timer then 1 else -1.

(** ** A worked example: a thread about to wait *)

Definition exDurExpr : string -> Runtime -> option Value := fun _ _ => Some (VNum 2).

Definition exWaitRuntime : Runtime :=
  exRuntime [("cachedPc", VNum 7); ("baseIndex", VNum 1)]
            [("pcIds", [VNum 42]); ("pcVals", [VNum 7]);
             ("waitFlags", [VNum 0]); ("bcastPendingMsg", [VStr ""])].

Definition exHwArgs : gmap string Value := {[ "hw" := VNum 42 ]}.

(** Blocks of the project that leave the registry and the three
    variables of the step function alone. *)
Definition userKeeps (userStmt : string → Runtime → option Runtime)
    (ctx : ScriptCFFContext) : Prop :=
  ∀ id rt rt', userStmt id rt = Some rt' →
    (∀ l, l ∈ parallelLists (lists ctx) → getList rt' l = getList rt l) ∧
    (∀ x, x ∈ [keepGoingVarId ctx; cachedPcVarId ctx; baseIndexVarId ctx] →
       getVar rt' x = getVar rt x).

(** ** A worked example: a script of two plain blocks *)

Definition exLinearStore : gmap string Entry :=
  list_to_map
    [("hat", exBlock "event_whenflagclicked" (Some "a") []);
     ("a", exBlock "data_setvariableto" (Some "b") []);
     ("b", exBlock "data_changevariableby" None [])].

Definition exLinearOutcome : Outcome :=
  flattenHatScript 5 exConfig (fun _ => []) (fun _ => 0%nat) (fun _ => exRand)
    exCtx "runCall" exLinearStore exDraws [] "hat".

(** ** Vocabulary of the closure of the transitions *)

(** The poll PCs a wait-start state stores without resolving them. *)
Definition pollsOf (s : CFGState) : list Z :=
  match waitStart s with Some w => [ws_pollPc w] | None => [] end ++
  match broadcastWaitStart s with Some w => [bws_pollPc w] | None => [] end.

(** A PC a state may name while the decomposer runs: still owed by a
    caller ([P]), the PC of a state, or a yield-redirect key. *)
Definition okT (P : gset Z) (st : DState) (t : Z) : Prop :=
  t ∈ P ∨ t ∈ statePcs st ∨ is_Some (yieldRedirects st !! t).

(** The closure invariant of the decomposer.  [P]: PCs owed as targets;
    [Q]: PCs that will get a state; [F]: PCs that are no redirect key yet;
    [E]: PCs known to be fine as targets; [S]: PCs known to have a
    state or to be redirected onto themselves. *)
Definition Inv (P Q F E S : gset Z) (st : DState) : Prop :=
  (∀ s, s ∈ states st →
     Forall (okT P st) (pcsOf s) ∧
     Forall (fun p => p ∈ Q ∨ p ∈ statePcs st) (pollsOf s)) ∧
  (∀ e, e ∈ E → okT P st e) ∧
  (∀ k v, yieldRedirects st !! k = Some v →
     v ∈ Q ∨ v ∈ statePcs st ∨ yieldRedirects st !! v = Some v) ∧
  ((∀ k, is_Some (yieldRedirects st !! k) → k ∈ usedPcs st) ∧
   F ⊆ usedPcs st ∧
   (∀ p, p ∈ F → yieldRedirects st !! p = None)) ∧
  (∀ p, p ∈ S → p ∈ statePcs st ∨ yieldRedirects st !! p = Some p).

(** What is known of the entry PC a decomposition returns. *)
Definition entryOk (c e : Z) (st : DState) : Prop :=
  e = c ∨ e ∈ statePcs st ∨ yieldRedirects st !! e = Some e.

Definition closes (rec : list string → Z → M Z) : Prop :=
  ∀ ids c P Q F E S st e st',
    c ∈ E → EXIT_PC ∈ E → Inv P Q F E S st → rec ids c st = Some (e, st') →
    Inv P Q F E S st' ∧ entryOk c e st'.

(** The value expressions of the blocks of a script that replace an item
    of the list [pcs]. *)
Fixpoint pcWritesOf (pcs : string) (s : Stmt) : list Expr :=
  let all :=
    fix all (ss : list Stmt) : list Expr :=
      match ss with
      | [] => []
      | x :: r => pcWritesOf pcs x ++ all r
      end in
  match s with
  | SReplace li _ e => if decide (li = pcs) then [e] else []
  | SIf _ t => all t
  | SIfElse _ t e => all t ++ all e
  | SRepeatUntil _ body => all body
  | _ => []
  end.

Definition pcWrites (pcs : string) : list Stmt → list Expr :=
  fix all (ss : list Stmt) : list Expr :=
    match ss with
    | [] => []
    | x :: r => pcWritesOf pcs x ++ all r
    end.

(** A PC it is safe to store in the PC list of a flattened script: the
    exit PC, the PC of a live state, or a yield redirect onto itself. *)
Definition okPc (cfg : CFG) (q : Z) : Prop :=
  q = EXIT_PC ∨
  (∃ s, s ∈ cfgStates cfg ∧ isDead s = false ∧ pc s = q) ∨
  cfgRedirects cfg !! q = Some q.

(** The PCs the body of a state can store in the PC list, in the order
    of the cases of [buildStateBody]: targets are resolved through the
    yield redirects, except the poll PC of a wait start. *)
Definition writtenPcs (yr : gmap Z Z) (s : CFGState) : list Z :=
  match branch s with
  | Some br =>
      if decide (conditionBlockId br = "") then [resolvePc yr (falsePc br)]
      else [resolvePc yr (truePc br); resolvePc yr (falsePc br)]
  | None =>
  match repeatInit s with
  | Some _ => [resolvePc yr (nextPc s)]
  | None =>
  match repeatCheck s with
  | Some rc => [resolvePc yr (rc_bodyPc rc); resolvePc yr (rc_exitPc rc)]
  | None =>
  match forEachInit s with
  | Some _ => [resolvePc yr (nextPc s)]
  | None =>
  match forEachCheck s with
  | Some fc => [resolvePc yr (fc_bodyPc fc); resolvePc yr (fc_exitPc fc)]
  | None =>
  if isTerminal s then [] else
  match waitStart s with
  | Some ws => [ws_pollPc ws]
  | None =>
  match broadcastWaitStart s with
  | Some bws => [bws_pollPc bws]
  | None =>
  match waitPoll s with
  | Some wp => [resolvePc yr (continuationPc wp)]
  | None => [resolvePc yr (nextPc s)]
  end end end end end end end end.

(** ** Vocabulary of the transitions within a tick *)

(** The PCs the body of a state hands to [resolveAndWritePc] (for a
    wait-poll state, to the inlined copy of it), in the order of the cases
    of [buildStateBody].  A terminal state and a wait-start state hand it
    none: the first stops the thread, the second always yields. *)
Definition targetsOf (s : CFGState) : list Z :=
  match branch s with
  | Some br =>
      if decide (conditionBlockId br = "") then [falsePc br]
      else [truePc br; falsePc br]
  | None =>
  match repeatInit s with
  | Some _ => [nextPc s]
  | None =>
  match repeatCheck s with
  | Some rc => [rc_bodyPc rc; rc_exitPc rc]
  | None =>
  match forEachInit s with
  | Some _ => [nextPc s]
  | None =>
  match forEachCheck s with
  | Some fc => [fc_bodyPc fc; fc_exitPc fc]
  | None =>
  if isTerminal s then [] else
  match waitStart s with
  | Some _ => []
  | None =>
  match broadcastWaitStart s with
  | Some _ => []
  | None =>
  match waitPoll s with
  | Some wp => [continuationPc wp]
  | None => [nextPc s]
  end end end end end end end end.

(** A target that is written without a yield is the PC of a state, or a
    PC a caller still owes ([W]). *)
Definition goodT (W : gset Z) (st : DState) (t : Z) : Prop :=
  shouldYield (yieldRedirects st) t = false → t ∈ statePcs st ∨ t ∈ W.

(** The invariant of the decomposer behind the ranking of the states.
    [W]: PCs owed as targets; [N]: PCs reserved, which no state has and no
    state names without a yield; [E]: PCs known to be fine as targets. *)
Definition G (W N E : gset Z) (rank : Z → nat) (st : DState) : Prop :=
  (∀ s t, s ∈ states st → t ∈ targetsOf s →
     shouldYield (yieldRedirects st) t = false →
     (rank t < rank (pc s))%nat ∧ (t ∈ statePcs st ∨ t ∈ W)) ∧
  (∀ e, e ∈ E → goodT W st e) ∧
  ((∀ p, p ∈ statePcs st → p ∈ usedPcs st) ∧ W ⊆ usedPcs st ∧ N ⊆ usedPcs st) ∧
  (∀ p, p ∈ N → (p ∉ statePcs st) ∧ (p ∉ W)).

Definition ranks (rec : list string → Z → M Z) : Prop :=
  ∀ ids c W N E rank st e st',
    c ∈ E → G W N E rank st → rec ids c st = Some (e, st') →
    ∃ rank', G W N E rank' st' ∧ goodT W st' e.

(** A block that sets the variable [kg] to 1. *)
Definition isGoOn (kg : string) (s : Stmt) : bool :=
  match s with
  | SSetVar v (ENum z) => bool_decide (v = kg) && bool_decide (z = 1)
  | _ => false
  end.

(** For every block of a script that sets [kg] to 1, the block before it
    in its stack ([prev] for the first block of the script, nothing for
    the first block of a substack). *)
Fixpoint goOnsOf (kg : string) (s : Stmt) : list (option Stmt) :=
  let all :=
    fix all (prev : option Stmt) (ss : list Stmt) {struct ss} : list (option Stmt) :=
      match ss with
      | [] => []
      | x :: r => (if isGoOn kg x then [prev] else []) ++ goOnsOf kg x ++ all (Some x) r
      end in
  match s with
  | SIf _ t => all None t
  | SIfElse _ t e => all None t ++ all None e
  | SRepeatUntil _ body => all None body
  | _ => []
  end.

Definition goOnsFrom (kg : string) : option Stmt → list Stmt → list (option Stmt) :=
  fix all (prev : option Stmt) (ss : list Stmt) {struct ss} : list (option Stmt) :=
    match ss with
    | [] => []
    | x :: r => (if isGoOn kg x then [prev] else []) ++ goOnsOf kg x ++ all (Some x) r
    end.

Definition goOns (kg : string) (ss : list Stmt) : list (option Stmt) :=
  goOnsFrom kg None ss.

(** A computation under which the program counters of [U], all of them
    allocated already, stay allocated and keep the redirect they have, or
    keep having none. *)
Definition keepsRedirects {A} (U : gset Z) (m : M A) : Prop :=
  ∀ st a st', U ⊆ usedPcs st → m st = Some (a, st') →
    U ⊆ usedPcs st' ∧
    ∀ k, k ∈ U → yieldRedirects st' !! k = yieldRedirects st !! k.

(** ** Threads, with the calls of generated procedures followed *)

(** How the run of a stack of blocks ends: after its last block, or at a block
    that ends the thread. *)
Inductive Ending :=
| Returned (rt : Runtime)
| Stopped (rt : Runtime).

Definition endState (o : Ending) : Runtime :=
  match o with
  | Returned rt => rt
  | Stopped rt => rt
  end.

(** The parameters of a procedure bound, in order, to the values of a
    call; a name that occurs twice keeps the later value. *)
Definition bindArgs (names : list string) (vs : list Value) : gmap string Value :=
  foldl (fun m nv => <[nv.1 := nv.2]> m) ∅ (zip names vs).

Section Threads.
Variable userExpr : string → Runtime → option Value.
Variable userStmt : string → Runtime → option Runtime.

(** The blocks of the project that end the thread that runs them, and
    the procedures whose calls are followed into their definition. *)
Variable halts : string → bool.
Variable procs : string → option Procedure.

(** Blocks that run as [execStmt] says; none of them is a loop, so the
    fuel of [execStmt] plays no part. *)
Definition atomic (s : Stmt) : bool :=
  match s with
  | SIf _ _ => false
  | SIfElse _ _ _ => false
  | SRepeatUntil _ _ => false
  | SCall p _ => match procs p with Some _ => false | None => true end
  | SUser id => negb (halts id)
  | _ => true
  end.

(** [runs args ss rt o]: the stack [ss], run from [rt] with the
    arguments [args], ends as [o] says. *)
Inductive runs : gmap string Value → list Stmt → Runtime → Ending → Prop :=
| runs_done args rt :
    runs args [] rt (Returned rt)
| runs_atomic args s l rt rt1 o :
    atomic s = true →
    execStmt userExpr userStmt args 0 s rt = Some rt1 →
    runs args l rt1 o →
    runs args (s :: l) rt o
| runs_halt args id l rt rt1 :
    halts id = true →
    userStmt id rt = Some rt1 →
    runs args (SUser id :: l) rt (Stopped rt1)
| runs_if_true args c t l rt rt1 o :
    evalBool userExpr args rt c = Some true →
    runs args t rt (Returned rt1) →
    runs args l rt1 o →
    runs args (SIf c t :: l) rt o
| runs_if_true_stop args c t l rt rt1 :
    evalBool userExpr args rt c = Some true →
    runs args t rt (Stopped rt1) →
    runs args (SIf c t :: l) rt (Stopped rt1)
| runs_if_false args c t l rt o :
    evalBool userExpr args rt c = Some false →
    runs args l rt o →
    runs args (SIf c t :: l) rt o
| runs_ifelse_true args c t e l rt rt1 o :
    evalBool userExpr args rt c = Some true →
    runs args t rt (Returned rt1) →
    runs args l rt1 o →
    runs args (SIfElse c t e :: l) rt o
| runs_ifelse_true_stop args c t e l rt rt1 :
    evalBool userExpr args rt c = Some true →
    runs args t rt (Stopped rt1) →
    runs args (SIfElse c t e :: l) rt (Stopped rt1)
| runs_ifelse_false args c t e l rt rt1 o :
    evalBool userExpr args rt c = Some false →
    runs args e rt (Returned rt1) →
    runs args l rt1 o →
    runs args (SIfElse c t e :: l) rt o
| runs_ifelse_false_stop args c t e l rt rt1 :
    evalBool userExpr args rt c = Some false →
    runs args e rt (Stopped rt1) →
    runs args (SIfElse c t e :: l) rt (Stopped rt1)
| runs_until_exit args c body l rt o :
    evalBool userExpr args rt c = Some true →
    runs args l rt o →
    runs args (SRepeatUntil c body :: l) rt o
| runs_until_iter args c body l rt rt1 o :
    evalBool userExpr args rt c = Some false →
    runs args body rt (Returned rt1) →
    runs args (SRepeatUntil c body :: l) rt1 o →
    runs args (SRepeatUntil c body :: l) rt o
| runs_until_iter_stop args c body l rt rt1 :
    evalBool userExpr args rt c = Some false →
    runs args body rt (Stopped rt1) →
    runs args (SRepeatUntil c body :: l) rt (Stopped rt1)
| runs_call args p es q vs l rt rt1 o :
    procs p = Some q →
    mapM (eval userExpr args rt) es = Some vs →
    runs (bindArgs (argNames q) vs) (procBody q) rt (Returned rt1) →
    runs args l rt1 o →
    runs args (SCall p es :: l) rt o
| runs_call_stop args p es q vs l rt rt1 :
    procs p = Some q →
    mapM (eval userExpr args rt) es = Some vs →
    runs (bindArgs (argNames q) vs) (procBody q) rt (Stopped rt1) →
    runs args (SCall p es :: l) rt (Stopped rt1).

(** Threads that run the script [body] one after the other, each with
    its own arguments, each to its end. *)
Inductive threadsRun (body : list Stmt) :
    list (gmap string Value) → Runtime → Runtime → Prop :=
| threadsRun_nil rt :
    threadsRun body [] rt rt
| threadsRun_cons args argss rt o rt' :
    runs args body rt o →
    threadsRun body argss (endState o) rt' →
    threadsRun body (args :: argss) rt rt'.

(** Blocks among which there is no loop, no call that is followed and no
    block that ends the thread. *)
Fixpoint calm (s : Stmt) : Prop :=
  let all :=
    fix all (ss : list Stmt) : Prop :=
      match ss with
      | [] => True
      | x :: r => calm x ∧ all r
      end in
  match s with
  | SIf _ t => all t
  | SIfElse _ t e => all t ∧ all e
  | SRepeatUntil _ _ => False
  | SCall p _ => procs p = None
  | SUser id => halts id = false
  | _ => True
  end.

Definition calmAll : list Stmt → Prop :=
  fix all (ss : list Stmt) : Prop :=
    match ss with
    | [] => True
    | x :: r => calm x ∧ all r
    end.

End Threads.

(** Where blocks of [step_N] leave the row of a thread: in place or
    deleted as long as the thread goes on, deleted once it has ended. *)
Definition settled (ctx : ScriptCFFContext) (tok : Value) (old : list Value)
    (o : Ending) : Prop :=
  match o with
  | Returned rt => within ctx tok old rt
  | Stopped rt => released (lists ctx) old rt
  end.

(** The worked examples as threads: calls of [step_N] are followed, and
    the block [stop] ends the thread. *)
Definition exProcs (states : list CFGState) : string → option Procedure :=
  fun p =>
    if decide (p = stepProccode exCtx)
    then buildStepFunction exCtx exConfig ∅ (fun _ => exRand) states
    else None.

Definition exHalts : string → bool := fun id => bool_decide (id = "stop").

(** * Properties *)

(** ** Program-counter allocation *)

Lemma randomHugeInt_nonzero ds p rest :
  randomHugeInt ds = Some (p, rest) -> p <> 0 /\ (length rest < length ds)%nat.
Proof.
  revert p rest. induction ds as [|d ds IH]; intros p rest H; simpl in H; [done|].
  case_decide.
  - apply IH in H. simpl. lia.
  - inversion H; subst. simpl. split; [done | lia].
Qed.

Lemma drawFreshPc_spec n (used : gset Z) ds p rest :
  drawFreshPc n used ds = Some (p, rest) ->
  p ≠ 0 ∧ (p ∉ used) ∧ (length rest < length ds)%nat.
Proof.
  revert ds. induction n as [|n IH]; intros ds H; simpl in H; [done|].
  destruct (randomHugeInt ds) as [[q r]|] eqn:Hr; [|done].
  apply randomHugeInt_nonzero in Hr as [Hq Hlen].
  repeat case_decide.
  - apply IH in H as (? & ? & ?). repeat split; [done..|lia].
  - apply IH in H as (? & ? & ?). repeat split; [done..|lia].
  - inversion H; subst. done.
Qed.

(** A draw that is acceptable ends the retry loop: the loop returns the
    first acceptable draw. *)
Lemma randomHugeInt_skip (used : gset Z) pre d post :
  Forall (fun x => x + PC_MIN = 0 ∨ (x + PC_MIN ∈ used)) pre ->
  d + PC_MIN ≠ 0 ->
  randomHugeInt (pre ++ d :: post) = Some (d + PC_MIN, post) ∨
  exists q pre2, randomHugeInt (pre ++ d :: post) = Some (q, pre2 ++ d :: post) ∧
    (q ∈ used) ∧ Forall (fun x => x + PC_MIN = 0 ∨ (x + PC_MIN ∈ used)) pre2 ∧
    (length pre2 < length pre)%nat.
Proof.
  intros Hpre Hd. induction Hpre as [|x pre Hx Hpre IH]; simpl.
  - left. by rewrite decide_False.
  - case_decide as Hz.
    + destruct IH as [IH|(q & pre2 & IH & Hq & Hp2 & Hl)]; [by left|].
      right. exists q, pre2. repeat split; [done..|lia].
    + right. exists (x + PC_MIN), pre. repeat split; [|done|lia].
      by destruct Hx.
Qed.

Lemma drawFreshPc_total (used : gset Z) d post n :
  forall pre,
  Forall (fun x => x + PC_MIN = 0 ∨ (x + PC_MIN ∈ used)) pre ->
  d + PC_MIN ≠ 0 -> d + PC_MIN ∉ used ->
  (length pre < n)%nat ->
  drawFreshPc n used (pre ++ d :: post) = Some (d + PC_MIN, post).
Proof.
  induction n as [|n IH]; intros pre Hpre Hd0 Hdu Hn; [lia|].
  simpl.
  destruct (randomHugeInt_skip used pre d post Hpre Hd0)
    as [->|(q & pre2 & -> & Hq & Hp2 & Hl)].
  - rewrite decide_False by done.
    by rewrite decide_False by (unfold EXIT_PC; done).
  - rewrite decide_True by done. apply IH; [done..|lia].
Qed.

(** ** The decomposer keeps program counters distinct *)

Lemma bind_inv {A B} (m : M A) (k : A -> M B) st r :
  bind m k st = Some r -> exists a st1, m st = Some (a, st1) ∧ k a st1 = Some r.
Proof.
  unfold bind. destruct (m st) as [[a st1]|]; [|done]. eauto.
Qed.

Lemma J_weaken (S S' : gset Z) st : S' ⊆ S -> J S st -> J S' st.
Proof.
  intros Hs (H1 & H2 & H3 & H4 & H5). repeat split; [done..| |].
  - set_solver.
  - intros p Hp. apply H5. set_solver.
Qed.

Lemma allocPc_spec st p st' :
  allocPc st = Some (p, st') ->
  p ≠ 0 ∧ (p ∉ usedPcs st) ∧ usedPcs st' = {[p]} ∪ usedPcs st ∧
  states st' = states st ∧ yieldRedirects st' = yieldRedirects st ∧
  blocks st' = blocks st ∧ uids st' = uids st.
Proof.
  unfold allocPc. intros H.
  destruct (drawFreshPc _ _ _) as [[q rest]|] eqn:Hd; [|done].
  inversion H; subst; simpl. apply drawFreshPc_spec in Hd as (? & ? & ?). done.
Qed.

Lemma allocPc_J (S : gset Z) st p st' :
  J S st -> allocPc st = Some (p, st') ->
  J ({[p]} ∪ S) st' ∧ (p ∉ S) ∧ p ≠ 0.
Proof.
  intros (H1 & H2 & H3 & H4 & H5) Ha.
  apply allocPc_spec in Ha as (Hp0 & Hpu & Hu & Hs & _).
  assert (Hsp : statePcs st' = statePcs st) by (unfold statePcs; by rewrite Hs).
  repeat split; rewrite ?Hsp, ?Hu; try done.
  - intros q Hq. apply H2 in Hq. set_solver.
  - set_solver.
  - set_solver.
  - intros q Hq Hin. apply elem_of_union in Hq as [Hq|Hq].
    + apply elem_of_singleton in Hq as ->. by apply Hpu, H2.
    + by apply (H5 q).
  - set_solver.
Qed.

Lemma pushState_J (S : gset Z) s st u st' :
  J S st -> pc s ∈ S -> pushState s st = Some (u, st') -> J (S ∖ {[pc s]}) st'.
Proof.
  intros (H1 & H2 & H3 & H4 & H5) Hin H. inversion H; subst; clear H.
  unfold J, statePcs in *; simpl. rewrite fmap_app; simpl.
  repeat split.
  - apply NoDup_app. repeat split; [done| |apply NoDup_singleton].
    intros q Hq Hq'. apply list_elem_of_singleton in Hq' as ->. by apply (H5 (pc s)).
  - intros q Hq. apply elem_of_app in Hq as [Hq|Hq]; [by apply H2|].
    apply list_elem_of_singleton in Hq as ->. set_solver.
  - done.
  - set_solver.
  - intros q Hq Hq'. apply elem_of_difference in Hq as [Hq Hne].
    apply elem_of_app in Hq' as [Hq'|Hq']; [by apply (H5 q)|].
    apply list_elem_of_singleton in Hq'. set_solver.
Qed.

(** Steps that touch neither [states] nor [usedPcs]. *)
Definition neutral {A} (m : M A) : Prop :=
  ∀ st a st', m st = Some (a, st') -> states st' = states st ∧ usedPcs st' = usedPcs st.

Lemma neutral_J {A} (m : M A) (S : gset Z) st a st' :
  neutral m -> J S st -> m st = Some (a, st') -> J S st'.
Proof.
  intros Hn HJ H. apply Hn in H as [Hs Hu].
  unfold J, statePcs in *. by rewrite Hs, Hu.
Qed.

Lemma neutral_modifyBlocks f : neutral (modifyBlocks f).
Proof. intros st a st' H. by inversion H. Qed.

Lemma neutral_setRedirect k v : neutral (setRedirect k v).
Proof. intros st a st' H. by inversion H. Qed.

Lemma neutral_getBlocks : neutral getBlocks.
Proof. intros st a st' H. by inversion H. Qed.

Lemma neutral_uid : neutral uid.
Proof.
  intros st a st' H. unfold uid in H. destruct (uids st); [done|]. by inversion H.
Qed.

Lemma neutral_ret {A} (a : A) : neutral (ret a).
Proof. intros st b st' H. by inversion H. Qed.

Lemma neutral_bind {A B} (m : M A) (k : A -> M B) :
  neutral m -> (∀ a, neutral (k a)) -> neutral (bind m k).
Proof.
  intros Hm Hk st b st' H. apply bind_inv in H as (a & st1 & H1 & H2).
  apply Hm in H1 as [E1 E2]. apply Hk in H2 as [E3 E4]. split; congruence.
Qed.

Lemma neutral_clearParent id : neutral (clearParent id).
Proof. destruct id; [apply neutral_modifyBlocks | apply neutral_ret]. Qed.

Lemma neutral_numberLiteral l : neutral (numberLiteral l).
Proof.
  apply neutral_bind; [apply neutral_uid|]. intros id.
  apply neutral_bind; [apply neutral_modifyBlocks|]. intros _. apply neutral_ret.
Qed.

Lemma neutral_textLiteral t : neutral (textLiteral t).
Proof.
  apply neutral_bind; [apply neutral_uid|]. intros id.
  apply neutral_bind; [apply neutral_modifyBlocks|]. intros _. apply neutral_ret.
Qed.

Create HintDb neutral.
#[local] Hint Resolve neutral_modifyBlocks neutral_setRedirect neutral_getBlocks
  neutral_uid neutral_ret neutral_clearParent neutral_numberLiteral
  neutral_textLiteral : neutral.

Ltac solve_neutral :=
  repeat first
    [ progress eauto with neutral
    | apply neutral_bind; [|intros ?]
    | case_match
    | case_decide ].

Lemma framed_substackChain rec o c :
  (∀ ids k, framed (rec ids k)) -> framed (substackChain rec o c).
Proof.
  intros Hrec S st a st' HJ H. destruct o as [first|]; simpl in H.
  - apply bind_inv in H as (bs & st1 & E & H). inversion E; subst.
    by eapply Hrec.
  - inversion H; by subst.
Qed.

Ltac mstep Hrec H HJ :=
  lazymatch type of H with
  | bind allocPc _ _ = _ =>
      let p := fresh "p" in let st1 := fresh "st" in let E := fresh "E" in
      let HJ' := fresh "HJ" in let Hn := fresh "Hn" in let Hz := fresh "Hz" in
      apply bind_inv in H as (p & st1 & E & H); cbv beta in H;
      destruct (allocPc_J _ _ _ _ HJ E) as (HJ' & Hn & Hz);
      clear HJ E; rename HJ' into HJ
  | bind (pushState ?s) _ _ = _ =>
      let u := fresh "u" in let st1 := fresh "st" in let E := fresh "E" in
      let HJ' := fresh "HJ" in
      apply bind_inv in H as (u & st1 & E & H); cbv beta in H;
      lazymatch type of HJ with
      | J ?S0 _ =>
          assert (HJ' := pushState_J S0 s _ _ _ HJ ltac:(simpl; set_solver) E)
      end;
      simpl in HJ'; clear HJ E; rename HJ' into HJ
  | bind (substackChain _ _ _) _ _ = _ =>
      let x := fresh "x" in let st1 := fresh "st" in let E := fresh "E" in
      let HJ' := fresh "HJ" in
      apply bind_inv in H as (x & st1 & E & H); cbv beta in H;
      assert (HJ' := framed_substackChain _ _ _ Hrec _ _ _ _ HJ E);
      simpl in HJ'; clear HJ E; rename HJ' into HJ
  | bind _ _ _ = _ =>
      let x := fresh "x" in let st1 := fresh "st" in let E := fresh "E" in
      let HJ' := fresh "HJ" in
      apply bind_inv in H as (x & st1 & E & H); cbv beta in H;
      first
        [ lazymatch type of E with
          | ?m _ = _ =>
              assert (HJ' := neutral_J m _ _ _ _ ltac:(solve_neutral) HJ E)
          end
        | assert (HJ' := Hrec _ _ _ _ _ _ HJ E) ];
      simpl in HJ'; clear HJ E; rename HJ' into HJ
  end.

Ltac mfinish Hrec H HJ :=
  first
    [ injection H as <- <-; eapply J_weaken; [|exact HJ]; set_solver
    | eapply J_weaken;
      [|eapply (framed_substackChain _ _ _ Hrec); [exact HJ|exact H]]; set_solver ].

Lemma framed_decomposeControlBlock rec block blockId c :
  (∀ ids k, framed (rec ids k)) -> framed (decomposeControlBlock rec block blockId c).
Proof.
  intros Hrec S st a st' HJ H. unfold decomposeControlBlock in H.
  repeat case_decide.
  all: try (destruct (inputRef block "SUBSTACK") eqn:Hsub).
  all: repeat mstep Hrec H HJ.
  all: mfinish Hrec H HJ.
Qed.

Lemma framed_decomposeSegment rec seg c :
  (∀ ids k, framed (rec ids k)) -> framed (decomposeSegment rec seg c).
Proof.
  intros Hrec S st a st' HJ H. destruct seg as [ids|blockId]; simpl in H.
  - repeat mstep Hrec H HJ. mfinish Hrec H HJ.
  - apply bind_inv in H as (bs & st1 & E & H). inversion E; subst.
    destruct (getFullBlock (blocks st1) blockId) as [block|]; [|done].
    by eapply framed_decomposeControlBlock.
Qed.

Lemma framed_decomposeSegments rec segs c :
  (∀ ids k, framed (rec ids k)) -> framed (decomposeSegments rec segs c).
Proof.
  intros Hrec. induction segs as [|seg segs IH]; intros S st a st' HJ H; simpl in H.
  - inversion H; by subst.
  - apply bind_inv in H as (n & st1 & E & H).
    eapply framed_decomposeSegment; [done| |exact H]. by eapply IH.
Qed.

Lemma framed_decomposeChain fuel ids c : framed (decomposeChain fuel ids c).
Proof.
  revert ids c. induction fuel as [|fuel IH]; intros ids c S st a st' HJ H.
  - destruct ids; simpl in H; [|done]. inversion H; by subst.
  - destruct ids as [|i ids]; simpl in H; [inversion H; by subst|].
    apply bind_inv in H as (bs & st1 & E & H). inversion E; subst.
    by eapply framed_decomposeSegments.
Qed.

Lemma neutral_drawNextPc : neutral drawNextPc.
Proof.
  intros st a st' H. unfold drawNextPc in H.
  destruct (drawNonExit _ _) as [[p r]|]; [|done]. by inversion H.
Qed.

(** The dead states returned are pending: allocated, distinct, and not yet
    among the states. *)
Lemma generateDeadStatesFrom_J deadBody count :
  ∀ i (S : gset Z) st dead st',
  J S st -> generateDeadStatesFrom deadBody i count st = Some (dead, st') ->
  ∃ S' : gset Z, J S' st' ∧ S ⊆ S' ∧ NoDup (pc <$> dead) ∧
    (∀ p, p ∈ pc <$> dead → p ∈ S' ∧ p ∉ S) ∧ states st' = states st.
Proof.
  induction count as [|count IH]; intros i S st dead st' HJ H; simpl in H.
  - inversion H; subst. exists S. split; [done|]. split; [done|].
    split; [constructor|]. split; [|done].
    intros p Hp; simpl in Hp; by apply elem_of_nil in Hp.
  - apply bind_inv in H as (p & st1 & E & H). cbv beta in H.
    destruct (allocPc_J _ _ _ _ HJ E) as (HJ1 & Hn & Hz).
    apply allocPc_spec in E as (_ & _ & _ & Hs1 & _).
    apply bind_inv in H as (u & st2 & E2 & H). cbv beta in H.
    assert (HJ2 := neutral_J _ _ _ _ _ (neutral_modifyBlocks _) HJ1 E2).
    apply neutral_modifyBlocks in E2 as [Hs2 _].
    apply bind_inv in H as (n & st3 & E3 & H). cbv beta in H.
    assert (HJ3 := neutral_J _ _ _ _ _ neutral_drawNextPc HJ2 E3).
    apply neutral_drawNextPc in E3 as [Hs3 _].
    apply bind_inv in H as (rest & st4 & E4 & H). cbv beta in H.
    inversion H; subst; clear H.
    destruct (IH _ _ _ _ _ HJ3 E4) as (S' & HJ4 & Hsub & Hnd & Hin & Hs4).
    exists S'. simpl. split; [done|]. split; [set_solver|].
    split; [|split; [|congruence]].
    + constructor; [|done]. intros Hp. apply Hin in Hp as [_ Hp]. set_solver.
    + intros q Hq. apply elem_of_cons in Hq as [->|Hq].
      * split; [set_solver|done].
      * apply Hin in Hq as [Hq1 Hq2]. split; [done|set_solver].
Qed.

Lemma J_initial bs ds us : J ∅ (initialDState bs ds us).
Proof.
  unfold J, statePcs; simpl. repeat split; [constructor| |set_solver..].
  intros p Hp. by apply elem_of_nil in Hp.
Qed.

Lemma decomposeBody_pcs fuel config deadBody chainIds bs ds us entry st :
  decomposeBody fuel config deadBody chainIds (initialDState bs ds us) = Some (entry, st) ->
  NoDup (statePcs st) ∧ ∀ p, p ∈ statePcs st → p ≠ 0.
Proof.
  intros H. unfold decomposeBody in H.
  apply bind_inv in H as (e & st1 & E1 & H). cbv beta in H.
  assert (HJ1 := framed_decomposeChain _ _ _ _ _ _ _ (J_initial bs ds us) E1).
  apply bind_inv in H as (dead & st2 & E2 & H). cbv beta in H.
  destruct (generateDeadStatesFrom_J _ _ _ _ _ _ _ HJ1 E2)
    as (S' & (H1 & H2 & H3 & H4 & H5) & _ & Hnd & Hin & Hs).
  inversion H; subst; clear H. unfold statePcs in *; simpl. rewrite fmap_app.
  split.
  - apply NoDup_app. repeat split; [done| |done].
    intros p Hp Hp'. apply Hin in Hp' as [Hp' _]. by apply (H5 p).
  - intros p Hp ->. apply elem_of_app in Hp as [Hp|Hp].
    + by apply H3, H2.
    + apply Hin in Hp as [Hp _]. apply H3. set_solver.
Qed.


Lemma swapAt_Permutation {A} (a : list A) i j : swapAt a i j ≡ₚ a.
Proof.
  unfold swapAt. destruct (a !! i) as [x|] eqn:Hi; [|done].
  destruct (a !! j) as [y|] eqn:Hj; [|done].
  apply Permutation_inj. split; [by rewrite !length_insert|].
  exists (fun k => if decide (k = i) then j else if decide (k = j) then i else k).
  split.
  - intros k1 k2. repeat case_decide; congruence.
  - intros k. pose proof (lookup_lt_Some _ _ _ Hi). pose proof (lookup_lt_Some _ _ _ Hj).
    repeat case_decide; subst.
    + rewrite list_lookup_insert_eq by (by rewrite length_insert). done.
    + rewrite list_lookup_insert_ne by done.
      rewrite list_lookup_insert_eq by done. done.
    + by rewrite !list_lookup_insert_ne by done.
Qed.

Lemma shuffle_Permutation {A} pick (a : list A) : shuffle pick a ≡ₚ a.
Proof.
  unfold shuffle. generalize (length a - 1)%nat as i. intros i. revert a.
  induction i as [|i IH]; intros a; simpl; [done|].
  rewrite IH. apply swapAt_Permutation.
Qed.

Lemma allocPc_retries st pre d post :
  draws st = pre ++ d :: post ->
  Forall (fun x => x + PC_MIN = 0 ∨ (x + PC_MIN ∈ usedPcs st)) pre ->
  d + PC_MIN ≠ 0 -> d + PC_MIN ∉ usedPcs st ->
  ∃ st', allocPc st = Some (d + PC_MIN, st') ∧ draws st' = post.
Proof.
  intros Hd Hpre H0 Hu. unfold allocPc. rewrite Hd.
  rewrite (drawFreshPc_total (usedPcs st) d post _ pre Hpre H0 Hu).
  - eexists. split; [reflexivity|done].
  - rewrite length_app. simpl. lia.
Qed.

(** C5. Every program counter handed out by [allocPc] is nonzero and
    differs from all those handed out before (the retry loop skips zero
    and duplicates and stops at the first acceptable draw); hence the
    states of a decomposed script, real and dead and in shuffled order,
    carry pairwise distinct, nonzero program counters. *)
Theorem C5_allocated_pcs_distinct_nonzero
    fuel config deadBody pick bs ds us chainIds cfg :
  decomposeToCFG fuel config deadBody pick bs ds us chainIds = Some cfg ->
  NoDup (pc <$> cfgStates cfg) ∧
  (∀ s, s ∈ cfgStates cfg → pc s ≠ EXIT_PC) ∧
  (∀ st p st', allocPc st = Some (p, st') →
     p ≠ EXIT_PC ∧ (p ∉ usedPcs st) ∧ usedPcs st' = {[p]} ∪ usedPcs st) ∧
  (∀ st pre d post,
     draws st = pre ++ d :: post →
     Forall (fun x => x + PC_MIN = 0 ∨ (x + PC_MIN ∈ usedPcs st)) pre →
     d + PC_MIN ≠ 0 → d + PC_MIN ∉ usedPcs st →
     ∃ st', allocPc st = Some (d + PC_MIN, st') ∧ draws st' = post).
Proof.
  intros H. unfold decomposeToCFG in H.
  destruct (decomposeBody _ _ _ _ _) as [[entry st]|] eqn:Hb; [|done].
  apply decomposeBody_pcs in Hb as [Hnd Hnz]. inversion H; subst; clear H. simpl.
  assert (Hperm : pc <$> shuffle pick (states st) ≡ₚ statePcs st).
  { unfold statePcs. by rewrite shuffle_Permutation. }
  repeat split.
  - by rewrite Hperm.
  - intros s Hs. apply Hnz. rewrite <-Hperm. by apply list_elem_of_fmap_2.
  - apply allocPc_spec in H as (? & _). done.
  - apply allocPc_spec in H as (_ & ? & _). done.
  - apply allocPc_spec in H as (_ & _ & ? & _). done.
  - intros st0 pre d post. apply allocPc_retries.
Qed.

Lemma C5_witness :
  ∃ cfg,
    decomposeToCFG 5 exConfig (fun _ => []) (fun _ => 0%nat) exStore exDraws [] ["ife"]
      = Some cfg ∧
    pc <$> cfgStates cfg = [9; 7; 3] ∧
    NoDup (pc <$> cfgStates cfg) ∧
    (∀ s, s ∈ cfgStates cfg → pc s ≠ EXIT_PC).
Proof.
  eexists. split; [vm_compute; reflexivity|]. split; [reflexivity|].
  split;
    eapply (C5_allocated_pcs_distinct_nonzero 5 exConfig (fun _ => [])
              (fun _ => 0%nat) exStore exDraws [] ["ife"]);
    vm_compute; reflexivity.
Defined.

(** ** PC-transition expressions *)

Lemma safe_intro z : - MAX_SAFE <= z <= MAX_SAFE -> safe z = true.
Proof. unfold safe. intros H. apply andb_true_intro. split; apply Z.leb_le; lia. Qed.

Lemma arith_exact f m n r :
  - MAX_SAFE <= m <= MAX_SAFE -> - MAX_SAFE <= n <= MAX_SAFE ->
  f m n = Some r -> - MAX_SAFE <= r <= MAX_SAFE ->
  arith f (Some (VNum m)) (Some (VNum n)) = Some (VNum r).
Proof.
  intros Hm Hn Hf Hr. unfold arith; simpl.
  by rewrite (safe_intro m), (safe_intro n), Hf, (safe_intro r).
Qed.

Lemma exactDiv_double z : exactDiv (z * 2) 2 = Some z.
Proof.
  unfold exactDiv. rewrite decide_True.
  - by rewrite Z.div_mul.
  - split; [done|]. apply Z.mod_mul. done.
Qed.

Lemma eval_buildObfuscatedPcExpr userExpr args rt ctx kind scramble cur target :
  PC_MIN <= cur <= PC_MAX -> PC_MIN <= target <= PC_MAX ->
  (kind = 3 -> 1000 <= scramble <= 99999) ->
  getVar rt (cachedPcVarId ctx) = VNum cur ->
  eval userExpr args rt (buildObfuscatedPcExpr ctx kind scramble cur target)
    = Some (VNum target).
Proof.
  unfold PC_MIN, PC_MAX. intros Hc Ht Hs Hv. unfold buildObfuscatedPcExpr, readCached.
  repeat case_decide; cbn [eval]; rewrite ?Hv.
  - apply arith_exact; unfold MAX_SAFE; try lia. f_equal. lia.
  - apply arith_exact; unfold MAX_SAFE; try lia. f_equal. lia.
  - specialize (Hs ltac:(done)).
    rewrite (arith_exact _ cur scramble (cur + scramble)); unfold MAX_SAFE; try lia; [|done].
    apply arith_exact; unfold MAX_SAFE; try lia. f_equal. lia.
  - rewrite (arith_exact _ cur 2 (cur * 2)); unfold MAX_SAFE; try lia; [|done].
    rewrite (arith_exact _ (cur * 2) ((target - cur) * 2) (target * 2));
      unfold MAX_SAFE; try lia; [|f_equal; lia].
    apply arith_exact; unfold MAX_SAFE; try lia. apply exactDiv_double.
  - done.
Qed.

(** C4. With the cached-PC variable holding the PC of the state being
    executed, every PC-transition expression the generator can emit (the
    literal, [cached + offset], [cached - (-offset)], the scramble form and
    the multiply-then-divide form) evaluates to the destination PC, for
    all current and destination PCs of the allocation domain; no
    intermediate value leaves the range in which doubles are exact. *)
Theorem C4_pc_transition_exact
    userExpr args rt ctx config rnd n cur target :
  PC_MIN <= cur <= PC_MAX -> PC_MIN <= target <= PC_MAX ->
  1000 <= rScramble rnd n <= 99999 ->
  getVar rt (cachedPcVarId ctx) = VNum cur ->
  eval userExpr args rt (pcValue ctx config rnd n cur target) = Some (VNum target) ∧
  ∀ kind, eval userExpr args rt
            (buildObfuscatedPcExpr ctx kind (rScramble rnd n) cur target)
          = Some (VNum target).
Proof.
  intros Hc Ht Hs Hv. split.
  - unfold pcValue. destruct (obfuscatePcTransitions config); [|done].
    by apply eval_buildObfuscatedPcExpr.
  - intros kind. by apply eval_buildObfuscatedPcExpr.
Qed.

(** ** The dispatch tree *)

Lemma buildBSTNode_step {A} (leaf : nat -> CFGState -> A) node crash sorted lo hi :
  buildBSTNode leaf node crash sorted lo hi =
  if decide (lo = hi) then leafAt leaf crash sorted lo
  else if decide (lo + 1 = hi)%nat then
    pivotAt node crash sorted hi (leafAt leaf crash sorted lo) (leafAt leaf crash sorted hi)
  else if decide (hi < lo)%nat then crash
  else
    let mid := ((lo + hi) / 2)%nat in
    pivotAt node crash sorted (mid + 1)
      (buildBSTNode leaf node crash sorted lo mid)
      (buildBSTNode leaf node crash sorted (mid + 1) hi).
Proof.
  simp buildBSTNode. destruct (decide (lo = hi)); simpl; [done|].
  destruct (decide (lo + 1 = hi)%nat); simpl; [done|].
  destruct (decide (hi < lo)%nat); simpl; done.
Qed.

Lemma insertByPc_Permutation s l : insertByPc s l ≡ₚ s :: l.
Proof.
  induction l as [|t l IH]; simpl; [done|].
  destruct (pc t <? pc s); [|done]. rewrite IH. apply Permutation_swap.
Qed.

Lemma sortByPc_Permutation l : sortByPc l ≡ₚ l.
Proof.
  induction l as [|s l IH]; simpl; [done|].
  rewrite insertByPc_Permutation. by rewrite IH.
Qed.

Lemma insertByPc_sorted s l :
  StronglySorted (fun a b => pc a <= pc b) l ->
  StronglySorted (fun a b => pc a <= pc b) (insertByPc s l).
Proof.
  induction 1 as [|t l Hs IH Hall]; simpl.
  - repeat constructor.
  - destruct (pc t <? pc s) eqn:Hle.
    + apply Z.ltb_lt in Hle. constructor; [done|].
      rewrite insertByPc_Permutation. constructor; [lia|done].
    + apply Z.ltb_ge in Hle. constructor; [by constructor|].
      constructor; [lia|]. eapply Forall_impl; [exact Hall|]. simpl. lia.
Qed.

(** The sort is stable: the states of one [pc] keep their order. *)
Lemma insertByPc_filter p s l :
  filter (fun t => pc t = p) (insertByPc s l)
  = filter (fun t => pc t = p) (s :: l).
Proof.
  induction l as [|t l IH]; simpl; [done|].
  destruct (pc t <? pc s) eqn:Hlt; [|done].
  apply Z.ltb_lt in Hlt. rewrite filter_cons, IH, !filter_cons.
  repeat case_decide; try done; lia.
Qed.

Lemma sortByPc_stable p l :
  filter (fun t => pc t = p) (sortByPc l) = filter (fun t => pc t = p) l.
Proof.
  induction l as [|s l IH]; simpl; [done|].
  by rewrite insertByPc_filter, !filter_cons, IH.
Qed.

Lemma sortByPc_sorted l : StronglySorted (fun a b => pc a <= pc b) (sortByPc l).
Proof.
  induction l as [|s l IH]; simpl; [constructor|]. by apply insertByPc_sorted.
Qed.

(** Sorting states with pairwise distinct PCs gives a strictly ascending
    array. *)
Lemma sortByPc_ascending (l : list CFGState) i j a b :
  NoDup (pc <$> l) ->
  sortByPc l !! i = Some a -> sortByPc l !! j = Some b -> (i < j)%nat ->
  pc a < pc b.
Proof.
  intros Hnd Hi Hj Hij.
  assert (Hle : pc a <= pc b).
  { pose proof (sortByPc_sorted l) as Hs.
    rewrite <-(take_drop j (sortByPc l)) in Hs.
    eapply (StronglySorted_app_1_elem_of _ _ _ a b) in Hs; [done| |].
    - apply list_elem_of_lookup. exists i. by rewrite lookup_take_lt.
    - apply list_elem_of_lookup. exists 0%nat. rewrite lookup_drop.
      by rewrite Nat.add_0_r. }
  assert (Hne : pc a ≠ pc b); [|lia].
  intros Heq.
  assert (Hnd' : NoDup (pc <$> sortByPc l)) by (by rewrite sortByPc_Permutation).
  assert (i = j); [|lia].
  eapply NoDup_lookup; [exact Hnd'| |].
  - rewrite list_lookup_fmap, Hi. reflexivity.
  - rewrite list_lookup_fmap, Hj. simpl. by rewrite Heq.
Qed.

Lemma take_add_drop {A} (l : list A) lo n1 n2 :
  take (n1 + n2) (drop lo l) = take n1 (drop lo l) ++ take n2 (drop (lo + n1) l).
Proof. by rewrite <-drop_drop, take_take_drop. Qed.

Lemma take_one_drop {A} (l : list A) i x : l !! i = Some x -> take 1 (drop i l) = [x].
Proof. intros H. erewrite drop_S by done. done. Qed.

Section DispatchSpec.
Variable sorted : list CFGState.
Hypothesis ascending : ∀ i j a b,
  sorted !! i = Some a → sorted !! j = Some b → (i < j)%nat → pc a < pc b.

Let skel := buildBSTNode (fun i s => Some (DLeaf i s)) (nodeOpt DNode) None sorted.

Lemma minPc_leaves t i s rest : leaves t = (i, s) :: rest -> minPc t = pc s.
Proof.
  revert i s rest. induction t as [j u|p l IHl r IHr]; intros i s rest H; simpl in *.
  - by inversion H.
  - destruct (leaves l) as [|[i' s'] l'] eqn:Hl.
    + exfalso. clear -Hl. induction l; simpl in *; [done|].
      apply app_eq_nil in Hl as [? ?]. auto.
    + simpl in H. inversion H; subst. by eapply IHl.
Qed.

Lemma buildBSTNode_spec m :
  ∀ lo hi, (hi - lo = m)%nat → (lo <= hi)%nat → (hi < length sorted)%nat →
  ∃ t, skel lo hi = Some t ∧
    fst <$> leaves t = seq lo (hi - lo + 1) ∧
    snd <$> leaves t = take (hi - lo + 1) (drop lo sorted) ∧
    bisected t ∧
    ∀ k s, (lo <= k <= hi)%nat → sorted !! k = Some s →
      ∃ n, query t (pc s) = (k, s, n) ∧ ∀ e, (hi - lo + 1 <= 2 ^ e)%nat → (n <= e)%nat.
Proof.
  induction m as [m IH] using lt_wf_ind. intros lo hi Hm Hle Hlen.
  unfold skel. rewrite buildBSTNode_step.
  destruct (decide (lo = hi)) as [->|Hne].
  { (* one state: a leaf *)
    destruct (lookup_lt_is_Some_2 sorted hi Hlen) as [s Hs].
    unfold leafAt. rewrite Hs. exists (DLeaf hi s).
    replace (hi - hi + 1)%nat with 1%nat by lia.
    split; [done|]. split; [done|]. split; [by rewrite (take_one_drop _ _ s)|].
    split; [done|]. intros k s' Hk Hs'. assert (k = hi) as -> by lia.
    rewrite Hs in Hs'. inversion Hs'; subst. exists 0%nat. split; [done|]. lia. }
  destruct (decide (lo + 1 = hi)%nat) as [<-|Hne2].
  { (* two states *)
    destruct (lookup_lt_is_Some_2 sorted lo ltac:(lia)) as [a Ha].
    destruct (lookup_lt_is_Some_2 sorted (lo + 1) Hlen) as [b Hb].
    unfold pivotAt, leafAt. rewrite Ha, Hb. simpl.
    exists (DNode (pc b) (DLeaf lo a) (DLeaf (lo + 1) b)).
    replace (lo + 1 - lo + 1)%nat with (1 + 1)%nat by lia.
    split; [done|]. split; [simpl; do 2 f_equal; lia|].
    split. { rewrite take_add_drop, (take_one_drop _ _ a), (take_one_drop _ _ b); done. }
    split; [simpl; repeat split; lia|].
    pose proof (ascending lo (lo + 1)%nat a b Ha Hb ltac:(lia)) as Hlt.
    intros k s Hk Hs. assert (k = lo ∨ k = (lo + 1)%nat) as [->| ->] by lia.
    - rewrite Ha in Hs. inversion Hs; subst. exists 1%nat. simpl.
      rewrite (proj2 (Z.ltb_lt _ _) Hlt). split; [done|].
      intros [|e]; simpl; lia.
    - rewrite Hb in Hs. inversion Hs; subst. exists 1%nat. simpl.
      rewrite Z.ltb_irrefl. split; [done|]. intros [|e]; simpl; lia. }
  destruct (decide (hi < lo)%nat) as [Hbad|_]; [lia|]. cbv zeta.
  set (mid := ((lo + hi) / 2)%nat).
  assert (Hmid : (lo <= mid ∧ mid + 1 <= hi ∧
                  hi - mid <= mid - lo + 1 <= hi - mid + 1)%nat).
  { pose proof (Nat.div_mod_eq (lo + hi) 2) as Hd.
    pose proof (Nat.mod_upper_bound (lo + hi) 2 ltac:(lia)) as Hu.
    fold mid in Hd. lia. }
  destruct (IH (mid - lo)%nat ltac:(lia) lo mid eq_refl ltac:(lia) ltac:(lia))
    as (tl & Hl & Hlf & Hls & Hlb & Hlq).
  destruct (IH (hi - (mid + 1))%nat ltac:(lia) (mid + 1)%nat hi eq_refl ltac:(lia) Hlen)
    as (tr & Hr & Hrf & Hrs & Hrb & Hrq).
  fold skel. rewrite Hl, Hr.
  destruct (lookup_lt_is_Some_2 sorted (mid + 1) ltac:(lia)) as [b Hb].
  unfold pivotAt. rewrite Hb. simpl. exists (DNode (pc b) tl tr).
  assert (Hsz : (hi - lo + 1 = (mid - lo + 1) + (hi - (mid + 1) + 1))%nat) by lia.
  assert (Hll : length (leaves tl) = (mid - lo + 1)%nat).
  { rewrite <-(length_fmap fst), Hlf. apply length_seq. }
  assert (Hlr : length (leaves tr) = (hi - (mid + 1) + 1)%nat).
  { rewrite <-(length_fmap fst), Hrf. apply length_seq. }
  split; [done|]. split; [|split; [|split]].
  - simpl. rewrite fmap_app, Hlf, Hrf, Hsz.
    rewrite (seq_app (mid - lo + 1) (hi - (mid + 1) + 1) lo). do 2 f_equal. lia.
  - simpl. rewrite fmap_app, Hls, Hrs, Hsz.
    rewrite (take_add_drop sorted lo (mid - lo + 1) (hi - (mid + 1) + 1)).
    do 3 f_equal. lia.
  - simpl. split; [|split; [lia|done]].
    destruct (leaves tr) as [|[i s] rest] eqn:Hlv; [simpl in Hlr; lia|].
    rewrite (minPc_leaves tr i s rest Hlv).
    assert (Hs : take (hi - (mid + 1) + 1) (drop (mid + 1) sorted) !! 0%nat = Some s).
    { by rewrite <-Hrs. }
    rewrite lookup_take_lt, lookup_drop, Nat.add_0_r, Hb in Hs by lia.
    by inversion Hs.
  - intros k s Hk Hs. destruct (decide (k <= mid)%nat) as [Hkm|Hkm].
    + destruct (Hlq k s ltac:(lia) Hs) as (n & Hq & Hn).
      assert (Hlt : pc s < pc b) by (apply (ascending k (mid + 1)%nat); [done..|lia]).
      exists (S n). simpl. rewrite (proj2 (Z.ltb_lt _ _) Hlt), Hq. split; [done|].
      intros [|e] He; simpl in He; [lia|]. apply le_n_S, Hn. lia.
    + destruct (Hrq k s ltac:(lia) Hs) as (n & Hq & Hn).
      assert (Hge : pc b <= pc s).
      { destruct (decide (k = mid + 1)%nat) as [->|Hk'].
        - rewrite Hb in Hs. inversion Hs; lia.
        - pose proof (ascending (mid + 1)%nat k b s Hb Hs ltac:(lia)). lia. }
      exists (S n). simpl. rewrite (proj2 (Z.ltb_ge _ _) Hge), Hq. split; [done|].
      intros [|e] He; simpl in He; [lia|]. apply le_n_S, Hn. lia.
Qed.

End DispatchSpec.

Lemma buildBSTNode_emit ctx config yr oracle sorted m :
  ∀ lo hi, (hi - lo = m)%nat →
  buildBSTNode (fun i s => Some (buildStateBody ctx config yr (oracle i) s))
               (nodeOpt (ifLess ctx)) None sorted lo hi
  = emit ctx config yr oracle <$>
    buildBSTNode (fun i s => Some (DLeaf i s)) (nodeOpt DNode) None sorted lo hi.
Proof.
  induction m as [m IH] using lt_wf_ind. intros lo hi Hm.
  rewrite (buildBSTNode_step (fun i s => Some (DLeaf i s))), buildBSTNode_step.
  unfold pivotAt, leafAt.
  repeat case_decide; try done.
  - by destruct (sorted !! lo).
  - destruct (sorted !! hi); [|done]. by destruct (sorted !! lo).
  - cbv zeta. set (mid := ((lo + hi) / 2)%nat).
    assert (Hmid : (lo <= mid ∧ mid + 1 <= hi)%nat).
    { pose proof (Nat.div_mod_eq (lo + hi) 2) as Hd.
      pose proof (Nat.mod_upper_bound (lo + hi) 2 ltac:(lia)) as Hu.
      fold mid in Hd. lia. }
    rewrite (IH (mid - lo)%nat ltac:(lia) lo mid eq_refl).
    rewrite (IH (hi - (mid + 1))%nat ltac:(lia) (mid + 1)%nat hi eq_refl).
    destruct (sorted !! (mid + 1)%nat); [|done].
    destruct (buildBSTNode _ _ _ sorted lo mid); [|done].
    by destruct (buildBSTNode _ _ _ sorted (mid + 1) hi).
Qed.

Lemma execStmt_SIfElse userExpr userStmt args fuel c t e rt :
  execStmt userExpr userStmt args fuel (SIfElse c t e) rt =
  match evalBool userExpr args rt c with
  | Some true => exec userExpr userStmt args fuel t rt
  | Some false => exec userExpr userStmt args fuel e rt
  | None => None
  end.
Proof. reflexivity. Qed.

Lemma execStmt_SIf userExpr userStmt args fuel c t rt :
  execStmt userExpr userStmt args fuel (SIf c t) rt =
  match evalBool userExpr args rt c with
  | Some true => exec userExpr userStmt args fuel t rt
  | Some false => Some rt
  | None => None
  end.
Proof. reflexivity. Qed.

Lemma exec_single userExpr userStmt args fuel s rt :
  exec userExpr userStmt args fuel [s] rt = execStmt userExpr userStmt args fuel s rt.
Proof. simpl. by destruct (execStmt _ _ _ _ _ _). Qed.

Lemma exec_app userExpr userStmt args fuel l1 l2 rt :
  exec userExpr userStmt args fuel (l1 ++ l2) rt =
  exec userExpr userStmt args fuel l1 rt ≫= exec userExpr userStmt args fuel l2.
Proof.
  revert rt. induction l1 as [|s l1 IH]; intros rt; simpl; [done|].
  destruct (execStmt _ _ _ _ _ _); [apply IH|done].
Qed.

(** Running the dispatch code with the cached PC of a state runs that
    state's body. *)
Lemma exec_emit userExpr userStmt args fuel ctx config yr oracle t rt c i s n :
  getVar rt (cachedPcVarId ctx) = VNum c ->
  query t c = (i, s, n) ->
  exec userExpr userStmt args fuel (emit ctx config yr oracle t) rt =
  exec userExpr userStmt args fuel (buildStateBody ctx config yr (oracle i) s) rt.
Proof.
  intros Hv. revert i s n. induction t as [j u|p l IHl r IHr]; intros i s n Hq; simpl in Hq.
  - by inversion Hq.
  - simpl emit. unfold ifLess. rewrite exec_single, execStmt_SIfElse.
    unfold evalBool, readPcFromList. cbn [eval]. rewrite Hv. simpl.
    destruct (c <? p).
    + destruct (query l c) as [[i' s'] n'] eqn:Hl. inversion Hq; subst. by eapply IHl.
    + destruct (query r c) as [[i' s'] n'] eqn:Hr. inversion Hq; subst. by eapply IHr.
Qed.

(** C1. For a non-empty set of states with pairwise distinct PCs, the
    dispatch code is the if-else tree over the states sorted by PC, split
    in halves with the first PC of the upper half as pivot of a strict
    less-than test; asked for the PC of any of the states, it reaches that
    state's leaf, through at most [ceil(log2 n)] less-than tests, and
    running it runs that state's body. *)
Theorem C1_dispatch_tree_total ctx config yr oracle (sts : list CFGState) :
  sts ≠ [] → NoDup (pc <$> sts) →
  ∃ t, dispatchTree sts = Some t ∧
    buildDispatch ctx config yr oracle sts = Some (emit ctx config yr oracle t) ∧
    snd <$> leaves t = sortByPc sts ∧
    bisected t ∧
    ∀ s, s ∈ sts →
      ∃ i n, query t (pc s) = (i, s, n) ∧
        (n <= Nat.log2_up (length sts))%nat ∧
        ∀ userExpr userStmt args fuel rt,
          getVar rt (cachedPcVarId ctx) = VNum (pc s) →
          exec userExpr userStmt args fuel (emit ctx config yr oracle t) rt =
          exec userExpr userStmt args fuel (buildStateBody ctx config yr (oracle i) s) rt.
Proof.
  intros Hne Hnd.
  assert (Hlen : length (sortByPc sts) = length sts)
    by (apply Permutation_length, sortByPc_Permutation).
  assert (Hpos : (0 < length sts)%nat) by (destruct sts; [done|simpl; lia]).
  destruct (buildBSTNode_spec (sortByPc sts)
              (fun i j a b => sortByPc_ascending sts i j a b Hnd)
              (length (sortByPc sts) - 1 - 0)%nat 0%nat (length (sortByPc sts) - 1)%nat
              eq_refl ltac:(lia) ltac:(lia))
    as (t & Ht & _ & Hls & Hb & Hq).
  exists t. unfold dispatchTree, buildDispatch.
  split; [done|]. split.
  { erewrite buildBSTNode_emit by reflexivity. by rewrite Ht. }
  split.
  { rewrite Hls. rewrite drop_0. apply take_ge. lia. }
  split; [done|].
  intros s Hs.
  assert (Hs' : s ∈ sortByPc sts) by (by rewrite sortByPc_Permutation).
  apply list_elem_of_lookup in Hs' as [k Hk].
  pose proof (lookup_lt_Some _ _ _ Hk) as Hklt.
  destruct (Hq k s ltac:(lia) Hk) as (n & Hqs & Hn).
  exists k, n. split; [done|]. split.
  - apply Hn. rewrite Hlen.
    replace (length sts - 1 - 0 + 1)%nat with (length sts) by lia.
    destruct (decide (length sts = 1)%nat) as [->|H1]; [simpl; lia|].
    apply Nat.log2_up_spec. lia.
  - intros userExpr userStmt args fuel rt Hv. by eapply exec_emit.
Qed.

Lemma C1_witness :
  ∃ t, dispatchTree exStates = Some t ∧
    buildDispatch exCtx exConfig ∅ (fun _ => exRand) exStates
      = Some (emit exCtx exConfig ∅ (fun _ => exRand) t) ∧
    snd <$> leaves t = sortByPc exStates ∧
    bisected t ∧
    ∀ s, s ∈ exStates →
      ∃ i n, query t (pc s) = (i, s, n) ∧
        (n <= Nat.log2_up (length exStates))%nat ∧
        ∀ userExpr userStmt args fuel rt,
          getVar rt (cachedPcVarId exCtx) = VNum (pc s) →
          exec userExpr userStmt args fuel (emit exCtx exConfig ∅ (fun _ => exRand) t) rt =
          exec userExpr userStmt args fuel
            (buildStateBody exCtx exConfig ∅ exRand s) rt.
Proof.
  apply (C1_dispatch_tree_total exCtx exConfig ∅ (fun _ => exRand) exStates).
  - discriminate.
  - simpl. repeat constructor; set_solver.
Defined.

Lemma C4_witness :
  eval exUserExpr exArgs (exRuntime [("cachedPc", VNum 7)] [])
       (pcValue exCtx exConfig exRand 0 7 (-9)) = Some (VNum (-9)) ∧
  ∀ kind, eval exUserExpr exArgs (exRuntime [("cachedPc", VNum 7)] [])
            (buildObfuscatedPcExpr exCtx kind (rScramble exRand 0) 7 (-9))
          = Some (VNum (-9)).
Proof.
  apply (C4_pc_transition_exact exUserExpr exArgs
           (exRuntime [("cachedPc", VNum 7)] []) exCtx exConfig exRand 0%nat 7 (-9)).
  - unfold PC_MIN, PC_MAX. lia.
  - unfold PC_MIN, PC_MAX. lia.
  - simpl. lia.
  - reflexivity.
Defined.

(** ** Run-time state updates *)

Lemma getList_setList_eq rt id l : getList (setList rt id l) id = l.
Proof. unfold getList, setList; simpl. by rewrite lookup_insert_eq. Qed.

Lemma getList_setList_ne rt id id' l :
  id ≠ id' -> getList (setList rt id l) id' = getList rt id'.
Proof. intros. unfold getList, setList; simpl. by rewrite lookup_insert_ne. Qed.

Lemma getList_setVar rt id v l : getList (setVar rt id v) l = getList rt l.
Proof. done. Qed.

Lemma getList_emitEvent rt e l : getList (emitEvent rt e) l = getList rt l.
Proof. done. Qed.

Lemma getVar_setVar_eq rt id v : getVar (setVar rt id v) id = v.
Proof. unfold getVar, setVar; simpl. by rewrite lookup_insert_eq. Qed.

Lemma getVar_setVar_ne rt id id' v :
  id ≠ id' -> getVar (setVar rt id v) id' = getVar rt id'.
Proof. intros. unfold getVar, setVar; simpl. by rewrite lookup_insert_ne. Qed.

Lemma getVar_setList rt id l x : getVar (setList rt id l) x = getVar rt x.
Proof. done. Qed.

Lemma getVar_emitEvent rt e x : getVar (emitEvent rt e) x = getVar rt x.
Proof. done. Qed.

Lemma order_nums f m n :
  order f (Some (VNum m)) (Some (VNum n)) = Some (VBool (f m n)).
Proof. done. Qed.

(** ** The wait-signal receiver *)

Lemma validIndex_cons_1 (x : Value) l : validIndex (x :: l) 1 = true.
Proof.
  unfold validIndex. simpl length. apply andb_true_intro. split; apply Z.leb_le; lia.
Qed.

(** ** Decomposition never changes the opcode of a block that survives *)

Lemma blocksStable_refl bs : blocksStable bs bs.
Proof. intros id b H. eauto. Qed.

Lemma blocksStable_trans bs1 bs2 bs3 :
  blocksStable bs1 bs2 → blocksStable bs2 bs3 → blocksStable bs1 bs3.
Proof.
  intros H12 H23 id b3 H. apply H23 in H as (b2 & H & E2).
  apply H12 in H as (b1 & H & E1). exists b1. split; [done|congruence].
Qed.

Lemma getFullBlock_insert bs id e id' :
  getFullBlock (<[id := e]> bs) id' =
  if decide (id = id') then match e with EntBlock b => Some b | _ => None end
  else getFullBlock bs id'.
Proof.
  unfold getFullBlock. rewrite lookup_insert. case_decide; [|done]. by destruct e.
Qed.

Lemma blocksStable_setParent bs id p : blocksStable bs (setParent bs id p).
Proof.
  unfold setParent. destruct (getFullBlock bs id) as [b|] eqn:Hb; [|apply blocksStable_refl].
  intros id' b' H. rewrite getFullBlock_insert in H. case_decide; subst; [|eauto].
  inversion H; subst. eauto.
Qed.

Lemma blocksStable_setNext bs id n : blocksStable bs (setNext bs id n).
Proof.
  unfold setNext. destruct (getFullBlock bs id) as [b|] eqn:Hb; [|apply blocksStable_refl].
  intros id' b' H. rewrite getFullBlock_insert in H. case_decide; subst; [|eauto].
  inversion H; subst. eauto.
Qed.

Lemma blocksStable_deleteBlock bs id : blocksStable bs (deleteBlock bs id).
Proof.
  intros id' b' H. unfold deleteBlock, getFullBlock in *.
  rewrite lookup_delete in H. case_decide; [done|]. eauto.
Qed.

Lemma blocksStable_insert_prim bs id l : blocksStable bs (<[id := EntPrim l]> bs).
Proof.
  intros id' b' H. rewrite getFullBlock_insert in H. case_decide; [done|]. eauto.
Qed.

Lemma blocksStable_unlinkBlock bs id : blocksStable bs (unlinkBlock bs id).
Proof.
  unfold unlinkBlock. eapply blocksStable_trans;
    [apply blocksStable_setNext | apply blocksStable_setParent].
Qed.

Lemma blocksStable_foldl_unlink ids : ∀ bs, blocksStable bs (foldl unlinkBlock bs ids).
Proof.
  induction ids as [|i ids IH]; intros bs; simpl; [apply blocksStable_refl|].
  eapply blocksStable_trans; [apply blocksStable_unlinkBlock | apply IH].
Qed.

Lemma blocksStable_linkChain ids : ∀ bs, blocksStable bs (linkChain bs ids).
Proof.
  induction ids as [|a ids IH]; intros bs; simpl; [apply blocksStable_refl|].
  destruct ids as [|b ids]; [apply blocksStable_refl|].
  eapply blocksStable_trans; [|apply IH].
  eapply blocksStable_trans; [apply blocksStable_setNext | apply blocksStable_setParent].
Qed.

Lemma stableM_modifyBlocks f :
  (∀ bs, blocksStable bs (f bs)) → stableM (modifyBlocks f).
Proof. intros Hf st a st' H. inversion H; subst. apply Hf. Qed.

Lemma stableM_bind {A B} (m : M A) (k : A → M B) :
  stableM m → (∀ a, stableM (k a)) → stableM (bind m k).
Proof.
  intros Hm Hk st b st' H. apply bind_inv in H as (a & st1 & H1 & H2).
  eapply blocksStable_trans; [by eapply Hm | by eapply Hk].
Qed.

Lemma stableM_ret {A} (a : A) : stableM (ret a).
Proof. intros st b st' H. inversion H; subst. apply blocksStable_refl. Qed.

Lemma stableM_getBlocks : stableM getBlocks.
Proof. intros st b st' H. inversion H; subst. apply blocksStable_refl. Qed.

Lemma stableM_pushState s : stableM (pushState s).
Proof. intros st b st' H. inversion H; subst. apply blocksStable_refl. Qed.

Lemma stableM_setRedirect k v : stableM (setRedirect k v).
Proof. intros st b st' H. inversion H; subst. apply blocksStable_refl. Qed.

Lemma stableM_uid : stableM uid.
Proof.
  intros st b st' H. unfold uid in H. destruct (uids st); [done|].
  inversion H; subst. apply blocksStable_refl.
Qed.

Lemma stableM_allocPc : stableM allocPc.
Proof.
  intros st b st' H. apply allocPc_spec in H as (_ & _ & _ & _ & _ & -> & _).
  apply blocksStable_refl.
Qed.

Lemma stableM_drawNextPc : stableM drawNextPc.
Proof.
  intros st b st' H. unfold drawNextPc in H.
  destruct (drawNonExit _ _) as [[p r]|]; [|done].
  inversion H; subst. apply blocksStable_refl.
Qed.

Lemma stableM_failM {A} : stableM (@failM A).
Proof. intros st b st' H. done. Qed.

Create HintDb stable.
#[local] Hint Resolve blocksStable_setParent blocksStable_setNext
  blocksStable_deleteBlock blocksStable_insert_prim blocksStable_unlinkBlock
  blocksStable_foldl_unlink blocksStable_linkChain blocksStable_refl
  stableM_ret stableM_getBlocks stableM_pushState stableM_setRedirect
  stableM_uid stableM_allocPc stableM_drawNextPc stableM_failM : stable.

Ltac solve_stable :=
  repeat first
    [ progress eauto with stable
    | apply stableM_bind; [|intros ?]
    | apply stableM_modifyBlocks; intros ?
    | eapply blocksStable_trans; [solve [eauto with stable]|]
    | case_match
    | case_decide ].

Lemma stableM_clearParent id : stableM (clearParent id).
Proof. unfold clearParent. solve_stable. Qed.

Lemma stableM_numberLiteral l : stableM (numberLiteral l).
Proof. unfold numberLiteral. solve_stable. Qed.

Lemma stableM_textLiteral t : stableM (textLiteral t).
Proof. unfold textLiteral. solve_stable. Qed.

#[local] Hint Resolve stableM_clearParent stableM_numberLiteral stableM_textLiteral : stable.

Lemma stableM_substackChain rec o c :
  (∀ ids k, stableM (rec ids k)) → stableM (substackChain rec o c).
Proof. intros Hrec. unfold substackChain. solve_stable. Qed.

Lemma stableM_decomposeControlBlock rec block blockId c :
  (∀ ids k, stableM (rec ids k)) → stableM (decomposeControlBlock rec block blockId c).
Proof.
  intros Hrec. pose proof (stableM_substackChain rec) as Hsub.
  unfold decomposeControlBlock. solve_stable.
Qed.

Lemma stableM_decomposeSegment rec seg c :
  (∀ ids k, stableM (rec ids k)) → stableM (decomposeSegment rec seg c).
Proof.
  intros Hrec. destruct seg as [ids|blockId]; simpl.
  - apply stableM_bind; [apply stableM_allocPc|]. intros p.
    apply stableM_bind; [|intros _; solve_stable].
    apply stableM_modifyBlocks. intros bs.
    eapply blocksStable_trans;
      [apply blocksStable_foldl_unlink | apply blocksStable_linkChain].
  - apply stableM_bind; [apply stableM_getBlocks|]. intros bs.
    destruct (getFullBlock bs blockId); [|apply stableM_failM].
    by apply stableM_decomposeControlBlock.
Qed.

Lemma stableM_decomposeSegments rec segs c :
  (∀ ids k, stableM (rec ids k)) → stableM (decomposeSegments rec segs c).
Proof.
  intros Hrec. induction segs as [|seg segs IH]; simpl; [apply stableM_ret|].
  apply stableM_bind; [done|]. intros n. by apply stableM_decomposeSegment.
Qed.

Lemma stableM_decomposeChain fuel : ∀ ids c, stableM (decomposeChain fuel ids c).
Proof.
  induction fuel as [|fuel IH]; intros ids c; destruct ids; simpl;
    try apply stableM_ret; try apply stableM_failM.
  apply stableM_bind; [apply stableM_getBlocks|]. intros bs.
  by apply stableM_decomposeSegments.
Qed.

Lemma stableM_generateDeadStatesFrom deadBody count :
  ∀ i, stableM (generateDeadStatesFrom deadBody i count).
Proof.
  induction count as [|count IH]; intros i; simpl; [apply stableM_ret|].
  unfold allocDeadPc. pose proof (IH (S i)). solve_stable.
Qed.

Lemma decomposeToCFG_stable fuel config deadBody pick bs ds us chainIds cfg :
  decomposeToCFG fuel config deadBody pick bs ds us chainIds = Some cfg →
  blocksStable bs (cfgBlocks cfg).
Proof.
  unfold decomposeToCFG. intros H.
  destruct (decomposeBody _ _ _ _ _) as [[entry st]|] eqn:Hb; [|done].
  inversion H; subst; clear H. simpl.
  unfold decomposeBody in Hb.
  apply bind_inv in Hb as (e & st1 & E1 & Hb). cbv beta in Hb.
  apply bind_inv in Hb as (dead & st2 & E2 & Hb). cbv beta in Hb.
  inversion Hb; subst; clear Hb. simpl.
  eapply blocksStable_trans.
  - by eapply (stableM_decomposeChain fuel chainIds EXIT_PC (initialDState bs ds us)).
  - by eapply stableM_generateDeadStatesFrom.
Qed.

Lemma exec_deleteAll userExpr userStmt args fuel ids : ∀ rt,
  exec userExpr userStmt args fuel (SDeleteAll <$> ids) rt
  = Some (foldl (fun r id => setList r id []) rt ids).
Proof.
  induction ids as [|id ids IH]; intros rt; simpl; [done|]. apply IH.
Qed.

Lemma foldl_clear_spec ids : ∀ rt,
  let rt' := foldl (fun r id => setList r id []) rt ids in
  rtTrace rt' = rtTrace rt ∧ rtVars rt' = rtVars rt ∧
  (∀ id, id ∈ ids → getList rt' id = []) ∧
  (∀ id, id ∉ ids → rtLists rt' !! id = rtLists rt !! id).
Proof.
  induction ids as [|i ids IH]; intros rt; simpl.
  - split; [done|]. split; [done|]. split; [|done].
    intros id Hid. by apply elem_of_nil in Hid.
  - destruct (IH (setList rt i [])) as (Ht & Hv & Hin & Hout).
    split; [done|]. split; [done|]. split.
    + intros id Hid. destruct (decide (id ∈ ids)) as [Hi|Hi]; [by apply Hin|].
      apply elem_of_cons in Hid as [->|Hid]; [|done].
      unfold getList. rewrite (Hout i Hi). simpl. by rewrite lookup_insert_eq.
    + intros id Hid. apply not_elem_of_cons in Hid as [Hne Hid].
      rewrite (Hout id Hid). simpl. by rewrite lookup_insert_ne.
Qed.

Lemma cleanup_body (l : TargetCFFLists) :
  scriptBody (buildGreenFlagCleanup l)
  = (SDeleteAll <$> cffLists l) ++ [SBroadcast (startBroadcastId l)].
Proof. unfold buildGreenFlagCleanup, cffLists. simpl. by destruct (needsWait l). Qed.

(** ** Dead states *)

Lemma exec_cons_inv userExpr userStmt args fuel s l rt rt' :
  exec userExpr userStmt args fuel (s :: l) rt = Some rt' →
  ∃ rt1, execStmt userExpr userStmt args fuel s rt = Some rt1 ∧
         exec userExpr userStmt args fuel l rt1 = Some rt'.
Proof. simpl. destruct (execStmt _ _ _ _ _ _) as [rt1|]; [eauto|done]. Qed.

Lemma exec_app_inv userExpr userStmt args fuel l1 l2 rt rt' :
  exec userExpr userStmt args fuel (l1 ++ l2) rt = Some rt' →
  ∃ rt1, exec userExpr userStmt args fuel l1 rt = Some rt1 ∧
         exec userExpr userStmt args fuel l2 rt1 = Some rt'.
Proof.
  rewrite exec_app. destruct (exec _ _ _ _ l1 rt) as [rt1|]; [eauto|done].
Qed.

Lemma execStmt_SSetVar_inv userExpr userStmt args fuel id e rt rt' :
  execStmt userExpr userStmt args fuel (SSetVar id e) rt = Some rt' →
  ∃ v, eval userExpr args rt e = Some v ∧ rt' = setVar rt id v.
Proof. simpl. destruct (eval _ _ _ _) as [v|]; [|done]. intros [= <-]. eauto. Qed.

Lemma execStmt_SReplace_inv userExpr userStmt args fuel l idx e rt rt' :
  execStmt userExpr userStmt args fuel (SReplace l idx e) rt = Some rt' →
  ∃ i v, evalNum userExpr args rt idx = Some i ∧ eval userExpr args rt e = Some v ∧
         rt' = setList rt l (replaceAt (getList rt l) i v).
Proof.
  simpl. destruct (evalNum _ _ _ _) as [i|]; [|done].
  destruct (eval _ _ _ e) as [v|]; [|done]. intros [= <-]. eauto.
Qed.

Lemma linkBlocks_users (body : list string) (rest : list (list Stmt)) :
  rest ≠ [] →
  linkBlocks (map (fun bid => [SUser bid]) body ++ rest) = map SUser body ++ linkBlocks rest.
Proof.
  intros Hr. induction body as [|b body IH]; [done|].
  simpl map. change ((?x :: ?l) ++ rest) with (x :: (l ++ rest)).
  destruct (map (fun bid => [SUser bid]) body ++ rest) as [|c cs] eqn:E.
  - apply app_eq_nil in E as [_ E]. done.
  - simpl. rewrite <-IH. done.
Qed.

(** The code emitted for a decoy state. *)
Lemma buildStateBody_dead ctx config yr rnd p body n :
  buildStateBody ctx config yr rnd (plainState p body n true) =
  map SUser body ++
  [writePcToList ctx (pcValue ctx config rnd 0 p (resolvePc yr n));
   if shouldYield yr n
   then SSetVar (cachedPcVarId ctx) (ENum (resolvePc yr n))
   else SSetVar (keepGoingVarId ctx) (ENum 0)].
Proof.
  unfold buildStateBody, resolveAndWritePc. simpl.
  destruct (shouldYield yr n); simpl.
  - destruct (map (fun bid => [SUser bid]) body ++ _) eqn:E.
    { apply app_eq_nil in E as [_ E]. done. }
    rewrite <-E. by rewrite linkBlocks_users.
  - destruct (map (fun bid => [SUser bid]) body ++ _) eqn:E.
    { apply app_eq_nil in E as [_ E]. done. }
    rewrite <-E. by rewrite linkBlocks_users.
Qed.

Lemma generateDeadStatesFrom_shape deadBody count :
  ∀ i st dead st', generateDeadStatesFrom deadBody i count st = Some (dead, st') →
  ∀ s, s ∈ dead → ∃ p body n, s = plainState p body n true.
Proof.
  induction count as [|count IH]; intros i st dead st' H s Hs; simpl in H.
  - inversion H; subst. by apply elem_of_nil in Hs.
  - apply bind_inv in H as (p & st1 & _ & H). cbv beta in H.
    apply bind_inv in H as (u & st2 & _ & H). cbv beta in H.
    apply bind_inv in H as (n & st3 & _ & H). cbv beta in H.
    apply bind_inv in H as (rest & st4 & E & H). cbv beta in H.
    inversion H; subst. apply elem_of_cons in Hs as [->|Hs]; [eauto|].
    by eapply IH.
Qed.

Section DeadStates.
Variable userExpr : string → Runtime → option Value.
Variable userStmt : string → Runtime → option Runtime.
Variable args : gmap string Value.
Variable fuel : nat.
Variable ctx : ScriptCFFContext.

Hypothesis distinctVars : keepGoingVarId ctx ≠ cachedPcVarId ctx.
Hypothesis userFrame : ∀ id r r',
  userStmt id r = Some r' → getVar r' (keepGoingVarId ctx) = getVar r (keepGoingVarId ctx).

Lemma exec_users_keepGoing body : ∀ rt rt',
  exec userExpr userStmt args fuel (map SUser body) rt = Some rt' →
  getVar rt' (keepGoingVarId ctx) = getVar rt (keepGoingVarId ctx).
Proof.
  induction body as [|b body IH]; intros rt rt' H; simpl in H.
  - by inversion H.
  - destruct (userStmt b rt) as [rt1|] eqn:E; [|done].
    rewrite (IH _ _ H). by eapply userFrame.
Qed.

Lemma dead_body_keepGoing config yr rnd p body n rt rt' :
  getVar rt (keepGoingVarId ctx) = VNum 0 →
  exec userExpr userStmt args fuel
       (buildStateBody ctx config yr rnd (plainState p body n true)) rt = Some rt' →
  getVar rt' (keepGoingVarId ctx) = VNum 0.
Proof.
  intros H0 H. rewrite buildStateBody_dead in H.
  apply exec_app_inv in H as (rt1 & Hu & H).
  apply exec_users_keepGoing in Hu. rewrite H0 in Hu.
  apply exec_cons_inv in H as (rt2 & Hw & H).
  apply execStmt_SReplace_inv in Hw as (i & v & _ & _ & ->).
  rewrite exec_single in H.
  destruct (shouldYield yr n).
  - apply execStmt_SSetVar_inv in H as (w & _ & ->).
    rewrite getVar_setVar_ne by done. by rewrite getVar_setList.
  - apply execStmt_SSetVar_inv in H as (w & Hw & ->). simpl in Hw.
    inversion Hw; subst. by rewrite getVar_setVar_eq.
Qed.

End DeadStates.

(** C9. Whatever its random successor is, the body emitted for a dead
    state leaves the keep-going variable at 0: when the successor would
    let execution continue, the closing link of the body replaces the
    "keep going" write by a write of 0; otherwise the variable keeps the 0
    set at the top of the loop iteration.  The inner loop's exit test then
    holds, so nothing runs in the same tick after a decoy body. *)
Theorem C9_dead_state_yields
    userExpr userStmt args fuel ctx config deadBody st dead st' yr rnd s rt rt' :
  generateDeadStates config deadBody st = Some (dead, st') →
  s ∈ dead →
  keepGoingVarId ctx ≠ cachedPcVarId ctx →
  (∀ id r r', userStmt id r = Some r' →
     getVar r' (keepGoingVarId ctx) = getVar r (keepGoingVarId ctx)) →
  exec userExpr userStmt args fuel
       (SSetVar (keepGoingVarId ctx) (ENum 0)
        :: SSetVar (cachedPcVarId ctx)
             (EItemOf (pcValId (lists ctx)) (EVar (baseIndexVarId ctx)))
        :: buildStateBody ctx config yr rnd s) rt = Some rt' →
  getVar rt' (keepGoingVarId ctx) = VNum 0 ∧
  evalBool userExpr args rt' (EEquals (EVar (keepGoingVarId ctx)) (ENum 0)) = Some true ∧
  ∀ e, SSetVar (keepGoingVarId ctx) e ∈ buildStateBody ctx config yr rnd s → e = ENum 0.
Proof.
  intros Hgen Hs Hd Hframe H.
  destruct (generateDeadStatesFrom_shape _ _ _ _ _ _ Hgen s Hs) as (p & body & n & ->).
  assert (H0 : getVar rt' (keepGoingVarId ctx) = VNum 0).
  { apply exec_cons_inv in H as (rt1 & H1 & H).
    apply execStmt_SSetVar_inv in H1 as (v & Hv & ->). simpl in Hv. inversion Hv; subst.
    apply exec_cons_inv in H as (rt2 & H2 & H).
    apply execStmt_SSetVar_inv in H2 as (w & _ & ->).
    eapply (dead_body_keepGoing userExpr userStmt args fuel ctx Hd Hframe); [|exact H].
    rewrite getVar_setVar_ne by done. by rewrite getVar_setVar_eq. }
  split; [done|]. split.
  - unfold evalBool. cbn [eval]. by rewrite H0.
  - intros e He. rewrite buildStateBody_dead in He.
    apply elem_of_app in He as [He|He].
    + apply list_elem_of_fmap in He as (b & Hb & _). done.
    + apply elem_of_cons in He as [He|He]; [done|].
      apply list_elem_of_singleton in He.
      destruct (shouldYield yr n); inversion He; subst; [done|done].
Qed.

Lemma C9_witness :
  ∃ rt',
    exec exUserExpr exUserStmt exArgs 0
       (SSetVar "keepGoing" (ENum 0)
        :: SSetVar "cachedPc" (EItemOf "pcVals" (EVar "baseIndex"))
        :: buildStateBody exCtx exDeadConfig ∅ exRand (plainState 5 ["d1"] 11 true))
       exDeadRuntime = Some rt' ∧
    getVar rt' "keepGoing" = VNum 0 ∧
    getList rt' "pcVals" = [VNum 11].
Proof.
  eexists. split; [vm_compute; reflexivity|]. split; [|vm_compute; reflexivity].
  eapply (C9_dead_state_yields exUserExpr exUserStmt exArgs 0%nat exCtx exDeadConfig
            (fun _ => ["d1"])
            (initialDState ∅ [10000000000005; 10000000000011] [])
            _ _ ∅ exRand (plainState 5 ["d1"] 11 true) exDeadRuntime).
  - vm_compute. reflexivity.
  - apply list_elem_of_here.
  - discriminate.
  - intros id r r' H. inversion H. reflexivity.
  - vm_compute. reflexivity.
Defined.

(** ** Decomposition of conditionals and loops *)

Lemma pushState_spec s st u st' :
  pushState s st = Some (u, st') →
  states st' = states st ++ [s] ∧ blocks st' = blocks st ∧
  yieldRedirects st' = yieldRedirects st ∧ usedPcs st' = usedPcs st.
Proof. intros H. by inversion H. Qed.

Lemma modifyBlocks_spec f st u st' :
  modifyBlocks f st = Some (u, st') →
  states st' = states st ∧ blocks st' = f (blocks st) ∧
  yieldRedirects st' = yieldRedirects st ∧ usedPcs st' = usedPcs st.
Proof. intros H. by inversion H. Qed.

Lemma setRedirect_spec k v st u st' :
  setRedirect k v st = Some (u, st') →
  states st' = states st ∧ blocks st' = blocks st ∧
  yieldRedirects st' = <[k := v]> (yieldRedirects st) ∧ usedPcs st' = usedPcs st.
Proof. intros H. by inversion H. Qed.

Lemma clearParent_spec o st u st' :
  clearParent o st = Some (u, st') →
  states st' = states st ∧ yieldRedirects st' = yieldRedirects st ∧
  usedPcs st' = usedPcs st.
Proof. destruct o; intros H; by inversion H. Qed.

Lemma substackChain_None rec c st : substackChain rec None c st = Some (c, st).
Proof. done. Qed.

(** The if-else case of [decomposeControlBlock]. *)
Lemma decompose_if_else rec b blockId c st a st' :
  opcode b = "control_if_else" →
  decomposeControlBlock rec b blockId c st = Some (a, st') →
  ∃ st1 t st2 f st3,
    allocPc st = Some (a, st1) ∧
    substackChain rec (inputRef b "SUBSTACK") c st1 = Some (t, st2) ∧
    substackChain rec (inputRef b "SUBSTACK2") c st2 = Some (f, st3) ∧
    states st' = states st3 ++
      [branchState a c (mkBranch (default "" (inputRef b "CONDITION")) t f)].
Proof.
  intros Hop H. unfold decomposeControlBlock in H. rewrite Hop in H.
  rewrite decide_False in H by done. rewrite decide_True in H by done.
  apply bind_inv in H as (p & st1 & E1 & H). cbv beta in H.
  apply bind_inv in H as (t & st2 & E2 & H). cbv beta in H.
  apply bind_inv in H as (f & st3 & E3 & H). cbv beta in H.
  apply bind_inv in H as (u1 & st4 & E4 & H). cbv beta in H.
  apply bind_inv in H as (u2 & st5 & E5 & H). cbv beta in H.
  apply bind_inv in H as (u3 & st6 & E6 & H). cbv beta in H.
  inversion H; subst; clear H.
  apply clearParent_spec in E4 as (Hs4 & _).
  apply pushState_spec in E5 as (Hs5 & _).
  apply modifyBlocks_spec in E6 as (Hs6 & _).
  exists st1, t, st2, f, st3. repeat split; try done. congruence.
Qed.

(** A chain made of one block that is not a control block becomes one
    linear state. *)
Lemma walkChain_single bs s b :
  s ≠ "" → getFullBlock bs s = Some b → next b = None → walkChain bs s = [s].
Proof.
  intros Hs Hb Hn. unfold walkChain. simpl.
  rewrite decide_False by done. rewrite decide_False by set_solver.
  rewrite Hb, Hn. by destruct (size bs).
Qed.

Lemma decomposeChain_linear fuel s b c st a st' :
  getFullBlock (blocks st) s = Some b → isControlOpcode (opcode b) = false →
  decomposeChain (S fuel) [s] c st = Some (a, st') →
  ∃ st1, allocPc st = Some (a, st1) ∧
    states st' = states st ++ [plainState a [s] c false] ∧
    blocks st' = unlinkBlock (blocks st) s ∧
    yieldRedirects st' = yieldRedirects st.
Proof.
  intros Hb Hc H. simpl in H.
  apply bind_inv in H as (bs & st0 & E0 & H). inversion E0; subst; clear E0.
  simpl in H. rewrite Hb, Hc in H. simpl in H.
  apply bind_inv in H as (n & stn & En & H). inversion En; subst; clear En.
  simpl in H.
  apply bind_inv in H as (p & st1 & E1 & H). cbv beta in H.
  apply bind_inv in H as (u & st2 & E2 & H). cbv beta in H.
  apply bind_inv in H as (u' & st3 & E3 & H). cbv beta in H.
  inversion H; subst; clear H.
  pose proof (allocPc_spec _ _ _ E1) as (_ & _ & _ & Hs1 & Hy1 & Hb1 & _).
  apply modifyBlocks_spec in E2 as (Hs2 & Hb2 & Hy2 & _).
  apply pushState_spec in E3 as (Hs3 & Hb3 & Hy3 & _).
  exists st1. split; [done|]. split; [congruence|]. split; [|congruence].
  rewrite Hb3, Hb2, Hb1. done.
Qed.

Lemma getFullBlock_unlink_ne bs s s' :
  s ≠ s' → getFullBlock (unlinkBlock bs s) s' = getFullBlock bs s'.
Proof.
  intros Hne. unfold unlinkBlock, setParent, setNext.
  destruct (getFullBlock bs s) as [b|] eqn:Hb.
  - rewrite getFullBlock_insert, decide_True by done.
    rewrite !getFullBlock_insert. by rewrite !decide_False by done.
  - by rewrite Hb.
Qed.

Lemma inputRef_nonempty b name s : inputRef b name = Some s → s ≠ "".
Proof.
  unfold inputRef. destruct (inputs b !! name) as [[id|tag text|]|]; try done.
  - case_decide; [done|]. by intros [= <-].
  - intros [= <-]. destruct (pretty tag); done.
Qed.

(** The forever case of [decomposeControlBlock]. *)
Lemma decompose_forever_body rec b blockId c st a st' first :
  opcode b = "control_forever" → inputRef b "SUBSTACK" = Some first →
  decomposeControlBlock rec b blockId c st = Some (a, st') →
  ∃ y st1 st2,
    allocPc st = Some (y, st1) ∧
    rec (walkChain (blocks st) first) y st1 = Some (a, st2) ∧
    yieldRedirects st' = <[y := a]> (yieldRedirects st2) ∧
    states st' = states st2.
Proof.
  intros Hop Hsub H. unfold decomposeControlBlock in H. rewrite Hop in H.
  do 2 rewrite decide_False in H by done. rewrite decide_True in H by done.
  rewrite Hsub in H.
  apply bind_inv in H as (bs & sx0 & Ex0 & H). inversion Ex0; subst; clear Ex0.
  apply bind_inv in H as (y & sx1 & Ex1 & H). cbv beta in H.
  apply bind_inv in H as (e & sx2 & Ex2 & H). cbv beta in H.
  apply bind_inv in H as (u1 & sx3 & Ex3 & H). cbv beta in H.
  apply bind_inv in H as (u2 & sx4 & Ex4 & H). cbv beta in H.
  inversion H; subst; clear H.
  apply setRedirect_spec in Ex3 as (Hs3 & _ & Hy3 & _).
  apply modifyBlocks_spec in Ex4 as (Hs4 & _ & Hy4 & _).
  exists y, sx1, sx2. repeat split; [done|done|congruence|congruence].
Qed.

Lemma decompose_forever_empty rec b blockId c st a st' :
  opcode b = "control_forever" → inputRef b "SUBSTACK" = None →
  decomposeControlBlock rec b blockId c st = Some (a, st') →
  states st' = states st ++ [plainState a [] a false] ∧
  yieldRedirects st' = <[a := a]> (yieldRedirects st) ∧
  a ≠ EXIT_PC.
Proof.
  intros Hop Hsub H. unfold decomposeControlBlock in H. rewrite Hop in H.
  do 2 rewrite decide_False in H by done. rewrite decide_True in H by done.
  rewrite Hsub in H.
  apply bind_inv in H as (p & sx1 & Ex1 & H). cbv beta in H.
  apply bind_inv in H as (u0 & sx2 & Ex2 & H). cbv beta in H.
  apply bind_inv in H as (u1 & sx3 & Ex3 & H). cbv beta in H.
  apply bind_inv in H as (u2 & sx4 & Ex4 & H). cbv beta in H.
  inversion H; subst; clear H.
  apply allocPc_spec in Ex1 as (Hp & _ & _ & Hs1 & Hy1 & _).
  apply pushState_spec in Ex2 as (Hs2 & _ & Hy2 & _).
  apply setRedirect_spec in Ex3 as (Hs3 & _ & Hy3 & _).
  apply modifyBlocks_spec in Ex4 as (Hs4 & _ & Hy4 & _).
  repeat split; [congruence|congruence|done].
Qed.

Lemma decompose_forever_continuation rec b blockId c1 c2 st :
  opcode b = "control_forever" →
  decomposeControlBlock rec b blockId c1 st = decomposeControlBlock rec b blockId c2 st.
Proof.
  intros Hop. unfold decomposeControlBlock. rewrite Hop.
  do 2 rewrite decide_False by done. by rewrite decide_True by done.
Qed.

(** ** The repeat-N protocol *)

Lemma exec_cons userExpr userStmt args fuel s l rt :
  exec userExpr userStmt args fuel (s :: l) rt =
  execStmt userExpr userStmt args fuel s rt ≫= exec userExpr userStmt args fuel l.
Proof. simpl. by destruct (execStmt _ _ _ _ _ _). Qed.

Lemma exec_step userExpr userStmt args fuel s l rt rt1 :
  execStmt userExpr userStmt args fuel s rt = Some rt1 →
  exec userExpr userStmt args fuel (s :: l) rt = exec userExpr userStmt args fuel l rt1.
Proof. intros H. simpl. by rewrite H. Qed.

Lemma execStmt_SSetVar userExpr userStmt args fuel id e v rt :
  eval userExpr args rt e = Some v →
  execStmt userExpr userStmt args fuel (SSetVar id e) rt = Some (setVar rt id v).
Proof. intros H. simpl. by rewrite H. Qed.

Lemma execStmt_SAddToList userExpr userStmt args fuel l e v rt :
  eval userExpr args rt e = Some v →
  execStmt userExpr userStmt args fuel (SAddToList l e) rt
    = Some (setList rt l (getList rt l ++ [v])).
Proof. intros H. simpl. by rewrite H. Qed.

Lemma execStmt_SDeleteOfList userExpr userStmt args fuel l idx i rt :
  eval userExpr args rt idx = Some (VNum i) →
  execStmt userExpr userStmt args fuel (SDeleteOfList l idx) rt
    = Some (setList rt l (deleteAt (getList rt l) i)).
Proof. intros H. simpl. unfold evalNum. by rewrite H. Qed.

Lemma execStmt_SReplace userExpr userStmt args fuel l idx e i v rt :
  eval userExpr args rt idx = Some (VNum i) →
  eval userExpr args rt e = Some v →
  execStmt userExpr userStmt args fuel (SReplace l idx e) rt
    = Some (setList rt l (replaceAt (getList rt l) i v)).
Proof. intros H1 H2. simpl. unfold evalNum. by rewrite H1, H2. Qed.

Section RepeatLoop.
Variable userExpr : string → Runtime → option Value.
Variable userStmt : string → Runtime → option Runtime.
Variable args : gmap string Value.
Variable fuel : nat.
Variable ctx : ScriptCFFContext.
Variable config : CffConfig.
Variable yr : gmap Z Z.
Variable rnd : Rand.
Variable tid : Value.

Hypothesis Htid : args !! stepThreadArg ctx = Some tid.
Hypothesis Hscramble : ∀ n, 1000 <= rScramble rnd n <= 99999.
Hypothesis Hlists :
  NoDup [counterKeyId (lists ctx); counterValId (lists ctx); pcValId (lists ctx)].

Let keys := counterKeyId (lists ctx).
Let vals := counterValId (lists ctx).
Let pcs := pcValId (lists ctx).

Lemma repeat_lists_distinct : keys ≠ vals ∧ keys ≠ pcs ∧ vals ≠ pcs.
Proof.
  unfold keys, vals, pcs. apply NoDup_cons in Hlists as [H1 H2].
  apply NoDup_cons in H2 as [H2 _]. set_solver.
Qed.

Lemma eval_buildCounterKey rt loopStaticId :
  eval userExpr args rt (buildCounterKey ctx loopStaticId)
    = Some (counterKey tid loopStaticId).
Proof. unfold buildCounterKey. cbn [eval]. by rewrite Htid. Qed.

Lemma eval_counterIndex rt loopStaticId :
  eval userExpr args rt (counterIndex ctx loopStaticId)
    = Some (VNum (itemNum (getList rt keys) (counterKey tid loopStaticId))).
Proof.
  unfold counterIndex. cbn [eval]. by rewrite eval_buildCounterKey.
Qed.

Lemma eval_counterRead rt loopStaticId :
  eval userExpr args rt (counterRead ctx loopStaticId)
    = Some (itemOf (getList rt vals)
              (itemNum (getList rt keys) (counterKey tid loopStaticId))).
Proof.
  unfold counterRead. cbn [eval]. by rewrite eval_counterIndex.
Qed.

(** Running the two blocks of a PC write. *)
Lemma exec_resolveAndWritePc n p cur row rt :
  PC_MIN <= cur <= PC_MAX → PC_MIN <= resolvePc yr p <= PC_MAX →
  getVar rt (cachedPcVarId ctx) = VNum cur →
  getVar rt (baseIndexVarId ctx) = VNum row →
  exec userExpr userStmt args fuel (resolveAndWritePc ctx config yr rnd n p cur).1 rt
    = Some (afterPcWrite ctx yr row p rt).
Proof.
  intros Hc Ht Hv Hb. unfold resolveAndWritePc, afterPcWrite.
  assert (He : eval userExpr args rt (pcValue ctx config rnd n cur (resolvePc yr p))
               = Some (VNum (resolvePc yr p))).
  { unfold pcValue. destruct (obfuscatePcTransitions config); [|done].
    apply eval_buildObfuscatedPcExpr; auto. }
  destruct (shouldYield yr p); simpl fst; unfold writePcToList;
    (erewrite exec_step;
       [|apply execStmt_SReplace; [cbn [eval]; by rewrite Hb|exact He]]);
    rewrite exec_single; by apply execStmt_SSetVar.
Qed.

Lemma getList_afterPcWrite row p rt l :
  getList (afterPcWrite ctx yr row p rt) l =
  if decide (pcs = l)
  then replaceAt (getList rt pcs) row (VNum (resolvePc yr p))
  else getList rt l.
Proof.
  unfold afterPcWrite. destruct (shouldYield yr p); rewrite getList_setVar;
    case_decide; subst; fold pcs;
    by rewrite ?getList_setList_eq, ?getList_setList_ne by done.
Qed.

Lemma buildStateBody_repeatInit initPc checkPc countId loopId :
  buildStateBody ctx config yr rnd
    (repeatInitState initPc checkPc (mkRepeatInit countId loopId)) =
  [SAddToList keys (buildCounterKey ctx loopId);
   SAddToList vals (ECeiling (EUser countId))] ++
  (resolveAndWritePc ctx config yr rnd 0 checkPc initPc).1.
Proof.
  unfold buildStateBody. simpl.
  unfold resolveAndWritePc. by destruct (shouldYield yr checkPc).
Qed.

Lemma buildStateBody_repeatCheck checkPc c loopId bodyPc exitPc :
  buildStateBody ctx config yr rnd
    (repeatCheckState checkPc c (mkRepeatCheck loopId bodyPc exitPc)) =
  [SIfElse (EGt (counterRead ctx loopId) (ENum 0))
     (SReplace vals (counterIndex ctx loopId) (ESub (counterRead ctx loopId) (ENum 1))
      :: (resolveAndWritePc ctx config yr rnd 0 bodyPc checkPc).1)
     ([SSetVar (rVarId rnd 0) (counterIndex ctx loopId);
       SDeleteOfList keys (EVar (rVarId rnd 0));
       SDeleteOfList vals (EVar (rVarId rnd 0))] ++
      (resolveAndWritePc ctx config yr rnd 1 exitPc checkPc).1)].
Proof. reflexivity. Qed.

(** The init state: one key/value pair is appended to the counter store
    and the PC moves on. *)
Lemma exec_repeatInit initPc checkPc countId loopId n row rt :
  PC_MIN <= initPc <= PC_MAX → PC_MIN <= resolvePc yr checkPc <= PC_MAX →
  getVar rt (cachedPcVarId ctx) = VNum initPc →
  getVar rt (baseIndexVarId ctx) = VNum row →
  userExpr countId
    (setList rt keys (getList rt keys ++ [counterKey tid loopId])) = Some (VNum n) →
  ∃ rt',
    exec userExpr userStmt args fuel
      (buildStateBody ctx config yr rnd
         (repeatInitState initPc checkPc (mkRepeatInit countId loopId))) rt = Some rt' ∧
    getList rt' keys = getList rt keys ++ [counterKey tid loopId] ∧
    getList rt' vals = getList rt vals ++ [VNum n] ∧
    getList rt' pcs = replaceAt (getList rt pcs) row (VNum (resolvePc yr checkPc)).
Proof.
  intros Hi Hc Hv Hb Hn. destruct repeat_lists_distinct as (Hkv & Hkp & Hvp).
  rewrite buildStateBody_repeatInit.
  eexists. split.
  - change ([?a; ?b] ++ ?l) with (a :: b :: l).
    erewrite exec_step; [|apply execStmt_SAddToList, eval_buildCounterKey].
    erewrite exec_step;
      [|apply execStmt_SAddToList; cbn [eval]; rewrite Hn; reflexivity].
    by apply exec_resolveAndWritePc.
  - rewrite !getList_afterPcWrite. fold pcs keys vals.
    rewrite decide_False by done. rewrite decide_False by done.
    rewrite decide_True by done.
    rewrite !getList_setList_eq.
    rewrite (getList_setList_ne _ vals keys) by done.
    rewrite getList_setList_eq.
    rewrite (getList_setList_ne _ keys vals) by done.
    rewrite (getList_setList_ne _ vals pcs) by done.
    rewrite (getList_setList_ne _ keys pcs) by done.
    done.
Qed.

(** The check state with a positive counter: the counter is decremented
    in place and the PC moves to the body. *)
Lemma exec_repeatCheck_positive checkPc c loopId bodyPc exitPc n row rt :
  let i := itemNum (getList rt keys) (counterKey tid loopId) in
  PC_MIN <= checkPc <= PC_MAX → PC_MIN <= resolvePc yr bodyPc <= PC_MAX →
  getVar rt (cachedPcVarId ctx) = VNum checkPc →
  getVar rt (baseIndexVarId ctx) = VNum row →
  itemOf (getList rt vals) i = VNum n → 0 < n <= MAX_SAFE →
  ∃ rt',
    exec userExpr userStmt args fuel
      (buildStateBody ctx config yr rnd
         (repeatCheckState checkPc c (mkRepeatCheck loopId bodyPc exitPc))) rt = Some rt' ∧
    getList rt' keys = getList rt keys ∧
    getList rt' vals = replaceAt (getList rt vals) i (VNum (n - 1)) ∧
    getList rt' pcs = replaceAt (getList rt pcs) row (VNum (resolvePc yr bodyPc)).
Proof.
  intros i Hi Hc Hv Hb Hn Hpos. destruct repeat_lists_distinct as (Hkv & Hkp & Hvp).
  rewrite buildStateBody_repeatCheck. eexists. split.
  - rewrite exec_single, execStmt_SIfElse. unfold evalBool. cbn [eval].
    rewrite eval_counterRead. fold i. rewrite Hn, order_nums.
    rewrite (proj2 (Z.gtb_lt _ _)) by lia.
    erewrite exec_step.
    2:{ apply execStmt_SReplace; [apply eval_counterIndex|].
        cbn [eval]. rewrite eval_counterRead. fold i. rewrite Hn.
        apply (arith_exact _ n 1 (n - 1)); unfold MAX_SAFE in *;
          [lia|lia|reflexivity|lia]. }
    by apply exec_resolveAndWritePc.
  - rewrite !getList_afterPcWrite. fold pcs keys vals i.
    rewrite decide_False by done. rewrite decide_False by done.
    rewrite decide_True by done.
    rewrite getList_setList_eq.
    rewrite (getList_setList_ne _ vals keys) by done.
    rewrite (getList_setList_ne _ vals pcs) by done.
    done.
Qed.

(** The check state with an exhausted counter: the key/value pair is
    removed and the PC moves to the continuation. *)
Lemma exec_repeatCheck_done checkPc c loopId bodyPc exitPc n row rt :
  let i := itemNum (getList rt keys) (counterKey tid loopId) in
  rVarId rnd 0 ≠ cachedPcVarId ctx → rVarId rnd 0 ≠ baseIndexVarId ctx →
  PC_MIN <= checkPc <= PC_MAX → PC_MIN <= resolvePc yr exitPc <= PC_MAX →
  getVar rt (cachedPcVarId ctx) = VNum checkPc →
  getVar rt (baseIndexVarId ctx) = VNum row →
  itemOf (getList rt vals) i = VNum n → n <= 0 →
  ∃ rt',
    exec userExpr userStmt args fuel
      (buildStateBody ctx config yr rnd
         (repeatCheckState checkPc c (mkRepeatCheck loopId bodyPc exitPc))) rt = Some rt' ∧
    getList rt' keys = deleteAt (getList rt keys) i ∧
    getList rt' vals = deleteAt (getList rt vals) i ∧
    getList rt' pcs = replaceAt (getList rt pcs) row (VNum (resolvePc yr exitPc)).
Proof.
  intros i Ht1 Ht2 Hi Hc Hv Hb Hn Hneg.
  destruct repeat_lists_distinct as (Hkv & Hkp & Hvp).
  rewrite buildStateBody_repeatCheck. eexists. split.
  - rewrite exec_single, execStmt_SIfElse. unfold evalBool. cbn [eval].
    rewrite eval_counterRead. fold i. rewrite Hn, order_nums.
    replace (n >? 0) with false by (rewrite Z.gtb_ltb; symmetry; apply Z.ltb_ge; lia).
    change ([?a; ?b; ?d] ++ ?l) with (a :: b :: d :: l).
    erewrite exec_step; [|apply execStmt_SSetVar, eval_counterIndex].
    fold i.
    erewrite exec_step;
      [|apply execStmt_SDeleteOfList; cbn [eval]; by rewrite getVar_setVar_eq].
    erewrite exec_step;
      [|apply execStmt_SDeleteOfList; cbn [eval];
        by rewrite getVar_setList, getVar_setVar_eq].
    apply exec_resolveAndWritePc; try done.
    + by rewrite !getVar_setList, getVar_setVar_ne.
    + by rewrite !getVar_setList, getVar_setVar_ne.
  - rewrite !getList_afterPcWrite. fold pcs keys vals i.
    rewrite decide_False by done. rewrite decide_False by done.
    rewrite decide_True by done.
    rewrite getList_setList_eq.
    rewrite (getList_setList_ne _ vals keys) by done.
    rewrite getList_setList_eq.
    rewrite (getList_setList_ne _ keys vals) by done.
    rewrite (getList_setList_ne _ vals pcs) by done.
    rewrite (getList_setList_ne _ keys pcs) by done.
    rewrite !getList_setVar. done.
Qed.

End RepeatLoop.

(** The repeat case of [decomposeControlBlock]. *)
Lemma decompose_repeat rec b blockId c st a st' :
  opcode b = "control_repeat" →
  decomposeControlBlock rec b blockId c st = Some (a, st') →
  ∃ loopId checkPc y bodyEntry stA stB,
    states stA = states st ∧
    yieldRedirects stA !! y = Some checkPc ∧
    substackChain rec (inputRef b "SUBSTACK") y stA = Some (bodyEntry, stB) ∧
    states st' = states stB ++
      [repeatInitState a checkPc (mkRepeatInit (default "" (inputRef b "TIMES")) loopId);
       repeatCheckState checkPc c (mkRepeatCheck loopId bodyEntry c)] ∧
    yieldRedirects st' = yieldRedirects stB ∧
    a ≠ EXIT_PC ∧ checkPc ≠ EXIT_PC ∧ y ≠ EXIT_PC ∧
    a ≠ checkPc ∧ a ≠ y ∧ checkPc ≠ y.
Proof.
  intros Hop H. unfold decomposeControlBlock in H. rewrite Hop in H.
  do 3 rewrite decide_False in H by done. rewrite decide_True in H by done.
  apply bind_inv in H as (loopId & sx0 & Ex0 & H). cbv beta in H.
  apply bind_inv in H as (initPc & sx1 & Ex1 & H). cbv beta in H.
  apply bind_inv in H as (checkPc & sx2 & Ex2 & H). cbv beta in H.
  apply bind_inv in H as (u3 & sx3 & Ex3 & H). cbv beta in H.
  apply bind_inv in H as (y & sx4 & Ex4 & H). cbv beta in H.
  apply bind_inv in H as (u5 & sx5 & Ex5 & H). cbv beta in H.
  apply bind_inv in H as (bodyEntry & sx6 & Ex6 & H). cbv beta in H.
  apply bind_inv in H as (u7 & sx7 & Ex7 & H). cbv beta in H.
  apply bind_inv in H as (u8 & sx8 & Ex8 & H). cbv beta in H.
  apply bind_inv in H as (u9 & sx9 & Ex9 & H). cbv beta in H.
  inversion H; subst; clear H.
  apply neutral_uid in Ex0 as (Hs0 & Hu0).
  apply allocPc_spec in Ex1 as (Hz1 & Hn1 & Hu1 & Hs1 & _).
  apply allocPc_spec in Ex2 as (Hz2 & Hn2 & Hu2 & Hs2 & _).
  apply clearParent_spec in Ex3 as (Hs3 & _ & Hu3).
  apply allocPc_spec in Ex4 as (Hz4 & Hn4 & Hu4 & Hs4 & _).
  apply setRedirect_spec in Ex5 as (Hs5 & _ & Hy5 & _).
  apply pushState_spec in Ex7 as (Hs7 & _ & Hy7 & _).
  apply pushState_spec in Ex8 as (Hs8 & _ & Hy8 & _).
  apply modifyBlocks_spec in Ex9 as (Hs9 & _ & Hy9 & _).
  exists loopId, checkPc, y, bodyEntry, sx5, sx6.
  split; [congruence|]. split; [by rewrite Hy5, lookup_insert_eq|].
  split; [done|]. split; [rewrite Hs9, Hs8, Hs7; by rewrite <-app_assoc|].
  split; [congruence|]. unfold EXIT_PC.
  repeat split; try done.
  - intros ->. apply Hn2. rewrite Hu1. set_solver.
  - intros ->. apply Hn4. rewrite Hu3, Hu2, Hu1. set_solver.
  - intros ->. apply Hn4. rewrite Hu3, Hu2. set_solver.
Qed.

(** ** The thread registry: parallel lists stay aligned *)

Lemma rowsKept_refl l base rt : rowsKept l base rt rt.
Proof. done. Qed.

Lemma rowsKept_trans l base rt1 rt2 rt3 :
  rowsKept l base rt1 rt2 → rowsKept l base rt2 rt3 → rowsKept l base rt1 rt3.
Proof.
  intros (A1 & B1 & C1) (A2 & B2 & C2). repeat split; [congruence| |congruence].
  intros id Hid. rewrite B2, B1; done.
Qed.

Lemma length_replaceAt l i v : length (replaceAt l i v) = length l.
Proof. unfold replaceAt. destruct (validIndex l i); [apply length_insert|done]. Qed.

Lemma length_deleteAt l i :
  validIndex l i = true → length (deleteAt l i) = (length l - 1)%nat.
Proof.
  intros H. unfold deleteAt. rewrite H. unfold validIndex in H.
  apply andb_prop in H as [H1 H2]. apply Z.leb_le in H1, H2.
  rewrite length_delete; [done|]. apply lookup_lt_is_Some. lia.
Qed.

Lemma pcIdId_parallel l : pcIdId l ∈ parallelLists l.
Proof. unfold parallelLists. set_solver. Qed.

Section RowSafe.
Variable userExpr : string → Runtime → option Value.
Variable userStmt : string → Runtime → option Runtime.
Variable args : gmap string Value.
Variable fuel : nat.
Variable l : TargetCFFLists.
Variable base : string.

Hypothesis userFrame : ∀ id rt rt',
  userStmt id rt = Some rt' →
  (∀ li, li ∈ parallelLists l → getList rt' li = getList rt li) ∧
  getVar rt' base = getVar rt base.

Lemma rowsKept_setList_other rt li v :
  li ∉ parallelLists l → rowsKept l base rt (setList rt li v).
Proof.
  intros Hli. repeat split.
  - rewrite getList_setList_ne; [done|]. intros ->. apply Hli, pcIdId_parallel.
  - intros id Hid. rewrite getList_setList_ne; [done|]. by intros ->.
Qed.

Lemma rowsKept_replace rt li i v :
  li ≠ pcIdId l → rowsKept l base rt (setList rt li (replaceAt (getList rt li) i v)).
Proof.
  intros Hli. repeat split.
  - by rewrite getList_setList_ne.
  - intros id Hid. destruct (decide (li = id)) as [->|Hne].
    + by rewrite getList_setList_eq, length_replaceAt.
    + by rewrite getList_setList_ne.
Qed.

Lemma rowSafe_exec : ∀ s rt rt',
  rowSafe l base s →
  execStmt userExpr userStmt args fuel s rt = Some rt' → rowsKept l base rt rt'.
Proof.
  fix IH 1. intros s.
  assert (IHall : ∀ ss rt rt',
            (fix all (ss : list Stmt) : Prop :=
               match ss with
               | [] => True
               | x :: r => rowSafe l base x ∧ all r
               end) ss →
            exec userExpr userStmt args fuel ss rt = Some rt' → rowsKept l base rt rt').
  { clear s. intros ss. induction ss as [|x r IHr]; intros rt rt' Hsafe H.
    - inversion H; subst. apply rowsKept_refl.
    - destruct Hsafe as [Hx Hr]. apply exec_cons_inv in H as (rt1 & H1 & H2).
      eapply rowsKept_trans;
        [eapply IH; [exact Hx|exact H1] | eapply IHr; [exact Hr|exact H2]]. }
  destruct s; intros rt rt' Hsafe H; simpl in Hsafe.
  - apply execStmt_SSetVar_inv in H as (v & _ & ->). repeat split.
    by rewrite getVar_setVar_ne.
  - simpl in H. destruct (eval _ _ _ _) as [v|]; [|done]. inversion H; subst.
    by apply rowsKept_setList_other.
  - simpl in H. destruct (evalNum _ _ _ _) as [i|]; [|done]. inversion H; subst.
    by apply rowsKept_setList_other.
  - simpl in H. inversion H; subst. by apply rowsKept_setList_other.
  - apply execStmt_SReplace_inv in H as (i & v & _ & _ & ->). by apply rowsKept_replace.
  - rewrite execStmt_SIf in H. destruct (evalBool _ _ _ _) as [[|]|]; [|inversion H; subst|done].
    + eapply IHall; [exact Hsafe|exact H].
    + apply rowsKept_refl.
  - rewrite execStmt_SIfElse in H. destruct Hsafe as [Ht He].
    destruct (evalBool _ _ _ _) as [[|]|]; [| |done].
    + eapply IHall; [exact Ht|exact H].
    + eapply IHall; [exact He|exact H].
  - simpl in H.
    match type of H with
    | ?loop fuel rt = _ =>
        assert (Hloop : ∀ n r r', loop n r = Some r' → rowsKept l base r r')
    end.
    { clear rt rt' H. induction n as [|n IHn]; intros r r' H; [done|].
      cbn beta iota in H.
      destruct (evalBool userExpr args r c) as [[|]|];
        [inversion H; subst; apply rowsKept_refl| |done].
      match type of H with
      | match ?e with _ => _ end = _ => destruct e as [r1|] eqn:E; [|done]
      end.
      eapply rowsKept_trans; [eapply (IHall body); [exact Hsafe|exact E]|by apply IHn]. }
    by eapply Hloop.
  - inversion H; subst. done.
  - simpl in H. destruct (eval _ _ _ _); [|done]. inversion H; subst. done.
  - simpl in H. destruct (eval _ _ _ _); [|done]. inversion H; subst. done.
  - simpl in H. destruct (mapM _ _); [|done]. inversion H; subst. done.
  - simpl in H. apply userFrame in H as [H1 H2]. repeat split; [|by intros; rewrite H1|done].
    apply H1, pcIdId_parallel.
Qed.
End RowSafe.

Lemma rowSafeAll_exec userExpr userStmt args fuel l base
    (userFrame : ∀ id rt rt', userStmt id rt = Some rt' →
       (∀ li, li ∈ parallelLists l → getList rt' li = getList rt li) ∧
       getVar rt' base = getVar rt base) :
  ∀ ss rt rt', rowSafeAll l base ss →
    exec userExpr userStmt args fuel ss rt = Some rt' → rowsKept l base rt rt'.
Proof.
  induction ss as [|x r IH]; intros rt rt' Hs H.
  - inversion H; subst. apply rowsKept_refl.
  - destruct Hs as [Hx Hr]. apply exec_cons_inv in H as (rt1 & H1 & H2).
    eapply rowsKept_trans; [|eapply IH; [exact Hr|exact H2]].
    eapply rowSafe_exec; [exact userFrame|exact Hx|exact H1].
Qed.

Lemma rowSafeAll_app l base ss1 ss2 :
  rowSafeAll l base (ss1 ++ ss2) ↔ rowSafeAll l base ss1 ∧ rowSafeAll l base ss2.
Proof. induction ss1 as [|x r IH]; simpl; [tauto|]. rewrite IH. tauto. Qed.

Lemma rowSafeAll_users l base body : rowSafeAll l base (map SUser body).
Proof. induction body; simpl; auto. Qed.

Lemma applyUpdates_spec us : ∀ rt,
  NoDup us.*1 →
  rtVars (applyUpdates us rt) = rtVars rt ∧
  rtTrace (applyUpdates us rt) = rtTrace rt ∧
  (∀ li f, (li, f) ∈ us → getList (applyUpdates us rt) li = f (getList rt li)) ∧
  (∀ li, li ∉ us.*1 → getList (applyUpdates us rt) li = getList rt li).
Proof.
  induction us as [|[li0 f0] us IH]; intros rt Hnd; simpl.
  - split; [done|]. split; [done|]. split; [|done].
    intros li f H. by apply elem_of_nil in H.
  - apply NoDup_cons in Hnd as [Hni Hnd].
    destruct (IH (setList rt li0 (f0 (getList rt li0))) Hnd) as (Hv & Ht & Hin & Hout).
    unfold applyUpdates in *. simpl in *. split; [done|]. split; [done|]. split.
    + intros li f H. apply elem_of_cons in H as [H|H].
      * inversion H; subst. rewrite Hout by done. apply getList_setList_eq.
      * rewrite (Hin li f H). rewrite getList_setList_ne; [done|].
        intros ->. apply Hni. apply list_elem_of_fmap. by exists (li, f).
    + intros li H. apply not_elem_of_cons in H as [Hne H].
      rewrite Hout by done. by rewrite getList_setList_ne.
Qed.

Lemma registrationUpdates_lists ctx entry tok :
  (registrationUpdates ctx entry tok).*1 = parallelLists (lists ctx).
Proof. unfold registrationUpdates, parallelLists. by destruct (needsWait _). Qed.

Lemma deletionUpdates_lists ctx i :
  (deletionUpdates ctx i).*1 = parallelLists (lists ctx).
Proof.
  unfold deletionUpdates. rewrite <-list_fmap_compose.
  induction (parallelLists (lists ctx)); simpl; [done|]. by f_equal.
Qed.

Lemma exec_runRegistration userExpr userStmt args fuel ctx entry tok rt :
  args !! runThreadArg ctx = Some tok →
  exec userExpr userStmt args fuel (runRegistration ctx entry) rt
    = Some (applyUpdates (registrationUpdates ctx entry tok) rt).
Proof.
  intros Ht. unfold runRegistration, registrationUpdates.
  destruct (needsWait (lists ctx)); simpl; by rewrite Ht.
Qed.

Lemma exec_deleteRow userExpr userStmt args fuel ctx i rt :
  getVar rt (baseIndexVarId ctx) = VNum i →
  exec userExpr userStmt args fuel (deleteRow ctx) rt
    = Some (applyUpdates (deletionUpdates ctx i) rt).
Proof.
  intros Hb. unfold deleteRow, deletionUpdates, parallelLists.
  destruct (needsWait (lists ctx)); cbn [app fmap list_fmap];
    repeat (erewrite exec_step;
            [|apply execStmt_SDeleteOfList; cbn [eval];
              rewrite ?getVar_setList; by rewrite Hb]);
    reflexivity.
Qed.

Lemma aligned_registration ctx entry tok rt n :
  NoDup (parallelLists (lists ctx)) →
  aligned (lists ctx) rt n →
  aligned (lists ctx) (applyUpdates (registrationUpdates ctx entry tok) rt) (S n) ∧
  getList (applyUpdates (registrationUpdates ctx entry tok) rt) (pcIdId (lists ctx))
    = getList rt (pcIdId (lists ctx)) ++ [tok].
Proof.
  intros Hnd Ha.
  destruct (applyUpdates_spec (registrationUpdates ctx entry tok) rt) as (_ & _ & Hin & _).
  { by rewrite registrationUpdates_lists. }
  split.
  - intros id Hid.
    assert (∃ v, (id, fun l => l ++ [v]) ∈ registrationUpdates ctx entry tok) as [v Hv].
    { unfold registrationUpdates, parallelLists in *.
      destruct (needsWait (lists ctx)); simpl in *.
      - apply elem_of_cons in Hid as [->|Hid]; [exists tok; apply list_elem_of_here|].
        apply elem_of_cons in Hid as [->|Hid];
          [exists (VNum entry); apply list_elem_of_further, list_elem_of_here|].
        apply elem_of_cons in Hid as [->|Hid];
          [exists (VNum 0); do 2 apply list_elem_of_further; apply list_elem_of_here|].
        apply elem_of_cons in Hid as [->|Hid];
          [exists (VStr ""); do 3 apply list_elem_of_further; apply list_elem_of_here|].
        by apply elem_of_nil in Hid.
      - apply elem_of_cons in Hid as [->|Hid]; [exists tok; apply list_elem_of_here|].
        apply elem_of_cons in Hid as [->|Hid];
          [exists (VNum entry); apply list_elem_of_further, list_elem_of_here|].
        by apply elem_of_nil in Hid. }
    rewrite (Hin _ _ Hv), length_app, (Ha id Hid). simpl. lia.
  - apply (Hin _ (fun l => l ++ [tok])). unfold registrationUpdates. set_solver.
Qed.

Lemma aligned_deletion ctx i rt n :
  NoDup (parallelLists (lists ctx)) →
  aligned (lists ctx) rt (S n) → 1 <= i <= Z.of_nat (S n) →
  aligned (lists ctx) (applyUpdates (deletionUpdates ctx i) rt) n.
Proof.
  intros Hnd Ha Hi.
  destruct (applyUpdates_spec (deletionUpdates ctx i) rt) as (_ & _ & Hin & _).
  { by rewrite deletionUpdates_lists. }
  intros id Hid.
  rewrite (Hin id (fun l => deleteAt l i)).
  - rewrite length_deleteAt; [rewrite (Ha id Hid); lia|].
    unfold validIndex. rewrite (Ha id Hid).
    apply andb_true_intro. split; apply Z.leb_le; lia.
  - unfold deletionUpdates. apply list_elem_of_fmap. by exists id.
Qed.

Lemma looseEq_refl v : looseEq v v = true.
Proof.
  destruct v; simpl; [apply Z.eqb_refl|by apply bool_decide_eq_true_2..].
Qed.

Lemma itemNumFrom_bounds l v : ∀ k,
  (∃ x, x ∈ l ∧ looseEq x v = true) →
  k <= itemNumFrom l v k < k + Z.of_nat (length l).
Proof.
  induction l as [|y l IH]; intros k (x & Hx & He).
  - by apply elem_of_nil in Hx.
  - simpl. destruct (looseEq y v) eqn:Hy; [lia|].
    apply elem_of_cons in Hx as [->|Hx]; [congruence|].
    specialize (IH (k + 1) ltac:(eauto)). lia.
Qed.

(** A token that is in the token list has a row. *)
Lemma itemNum_present l tok :
  tok ∈ l → 1 <= itemNum l tok <= Z.of_nat (length l).
Proof.
  intros H. unfold itemNum.
  pose proof (itemNumFrom_bounds l tok 1 ltac:(eauto using looseEq_refl)). lia.
Qed.

(** ** State bodies and the registry *)

Lemma rowSafeAll_take l base k ss : rowSafeAll l base ss → rowSafeAll l base (take k ss).
Proof.
  revert k. induction ss as [|x r IH]; intros [|k] H; simpl; try done.
  destruct H as [Hx Hr]. split; [done|by apply IH].
Qed.

Lemma rowSafeAll_linkBlocks l base blocks :
  Forall (rowSafeAll l base) blocks → rowSafeAll l base (linkBlocks blocks).
Proof.
  induction 1 as [|c rest Hc Hrest IH]; [done|].
  destruct rest as [|c' rest']; [done|].
  change (linkBlocks (c :: c' :: rest')) with (take 1 c ++ linkBlocks (c' :: rest')).
  apply rowSafeAll_app. split; [by apply rowSafeAll_take|done].
Qed.

Lemma rowSafeAll_finish l base blocks d :
  rowSafeAll l base d → Forall (rowSafeAll l base) blocks →
  rowSafeAll l base (match blocks with [] => d | _ => linkBlocks blocks end).
Proof.
  intros Hd Hb. destruct blocks; [done|]. by apply rowSafeAll_linkBlocks.
Qed.

Lemma linkBlocks_singletons ss : linkBlocks ((fun s => [s]) <$> ss) = ss.
Proof.
  induction ss as [|x r IH]; [done|].
  destruct r as [|y r']; [done|].
  change (linkBlocks _) with ([x] ++ linkBlocks ((fun s => [s]) <$> (y :: r'))).
  by rewrite IH.
Qed.

Lemma pcValId_ne_pcIdId l : NoDup (parallelLists l) → pcValId l ≠ pcIdId l.
Proof.
  unfold parallelLists. intros H E. simpl in H.
  apply NoDup_cons in H as [H _]. apply H. rewrite E. apply list_elem_of_here.
Qed.

Lemma rowSafeAll_resolveAndWritePc ctx config yr rnd n p cur :
  ctxSeparate ctx →
  rowSafeAll (lists ctx) (baseIndexVarId ctx)
    (resolveAndWritePc ctx config yr rnd n p cur).1.
Proof.
  intros ((Hnd & _) & Hkg & Hc). unfold resolveAndWritePc. cbv zeta.
  destruct (shouldYield yr p); simpl; (split; [by apply pcValId_ne_pcIdId|done]).
Qed.

Lemma rowSafe_buildStateBody ctx config yr rnd s :
  ctxSeparate ctx → idsSeparate ctx rnd s → runsTerminalBody s = false →
  rowSafeAll (lists ctx) (baseIndexVarId ctx) (buildStateBody ctx config yr rnd s).
Proof.
  intros Hctx [Hrnd Hfc] Hterm.
  assert (Hrw : ∀ n p cur, rowSafeAll (lists ctx) (baseIndexVarId ctx)
                   (resolveAndWritePc ctx config yr rnd n p cur).1)
    by (intros; by apply rowSafeAll_resolveAndWritePc).
  destruct Hctx as (Hl & Hkg & Hc). pose proof Hl as (Hnd & Hck & Hcv & Hwq & Hwf & Hbm).
  assert (Hcv' : counterValId (lists ctx) ≠ pcIdId (lists ctx)).
  { intros E. apply Hcv. rewrite E. apply pcIdId_parallel. }
  pose proof (pcValId_ne_pcIdId _ Hnd) as Hpv.
  unfold buildStateBody. cbv zeta. apply rowSafeAll_finish; [apply Hrw|].
  unfold runsTerminalBody in Hterm.
  destruct (branch s) as [br|].
  { case_decide; repeat constructor; apply Hrw. }
  destruct (repeatInit s) as [ri|].
  { repeat constructor; try done; apply Hrw. }
  destruct (repeatCheck s) as [rc|].
  { repeat constructor; try done; try apply Hrw; apply Hrnd. }
  destruct (forEachInit s) as [fi|].
  { repeat constructor; try done; apply Hrw. }
  destruct (forEachCheck s) as [fc|].
  { repeat constructor; try done; try apply Hrw; try apply Hrnd; by apply Hfc. }
  rewrite Hterm.
  destruct (waitStart s) as [ws|].
  { repeat constructor; done. }
  destruct (broadcastWaitStart s) as [bws|].
  { repeat constructor; done. }
  destruct (waitPoll s) as [wp|].
  { repeat constructor; try done. destruct (shouldYield _ _); done. }
  specialize (Hrw 0%nat (nextPc s) (pc s)).
  destruct (resolveAndWritePc _ _ _ _ _ _ _) as [setPc yielded]. simpl in Hrw.
  apply Forall_app. split.
  { apply Forall_forall. intros c Hc'. apply list_elem_of_fmap in Hc' as (bid & -> & _). done. }
  apply Forall_app. split; [by repeat constructor|].
  destruct (isDead s && negb yielded); repeat constructor; done.
Qed.

Lemma buildStateBody_terminal ctx config yr rnd s :
  runsTerminalBody s = true →
  buildStateBody ctx config yr rnd s
  = deleteRow ctx ++ SSetVar (keepGoingVarId ctx) (ENum 0) :: map SUser (bodyBlockIds s).
Proof.
  intros Hterm. unfold runsTerminalBody in Hterm. unfold buildStateBody. cbv zeta.
  destruct (branch s); [done|]. destruct (repeatInit s); [done|].
  destruct (repeatCheck s); [done|]. destruct (forEachInit s); [done|].
  destruct (forEachCheck s); [done|]. rewrite Hterm.
  replace (map (fun s0 => [s0]) (deleteRow ctx) ++
           [[SSetVar (keepGoingVarId ctx) (ENum 0)]] ++
           map (fun bid => [SUser bid]) (bodyBlockIds s))
    with ((fun s0 => [s0]) <$>
            (deleteRow ctx ++ SSetVar (keepGoingVarId ctx) (ENum 0)
               :: map SUser (bodyBlockIds s))).
  - rewrite linkBlocks_singletons.
    unfold deleteRow. by destruct (needsWait (lists ctx)).
  - rewrite fmap_app, fmap_cons. f_equal. simpl. f_equal.
    rewrite <-list_fmap_compose. done.
Qed.

(** ** Rows and tokens *)

Lemma itemNumFrom_fresh l tok : ∀ k, freshToken tok l → itemNumFrom l tok k = 0.
Proof.
  induction l as [|x l IH]; intros k H; simpl; [done|].
  rewrite (H x) by apply list_elem_of_here.
  apply IH. intros y Hy. apply H. by apply list_elem_of_further.
Qed.

Lemma itemNumFrom_last old tok : ∀ k,
  freshToken tok old → itemNumFrom (old ++ [tok]) tok k = k + Z.of_nat (length old).
Proof.
  induction old as [|x old IH]; intros k H; simpl.
  - rewrite looseEq_refl. lia.
  - rewrite (H x) by apply list_elem_of_here.
    rewrite IH; [lia|]. intros y Hy. apply H. by apply list_elem_of_further.
Qed.

Lemma delete_length_app {A} (l : list A) x : delete (length l) (l ++ [x]) = l.
Proof. induction l as [|y l IH]; simpl; [done|]. by f_equal. Qed.

Lemma deleteAt_last (old : list Value) x :
  deleteAt (old ++ [x]) (Z.of_nat (length old) + 1) = old.
Proof.
  unfold deleteAt, validIndex. rewrite length_app. simpl.
  replace (1 <=? Z.of_nat (length old) + 1) with true by (symmetry; apply Z.leb_le; lia).
  replace (Z.of_nat (length old) + 1 <=? Z.of_nat (length old + 1)) with true
    by (symmetry; apply Z.leb_le; lia).
  simpl. replace (Z.to_nat (Z.of_nat (length old) + 1 - 1)) with (length old) by lia.
  apply delete_length_app.
Qed.

Lemma deleteAt_outside (l : list Value) i :
  i = 0 ∨ i = Z.of_nat (length l) + 1 → deleteAt l i = l.
Proof.
  intros Hi. unfold deleteAt, validIndex.
  destruct Hi as [->| ->]; [done|].
  replace (Z.of_nat (length l) + 1 <=? Z.of_nat (length l)) with false
    by (symmetry; apply Z.leb_gt; lia).
  by rewrite andb_false_r.
Qed.

Lemma deletion_spec ctx i rt :
  NoDup (parallelLists (lists ctx)) →
  rtVars (applyUpdates (deletionUpdates ctx i) rt) = rtVars rt ∧
  ∀ id, id ∈ parallelLists (lists ctx) →
    getList (applyUpdates (deletionUpdates ctx i) rt) id = deleteAt (getList rt id) i.
Proof.
  intros Hnd.
  destruct (applyUpdates_spec (deletionUpdates ctx i) rt) as (Hv & _ & Hin & _).
  { by rewrite deletionUpdates_lists. }
  split; [done|]. intros id Hid.
  apply (Hin id (fun l => deleteAt l i)).
  unfold deletionUpdates. apply list_elem_of_fmap. by exists id.
Qed.

Lemma getVar_rtVars rt rt' x : rtVars rt' = rtVars rt → getVar rt' x = getVar rt x.
Proof. unfold getVar. by intros ->. Qed.

Lemma atRow_rowsKept ctx tok old rt rt' :
  rowsKept (lists ctx) (baseIndexVarId ctx) rt rt' → atRow ctx tok old rt → atRow ctx tok old rt'.
Proof.
  intros (Hp & Hl & Hb) [[Hreg Ha] Hbase]. split; [split|]; [congruence| |congruence].
  intros id Hid. rewrite Hl by done. by apply Ha.
Qed.

Lemma offRow_rowsKept ctx old rt rt' :
  rowsKept (lists ctx) (baseIndexVarId ctx) rt rt' → offRow ctx old rt → offRow ctx old rt'.
Proof.
  intros (Hp & Hl & Hb) [[Hrel Ha] Hbase]. split; [split|]; [congruence| |by rewrite Hb].
  intros id Hid. rewrite Hl by done. by apply Ha.
Qed.

Lemma within_rowsKept ctx tok old rt rt' :
  rowsKept (lists ctx) (baseIndexVarId ctx) rt rt' → within ctx tok old rt → within ctx tok old rt'.
Proof.
  intros Hk [H|H]; [left; by eapply atRow_rowsKept|right; by eapply offRow_rowsKept].
Qed.

(** Deleting the row: from the row, the registry shrinks by that row;
    off the row, nothing is deleted. *)
Lemma deleteRow_within userExpr userStmt args fuel ctx tok old rt rt' :
  NoDup (parallelLists (lists ctx)) →
  within ctx tok old rt →
  exec userExpr userStmt args fuel (deleteRow ctx) rt = Some rt' →
  offRow ctx old rt'.
Proof.
  intros Hnd Hw H.
  assert (∃ i, getVar rt (baseIndexVarId ctx) = VNum i) as [i Hi].
  { destruct Hw as [[_ Hb]|[_ [Hb|Hb]]]; eauto. }
  rewrite (exec_deleteRow _ _ _ _ _ i) in H by done. inversion H; subst rt'. clear H.
  destruct (deletion_spec ctx i rt Hnd) as [Hv Hl].
  destruct Hw as [[[Hp Ha] Hb]|[[Hp Ha] Hb]].
  - assert (i = Z.of_nat (length old) + 1) as -> by congruence.
    split; [split|].
    + rewrite Hl by apply pcIdId_parallel. rewrite Hp. apply deleteAt_last.
    + apply aligned_deletion; [done|done|lia].
    + right. by rewrite (getVar_rtVars rt _ _ Hv).
  - assert (Hsame : ∀ id, id ∈ parallelLists (lists ctx) →
              getList (applyUpdates (deletionUpdates ctx i) rt) id = getList rt id).
    { intros id Hid. rewrite Hl by done. apply deleteAt_outside.
      rewrite (Ha id Hid). destruct Hb as [Hb|Hb]; [left|right]; congruence. }
    split; [split|].
    + rewrite Hsame by apply pcIdId_parallel. done.
    + intros id Hid. rewrite Hsame by done. by apply Ha.
    + by rewrite (getVar_rtVars rt _ _ Hv).
Qed.

(** ** The dispatch code runs the body of one of the states *)

Lemma leaves_lookup sorted m : ∀ lo hi t, (hi - lo = m)%nat →
  buildBSTNode (fun i s => Some (DLeaf i s)) (nodeOpt DNode) None sorted lo hi = Some t →
  ∀ i s, (i, s) ∈ leaves t → sorted !! i = Some s.
Proof.
  induction m as [m IH] using lt_wf_ind. intros lo hi t Hm H i s Hin.
  rewrite buildBSTNode_step in H. unfold leafAt, pivotAt in H.
  destruct (decide (lo = hi)) as [->|Hne].
  { destruct (sorted !! hi) as [a|] eqn:Ea; [|done]. inversion H; subst. simpl in Hin.
    apply elem_of_cons in Hin as [Hin|Hin]; [|by apply elem_of_nil in Hin].
    by inversion Hin; subst. }
  destruct (decide (lo + 1 = hi)%nat) as [<-|Hne2].
  { destruct (sorted !! (lo + 1)%nat) as [b|] eqn:Eb; [|done].
    destruct (sorted !! lo) as [a|] eqn:Ea; [|done].
    simpl in H. inversion H; subst. simpl in Hin.
    apply elem_of_cons in Hin as [Hin|Hin]; [by inversion Hin; subst|].
    apply elem_of_cons in Hin as [Hin|Hin]; [|by apply elem_of_nil in Hin].
    by inversion Hin; subst. }
  destruct (decide (hi < lo)%nat) as [Hbad|Hge]; [done|]. cbv zeta in H.
  set (mid := ((lo + hi) / 2)%nat) in *.
  assert (Hmid : (lo <= mid ∧ mid + 1 <= hi)%nat).
  { pose proof (Nat.div_mod_eq (lo + hi) 2) as Hd.
    pose proof (Nat.mod_upper_bound (lo + hi) 2 ltac:(lia)) as Hu.
    fold mid in Hd. lia. }
  destruct (sorted !! (mid + 1)%nat) as [b|] eqn:Eb; [|done].
  destruct (buildBSTNode _ _ _ sorted lo mid) as [tl|] eqn:El; [|done].
  destruct (buildBSTNode _ _ _ sorted (mid + 1) hi) as [tr|] eqn:Er; [|done].
  simpl in H. inversion H; subst. simpl in Hin. apply elem_of_app in Hin as [Hin|Hin].
  - eapply (IH (mid - lo)%nat); [lia|reflexivity|exact El|exact Hin].
  - eapply (IH (hi - (mid + 1))%nat); [lia|reflexivity|exact Er|exact Hin].
Qed.

Lemma dispatchTree_leaves states t i s :
  dispatchTree states = Some t → (i, s) ∈ leaves t → s ∈ states.
Proof.
  intros Ht Hin. unfold dispatchTree in Ht.
  pose proof (leaves_lookup _ _ _ _ _ eq_refl Ht i s Hin) as Hl.
  rewrite <-(sortByPc_Permutation states). by eapply list_elem_of_lookup_2.
Qed.

Lemma buildDispatch_emit ctx config yr oracle states bst :
  buildDispatch ctx config yr oracle states = Some bst →
  ∃ t, dispatchTree states = Some t ∧ bst = emit ctx config yr oracle t.
Proof.
  unfold buildDispatch, dispatchTree. erewrite buildBSTNode_emit by reflexivity.
  destruct (buildBSTNode _ _ _ _ _ _) as [t|]; [|done].
  intros [= <-]. by exists t.
Qed.

Lemma exec_emit_leaf userExpr userStmt args fuel ctx config yr oracle t : ∀ rt rt',
  exec userExpr userStmt args fuel (emit ctx config yr oracle t) rt = Some rt' →
  ∃ i s, (i, s) ∈ leaves t ∧
    exec userExpr userStmt args fuel (buildStateBody ctx config yr (oracle i) s) rt
      = Some rt'.
Proof.
  induction t as [j u|p l IHl r IHr]; intros rt rt' H; cbn [emit] in H.
  - exists j, u. split; [apply list_elem_of_here|done].
  - unfold ifLess in H. rewrite exec_single, execStmt_SIfElse in H.
    destruct (evalBool _ _ _ _) as [[|]|]; [| |done].
    + destruct (IHl _ _ H) as (i & s & Hin & He). exists i, s. split; [|done].
      cbn [leaves]. apply elem_of_app. by left.
    + destruct (IHr _ _ H) as (i & s & Hin & He). exists i, s. split; [|done].
      cbn [leaves]. apply elem_of_app. by right.
Qed.

(** A property kept by the body of a loop is kept by the loop. *)
Lemma execStmt_SRepeatUntil_inv userExpr userStmt args fuel (I : Runtime → Prop) c body :
  (∀ r r', I r → exec userExpr userStmt args fuel body r = Some r' → I r') →
  ∀ rt rt', I rt →
    execStmt userExpr userStmt args fuel (SRepeatUntil c body) rt = Some rt' → I rt'.
Proof.
  intros Hbody rt rt' HI H. simpl in H.
  match type of H with
  | ?loop fuel rt = _ =>
      assert (Hloop : ∀ n r r', I r → loop n r = Some r' → I r')
  end.
  { clear rt rt' HI H. induction n as [|n IHn]; intros r r' HI H; [done|].
    cbn beta iota in H.
    destruct (evalBool userExpr args r c) as [[|]|]; [by inversion H; subst| |done].
    match type of H with
    | match ?e with _ => _ end = _ => destruct e as [r1|] eqn:E; [|done]
    end.
    eapply IHn; [|exact H]. eapply Hbody; [exact HI|exact E]. }
  by eapply Hloop.
Qed.

(** ** One thread, from registration to the deletion of its row *)

Section Registry.
Variable userExpr : string → Runtime → option Value.
Variable userStmt : string → Runtime → option Runtime.
Variable fuel : nat.
Variable ctx : ScriptCFFContext.
Variable config : CffConfig.
Variable yr : gmap Z Z.
Variable oracle : nat → Rand.
Variable states : list CFGState.
Variable entry : Z.
Variable extra : gmap string Value.

Hypothesis Hctx : ctxSeparate ctx.
Hypothesis Hids : ∀ i s, s ∈ states → idsSeparate ctx (oracle i) s.
Hypothesis Huser : userFrame userStmt (lists ctx) (baseIndexVarId ctx).

Lemma threadArgs_run tok : threadArgs ctx extra tok !! runThreadArg ctx = Some tok.
Proof. unfold threadArgs. apply lookup_insert_eq. Qed.

Lemma threadArgs_step tok : threadArgs ctx extra tok !! stepThreadArg ctx = Some tok.
Proof.
  unfold threadArgs. destruct (decide (runThreadArg ctx = stepThreadArg ctx)) as [->|Hne].
  - apply lookup_insert_eq.
  - rewrite lookup_insert_ne by done. apply lookup_insert_eq.
Qed.

Lemma parallel_NoDup : NoDup (parallelLists (lists ctx)).
Proof. apply Hctx. Qed.

Lemma stateBody_within args tok old i s rt rt' :
  s ∈ states → within ctx tok old rt →
  exec userExpr userStmt args fuel (buildStateBody ctx config yr (oracle i) s) rt = Some rt' →
  within ctx tok old rt'.
Proof.
  intros Hs Hw H. pose proof Hctx as (Hl & Hkg & Hc).
  destruct (runsTerminalBody s) eqn:Ht.
  - rewrite buildStateBody_terminal in H by done.
    apply exec_app_inv in H as (rt1 & H1 & H2).
    right. eapply offRow_rowsKept;
      [|eapply deleteRow_within; [apply parallel_NoDup|exact Hw|exact H1]].
    eapply rowSafeAll_exec; [exact Huser| |exact H2].
    split; [exact Hkg|apply rowSafeAll_users].
  - eapply within_rowsKept; [|exact Hw].
    eapply rowSafeAll_exec; [exact Huser| |exact H].
    apply rowSafe_buildStateBody; [exact Hctx|by apply Hids|done].
Qed.

Lemma iterPrologue_rowsKept args rt rt' :
  exec userExpr userStmt args fuel (iterPrologue ctx) rt = Some rt' →
  rowsKept (lists ctx) (baseIndexVarId ctx) rt rt'.
Proof.
  intros H. pose proof Hctx as (Hl & Hkg & Hc).
  eapply rowSafeAll_exec; [exact Huser| |exact H]. unfold iterPrologue. by repeat split.
Qed.

Lemma iteration_within args tok old bst rt rt' :
  buildDispatch ctx config yr oracle states = Some bst →
  within ctx tok old rt →
  exec userExpr userStmt args fuel (iterPrologue ctx ++ bst) rt = Some rt' →
  within ctx tok old rt'.
Proof.
  intros Hb Hw H. apply buildDispatch_emit in Hb as (t & Ht & ->).
  apply exec_app_inv in H as (rt1 & H1 & H2).
  apply exec_emit_leaf in H2 as (i & s & Hin & H2).
  eapply stateBody_within; [by eapply dispatchTree_leaves| |exact H2].
  eapply within_rowsKept; [by eapply iterPrologue_rowsKept|exact Hw].
Qed.

Lemma stepPrologue_within args tok old rt rt' :
  args !! stepThreadArg ctx = Some tok → freshToken tok old →
  registered (lists ctx) tok old rt ∨ released (lists ctx) old rt →
  exec userExpr userStmt args fuel (stepPrologue ctx) rt = Some rt' →
  within ctx tok old rt'.
Proof.
  intros Harg Hfresh Hr H. unfold stepPrologue in H.
  apply exec_cons_inv in H as (rt1 & H1 & H).
  apply exec_cons_inv in H as (rt2 & H2 & H). inversion H; subst rt2. clear H.
  apply execStmt_SSetVar_inv in H1 as (v1 & _ & ->).
  apply execStmt_SSetVar_inv in H2 as (v2 & Hv2 & ->).
  cbn [eval] in Hv2. rewrite Harg in Hv2. simpl in Hv2. inversion Hv2; subst v2. clear Hv2.
  rewrite getList_setVar.
  destruct Hr as [[Hp Ha]|[Hp Ha]].
  - left. split; [split|].
    + by rewrite !getList_setVar.
    + intros id Hid. rewrite !getList_setVar. by apply Ha.
    + rewrite getVar_setVar_eq, Hp. unfold itemNum.
      rewrite itemNumFrom_last by done. f_equal. lia.
  - right. split; [split|].
    + by rewrite !getList_setVar.
    + intros id Hid. rewrite !getList_setVar. by apply Ha.
    + left. rewrite getVar_setVar_eq, Hp. unfold itemNum.
      by rewrite itemNumFrom_fresh.
Qed.

Lemma within_tracked tok old rt :
  within ctx tok old rt →
  registered (lists ctx) tok old rt ∨ released (lists ctx) old rt.
Proof. intros [[H _]|[H _]]; [by left|by right]. Qed.

Lemma stepCall_tracked tok old rt rt' :
  freshToken tok old →
  registered (lists ctx) tok old rt ∨ released (lists ctx) old rt →
  stepCall userExpr userStmt fuel ctx config yr oracle states extra tok rt rt' →
  registered (lists ctx) tok old rt' ∨ released (lists ctx) old rt'.
Proof.
  intros Hfresh Hr (p & Hp & H). unfold buildStepFunction in Hp.
  destruct (buildDispatch ctx config yr oracle states) as [bst|] eqn:Hb; [|done].
  assert (Hbody : procBody p = stepPrologue ctx ++
            [SRepeatUntil (stepLoopCond ctx) (iterPrologue ctx ++ bst)])
    by (by inversion Hp).
  rewrite Hbody in H. clear Hbody Hp.
  apply exec_app_inv in H as (rt1 & H1 & H2). rewrite exec_single in H2.
  apply (within_tracked tok).
  eapply (execStmt_SRepeatUntil_inv _ _ _ _ (within ctx tok old)); [| |exact H2].
  - intros r r' Hw He. by eapply iteration_within.
  - eapply stepPrologue_within; [apply threadArgs_step|done|exact Hr|exact H1].
Qed.

(** With the row deleted, the exit test of [run_N] reads no PC. *)
Lemma runLoopCond_released args tok old rt :
  args !! runThreadArg ctx = Some tok → freshToken tok old →
  released (lists ctx) old rt →
  evalBool userExpr args rt (runLoopCond ctx) = Some false.
Proof.
  intros Harg Hfresh [Hp _]. unfold evalBool, runLoopCond. cbn [eval].
  rewrite Harg, Hp. simpl. unfold itemNum. rewrite itemNumFrom_fresh by done.
  reflexivity.
Qed.

Lemma runLoopReturns_registered tok old rt rt' :
  freshToken tok old →
  registered (lists ctx) tok old rt ∨ released (lists ctx) old rt →
  runLoopReturns userExpr userStmt fuel ctx config yr oracle states extra tok rt rt' →
  registered (lists ctx) tok old rt'.
Proof.
  intros Hfresh Hr H. induction H as [rt Hc|rt rt1 rt' Hc Hs _ IH].
  - destruct Hr as [Hr|Hr]; [done|].
    rewrite (runLoopCond_released _ tok old) in Hc; [done|apply threadArgs_run|done|done].
  - apply IH. by eapply stepCall_tracked.
Qed.

Lemma runCleanup_released args tok old rt rt' :
  args !! runThreadArg ctx = Some tok → freshToken tok old →
  registered (lists ctx) tok old rt →
  exec userExpr userStmt args fuel (runCleanup ctx) rt = Some rt' →
  released (lists ctx) old rt'.
Proof.
  intros Harg Hfresh [Hp Ha] H. unfold runCleanup in H.
  apply exec_cons_inv in H as (rt1 & H1 & H).
  apply execStmt_SSetVar_inv in H1 as (v & Hv & ->).
  cbn [eval] in Hv. rewrite Harg in Hv. simpl in Hv. inversion Hv; subst v. clear Hv.
  eapply (deleteRow_within _ _ _ _ _ tok old) in H; [apply H|apply parallel_NoDup|].
  left. split; [split|].
  - by rewrite getList_setVar.
  - intros id Hid. rewrite getList_setVar. by apply Ha.
  - rewrite getVar_setVar_eq, Hp. unfold itemNum.
    rewrite itemNumFrom_last by done. f_equal. lia.
Qed.

Lemma stepLoopStops_released tok old rt rt' :
  within ctx tok old rt →
  stepLoopStops userExpr userStmt fuel ctx config yr oracle states extra tok rt rt' →
  released (lists ctx) old rt'.
Proof.
  intros Hw H.
  induction H as [rt rt1 t c i s n rt' _ Hp Ht _ _ Hterm Hb|rt bst rt1 rt' _ Hb He _ IH].
  - pose proof Hctx as (Hl & Hkg & Hc).
    rewrite buildStateBody_terminal in Hb by done.
    apply exec_app_inv in Hb as (rt2 & H1 & H2).
    assert (offRow ctx old rt') as [Hr _]; [|done].
    eapply offRow_rowsKept;
      [|eapply (deleteRow_within _ _ _ _ _ tok); [apply parallel_NoDup| |exact H1]].
    + eapply rowSafeAll_exec; [exact Huser| |exact H2].
      split; [exact Hkg|apply rowSafeAll_users].
    + eapply within_rowsKept; [by eapply iterPrologue_rowsKept|exact Hw].
  - apply IH. by eapply iteration_within.
Qed.

Lemma runLoopStops_released tok old rt rt' :
  freshToken tok old →
  registered (lists ctx) tok old rt ∨ released (lists ctx) old rt →
  runLoopStops userExpr userStmt fuel ctx config yr oracle states extra tok rt rt' →
  released (lists ctx) old rt'.
Proof.
  intros Hfresh Hr H. induction H as [rt rt' _ (rt1 & Hp & Hs)|rt rt1 rt' _ Hs _ IH].
  - eapply stepLoopStops_released; [|exact Hs].
    eapply stepPrologue_within; [apply threadArgs_step|done|exact Hr|exact Hp].
  - apply IH. by eapply stepCall_tracked.
Qed.

Lemma registration_registered args tok rt rt' n :
  args !! runThreadArg ctx = Some tok →
  aligned (lists ctx) rt n →
  exec userExpr userStmt args fuel (runRegistration ctx entry) rt = Some rt' →
  registered (lists ctx) tok (getList rt (pcIdId (lists ctx))) rt'.
Proof.
  intros Harg Ha H. rewrite (exec_runRegistration _ _ _ _ _ _ tok) in H by done.
  inversion H; subst rt'. clear H.
  destruct (aligned_registration ctx entry tok rt n parallel_NoDup Ha) as [Ha' Hp].
  split; [done|]. by rewrite (Ha _ (pcIdId_parallel _)).
Qed.

(** A thread that completes leaves the registry as it found it. *)
Lemma threadCompletes_released tok rt rt' n :
  aligned (lists ctx) rt n →
  freshToken tok (getList rt (pcIdId (lists ctx))) →
  threadCompletes userExpr userStmt fuel ctx config yr oracle states entry extra tok rt rt' →
  released (lists ctx) (getList rt (pcIdId (lists ctx))) rt'.
Proof.
  intros Ha Hfresh [(rt1 & rt2 & Hreg & Hloop & Hclean)|(rt1 & Hreg & Hloop)].
  - eapply runCleanup_released; [apply threadArgs_run|done| |exact Hclean].
    eapply runLoopReturns_registered; [done| |exact Hloop].
    left. eapply registration_registered; [apply threadArgs_run|done|exact Hreg].
  - eapply runLoopStops_released; [done| |exact Hloop].
    left. eapply registration_registered; [apply threadArgs_run|done|exact Hreg].
Qed.

Lemma threadsComplete_aligned toks : ∀ rt rt' n,
  aligned (lists ctx) rt n →
  (∀ tok, tok ∈ toks → freshToken tok (getList rt (pcIdId (lists ctx)))) →
  threadsComplete userExpr userStmt fuel ctx config yr oracle states entry extra toks rt rt' →
  aligned (lists ctx) rt' n ∧
  getList rt' (pcIdId (lists ctx)) = getList rt (pcIdId (lists ctx)).
Proof.
  induction toks as [|tok toks IH]; intros rt rt' n Ha Hfresh H; inversion H; subst.
  - done.
  - match goal with
    | Hc : threadCompletes _ _ _ _ _ _ _ _ _ _ _ _ ?r |- _ =>
        destruct (threadCompletes_released tok rt r n Ha
                    (Hfresh tok ltac:(apply list_elem_of_here)) Hc) as [Hp Ha1]
    end.
    rewrite <-(Ha _ (pcIdId_parallel _)).
    match goal with
    | Hs : threadsComplete _ _ _ _ _ _ _ _ _ _ _ ?r _ |- _ =>
        destruct (IH r rt' (length (getList rt (pcIdId (lists ctx)))) Ha1) as [Ha2 Hp2];
          [|exact Hs|]
    end.
    + intros tok' Hin. rewrite Hp. apply Hfresh. by apply list_elem_of_further.
    + split; [done|congruence].
Qed.

End Registry.

Lemma rowSafeAll_handleWaitBody l base hw :
  listsSeparate l → rowSafeAll l base (handleWaitBody l hw).
Proof.
  intros (_ & _ & _ & _ & Hwf & _). unfold handleWaitBody, buildClearFlag. cbv zeta.
  destruct (hasTimerWait l), (hasBroadcastWait l); simpl; by repeat split.
Qed.

Lemma rowSafeAll_waitReceiverBody l base hwProc saved :
  listsSeparate l → saved ≠ base → rowSafeAll l base (waitReceiverBody l hwProc saved).
Proof.
  intros (_ & _ & _ & Hwq & _) Hs. unfold waitReceiverBody. simpl. by repeat split.
Qed.

Lemma registration_appends ctx entry tok rt :
  NoDup (parallelLists (lists ctx)) →
  ∀ id, id ∈ parallelLists (lists ctx) →
    ∃ v, getList (applyUpdates (registrationUpdates ctx entry tok) rt) id
         = getList rt id ++ [v].
Proof.
  intros Hnd id Hid.
  destruct (applyUpdates_spec (registrationUpdates ctx entry tok) rt) as (_ & _ & Hin & _).
  { by rewrite registrationUpdates_lists. }
  assert (∃ v, (id, fun l => l ++ [v]) ∈ registrationUpdates ctx entry tok) as [v Hv].
  { unfold registrationUpdates, parallelLists in *.
    destruct (needsWait (lists ctx)); simpl in *.
    - apply elem_of_cons in Hid as [->|Hid]; [exists tok; apply list_elem_of_here|].
      apply elem_of_cons in Hid as [->|Hid];
        [exists (VNum entry); apply list_elem_of_further, list_elem_of_here|].
      apply elem_of_cons in Hid as [->|Hid];
        [exists (VNum 0); do 2 apply list_elem_of_further; apply list_elem_of_here|].
      apply elem_of_cons in Hid as [->|Hid];
        [exists (VStr ""); do 3 apply list_elem_of_further; apply list_elem_of_here|].
      by apply elem_of_nil in Hid.
    - apply elem_of_cons in Hid as [->|Hid]; [exists tok; apply list_elem_of_here|].
      apply elem_of_cons in Hid as [->|Hid];
        [exists (VNum entry); apply list_elem_of_further, list_elem_of_here|].
      by apply elem_of_nil in Hid. }
  exists v. apply (Hin _ _ Hv).
Qed.

Lemma aligned_empty l : aligned l exEmptyRuntime 0.
Proof. intros id _. reflexivity. Qed.

Lemma exCtx_separate : ctxSeparate exCtx.
Proof.
  repeat split; try discriminate.
  - simpl. repeat constructor; set_solver.
  - simpl. set_solver.
  - simpl. set_solver.
  - simpl. set_solver.
Qed.

Lemma exRand_separate (states : list CFGState) :
  (∀ s fc, s ∈ states → forEachCheck s = Some fc →
     default "" (varId fc) ≠ baseIndexVarId exCtx) →
  ∀ (i : nat) s, s ∈ states → idsSeparate exCtx exRand s.
Proof.
  intros H i s Hs. split; [|intros fc Hfc; by apply (H s fc)].
  intros k. simpl. discriminate.
Qed.

Lemma exUserStmt_frame l base : userFrame exUserStmt l base.
Proof. intros id r r' H. by inversion H. Qed.

(** The other path: a thread whose only state is terminal ends in its
    first call of [step_N], and its row is gone. *)
Lemma runStops_example :
  ∃ rt',
    runStops exUserExpr exUserStmt 3 exCtx exConfig ∅ (fun _ => exRand)
      exStopState 5 ∅ (VNum 42) exEmptyRuntime rt' ∧
    released exLists [] rt'.
Proof.
  assert (Hrun : ∃ rt',
            runStops exUserExpr exUserStmt 3 exCtx exConfig ∅ (fun _ => exRand)
              exStopState 5 ∅ (VNum 42) exEmptyRuntime rt').
  { eexists. eexists. split; [vm_compute; reflexivity|].
    apply runLoop_stop; [vm_compute; reflexivity|].
    eexists. split; [vm_compute; reflexivity|].
    eapply stepLoop_terminal with (t := DLeaf 0 (terminalState 5 ["stop"])) (c := 5)
                                  (i := 0%nat) (s := terminalState 5 ["stop"]) (n := 0%nat).
    - vm_compute. reflexivity.
    - vm_compute. reflexivity.
    - vm_compute. reflexivity.
    - vm_compute. reflexivity.
    - reflexivity.
    - reflexivity.
    - vm_compute. reflexivity. }
  destruct Hrun as [rt' Hrun]. exists rt'. split; [exact Hrun|].
  apply (threadCompletes_released exUserExpr exUserStmt 3 exCtx exConfig ∅
           (fun _ => exRand) exStopState 5 ∅ exCtx_separate
           (exRand_separate exStopState
              ltac:(intros s fc Hs;
                    apply elem_of_cons in Hs as [->|Hs];
                    [done|by apply elem_of_nil in Hs]))
           (exUserStmt_frame _ _) (VNum 42) exEmptyRuntime rt' 0%nat).
  - apply aligned_empty.
  - intros x Hx. by apply elem_of_nil in Hx.
  - by right.
Qed.

(** The lists [createTargetLists] makes are separate when the names drawn
    for them are different and not empty. *)
Lemma createTargetLists_separate n timer bcast :
  NoDup [n_pcId n; n_pcVal n; n_counterKey n; n_counterVal n;
         n_waitFlag n; n_bcastPendingMsg n; n_waitQueue n] →
  n_pcId n ≠ "" → n_pcVal n ≠ "" →
  listsSeparate (createTargetLists n timer bcast).
Proof.
  intros Hnd H1 H2. unfold listsSeparate, parallelLists, needsWait, createTargetLists.
  repeat (apply NoDup_cons in Hnd as [? Hnd]).
  destruct timer, bcast; simpl; repeat split; try (repeat constructor); set_solver.
Qed.

(** ** Walking and linking chains of the block store *)

Lemma getFullBlock_dom bs id b : getFullBlock bs id = Some b → id ∈ dom bs.
Proof.
  unfold getFullBlock. destruct (bs !! id) as [e|] eqn:E; [|done].
  intros _. apply elem_of_dom. eauto.
Qed.

Lemma walkChainFrom_fresh bs n : ∀ seen cur id,
  id ∈ walkChainFrom n bs seen cur → (id ∉ seen) ∧ id ≠ "".
Proof.
  induction n as [|n IH]; intros seen cur id H; simpl in H.
  { by apply elem_of_nil in H. }
  destruct cur as [c|]; [|by apply elem_of_nil in H].
  destruct (decide (c = "")); [by apply elem_of_nil in H|].
  destruct (decide (c ∈ seen)); [by apply elem_of_nil in H|].
  apply elem_of_cons in H as [->|H]; [done|].
  destruct (getFullBlock bs c) as [b|]; [|by apply elem_of_nil in H].
  apply IH in H as [H1 H2]. split; [set_solver|done].
Qed.

Lemma walkChainFrom_NoDup bs n : ∀ seen cur, NoDup (walkChainFrom n bs seen cur).
Proof.
  induction n as [|n IH]; intros seen cur; simpl; [constructor|].
  destruct cur as [c|]; [|constructor].
  destruct (decide (c = "")); [constructor|].
  destruct (decide (c ∈ seen)); [constructor|].
  constructor.
  - destruct (getFullBlock bs c) as [b|]; [|by intros H; apply elem_of_nil in H].
    intros H. apply walkChainFrom_fresh in H as [H _]. set_solver.
  - destruct (getFullBlock bs c); [apply IH|constructor].
Qed.

Lemma walkChainFrom_head bs n seen cur :
  head (walkChainFrom n bs seen cur) = None ∨ head (walkChainFrom n bs seen cur) = cur.
Proof.
  destruct n as [|n]; simpl; [by left|].
  destruct cur as [c|]; [|by left].
  destruct (decide (c = "")); [by left|].
  destruct (decide (c ∈ seen)); [by left|by right].
Qed.

Lemma walkChainFrom_linked bs n : ∀ seen cur, nextLinked bs (walkChainFrom n bs seen cur).
Proof.
  induction n as [|n IH]; intros seen cur; simpl; [done|].
  destruct cur as [c|]; [|done].
  destruct (decide (c = "")); [done|].
  destruct (decide (c ∈ seen)); [done|].
  destruct (getFullBlock bs c) as [b|] eqn:Hb; [|done].
  specialize (IH ({[c]} ∪ seen) (next b)).
  destruct (walkChainFrom n bs ({[c]} ∪ seen) (next b)) as [|d rest] eqn:E; [done|].
  split; [|exact IH]. exists b. split; [done|].
  destruct (walkChainFrom_head bs n ({[c]} ∪ seen) (next b)) as [H|H];
    rewrite E in H; simpl in H; [done|by symmetry].
Qed.

(** More fuel than there are unseen blocks changes nothing. *)
Lemma walkChainFrom_fuel bs n : ∀ m seen cur,
  seen ⊆ dom bs → (size (dom bs ∖ seen) < n)%nat → (n <= m)%nat →
  walkChainFrom n bs seen cur = walkChainFrom m bs seen cur.
Proof.
  induction n as [|n IH]; intros m seen cur Hsub Hsz Hle; [lia|].
  destruct m as [|m]; [lia|]. simpl.
  destruct cur as [c|]; [|done].
  destruct (decide (c = "")); [done|].
  destruct (decide (c ∈ seen)) as [|Hc]; [done|].
  destruct (getFullBlock bs c) as [b|] eqn:Hb; [|done].
  f_equal. apply getFullBlock_dom in Hb.
  assert (Hsize : size (dom bs ∖ seen) = S (size (dom bs ∖ ({[c]} ∪ seen)))).
  { replace (dom bs ∖ seen) with ({[c]} ∪ (dom bs ∖ ({[c]} ∪ seen))).
    - rewrite size_union by set_solver. by rewrite size_singleton.
    - apply set_eq. intros x. destruct (decide (x = c)); set_solver. }
  apply IH; [set_solver|lia|lia].
Qed.

Lemma last_cons_cons {A} (a b : A) l : last (a :: b :: l) = last (b :: l).
Proof. done. Qed.

Lemma walkChainFrom_ends bs n : ∀ seen cur,
  seen ⊆ dom bs → (size (dom bs ∖ seen) < n)%nat →
  chainEnds bs seen (walkChainFrom n bs seen cur).
Proof.
  induction n as [|n IH]; intros seen cur Hsub Hsz; [lia|]. simpl.
  destruct cur as [c|]; [|done].
  destruct (decide (c = "")); [done|].
  destruct (decide (c ∈ seen)) as [|Hc]; [done|].
  destruct (getFullBlock bs c) as [b|] eqn:Hb.
  2:{ unfold chainEnds. simpl. by rewrite Hb. }
  pose proof (getFullBlock_dom _ _ _ Hb) as Hdom.
  assert (Hsize : size (dom bs ∖ seen) = S (size (dom bs ∖ ({[c]} ∪ seen)))).
  { replace (dom bs ∖ seen) with ({[c]} ∪ (dom bs ∖ ({[c]} ∪ seen))).
    - rewrite size_union by set_solver. by rewrite size_singleton.
    - apply set_eq. intros x. destruct (decide (x = c)); set_solver. }
  destruct n as [|n'].
  { exfalso. lia. }
  specialize (IH ({[c]} ∪ seen) (next b) ltac:(set_solver) ltac:(lia)).
  destruct (walkChainFrom (S n') bs ({[c]} ∪ seen) (next b)) as [|d rest] eqn:E.
  - unfold chainEnds. cbn [last]. rewrite Hb.
    destruct (next b) as [nx|] eqn:Hn; [|done].
    simpl in E.
    destruct (decide (nx = "")); [by left|].
    destruct (decide (nx ∈ {[c]} ∪ seen)) as [Hin|]; [|done].
    right. apply elem_of_union in Hin as [Hin|Hin]; [|by left].
    right. apply elem_of_singleton in Hin. subst. apply list_elem_of_here.
  - unfold chainEnds in *. rewrite last_cons_cons.
    destruct (last (d :: rest)) as [z|]; [|done].
    destruct (getFullBlock bs z) as [bz|]; [|done].
    destruct (next bz) as [nx|]; [|done].
    destruct IH as [H|[H|H]]; [by left| |].
    + apply elem_of_union in H as [H|H]; [|by right; left].
      right. right. apply elem_of_singleton in H. subst. apply list_elem_of_here.
    + right. right. by apply list_elem_of_further.
Qed.

(** X1. [walkChain] from a non-empty id starts with that id, returns no
    id twice, follows the [next] links of full blocks, and stops only at an
    id that is no full block, at the end of the chain, or where the chain
    runs into itself; the bound on its iterations is never what stops
    it. *)
Theorem X1_walkChain_follows_next (bs : gmap string Entry) (startId : string) :
  startId ≠ "" →
  head (walkChain bs startId) = Some startId ∧
  NoDup (walkChain bs startId) ∧
  nextLinked bs (walkChain bs startId) ∧
  chainEnds bs ∅ (walkChain bs startId) ∧
  ∀ m, (S (size bs) <= m)%nat →
    walkChainFrom m bs ∅ (Some startId) = walkChain bs startId.
Proof.
  intros Hne. unfold walkChain.
  assert (Hsz : (size (dom bs ∖ (∅ : gset string)) < S (size bs))%nat).
  { rewrite difference_empty_L, size_dom. lia. }
  split; [|split; [|split; [|split]]].
  - simpl. destruct (decide (startId = "")); [done|].
    by destruct (decide (startId ∈ (∅ : gset string))); [set_solver|].
  - apply walkChainFrom_NoDup.
  - apply walkChainFrom_linked.
  - apply walkChainFrom_ends; [set_solver|done].
  - intros m Hm. symmetry. apply walkChainFrom_fuel; [set_solver|done|done].
Qed.

Lemma X1_witness :
  head (walkChain exStore "hat") = Some "hat" ∧
  NoDup (walkChain exStore "hat") ∧
  nextLinked exStore (walkChain exStore "hat") ∧
  chainEnds exStore ∅ (walkChain exStore "hat") ∧
  ∀ m, (S (size exStore) <= m)%nat →
    walkChainFrom m exStore ∅ (Some "hat") = walkChain exStore "hat".
Proof. apply (X1_walkChain_follows_next exStore "hat"). discriminate. Defined.

(** *** Re-linking a run of blocks *)

Lemma getFullBlock_setNext bs a n id :
  getFullBlock (setNext bs a n) id =
  if decide (a = id)
  then (fun b => mkBlock (opcode b) n (parent b) (inputs b) (fields b) (topLevel b))
         <$> getFullBlock bs a
  else getFullBlock bs id.
Proof.
  unfold setNext. destruct (getFullBlock bs a) as [b|] eqn:Hb.
  - rewrite getFullBlock_insert. by case_decide.
  - case_decide; [by subst; rewrite Hb|done].
Qed.

Lemma getFullBlock_setParent bs a p id :
  getFullBlock (setParent bs a p) id =
  if decide (a = id)
  then (fun b => mkBlock (opcode b) (next b) p (inputs b) (fields b) (topLevel b))
         <$> getFullBlock bs a
  else getFullBlock bs id.
Proof.
  unfold setParent. destruct (getFullBlock bs a) as [b|] eqn:Hb.
  - rewrite getFullBlock_insert. by case_decide.
  - case_decide; [by subst; rewrite Hb|done].
Qed.

Lemma lookup_setNext_ne bs a n id : a ≠ id → setNext bs a n !! id = bs !! id.
Proof.
  intros H. unfold setNext. destruct (getFullBlock bs a); [|done].
  by rewrite lookup_insert_ne.
Qed.

Lemma lookup_setParent_ne bs a p id : a ≠ id → setParent bs a p !! id = bs !! id.
Proof.
  intros H. unfold setParent. destruct (getFullBlock bs a); [|done].
  by rewrite lookup_insert_ne.
Qed.

Lemma getFullBlock_unlinkBlock bs a id :
  getFullBlock (unlinkBlock bs a) id =
  if decide (a = id)
  then (fun b => mkBlock (opcode b) None None (inputs b) (fields b) (topLevel b))
         <$> getFullBlock bs a
  else getFullBlock bs id.
Proof.
  unfold unlinkBlock. rewrite getFullBlock_setParent.
  destruct (decide (a = id)) as [->|Hne].
  - rewrite getFullBlock_setNext, decide_True by done.
    by destruct (getFullBlock bs id).
  - by rewrite getFullBlock_setNext, decide_False.
Qed.

(** What is the same in two versions of a block: everything but the
    links. *)
Lemma foldl_unlink_spec ids : ∀ bs,
  (∀ id, id ∈ ids → ∀ b, getFullBlock bs id = Some b →
     getFullBlock (foldl unlinkBlock bs ids) id
       = Some (mkBlock (opcode b) None None (inputs b) (fields b) (topLevel b))) ∧
  (∀ id, id ∉ ids → foldl unlinkBlock bs ids !! id = bs !! id).
Proof.
  induction ids as [|a ids IH]; intros bs; simpl.
  { split; [intros id H; by apply elem_of_nil in H|done]. }
  destruct (IH (unlinkBlock bs a)) as [Hin Hout]. split.
  - intros id Hid b Hb. destruct (decide (id ∈ ids)) as [Hi|Hi].
    + destruct (decide (a = id)) as [->|Hne].
      * erewrite Hin; [|done|rewrite getFullBlock_unlinkBlock, decide_True, Hb by done; done].
        done.
      * erewrite Hin; [done|done|].
        by rewrite getFullBlock_unlinkBlock, decide_False.
    + apply elem_of_cons in Hid as [->|Hid]; [|done].
      unfold getFullBlock at 1. rewrite Hout by done.
      fold (getFullBlock (unlinkBlock bs a) a).
      by rewrite getFullBlock_unlinkBlock, decide_True, Hb.
  - intros id Hid. apply not_elem_of_cons in Hid as [Hne Hid].
    rewrite Hout by done. unfold unlinkBlock.
    rewrite lookup_setParent_ne, lookup_setNext_ne; done.
Qed.

Lemma getFullBlock_link bs a b id :
  a ≠ b →
  getFullBlock (setParent (setNext bs a (Some b)) b (Some a)) id =
  if decide (id = a)
  then (fun x => mkBlock (opcode x) (Some b) (parent x) (inputs x) (fields x) (topLevel x))
         <$> getFullBlock bs a
  else if decide (id = b)
  then (fun x => mkBlock (opcode x) (next x) (Some a) (inputs x) (fields x) (topLevel x))
         <$> getFullBlock bs b
  else getFullBlock bs id.
Proof.
  intros Hab. rewrite getFullBlock_setParent.
  destruct (decide (id = a)) as [->|Ha].
  - rewrite decide_False by done. by rewrite getFullBlock_setNext, decide_True.
  - destruct (decide (id = b)) as [->|Hb].
    + rewrite decide_True by done. by rewrite getFullBlock_setNext, decide_False.
    + rewrite decide_False by done. by rewrite getFullBlock_setNext, decide_False.
Qed.

Lemma linkChain_spec ids : ∀ bs,
  NoDup ids → (∀ id, id ∈ ids → is_Some (getFullBlock bs id)) →
  nextLinked (linkChain bs ids) ids ∧
  (∀ id, id ∈ ids → is_Some (getFullBlock (linkChain bs ids) id)) ∧
  (∀ z b, last ids = Some z → getFullBlock bs z = Some b →
     ∃ b', getFullBlock (linkChain bs ids) z = Some b' ∧ next b' = next b) ∧
  (∀ a b, head ids = Some a → getFullBlock bs a = Some b →
     ∃ b', getFullBlock (linkChain bs ids) a = Some b' ∧ parent b' = parent b) ∧
  (∀ id, id ∉ ids → linkChain bs ids !! id = bs !! id).
Proof.
  induction ids as [|a ids IH]; intros bs Hnd Hfull.
  { simpl. split; [done|]. split; [intros id H; by apply elem_of_nil in H|].
    split; [done|]. split; done. }
  destruct ids as [|b ids].
  { simpl. split; [done|]. split; [done|]. split.
    - intros z bz [= <-] Hz. eauto.
    - split; [|done]. intros a' b' [= <-] Ha. eauto. }
  apply NoDup_cons in Hnd as [Hni Hnd].
  assert (Hab : a ≠ b) by (intros ->; apply Hni, list_elem_of_here).
  set (bs1 := setParent (setNext bs a (Some b)) b (Some a)).
  change (linkChain bs (a :: b :: ids)) with (linkChain bs1 (b :: ids)).
  assert (Hfull1 : ∀ id, id ∈ b :: ids → is_Some (getFullBlock bs1 id)).
  { intros id Hid. unfold bs1. rewrite getFullBlock_link by done.
    destruct (Hfull b ltac:(by apply list_elem_of_further, list_elem_of_here)) as [bb Hbb].
    destruct (Hfull id ltac:(by apply list_elem_of_further)) as [bi Hbi].
    destruct (decide (id = a)) as [->|_]; [exfalso; by apply Hni|].
    destruct (decide (id = b)) as [->|_]; [rewrite Hbb; eauto|rewrite Hbi; eauto]. }
  destruct (IH bs1 Hnd Hfull1) as (Hlink & Hsome & Hlast & Hhead & Hout).
  destruct (Hfull a ltac:(apply list_elem_of_here)) as [ba Hba].
  assert (Ha1 : getFullBlock bs1 a
                = Some (mkBlock (opcode ba) (Some b) (parent ba) (inputs ba) (fields ba)
                          (topLevel ba))).
  { unfold bs1. by rewrite getFullBlock_link, decide_True, Hba. }
  assert (Ha' : getFullBlock (linkChain bs1 (b :: ids)) a
                = Some (mkBlock (opcode ba) (Some b) (parent ba) (inputs ba) (fields ba)
                          (topLevel ba))).
  { unfold getFullBlock at 1. rewrite Hout by done. exact Ha1. }
  split; [|split; [|split; [|split]]].
  - split; [|exact Hlink]. eexists. split; [exact Ha'|done].
  - intros id Hid. apply elem_of_cons in Hid as [->|Hid]; [rewrite Ha'; eauto|by apply Hsome].
  - intros z bz Hz Hbz. rewrite last_cons_cons in Hz.
    assert (Hzin : z ∈ b :: ids) by (by apply last_Some_elem_of).
    assert (Hza : a ≠ z) by (intros ->; by apply Hni).
    destruct (Hlast z (if decide (z = b)
                       then mkBlock (opcode bz) (next bz) (Some a) (inputs bz) (fields bz)
                              (topLevel bz)
                       else bz) Hz) as (b' & Hb' & Hn').
    { unfold bs1. rewrite getFullBlock_link by done.
      rewrite decide_False by done.
      destruct (decide (z = b)) as [->|_]; by rewrite Hbz. }
    exists b'. split; [done|]. rewrite Hn'. by case_decide.
  - intros a' b' [= <-] Ha0. rewrite Hba in Ha0. inversion Ha0; subst.
    eexists. split; [exact Ha'|done].
  - intros id Hid. apply not_elem_of_cons in Hid as [Hne Hid].
    rewrite Hout by done. unfold bs1.
    rewrite lookup_setParent_ne, lookup_setNext_ne; [done|done|].
    intros ->. apply Hid, list_elem_of_here.
Qed.

Lemma walkChainFrom_of_linked bs ids : ∀ n seen,
  NoDup ids → "" ∉ ids → (∀ id, id ∈ ids → id ∉ seen) →
  nextLinked bs ids →
  (∀ z b, last ids = Some z → getFullBlock bs z = Some b → next b = None) →
  (length ids <= n)%nat →
  walkChainFrom n bs seen (head ids) = ids.
Proof.
  induction ids as [|a ids IH]; intros n seen Hnd Hne Hseen Hlink Hlast Hn.
  { by destruct n. }
  destruct n as [|n]; [simpl in Hn; lia|]. cbn [head walkChainFrom].
  rewrite decide_False by (intros ->; apply Hne, list_elem_of_here).
  rewrite decide_False by (apply Hseen, list_elem_of_here).
  f_equal. apply NoDup_cons in Hnd as [Hni Hnd].
  destruct ids as [|b ids].
  - destruct (getFullBlock bs a) as [ba|] eqn:Hba; [|done].
    rewrite (Hlast a ba eq_refl Hba). by destruct n.
  - destruct Hlink as [(ba & Hba & Hnx) Hlink]. rewrite Hba, Hnx.
    apply (IH n ({[a]} ∪ seen)); try done.
    + intros H. apply Hne. by apply list_elem_of_further.
    + intros id Hid. apply not_elem_of_union. split.
      * intros Heq. apply elem_of_singleton in Heq. subst. by apply Hni.
      * apply Hseen. by apply list_elem_of_further.
    + simpl in Hn. simpl. lia.
Qed.

Lemma NoDup_length_dom (bs : gmap string Entry) ids :
  NoDup ids → (∀ id, id ∈ ids → is_Some (getFullBlock bs id)) →
  (length ids <= size bs)%nat.
Proof.
  intros Hnd Hfull. rewrite <-size_dom, <-(size_list_to_set (C := gset string) ids) by done.
  apply subseteq_size. intros id Hid. apply elem_of_list_to_set in Hid.
  destruct (Hfull id Hid) as [b Hb]. by eapply getFullBlock_dom.
Qed.

(** X2. Unlinking the blocks of a run and linking them again in order, as
    [decomposeChain] does with a linear segment, gives a chain that
    [walkChain] reads back as exactly that run: the first block has no
    parent, the last no successor, every block keeps its opcode, inputs and
    fields, and no other entry of the store changes. *)
Theorem X2_relinked_run_walks_back (bs : gmap string Entry) (first : string)
    (rest : list string) :
  NoDup (first :: rest) → "" ∉ first :: rest →
  (∀ id, id ∈ first :: rest → is_Some (getFullBlock bs id)) →
  let ids := first :: rest in
  let bs' := linkChain (foldl unlinkBlock bs ids) ids in
  walkChain bs' first = ids ∧
  (∃ b', getFullBlock bs' first = Some b' ∧ parent b' = None) ∧
  (∀ id b, id ∈ ids → getFullBlock bs id = Some b →
     ∃ b', getFullBlock bs' id = Some b' ∧
       opcode b' = opcode b ∧ inputs b' = inputs b ∧ fields b' = fields b) ∧
  (∀ id, id ∉ ids → bs' !! id = bs !! id).
Proof.
  intros Hnd Hne Hfull ids bs'.
  destruct (foldl_unlink_spec ids bs) as [Hun Hun_out].
  assert (Hfull0 : ∀ id, id ∈ ids → is_Some (getFullBlock (foldl unlinkBlock bs ids) id)).
  { intros id Hid. destruct (Hfull id Hid) as [b Hb]. rewrite (Hun id Hid b Hb). eauto. }
  destruct (linkChain_spec ids (foldl unlinkBlock bs ids) Hnd Hfull0)
    as (Hlink & Hsome & Hlast & Hhead & Hout).
  fold bs' in Hlink, Hsome, Hlast, Hhead, Hout.
  split; [|split; [|split]].
  - unfold walkChain.
    apply (walkChainFrom_of_linked bs' ids (S (size bs')) ∅); try done.
    + intros z b Hz Hb.
      assert (Hzin : z ∈ ids) by (by apply last_Some_elem_of).
      destruct (Hfull z Hzin) as [b0 Hb0].
      destruct (Hlast z _ Hz (Hun z Hzin b0 Hb0)) as (b' & Hb' & Hn').
      rewrite Hb in Hb'. inversion Hb'; subst. done.
    + pose proof (NoDup_length_dom bs' ids Hnd Hsome). lia.
  - destruct (Hfull first ltac:(apply list_elem_of_here)) as [b0 Hb0].
    destruct (Hhead first _ eq_refl (Hun first ltac:(apply list_elem_of_here) b0 Hb0))
      as (b' & Hb' & Hp'). eauto.
  - intros id b Hid Hb.
    destruct (Hsome id Hid) as [b' Hb']. exists b'. split; [done|].
    pose proof (blocksStable_linkChain ids (foldl unlinkBlock bs ids)) as Hst.
    assert (Hkeep : ∀ ids0 bs0 id0 b1, getFullBlock (linkChain bs0 ids0) id0 = Some b1 →
              ∃ b0, getFullBlock bs0 id0 = Some b0 ∧ opcode b0 = opcode b1 ∧
                    inputs b0 = inputs b1 ∧ fields b0 = fields b1).
    { clear. induction ids0 as [|a ids0 IH]; intros bs0 id0 b1 H; [simpl in H; eauto|].
      destruct ids0 as [|b ids0]; [simpl in H; eauto|].
        change (linkChain bs0 (a :: b :: ids0))
        with (linkChain (setParent (setNext bs0 a (Some b)) b (Some a)) (b :: ids0)) in H.
      apply IH in H as (b0 & H & Ho & Hi & Hf).
      rewrite getFullBlock_setParent in H.
      destruct (decide (b = id0)) as [->|Hb0].
      - rewrite getFullBlock_setNext in H.
        destruct (decide (a = id0)) as [->|Ha0].
        + destruct (getFullBlock bs0 id0) as [x|]; [|done].
          simpl in H. inversion H; subst. simpl in *. eauto.
        + destruct (getFullBlock bs0 id0) as [x|]; [|done].
          simpl in H. inversion H; subst. simpl in *. eauto.
      - rewrite getFullBlock_setNext in H.
        destruct (decide (a = id0)) as [->|Ha0]; [|eauto].
        destruct (getFullBlock bs0 id0) as [x|]; [|done].
        simpl in H. inversion H; subst. simpl in *. eauto. }
    apply Hkeep in Hb' as (b0 & Hb0 & Ho & Hi & Hf).
    rewrite (Hun id Hid b Hb) in Hb0. inversion Hb0; subst. simpl in *. done.
  - intros id Hid. rewrite Hout by done. by apply Hun_out.
Qed.

Lemma X2_witness :
  let ids := ["s1"; "s2"] in
  let bs' := linkChain (foldl unlinkBlock exStore ids) ids in
  walkChain bs' "s1" = ids ∧
  (∃ b', getFullBlock bs' "s1" = Some b' ∧ parent b' = None) ∧
  (∀ id b, id ∈ ids → getFullBlock exStore id = Some b →
     ∃ b', getFullBlock bs' id = Some b' ∧
       opcode b' = opcode b ∧ inputs b' = inputs b ∧ fields b' = fields b) ∧
  (∀ id, id ∉ ids → bs' !! id = exStore !! id).
Proof.
  apply (X2_relinked_run_walks_back exStore "s1" ["s2"]).
  - repeat constructor; set_solver.
  - set_solver.
  - intros id Hid.
    apply elem_of_cons in Hid as [->|Hid]; [by eexists|].
    apply elem_of_cons in Hid as [->|Hid]; [by eexists|].
    by apply elem_of_nil in Hid.
Defined.

(** ** Segmentation of a chain *)

Lemma segmentize_ids bs ids : ∀ cur,
  concat (segmentIds <$> segmentize bs ids cur)
  = cur ++ filter (fun id => is_Some (getFullBlock bs id)) ids.
Proof.
  induction ids as [|id ids IH]; intros cur; simpl.
  - rewrite app_nil_r. case_decide; [by subst|]. simpl. by rewrite app_nil_r.
  - destruct (getFullBlock bs id) as [b|] eqn:Hb.
    + rewrite filter_cons_True by (rewrite Hb; eauto).
      destruct (isControlOpcode (opcode b)).
      * rewrite fmap_app, concat_app, fmap_cons. cbn [concat segmentIds].
        rewrite IH. simpl. case_decide; [by subst|]. simpl. by rewrite app_nil_r.
      * rewrite IH. by rewrite <-app_assoc.
    + rewrite filter_cons_False by (rewrite Hb; by intros [? ?]). apply IH.
Qed.

Lemma segmentize_ok bs ids : ∀ cur,
  Forall (fun id => ∃ b, getFullBlock bs id = Some b ∧
                         isControlOpcode (opcode b) = false) cur →
  Forall (segmentOk bs) (segmentize bs ids cur).
Proof.
  induction ids as [|id ids IH]; intros cur Hcur; simpl.
  - case_decide; [constructor|]. by repeat constructor.
  - destruct (getFullBlock bs id) as [b|] eqn:Hb; [|by apply IH].
    destruct (isControlOpcode (opcode b)) eqn:Hc.
    + apply Forall_app. split.
      * case_decide; [constructor|]. by repeat constructor.
      * constructor; [by exists b|]. apply IH. constructor.
    + apply IH. apply Forall_app. split; [done|]. repeat constructor. by exists b.
Qed.

Lemma segmentize_separated bs ids : ∀ cur, linearSeparated (segmentize bs ids cur).
Proof.
  induction ids as [|id ids IH]; intros cur; simpl.
  - by case_decide.
  - destruct (getFullBlock bs id) as [b|]; [|apply IH].
    destruct (isControlOpcode (opcode b)); [|apply IH].
    specialize (IH []).
    case_decide; simpl.
    + destruct (segmentize bs ids []); [done|]. by split.
    + split; [done|]. destruct (segmentize bs ids []); [done|]. by split.
Qed.

(** X3. The segments [decomposeChain] cuts a chain into hold, in order,
    exactly the ids of the chain that are full blocks (the others are
    skipped); a linear segment is a non-empty run of blocks that are not
    control blocks, a control segment is a single control block, and no
    two linear segments are neighbours. *)
Theorem X3_segments_partition_the_chain (bs : gmap string Entry) (blockIds : list string) :
  concat (segmentIds <$> segmentize bs blockIds [])
    = filter (fun id => is_Some (getFullBlock bs id)) blockIds ∧
  Forall (segmentOk bs) (segmentize bs blockIds []) ∧
  linearSeparated (segmentize bs blockIds []).
Proof.
  split; [apply segmentize_ids|]. split; [by apply segmentize_ok|].
  apply segmentize_separated.
Qed.

(** ** Program counters stay in the allocation domain *)

Section Domain.
Variable inD : Z → Prop.
Variable okD : Z → Prop.
Hypothesis inD_draw : ∀ d, okD d → inD (d + PC_MIN).
Hypothesis inD_exit : inD EXIT_PC.

Lemma randomHugeInt_domain ds p rest :
  Forall okD ds → randomHugeInt ds = Some (p, rest) →
  inD p ∧ Forall okD rest.
Proof.
  induction 1 as [|d ds Hd Hds IH]; intros H; simpl in H; [done|].
  case_decide; [by apply IH|]. inversion H; subst.
  split; [|done]. by apply inD_draw.
Qed.

Lemma drawFreshPc_domain n (used : gset Z) : ∀ ds p rest,
  Forall okD ds → drawFreshPc n used ds = Some (p, rest) →
  inD p ∧ Forall okD rest.
Proof.
  induction n as [|n IH]; intros ds p rest Hds H; simpl in H; [done|].
  destruct (randomHugeInt ds) as [[q r]|] eqn:Hr; [|done].
  destruct (randomHugeInt_domain _ _ _ Hds Hr) as [Hq Hrest].
  repeat case_decide; [by eapply IH..|]. inversion H; subst. done.
Qed.

Lemma drawNonExit_domain n : ∀ ds p rest,
  Forall okD ds → drawNonExit n ds = Some (p, rest) →
  inD p ∧ Forall okD rest ∧ p ≠ EXIT_PC.
Proof.
  induction n as [|n IH]; intros ds p rest Hds H; simpl in H; [done|].
  destruct (randomHugeInt ds) as [[q r]|] eqn:Hr; [|done].
  destruct (randomHugeInt_domain _ _ _ Hds Hr) as [Hq Hrest].
  case_decide; [by eapply IH|]. inversion H; subst. split; [done|]. by split.
Qed.

Lemma allocPc_K bs0 st p st' :
  K inD okD bs0 st → allocPc st = Some (p, st') → K inD okD bs0 st' ∧ inD p.
Proof.
  intros (Hd & Hb & Hs & Hr) H. unfold allocPc in H.
  destruct (drawFreshPc _ _ _) as [[q rest]|] eqn:E; [|done].
  inversion H; subst; clear H.
  destruct (drawFreshPc_domain _ _ _ _ _ Hd E) as [Hq Hrest].
  split; [|done]. split; [done|]. split; [done|]. split; done.
Qed.

Lemma pushState_K bs0 s st u st' :
  K inD okD bs0 st → goodState inD bs0 s → isDead s = false →
  pushState s st = Some (u, st') → K inD okD bs0 st'.
Proof.
  intros (Hd & Hb & Hs & Hr) Hg Hdead H. inversion H; subst; clear H.
  split; [done|]. split; [done|]. split; [|done].
  simpl. apply Forall_app. split; [done|]. constructor; [by split|constructor].
Qed.

Lemma setRedirect_K bs0 k v st u st' :
  K inD okD bs0 st → inD k → inD v →
  setRedirect k v st = Some (u, st') → K inD okD bs0 st'.
Proof.
  intros (Hd & Hb & Hs & Hr) Hk Hv H. inversion H; subst; clear H.
  split; [done|]. split; [done|]. split; [done|].
  simpl. by apply map_Forall_insert_2.
Qed.

Lemma still_modifyBlocks f : still (modifyBlocks f).
Proof. intros st a st' H. by inversion H. Qed.

Lemma still_getBlocks : still getBlocks.
Proof. intros st a st' H. by inversion H. Qed.

Lemma still_uid : still uid.
Proof.
  intros st a st' H. unfold uid in H. destruct (uids st); [done|]. by inversion H.
Qed.

Lemma still_ret {A} (a : A) : still (ret a).
Proof. intros st b st' H. by inversion H. Qed.

Lemma still_bind {A B} (m : M A) (k : A → M B) :
  still m → (∀ a, still (k a)) → still (bind m k).
Proof.
  intros Hm Hk st b st' H. apply bind_inv in H as (a & st1 & H1 & H2).
  apply Hm in H1 as [E1 E2]. apply Hk in H2 as [E3 E4]. split; congruence.
Qed.

Lemma still_clearParent id : still (clearParent id).
Proof. destruct id; [apply still_modifyBlocks|apply still_ret]. Qed.

Lemma still_numberLiteral l : still (numberLiteral l).
Proof.
  apply still_bind; [apply still_uid|]. intros id.
  apply still_bind; [apply still_modifyBlocks|]. intros _. apply still_ret.
Qed.

Lemma still_textLiteral t : still (textLiteral t).
Proof.
  apply still_bind; [apply still_uid|]. intros id.
  apply still_bind; [apply still_modifyBlocks|]. intros _. apply still_ret.
Qed.

Create HintDb still.
#[local] Hint Resolve still_modifyBlocks still_getBlocks still_uid still_ret
  still_clearParent still_numberLiteral still_textLiteral : still.

Ltac solve_still :=
  repeat first
    [ progress eauto with still
    | apply still_bind; [|intros ?]
    | case_match
    | case_decide ].

#[local] Hint Resolve neutral_modifyBlocks neutral_setRedirect neutral_getBlocks
  neutral_uid neutral_ret neutral_clearParent neutral_numberLiteral
  neutral_textLiteral : neutral.

#[local] Hint Resolve blocksStable_setParent blocksStable_setNext
  blocksStable_deleteBlock blocksStable_insert_prim blocksStable_unlinkBlock
  blocksStable_foldl_unlink blocksStable_linkChain blocksStable_refl
  stableM_ret stableM_getBlocks stableM_pushState stableM_setRedirect
  stableM_uid stableM_allocPc stableM_drawNextPc stableM_failM
  stableM_clearParent stableM_numberLiteral stableM_textLiteral : stable.

Lemma quiet_K {A} (m : M A) bs0 st a st' :
  neutral m → stableM m → still m → K inD okD bs0 st → m st = Some (a, st') → K inD okD bs0 st'.
Proof.
  intros Hn Hs Ht (Hd & Hb & Hst & Hr) H.
  destruct (Hn _ _ _ H) as [E1 _]. destruct (Ht _ _ _ H) as [E2 E3].
  specialize (Hs _ _ _ H). unfold K. rewrite E1, E2, E3.
  split; [done|]. split; [by eapply blocksStable_trans|]. split; done.
Qed.

Lemma substackChain_K bs0 rec o c st a st' :
  keepsK inD okD bs0 rec → K inD okD bs0 st → inD c →
  substackChain rec o c st = Some (a, st') → K inD okD bs0 st' ∧ inD a.
Proof.
  intros Hrec HK Hc H. destruct o as [first|]; simpl in H.
  - apply bind_inv in H as (bs & st1 & E & H). inversion E; subst. by eapply Hrec.
  - inversion H; subst. done.
Qed.

Ltac korigin :=
  unfold stateOrigin; cbn;
  repeat split; intros [? ?]; try discriminate;
  first
    [ match goal with
      | Hop : opcode _ = ?op |- hasOpcode _ ?op => rewrite <-Hop; assumption
      end
    | left; match goal with
            | Hop : opcode _ = ?op |- hasOpcode _ ?op => rewrite <-Hop; assumption
            end
    | right; match goal with
             | Hop : opcode _ = ?op |- hasOpcode _ ?op => rewrite <-Hop; assumption
             end ].

Ltac kgood :=
  split;
  [ cbn;
    repeat (apply List.Forall_cons; [first [assumption|apply inD_exit]|]);
    apply List.Forall_nil
  | korigin ].

Ltac kstep Hrec H HK :=
  lazymatch type of H with
  | bind allocPc _ _ = _ =>
      let p := fresh "p" in let st1 := fresh "st" in let E := fresh "E" in
      let HK' := fresh "HK" in let Hp := fresh "Hp" in
      apply bind_inv in H as (p & st1 & E & H); cbv beta in H;
      destruct (allocPc_K _ _ _ _ HK E) as (HK' & Hp);
      clear HK E; rename HK' into HK
  | bind (pushState ?s) _ _ = _ =>
      let u := fresh "u" in let st1 := fresh "st" in let E := fresh "E" in
      let HK' := fresh "HK" in
      apply bind_inv in H as (u & st1 & E & H); cbv beta in H;
      assert (HK' := pushState_K _ s _ _ _ HK ltac:(kgood) eq_refl E);
      clear HK E; rename HK' into HK
  | bind (setRedirect ?k ?v) _ _ = _ =>
      let u := fresh "u" in let st1 := fresh "st" in let E := fresh "E" in
      let HK' := fresh "HK" in
      apply bind_inv in H as (u & st1 & E & H); cbv beta in H;
      assert (HK' := setRedirect_K _ k v _ _ _ HK ltac:(assumption) ltac:(assumption) E);
      clear HK E; rename HK' into HK
  | bind (substackChain _ ?o ?c) _ _ = _ =>
      let x := fresh "x" in let st1 := fresh "st" in let E := fresh "E" in
      let HK' := fresh "HK" in let Hx := fresh "Hx" in
      apply bind_inv in H as (x & st1 & E & H); cbv beta in H;
      destruct (substackChain_K _ _ o c _ _ _ Hrec HK ltac:(assumption) E) as (HK' & Hx);
      clear HK E; rename HK' into HK
  | bind _ _ _ = _ =>
      let x := fresh "x" in let st1 := fresh "st" in let E := fresh "E" in
      let HK' := fresh "HK" in let Hx := fresh "Hx" in
      apply bind_inv in H as (x & st1 & E & H); cbv beta in H;
      first
        [ lazymatch type of E with
          | ?m _ = _ =>
              assert (HK' := quiet_K m _ _ _ _ ltac:(solve_neutral) ltac:(solve_stable)
                                   ltac:(solve_still) HK E)
          end
        | lazymatch type of E with
          | _ ?ids ?c _ = _ =>
              destruct (Hrec ids c _ _ _ HK ltac:(assumption) E) as (HK' & Hx)
          end ];
      clear HK E; rename HK' into HK
  end.

Ltac kfinish Hrec H HK :=
  first
    [ injection H as <- <-; split; [exact HK|first [assumption|apply inD_exit]]
    | lazymatch type of H with
      | substackChain _ ?o ?c _ = _ =>
          exact (substackChain_K _ _ o c _ _ _ Hrec HK ltac:(assumption) H)
      end
    | lazymatch type of H with
      | _ ?ids ?c _ = _ => exact (Hrec ids c _ _ _ HK ltac:(assumption) H)
      end ].

Lemma decomposeControlBlock_K bs0 rec block blockId c st a st' :
  keepsK inD okD bs0 rec → hasOpcode bs0 (opcode block) →
  K inD okD bs0 st → inD c →
  decomposeControlBlock rec block blockId c st = Some (a, st') →
  K inD okD bs0 st' ∧ inD a.
Proof.
  intros Hrec Horig HK Hc H. unfold decomposeControlBlock in H.
  repeat case_decide.
  all: try (destruct (inputRef block "SUBSTACK") eqn:Hsub).
  all: repeat kstep Hrec H HK.
  all: kfinish Hrec H HK.
Qed.

Lemma K_origin bs0 st id block :
  K inD okD bs0 st → getFullBlock (blocks st) id = Some block → hasOpcode bs0 (opcode block).
Proof.
  intros (_ & Hb & _) H. destruct (Hb _ _ H) as (b & Hb0 & Hop). by exists id, b.
Qed.

Lemma decomposeSegment_K bs0 rec seg c st a st' :
  keepsK inD okD bs0 rec → K inD okD bs0 st → inD c →
  decomposeSegment rec seg c st = Some (a, st') → K inD okD bs0 st' ∧ inD a.
Proof.
  intros Hrec HK Hc H. destruct seg as [ids|blockId]; simpl in H.
  - kstep Hrec H HK.
    apply bind_inv in H as (u & st1 & E & H). cbv beta in H.
    assert (HK1 : K inD okD bs0 st1).
    { eapply (quiet_K _ _ _ _ _ (neutral_modifyBlocks _) _ (still_modifyBlocks _) HK E). }
    kstep Hrec H HK1. kfinish Hrec H HK1.
  - apply bind_inv in H as (bs & st1 & E & H). inversion E; subst.
    destruct (getFullBlock (blocks st1) blockId) as [block|] eqn:Hb; [|done].
    eapply decomposeControlBlock_K; [done| |done|done|exact H].
    by eapply K_origin.
  Unshelve.
  apply stableM_modifyBlocks. intros bs.
  eapply blocksStable_trans; [apply blocksStable_foldl_unlink|apply blocksStable_linkChain].
Qed.

Lemma decomposeSegments_K bs0 rec segs c :
  keepsK inD okD bs0 rec → ∀ st a st', K inD okD bs0 st → inD c →
  decomposeSegments rec segs c st = Some (a, st') → K inD okD bs0 st' ∧ inD a.
Proof.
  intros Hrec. induction segs as [|seg segs IH]; intros st a st' HK Hc H; simpl in H.
  - inversion H; subst. done.
  - apply bind_inv in H as (n & st1 & E & H).
    destruct (IH _ _ _ HK Hc E) as [HK1 Hn].
    by eapply decomposeSegment_K.
Qed.

Lemma decomposeChain_K bs0 fuel : keepsK inD okD bs0 (decomposeChain fuel).
Proof.
  induction fuel as [|fuel IH]; intros ids c st a st' HK Hc H.
  - destruct ids; simpl in H; [|done]. inversion H; subst. done.
  - destruct ids as [|i ids]; simpl in H; [inversion H; subst; done|].
    apply bind_inv in H as (bs & st1 & E & H). inversion E; subst.
    by eapply decomposeSegments_K.
Qed.

Lemma K_initial bs0 bs ds us :
  blocksStable bs0 bs → Forall okD ds → K inD okD bs0 (initialDState bs ds us).
Proof.
  intros Hb Hd. split; [done|]. split; [done|]. split; [constructor|].
  apply map_Forall_empty.
Qed.

(** The decoys: plain states of their own kind, in the domain, that never
    lead to the exit. *)
Lemma generateDeadStatesFrom_domain deadBody count : ∀ i st dead st',
  Forall okD (draws st) →
  generateDeadStatesFrom deadBody i count st = Some (dead, st') →
  Forall okD (draws st') ∧ yieldRedirects st' = yieldRedirects st ∧
  states st' = states st ∧ length dead = count ∧
  Forall (fun s => ∃ p body n, s = plainState p body n true ∧
                     inD p ∧ inD n ∧ n ≠ EXIT_PC) dead.
Proof.
  induction count as [|count IH]; intros i st dead st' Hd H; simpl in H.
  - inversion H; subst. repeat split; try done.
  - apply bind_inv in H as (p & st1 & E1 & H). cbv beta in H.
    unfold allocDeadPc, allocPc in E1.
    destruct (drawFreshPc _ _ _) as [[q r]|] eqn:Eq; [|done].
    inversion E1; subst; clear E1.
    destruct (drawFreshPc_domain _ _ _ _ _ Hd Eq) as [Hq Hr].
    apply bind_inv in H as (u & st2 & E2 & H). cbv beta in H.
    inversion E2; subst; clear E2.
    apply bind_inv in H as (n & st3 & E3 & H). cbv beta in H.
    unfold drawNextPc in E3.
    destruct (drawNonExit _ _) as [[n' r']|] eqn:En; [|done].
    inversion E3; subst; clear E3.
    destruct (drawNonExit_domain _ _ _ _ Hr En) as (Hn & Hr' & Hne).
    apply bind_inv in H as (rest & st4 & E4 & H). cbv beta in H.
    inversion H; subst; clear H.
    apply IH in E4 as (Hd4 & Hy4 & Hs4 & Hl4 & Hf4); [|exact Hr'].
    split; [done|]. split; [done|]. split; [done|]. split; [simpl; by f_equal|].
    constructor; [|done]. by exists p, (deadBody i), n.
Qed.

Lemma pcsOf_plainState p body n dead : pcsOf (plainState p body n dead) = [p; n].
Proof. done. Qed.

(** What [decomposeToCFG] returns, on draws of the range of the source's
    random expression and a store that descends from [bs0]. *)
Lemma decomposeToCFG_K bs0 fuel config deadBody pick bs ds us chainIds cfg :
  blocksStable bs0 bs → Forall okD ds →
  decomposeToCFG fuel config deadBody pick bs ds us chainIds = Some cfg →
  inD (entryPc cfg) ∧
  map_Forall (fun k v => inD k ∧ inD v) (cfgRedirects cfg) ∧
  Forall okD (cfgDraws cfg) ∧
  ∃ real dead,
    cfgStates cfg ≡ₚ real ++ dead ∧
    Forall (fun s => goodState inD bs0 s ∧ isDead s = false) real ∧
    length dead = deadStatesPerScript config ∧
    Forall (fun s => ∃ p body n, s = plainState p body n true ∧
                       inD p ∧ inD n ∧ n ≠ EXIT_PC) dead.
Proof.
  intros Hb Hd H. unfold decomposeToCFG in H.
  destruct (decomposeBody _ _ _ _ _) as [[entry st]|] eqn:E; [|done].
  inversion H; subst; clear H. simpl.
  unfold decomposeBody in E.
  apply bind_inv in E as (e & st1 & E1 & E). cbv beta in E.
  apply bind_inv in E as (dead & st2 & E2 & E). cbv beta in E.
  inversion E; subst; clear E. simpl.
  destruct (decomposeChain_K bs0 fuel chainIds EXIT_PC _ _ _
              (K_initial bs0 bs ds us Hb Hd) inD_exit E1)
    as [(Hd1 & Hb1 & Hs1 & Hr1) He].
  destruct (generateDeadStatesFrom_domain _ _ _ _ _ _ Hd1 E2)
    as (Hd2 & Hy2 & Hs2 & Hl2 & Hf2).
  split; [done|]. split; [by rewrite Hy2|]. split; [done|].
  exists (states st2), dead. split; [apply shuffle_Permutation|].
  split; [by rewrite Hs2|]. split; done.
Qed.

End Domain.

Lemma hasOpcodeb_spec bs op : hasOpcodeb bs op = true ↔ hasOpcode bs op.
Proof.
  unfold hasOpcodeb, hasOpcode, getFullBlock. rewrite existsb_exists. split.
  - intros ([id e] & Hin & He). apply list_elem_of_In, elem_of_map_to_list in Hin.
    simpl in He. destruct e as [b|l]; [|done].
    apply bool_decide_eq_true_1 in He. exists id, b. by rewrite Hin.
  - intros (id & b & Hb & Hop). destruct (bs !! id) as [[b'|l]|] eqn:E; try done.
    inversion Hb; subst. exists (id, EntBlock b). split.
    + by apply list_elem_of_In, elem_of_map_to_list.
    + simpl. by apply bool_decide_eq_true_2.
Qed.

Lemma resolvePc_domain (yr : gmap Z Z) t :
  map_Forall (fun k v => inDomain k ∧ inDomain v) yr → inDomain t →
  inDomain (resolvePc yr t).
Proof.
  intros Hyr Ht. unfold resolvePc. destruct (yr !! t) as [v|] eqn:E; [|done].
  simpl. by destruct (Hyr _ _ E).
Qed.

Lemma inDomain_draw d : drawOk d → inDomain (d + PC_MIN).
Proof. unfold inDomain, drawOk. lia. Qed.

Lemma inDomain_exit : inDomain EXIT_PC.
Proof. unfold inDomain, EXIT_PC, PC_MIN, PC_MAX. lia. Qed.

Lemma decomposeToCFG_pcs fuel config deadBody pick bs ds us chainIds cfg :
  Forall drawOk ds →
  decomposeToCFG fuel config deadBody pick bs ds us chainIds = Some cfg →
  inDomain (entryPc cfg) ∧
  map_Forall (fun k v => inDomain k ∧ inDomain v) (cfgRedirects cfg) ∧
  ∀ s, s ∈ cfgStates cfg → Forall inDomain (pcsOf s).
Proof.
  intros Hd H.
  destruct (decomposeToCFG_K inDomain drawOk inDomain_draw inDomain_exit bs _ _ _ _ _ _ _ _ _
              (blocksStable_refl bs) Hd H)
    as (He & Hyr & _ & real & dead & Hperm & Hreal & _ & Hdead).
  split; [done|]. split; [done|].
  intros s Hs. rewrite Hperm in Hs. apply elem_of_app in Hs as [Hs|Hs].
  - rewrite Forall_forall in Hreal. by destruct (Hreal s Hs) as [[? _] _].
  - rewrite Forall_forall in Hdead.
    destruct (Hdead s Hs) as (p & body & n & -> & Hp & Hn & _).
    rewrite pcsOf_plainState. constructor; [done|]. constructor; [done|constructor].
Qed.

(** X4. When the random draws are in the range of the source's expression,
    every program counter of a decomposed script (the entry, the PC of
    each state, real or decoy, and every transition target, also after
    resolving it through the yield redirects) lies in the allocation
    domain; hence every PC-transition expression emitted for a state, run
    with the cached PC equal to that state's PC, evaluates to its
    target. *)
Theorem X4_program_counters_in_domain
    fuel config deadBody pick bs ds us chainIds cfg :
  Forall drawOk ds →
  decomposeToCFG fuel config deadBody pick bs ds us chainIds = Some cfg →
  inDomain (entryPc cfg) ∧
  (∀ s, s ∈ cfgStates cfg → Forall inDomain (pcsOf s)) ∧
  (∀ s t, s ∈ cfgStates cfg → t ∈ pcsOf s →
     inDomain (resolvePc (cfgRedirects cfg) t)) ∧
  (∀ s t userExpr args rt ctx rnd n,
     s ∈ cfgStates cfg → t ∈ pcsOf s →
     1000 <= rScramble rnd n <= 99999 →
     getVar rt (cachedPcVarId ctx) = VNum (pc s) →
     eval userExpr args rt
          (pcValue ctx config rnd n (pc s) (resolvePc (cfgRedirects cfg) t))
       = Some (VNum (resolvePc (cfgRedirects cfg) t))).
Proof.
  intros Hd H.
  destruct (decomposeToCFG_pcs _ _ _ _ _ _ _ _ _ Hd H) as (He & Hyr & Hst).
  assert (Hres : ∀ s t, s ∈ cfgStates cfg → t ∈ pcsOf s →
            inDomain (resolvePc (cfgRedirects cfg) t)).
  { intros s t Hs Ht. apply resolvePc_domain; [done|].
    specialize (Hst s Hs). rewrite Forall_forall in Hst. by apply Hst. }
  split; [done|]. split; [done|]. split; [done|].
  intros s t userExpr args rt ctx rnd n Hs Ht Hscr Hv.
  assert (Hpc : inDomain (pc s)).
  { specialize (Hst s Hs). rewrite Forall_forall in Hst. apply Hst.
    unfold pcsOf. apply list_elem_of_here. }
  unfold pcValue. destruct (obfuscatePcTransitions config); [|done].
  apply eval_buildObfuscatedPcExpr; [exact Hpc|by eapply Hres|done|done].
Qed.

Lemma X4_witness :
  ∃ cfg,
    decomposeToCFG 5 exConfig (fun _ => []) (fun _ => 0%nat) exStore exDraws [] ["ife"]
      = Some cfg ∧
    inDomain (entryPc cfg) ∧
    ∀ s, s ∈ cfgStates cfg → Forall inDomain (pcsOf s).
Proof.
  eexists. split; [vm_compute; reflexivity|].
  destruct (X4_program_counters_in_domain 5 exConfig (fun _ => []) (fun _ => 0%nat)
              exStore exDraws [] ["ife"] _
              ltac:(repeat constructor; unfold drawOk, PC_MAX, PC_MIN; lia)
              ltac:(vm_compute; reflexivity)) as (He & Hst & _).
  split; [exact He|exact Hst].
Defined.

(** X5. The wait lists exist whenever a state needs them.  A wait-start
    state comes only from a [control_wait] block and a broadcast-wait
    start only from an [event_broadcastandwait] block of the store; blocks
    keep their opcodes, so the pre-scan of the target saw such a block,
    the corresponding flag of the target's lists is set, and the lists a
    wait state reads and writes are among those kept parallel to the
    token list. *)
Theorem X5_wait_states_have_their_lists
    names bs0 fuel config deadBody pick bs ds us chainIds cfg s :
  blocksStable bs0 bs →
  decomposeToCFG fuel config deadBody pick bs ds us chainIds = Some cfg →
  s ∈ cfgStates cfg →
  let l := targetLists names bs0 in
  (is_Some (waitStart s) → hasTimerWait l = true) ∧
  (is_Some (broadcastWaitStart s) → hasBroadcastWait l = true) ∧
  (usesWaitLists s = true →
     needsWait l = true ∧
     waitFlagId l ∈ parallelLists l ∧ bcastPendingMsgId l ∈ parallelLists l).
Proof.
  intros Hb H Hs l.
  destruct (decomposeToCFG_K (fun _ => True) (fun _ => True) (fun _ _ => I) I
              bs0 _ _ _ _ bs ds us _ _ Hb ltac:(by apply Forall_forall) H)
    as (_ & _ & _ & real & dead & Hperm & Hreal & _ & Hdead).
  assert (Horigin : stateOrigin bs0 s).
  { rewrite Hperm in Hs. apply elem_of_app in Hs as [Hs|Hs].
    - rewrite Forall_forall in Hreal. by destruct (Hreal s Hs) as [[_ ?] _].
    - rewrite Forall_forall in Hdead. destruct (Hdead s Hs) as (p & body & n & -> & _).
      repeat split; intros [? ?]; done. }
  destruct Horigin as (Hws & Hbws & Hwp).
  assert (Ht : is_Some (waitStart s) → hasTimerWait l = true).
  { intros Hw. unfold l, targetLists, createTargetLists, preScan. simpl.
    by apply hasOpcodeb_spec, Hws. }
  assert (Hbw : is_Some (broadcastWaitStart s) → hasBroadcastWait l = true).
  { intros Hw. unfold l, targetLists, createTargetLists, preScan. simpl.
    by apply hasOpcodeb_spec, Hbws. }
  split; [done|]. split; [done|]. intros Hu.
  assert (Hneeds : needsWait l = true).
  { unfold usesWaitLists in Hu. unfold needsWait.
    apply orb_true_iff in Hu as [Hu|Hu]; [apply orb_true_iff in Hu as [Hu|Hu]|].
    - apply bool_decide_eq_true_1 in Hu. by rewrite (Ht Hu).
    - apply bool_decide_eq_true_1 in Hu. destruct (Hwp Hu) as [Ho|Ho].
      + apply hasOpcodeb_spec in Ho. unfold l, targetLists, preScan. simpl. by rewrite Ho.
      + apply hasOpcodeb_spec in Ho. unfold l, targetLists, preScan. simpl.
        rewrite Ho. apply orb_true_r.
    - apply bool_decide_eq_true_1 in Hu. rewrite (Hbw Hu). apply orb_true_r. }
  split; [done|]. unfold parallelLists. rewrite Hneeds. split; set_solver.
Qed.

Lemma X5_witness :
  ∃ cfg s,
    decomposeToCFG 5 exConfig (fun _ => []) (fun _ => 0%nat) exWaitStore exDraws ["lit"] ["w"]
      = Some cfg ∧
    s ∈ cfgStates cfg ∧ is_Some (waitStart s) ∧
    hasTimerWait (targetLists exNames exWaitStore) = true.
Proof.
  eexists. exists (waitStartState 7 3 (mkWaitStart "lit" 3)).
  split; [vm_compute; reflexivity|].
  assert (Hin : waitStartState 7 3 (mkWaitStart "lit" 3) ∈
                [waitPollState 3 0 (mkWaitPoll 0 true);
                 waitStartState 7 3 (mkWaitStart "lit" 3)])
    by (apply list_elem_of_further, list_elem_of_here).
  split; [exact Hin|]. split; [by eexists|].
  refine (proj1 (X5_wait_states_have_their_lists exNames exWaitStore 5 exConfig
                   (fun _ => []) (fun _ => 0%nat) exWaitStore exDraws ["lit"] ["w"] _
                   (waitStartState 7 3 (mkWaitStart "lit" 3))
                   (blocksStable_refl _) ltac:(vm_compute; reflexivity) Hin) _).
  by eexists.
Defined.

(** ** What the body of each kind of state does *)

Ltac simpl_lists :=
  repeat first [ rewrite getList_setList_eq
               | rewrite getList_setList_ne by done
               | rewrite getList_setVar
               | rewrite getList_emitEvent ].

Lemma getVar_afterPcWrite_other ctx yr row p rt x :
  x ≠ cachedPcVarId ctx → x ≠ keepGoingVarId ctx →
  getVar (afterPcWrite ctx yr row p rt) x = getVar rt x.
Proof.
  intros H1 H2. unfold afterPcWrite.
  destruct (shouldYield yr p); rewrite getVar_setVar_ne by done; apply getVar_setList.
Qed.

Lemma rtTrace_afterPcWrite ctx yr row p rt :
  rtTrace (afterPcWrite ctx yr row p rt) = rtTrace rt.
Proof. unfold afterPcWrite. by destruct (shouldYield yr p). Qed.

Lemma getVar_afterPcWrite_keepGoing ctx yr row p rt :
  keepGoingVarId ctx ≠ cachedPcVarId ctx →
  getVar (afterPcWrite ctx yr row p rt) (keepGoingVarId ctx) =
  if shouldYield yr p then getVar rt (keepGoingVarId ctx) else VNum 1.
Proof.
  intros Hd. unfold afterPcWrite. destruct (shouldYield yr p).
  - rewrite getVar_setVar_ne by done. apply getVar_setList.
  - apply getVar_setVar_eq.
Qed.

Lemma exec_users_app userExpr userStmt args fuel ids rest rt :
  exec userExpr userStmt args fuel ((SUser <$> ids) ++ rest) rt =
  exec userExpr userStmt args fuel (SUser <$> ids) rt
    ≫= exec userExpr userStmt args fuel rest.
Proof. apply exec_app. Qed.

Section StateBodies.
Variable userExpr : string → Runtime → option Value.
Variable userStmt : string → Runtime → option Runtime.
Variable args : gmap string Value.
Variable fuel : nat.
Variable ctx : ScriptCFFContext.
Variable config : CffConfig.
Variable yr : gmap Z Z.
Variable rnd : Rand.

Hypothesis Hscramble : ∀ n, 1000 <= rScramble rnd n <= 99999.

Lemma buildStateBody_plain p ids n :
  buildStateBody ctx config yr rnd (plainState p ids n false) =
  (SUser <$> ids) ++ (resolveAndWritePc ctx config yr rnd 0 n p).1.
Proof.
  unfold buildStateBody. simpl.
  destruct (resolveAndWritePc ctx config yr rnd 0 n p) as [setPc yielded] eqn:E.
  simpl.
  destruct (map (fun bid => [SUser bid]) ids ++ [setPc]) eqn:E1.
  { apply app_eq_nil in E1 as [_ E1]. done. }
  rewrite <-E1. by rewrite linkBlocks_users.
Qed.

Lemma buildStateBody_branch p n br :
  buildStateBody ctx config yr rnd (branchState p n br) =
  if decide (conditionBlockId br = "")
  then (resolveAndWritePc ctx config yr rnd 1 (falsePc br) p).1
  else [SIfElse (EUser (conditionBlockId br))
          (resolveAndWritePc ctx config yr rnd 0 (truePc br) p).1
          (resolveAndWritePc ctx config yr rnd 1 (falsePc br) p).1].
Proof.
  unfold buildStateBody. simpl. case_decide; [|done].
  unfold resolveAndWritePc. by destruct (shouldYield yr (falsePc br)).
Qed.

End StateBodies.

(** X6. The body emitted for a live plain state runs the blocks of the
    state in their order and then performs the PC write for the state's
    successor: the PC column of the thread's row receives the successor
    (after yield-redirect resolution) and either the keep-going flag is
    set (the step loop goes on) or the cached PC is set (the loop ends
    this tick).  If one of the blocks fails, so does the body. *)
Theorem X6_plain_state_runs_then_moves
    userExpr userStmt args fuel ctx config yr rnd p ids n row rt :
  (∀ k, 1000 <= rScramble rnd k <= 99999) →
  inDomain p → inDomain (resolvePc yr n) →
  let body := buildStateBody ctx config yr rnd (plainState p ids n false) in
  (∀ rt1,
     exec userExpr userStmt args fuel (SUser <$> ids) rt = Some rt1 →
     getVar rt1 (cachedPcVarId ctx) = VNum p →
     getVar rt1 (baseIndexVarId ctx) = VNum row →
     exec userExpr userStmt args fuel body rt = Some (afterPcWrite ctx yr row n rt1) ∧
     getList (afterPcWrite ctx yr row n rt1) (pcValId (lists ctx)) =
       replaceAt (getList rt1 (pcValId (lists ctx))) row (VNum (resolvePc yr n)) ∧
     (keepGoingVarId ctx ≠ cachedPcVarId ctx →
      getVar (afterPcWrite ctx yr row n rt1) (keepGoingVarId ctx) =
        if shouldYield yr n then getVar rt1 (keepGoingVarId ctx) else VNum 1)) ∧
  (exec userExpr userStmt args fuel (SUser <$> ids) rt = None →
   exec userExpr userStmt args fuel body rt = None).
Proof.
  intros Hs Hp Hn body. unfold body. rewrite buildStateBody_plain. split.
  - intros rt1 Hu Hc Hb. split; [|split].
    + rewrite exec_app, Hu. simpl. by apply exec_resolveAndWritePc.
    + rewrite getList_afterPcWrite. by rewrite decide_True.
    + apply getVar_afterPcWrite_keepGoing.
  - intros Hu. by rewrite exec_app, Hu.
Qed.

Lemma X6_witness :
  exec exUserExpr exUserStmt exArgs 0
    (buildStateBody exCtx exConfig ∅ exRand (plainState 3 ["s1"] 9 false))
    (exRuntime [("cachedPc", VNum 3); ("baseIndex", VNum 1)]
               [("pcIds", [VNum 42]); ("pcVals", [VNum 3])])
  = Some (afterPcWrite exCtx ∅ 1 9
            (exRuntime [("cachedPc", VNum 3); ("baseIndex", VNum 1)]
                       [("pcIds", [VNum 42]); ("pcVals", [VNum 3])])).
Proof.
  refine (proj1 (proj1 (X6_plain_state_runs_then_moves exUserExpr exUserStmt exArgs 0%nat
            exCtx exConfig ∅ exRand 3 ["s1"] 9 1 _ _ _ _) _ _ _ _)).
  - intros k. simpl. lia.
  - unfold inDomain, PC_MIN, PC_MAX. lia.
  - unfold inDomain, PC_MIN, PC_MAX. vm_compute. split; discriminate.
  - reflexivity.
  - reflexivity.
  - reflexivity.
Defined.

(** X7. The body emitted for a branch state evaluates the condition once
    and writes the PC of the arm chosen: the true target when the
    condition holds, the false target otherwise.  A branch state without
    a condition block evaluates nothing and always takes the false
    target. *)
Theorem X7_branch_state_follows_condition
    userExpr userStmt args fuel ctx config yr rnd p n br row rt :
  (∀ k, 1000 <= rScramble rnd k <= 99999) →
  inDomain p → inDomain (resolvePc yr (truePc br)) → inDomain (resolvePc yr (falsePc br)) →
  getVar rt (cachedPcVarId ctx) = VNum p →
  getVar rt (baseIndexVarId ctx) = VNum row →
  let body := buildStateBody ctx config yr rnd (branchState p n br) in
  (conditionBlockId br = "" →
   exec userExpr userStmt args fuel body rt = Some (afterPcWrite ctx yr row (falsePc br) rt)) ∧
  (conditionBlockId br ≠ "" → ∀ b,
   userExpr (conditionBlockId br) rt = Some (VBool b) →
   exec userExpr userStmt args fuel body rt
     = Some (afterPcWrite ctx yr row (if b then truePc br else falsePc br) rt)) ∧
  (conditionBlockId br ≠ "" → userExpr (conditionBlockId br) rt = None →
   exec userExpr userStmt args fuel body rt = None).
Proof.
  intros Hs Hp Ht Hf Hc Hb body. unfold body. rewrite buildStateBody_branch.
  split; [|split].
  - intros He. rewrite decide_True by done. by apply exec_resolveAndWritePc.
  - intros He b Hv. rewrite decide_False by done.
    rewrite exec_single, execStmt_SIfElse. unfold evalBool. cbn [eval]. rewrite Hv.
    destruct b; by apply exec_resolveAndWritePc.
  - intros He Hv. rewrite decide_False by done.
    rewrite exec_single, execStmt_SIfElse. unfold evalBool. cbn [eval]. by rewrite Hv.
Qed.

Lemma X7_witness :
  exec exUserExpr exUserStmt exArgs 0
    (buildStateBody exCtx exConfig ∅ exRand (branchState 7 0 (mkBranch "" 3 9)))
    (exRuntime [("cachedPc", VNum 7); ("baseIndex", VNum 1)]
               [("pcIds", [VNum 42]); ("pcVals", [VNum 7])])
  = Some (afterPcWrite exCtx ∅ 1 9
            (exRuntime [("cachedPc", VNum 7); ("baseIndex", VNum 1)]
                       [("pcIds", [VNum 42]); ("pcVals", [VNum 7])])).
Proof.
  refine (proj1 (X7_branch_state_follows_condition exUserExpr exUserStmt exArgs 0%nat
            exCtx exConfig ∅ exRand 7 0 (mkBranch "" 3 9) 1 _ _ _ _ _ _ _) _).
  - intros k. simpl. lia.
  - unfold inDomain, PC_MIN, PC_MAX. lia.
  - unfold inDomain, PC_MIN, PC_MAX. vm_compute. split; discriminate.
  - unfold inDomain, PC_MIN, PC_MAX. vm_compute. split; discriminate.
  - reflexivity.
  - reflexivity.
  - reflexivity.
Defined.

(** ** The wait protocol *)

Lemma waitLists_distinct l :
  listsSeparate l → needsWait l = true →
  NoDup [pcIdId l; pcValId l; waitFlagId l; bcastPendingMsgId l; waitQueueId l].
Proof.
  intros (Hnd & _ & _ & Hq & _) Hw. unfold parallelLists in *. rewrite Hw in *.
  simpl in *.
  change [pcIdId l; pcValId l; waitFlagId l; bcastPendingMsgId l; waitQueueId l]
    with ([pcIdId l; pcValId l; waitFlagId l; bcastPendingMsgId l] ++ [waitQueueId l]).
  apply NoDup_app. split; [done|]. split.
  - intros x Hx Hx'. apply list_elem_of_singleton in Hx'. by subst.
  - apply NoDup_singleton.
Qed.

Section WaitStates.
Variable userExpr : string → Runtime → option Value.
Variable userStmt : string → Runtime → option Runtime.
Variable args : gmap string Value.
Variable fuel : nat.
Variable ctx : ScriptCFFContext.
Variable config : CffConfig.
Variable yr : gmap Z Z.
Variable rnd : Rand.
Variable tid : Value.

Hypothesis Htid : args !! stepThreadArg ctx = Some tid.
Hypothesis Hscramble : ∀ n, 1000 <= rScramble rnd n <= 99999.
Hypothesis Hsep : listsSeparate (lists ctx).
Hypothesis Hwait : needsWait (lists ctx) = true.

Let L := lists ctx.

Lemma buildStateBody_waitStart p n ws :
  buildStateBody ctx config yr rnd (waitStartState p n ws) =
  startBlocks ctx config rnd (EUser (durationExprBlockId ws)) 1 p (ws_pollPc ws).
Proof. reflexivity. Qed.

Lemma buildStateBody_broadcastWaitStart p n bws :
  buildStateBody ctx config yr rnd (broadcastWaitStartState p n bws) =
  startBlocks ctx config rnd (EUser (broadcastExprBlockId bws)) (-1) p (bws_pollPc bws).
Proof. reflexivity. Qed.

Lemma exec_startBlocks data flag cur pollPc row v rt :
  inDomain cur → inDomain pollPc →
  getVar rt (cachedPcVarId ctx) = VNum cur →
  getVar rt (baseIndexVarId ctx) = VNum row →
  eval userExpr args rt data = Some v →
  ∃ rt',
    exec userExpr userStmt args fuel (startBlocks ctx config rnd data flag cur pollPc) rt = Some rt' ∧
    getList rt' (bcastPendingMsgId L) = replaceAt (getList rt (bcastPendingMsgId L)) row v ∧
    getList rt' (waitFlagId L) = replaceAt (getList rt (waitFlagId L)) row (VNum flag) ∧
    getList rt' (waitQueueId L) = getList rt (waitQueueId L) ++ [tid] ∧
    getList rt' (pcValId L) = replaceAt (getList rt (pcValId L)) row (VNum pollPc) ∧
    getList rt' (pcIdId L) = getList rt (pcIdId L) ∧
    rtTrace rt' = rtTrace rt ++ [EvBroadcast (waitBroadcastId L)] ∧
    getVar rt' (cachedPcVarId ctx) = VNum pollPc ∧
    ∀ x, x ≠ cachedPcVarId ctx → getVar rt' x = getVar rt x.
Proof.
  intros Hc Hp Hv Hb Hd.
  pose proof (waitLists_distinct _ Hsep Hwait) as Hnd. fold L in Hnd.
  assert (Hne : ∀ i j a b, [pcIdId L; pcValId L; waitFlagId L; bcastPendingMsgId L;
                            waitQueueId L] !! i = Some a →
                [pcIdId L; pcValId L; waitFlagId L; bcastPendingMsgId L;
                 waitQueueId L] !! j = Some b → i ≠ j → a ≠ b).
  { intros i j a b Ha Hb' Hij ->. apply Hij. by eapply NoDup_lookup. }
  assert (H01 := Hne 0%nat 1%nat _ _ eq_refl eq_refl ltac:(done)).
  assert (H02 := Hne 0%nat 2%nat _ _ eq_refl eq_refl ltac:(done)).
  assert (H03 := Hne 0%nat 3%nat _ _ eq_refl eq_refl ltac:(done)).
  assert (H04 := Hne 0%nat 4%nat _ _ eq_refl eq_refl ltac:(done)).
  assert (H12 := Hne 1%nat 2%nat _ _ eq_refl eq_refl ltac:(done)).
  assert (H13 := Hne 1%nat 3%nat _ _ eq_refl eq_refl ltac:(done)).
  assert (H14 := Hne 1%nat 4%nat _ _ eq_refl eq_refl ltac:(done)).
  assert (H23 := Hne 2%nat 3%nat _ _ eq_refl eq_refl ltac:(done)).
  assert (H24 := Hne 2%nat 4%nat _ _ eq_refl eq_refl ltac:(done)).
  assert (H34 := Hne 3%nat 4%nat _ _ eq_refl eq_refl ltac:(done)).
  eexists. split.
  - unfold startBlocks.
    erewrite exec_step;
      [|apply execStmt_SReplace; [cbn [eval]; by rewrite Hb|exact Hd]].
    erewrite exec_step;
      [|apply execStmt_SReplace; [cbn [eval]; by rewrite getVar_setList, Hb|reflexivity]].
    erewrite exec_step;
      [|apply execStmt_SAddToList; cbn [eval]; by rewrite Htid].
    erewrite exec_step; [|reflexivity].
    unfold writePcToList.
    erewrite exec_step.
    2:{ apply execStmt_SReplace.
        - cbn [eval]. by rewrite getVar_emitEvent, !getVar_setList, Hb.
        - unfold pcValue. destruct (obfuscatePcTransitions config); [|reflexivity].
          apply eval_buildObfuscatedPcExpr; auto. }
    rewrite exec_single. apply execStmt_SSetVar. reflexivity.
  - rewrite !getList_setVar.
    repeat split.
    + rewrite getList_setList_ne by done. rewrite getList_emitEvent.
      rewrite getList_setList_ne by done. rewrite getList_setList_ne by done.
      by rewrite getList_setList_eq.
    + rewrite getList_setList_ne by done. rewrite getList_emitEvent.
      rewrite getList_setList_ne by done. rewrite getList_setList_eq.
      by rewrite getList_setList_ne by done.
    + rewrite getList_setList_ne by done. rewrite getList_emitEvent.
      rewrite getList_setList_eq.
      rewrite getList_setList_ne by done. by rewrite getList_setList_ne by done.
    + rewrite getList_setList_eq. rewrite getList_emitEvent.
      rewrite getList_setList_ne by done. rewrite getList_setList_ne by done.
      by rewrite getList_setList_ne by done.
    + rewrite getList_setList_ne by done. rewrite getList_emitEvent.
      rewrite getList_setList_ne by done. rewrite getList_setList_ne by done.
      by rewrite getList_setList_ne by done.
    + apply getVar_setVar_eq.
    + intros x Hx. rewrite getVar_setVar_ne by done.
      by rewrite getVar_setList, getVar_emitEvent, !getVar_setList.
Qed.

End WaitStates.

Lemma itemOf_replaceAt l i v :
  validIndex l i = true → itemOf (replaceAt l i v) i = v.
Proof.
  intros H. unfold itemOf, replaceAt. rewrite H.
  assert (H' : validIndex (<[Z.to_nat (i - 1) := v]> l) i = true).
  { unfold validIndex in *. by rewrite length_insert. }
  rewrite H'. unfold validIndex in H.
  apply andb_prop in H as [H1 H2]. apply Z.leb_le in H1, H2.
  rewrite list_lookup_insert_eq; [done|]. lia.
Qed.

Lemma validIndex_replaceAt l i j v : validIndex (replaceAt l i v) j = validIndex l j.
Proof. unfold validIndex. by rewrite length_replaceAt. Qed.

Section WaitBridge.
Variable userExpr : string → Runtime → option Value.
Variable userStmt : string → Runtime → option Runtime.
Variable fuel : nat.
Variable ctx : ScriptCFFContext.
Variable config : CffConfig.
Variable yr : gmap Z Z.
Variable rnd : Rand.

Hypothesis Hscramble : ∀ n, 1000 <= rScramble rnd n <= 99999.

Let L := lists ctx.

Lemma buildStateBody_waitPoll p n wp :
  buildStateBody ctx config yr rnd (waitPollState p n wp) =
  [SIfElse (EEquals (EItemOf (waitFlagId L) (EVar (baseIndexVarId ctx))) (ENum 0))
     (resolveAndWritePc ctx config yr rnd 0 (continuationPc wp) p).1
     [SSetVar (cachedPcVarId ctx) (ENum p)]].
Proof.
  unfold buildStateBody. simpl. unfold resolveAndWritePc.
  by destruct (shouldYield yr (continuationPc wp)).
Qed.

Lemma exec_waitPoll args p n wp row flag rt :
  inDomain p → inDomain (resolvePc yr (continuationPc wp)) →
  getVar rt (cachedPcVarId ctx) = VNum p →
  getVar rt (baseIndexVarId ctx) = VNum row →
  itemOf (getList rt (waitFlagId L)) row = flag →
  exec userExpr userStmt args fuel
       (buildStateBody ctx config yr rnd (waitPollState p n wp)) rt =
  Some (if looseEq flag (VNum 0)
        then afterPcWrite ctx yr row (continuationPc wp) rt
        else setVar rt (cachedPcVarId ctx) (VNum p)).
Proof.
  intros Hp Hc Hv Hb Hf. rewrite buildStateBody_waitPoll.
  rewrite exec_single, execStmt_SIfElse. unfold evalBool. cbn [eval].
  rewrite Hb. simpl. fold L. rewrite Hf.
  destruct (looseEq flag (VNum 0)).
  - by apply exec_resolveAndWritePc.
  - reflexivity.
Qed.

Lemma exec_handleWaitBody args hw tok f rt :
  args !! hw = Some tok →
  let i := itemNum (getList rt (pcIdId L)) tok in
  itemOf (getList rt (waitFlagId L)) i = VNum f →
  exec userExpr userStmt args fuel (handleWaitBody L hw) rt =
  Some (setList
          (emitEvent rt (waitEvent L f (itemOf (getList rt (bcastPendingMsgId L)) i)))
          (waitFlagId L) (replaceAt (getList rt (waitFlagId L)) i (VNum 0))).
Proof.
  intros Ha i Hf.
  assert (Harm : ∀ (w : Expr → Stmt) (ev : Value → Event),
            (∀ e r v, eval userExpr args r e = Some v →
               execStmt userExpr userStmt args fuel (w e) r = Some (emitEvent r (ev v))) →
            exec userExpr userStmt args fuel
              [w (EItemOf (bcastPendingMsgId L) (inlineBaseIndex L hw));
               buildClearFlag L hw] rt =
            Some (setList
                    (emitEvent rt (ev (itemOf (getList rt (bcastPendingMsgId L)) i)))
                    (waitFlagId L) (replaceAt (getList rt (waitFlagId L)) i (VNum 0)))).
  { intros w ev Hw.
    erewrite exec_step.
    2:{ apply Hw. unfold inlineBaseIndex. cbn [eval]. rewrite Ha. reflexivity. }
    rewrite exec_single. unfold buildClearFlag, inlineBaseIndex.
    erewrite execStmt_SReplace; [|cbn [eval]; rewrite Ha; reflexivity|reflexivity].
    by rewrite !getList_emitEvent. }
  assert (Ht := Harm SWait EvWait
            ltac:(intros e r v He; simpl; by rewrite He)).
  assert (Hb := Harm SBroadcastAndWait EvBroadcastAndWait
            ltac:(intros e r v He; simpl; by rewrite He)).
  unfold handleWaitBody, waitEvent, timerArmRuns.
  destruct (hasTimerWait L) eqn:E1, (hasBroadcastWait L) eqn:E2; simpl andb; cbv iota.
  - rewrite exec_single, execStmt_SIfElse. unfold evalBool, inlineBaseIndex. cbn [eval].
    rewrite Ha. simpl. fold i. rewrite Hf. simpl.
    unfold inlineBaseIndex in Ht, Hb.
    destruct (f >? 0); [exact Ht|exact Hb].
  - exact Ht.
  - exact Hb.
  - exact Hb.
Qed.

End WaitBridge.

(** X8. The wait bridge, end to end, for a timer wait and for a
    broadcast-and-wait.  The start state stores the duration (or the
    message) and the kind of wait in the thread's row, queues the thread's
    token and broadcasts the wait signal; as long as the handler has not
    run for the token, the poll state leaves everything as it is; the
    handler performs the wait recorded in the row (a timer wait for a
    timer start, a broadcast-and-wait otherwise) and clears the flag of
    the row; after that the poll state writes the continuation. *)
Theorem X8_wait_bridge_round_trip
    userExpr userStmt fuel ctx config yr rnd (timer : bool)
    p pollPc dataId cont hw tid data row rt (stepArgs hwArgs : gmap string Value) :
  stepArgs !! stepThreadArg ctx = Some tid →
  hwArgs !! hw = Some tid →
  (∀ k, 1000 <= rScramble rnd k <= 99999) →
  ctxSeparate ctx →
  (if timer then hasTimerWait (lists ctx) else hasBroadcastWait (lists ctx)) = true →
  inDomain p → inDomain pollPc → inDomain (resolvePc yr cont) →
  getVar rt (cachedPcVarId ctx) = VNum p →
  getVar rt (baseIndexVarId ctx) = VNum row →
  itemNum (getList rt (pcIdId (lists ctx))) tid = row →
  validIndex (getList rt (waitFlagId (lists ctx))) row = true →
  validIndex (getList rt (bcastPendingMsgId (lists ctx))) row = true →
  userExpr dataId rt = Some data →
  let poll := buildStateBody ctx config yr rnd
                (waitPollState pollPc cont (mkWaitPoll cont timer)) in
  ∃ rt1 rt2,
    exec userExpr userStmt stepArgs fuel
         (buildStateBody ctx config yr rnd (startStateOf timer p pollPc dataId)) rt
      = Some rt1 ∧
    getList rt1 (waitQueueId (lists ctx)) = getList rt (waitQueueId (lists ctx)) ++ [tid] ∧
    getList rt1 (pcValId (lists ctx))
      = replaceAt (getList rt (pcValId (lists ctx))) row (VNum pollPc) ∧
    exec userExpr userStmt stepArgs fuel poll rt1
      = Some (setVar rt1 (cachedPcVarId ctx) (VNum pollPc)) ∧
    exec userExpr userStmt hwArgs fuel (handleWaitBody (lists ctx) hw) rt1 = Some rt2 ∧
    rtTrace rt2 = rtTrace rt ++
      [EvBroadcast (waitBroadcastId (lists ctx));
       if timer then EvWait data else EvBroadcastAndWait data] ∧
    exec userExpr userStmt stepArgs fuel poll rt2
      = Some (afterPcWrite ctx yr row cont rt2).
Proof.
  intros Hs Hh Hscr (Hsep & _ & Hcb) Hkind Hp Hpoll Hcont Hc Hb Hrow Hvf Hvp Hd poll.
  set (L := lists ctx) in *.
  assert (Hw : needsWait L = true).
  { unfold needsWait. destruct timer; rewrite Hkind; [done|apply orb_true_r]. }
  pose proof (waitLists_distinct _ Hsep Hw) as Hnd.
  assert (Hfp : waitFlagId L ≠ pcIdId L) by apply Hsep.
  destruct (exec_startBlocks userExpr userStmt stepArgs fuel ctx config rnd tid
              Hs Hscr Hsep Hw (EUser dataId) (startFlag timer) p pollPc row data rt
              Hp Hpoll Hc Hb Hd)
    as (rt1 & E1 & Gpend & Gflag & Gq & Gpc & Gid & Gtr & Gc & Gv).
  fold L in Gpend, Gflag, Gq, Gpc, Gid, Gtr.
  assert (Hb1 : getVar rt1 (baseIndexVarId ctx) = VNum row).
  { rewrite Gv; [done|]. congruence. }
  exists rt1.
  assert (Hbody : buildStateBody ctx config yr rnd (startStateOf timer p pollPc dataId)
                  = startBlocks ctx config rnd (EUser dataId) (startFlag timer) p pollPc)
    by (by destruct timer).
  assert (Hflag1 : itemOf (getList rt1 (waitFlagId L)) row = VNum (startFlag timer))
    by (rewrite Gflag; by apply itemOf_replaceAt).
  assert (Hrow1 : itemNum (getList rt1 (pcIdId L)) tid = row) by (by rewrite Gid).
  pose proof (exec_handleWaitBody userExpr userStmt fuel ctx hwArgs hw tid
                (startFlag timer) rt1 Hh) as E2.
  cbv zeta in E2. fold L in E2. rewrite Hrow1 in E2. specialize (E2 Hflag1).
  rewrite Gpend, itemOf_replaceAt in E2 by done.
  eexists. split; [by rewrite Hbody|]. split; [done|]. split; [done|]. split.
  { unfold poll.
    rewrite (exec_waitPoll userExpr userStmt fuel ctx config yr rnd Hscr stepArgs
               pollPc cont _ row (VNum (startFlag timer)) rt1); try done.
    by destruct timer. }
  split; [exact E2|]. split.
  { simpl. rewrite Gtr. rewrite <-app_assoc. simpl. do 3 f_equal.
    unfold waitEvent, timerArmRuns. destruct timer; simpl in Hkind |- *.
    - rewrite Hkind. simpl. by destruct (hasBroadcastWait L).
    - rewrite Hkind. by destruct (hasTimerWait L). }
  unfold poll.
  rewrite (exec_waitPoll userExpr userStmt fuel ctx config yr rnd Hscr stepArgs
             pollPc cont _ row (VNum 0)); try done.
  fold L. rewrite getList_setList_eq. apply itemOf_replaceAt.
  by rewrite Gflag, validIndex_replaceAt.
Qed.

Lemma X8_witness :
  ∃ rt1 rt2,
    exec exDurExpr exUserStmt exArgs 0
         (buildStateBody exCtx exConfig ∅ exRand (startStateOf true 7 3 "dur")) exWaitRuntime
      = Some rt1 ∧
    exec exDurExpr exUserStmt exHwArgs 0 (handleWaitBody exLists "hw") rt1 = Some rt2 ∧
    rtTrace rt2 = [EvBroadcast "waitSignalId"; EvWait (VNum 2)] ∧
    exec exDurExpr exUserStmt exArgs 0
         (buildStateBody exCtx exConfig ∅ exRand (waitPollState 3 9 (mkWaitPoll 9 true))) rt2
      = Some (afterPcWrite exCtx ∅ 1 9 rt2).
Proof.
  destruct (X8_wait_bridge_round_trip exDurExpr exUserStmt 0%nat exCtx exConfig ∅ exRand
              true 7 3 "dur" 9 "hw" (VNum 42) (VNum 2) 1 exWaitRuntime exArgs exHwArgs)
    as (rt1 & rt2 & H1 & _ & _ & _ & H2 & H3 & H4).
  - reflexivity.
  - reflexivity.
  - intros k. simpl. lia.
  - apply exCtx_separate.
  - reflexivity.
  - unfold inDomain, PC_MIN, PC_MAX. lia.
  - unfold inDomain, PC_MIN, PC_MAX. lia.
  - unfold inDomain, PC_MIN, PC_MAX. vm_compute. split; discriminate.
  - reflexivity.
  - reflexivity.
  - reflexivity.
  - reflexivity.
  - reflexivity.
  - reflexivity.
  - exists rt1, rt2. split; [exact H1|]. split; [exact H2|]. split; [exact H3|exact H4].
Defined.

(** ** The for-each protocol *)

Section ForEachLoop.
Variable userExpr : string → Runtime → option Value.
Variable userStmt : string → Runtime → option Runtime.
Variable args : gmap string Value.
Variable fuel : nat.
Variable ctx : ScriptCFFContext.
Variable config : CffConfig.
Variable yr : gmap Z Z.
Variable rnd : Rand.
Variable tid : Value.

Hypothesis Htid : args !! stepThreadArg ctx = Some tid.
Hypothesis Hscramble : ∀ n, 1000 <= rScramble rnd n <= 99999.
Hypothesis Hlists :
  NoDup [counterKeyId (lists ctx); counterValId (lists ctx); pcValId (lists ctx)].

Let keys := counterKeyId (lists ctx).
Let vals := counterValId (lists ctx).
Let pcs := pcValId (lists ctx).

Lemma forEach_lists_distinct : keys ≠ vals ∧ keys ≠ pcs ∧ vals ≠ pcs.
Proof.
  unfold keys, vals, pcs. apply NoDup_cons in Hlists as [H1 H2].
  apply NoDup_cons in H2 as [H2 _]. set_solver.
Qed.

Lemma buildStateBody_forEachInit p n fi :
  buildStateBody ctx config yr rnd (forEachInitState p n fi) =
  [SAddToList keys (buildCounterKey ctx (fi_loopBoundStaticId fi));
   SAddToList vals (ECeiling (EUser (valueExprBlockId fi)));
   SAddToList keys (buildCounterKey ctx (fi_loopCounterStaticId fi));
   SAddToList vals (ENum 0)] ++
  (resolveAndWritePc ctx config yr rnd 0 n p).1.
Proof.
  unfold buildStateBody. simpl.
  unfold resolveAndWritePc. by destruct (shouldYield yr n).
Qed.

Lemma buildStateBody_forEachCheck p n fc :
  buildStateBody ctx config yr rnd (forEachCheckState p n fc) =
  [SIfElse (ELt (counterRead ctx (fc_loopCounterStaticId fc))
                (counterRead ctx (fc_loopBoundStaticId fc)))
     ([SSetVar (rVarId rnd 0)
         (EAdd (counterRead ctx (fc_loopCounterStaticId fc)) (ENum 1));
       SReplace vals (counterIndex ctx (fc_loopCounterStaticId fc)) (EVar (rVarId rnd 0));
       SSetVar (default "" (varId fc)) (EVar (rVarId rnd 0))] ++
      (resolveAndWritePc ctx config yr rnd 0 (fc_bodyPc fc) p).1)
     (deleteCounterEntry ctx (fc_loopCounterStaticId fc) (rVarId rnd 1) ++
      deleteCounterEntry ctx (fc_loopBoundStaticId fc) (rVarId rnd 2) ++
      (resolveAndWritePc ctx config yr rnd 1 (fc_exitPc fc) p).1)].
Proof. reflexivity. Qed.

Lemma exec_deleteCounterEntry loopId tmp rt :
  exec userExpr userStmt args fuel (deleteCounterEntry ctx loopId tmp) rt =
  Some (let i := itemNum (getList rt keys) (counterKey tid loopId) in
        setList (setList (setVar rt tmp (VNum i)) keys (deleteAt (getList rt keys) i))
                vals (deleteAt (getList rt vals) i)).
Proof.
  destruct forEach_lists_distinct as (Hkv & Hkp & Hvp).
  unfold deleteCounterEntry.
  erewrite exec_step; [|apply execStmt_SSetVar, (eval_counterIndex userExpr args ctx tid Htid)].
  erewrite exec_step;
    [|apply execStmt_SDeleteOfList; cbn [eval]; by rewrite getVar_setVar_eq].
  rewrite exec_single.
  erewrite execStmt_SDeleteOfList;
    [|cbn [eval]; by rewrite getVar_setList, getVar_setVar_eq].
  cbv zeta. fold keys vals. rewrite !getList_setVar.
  by rewrite (getList_setList_ne _ keys vals) by done.
Qed.

(** The init state: the bound and a zero counter are appended to the
    counter store, in this order, and the PC moves on. *)
Lemma exec_forEachInit p n fi b row rt :
  inDomain p → inDomain (resolvePc yr n) →
  getVar rt (cachedPcVarId ctx) = VNum p →
  getVar rt (baseIndexVarId ctx) = VNum row →
  userExpr (valueExprBlockId fi)
    (setList rt keys (getList rt keys ++ [counterKey tid (fi_loopBoundStaticId fi)]))
    = Some (VNum b) →
  ∃ rt',
    exec userExpr userStmt args fuel
      (buildStateBody ctx config yr rnd (forEachInitState p n fi)) rt = Some rt' ∧
    getList rt' keys = getList rt keys ++
      [counterKey tid (fi_loopBoundStaticId fi); counterKey tid (fi_loopCounterStaticId fi)] ∧
    getList rt' vals = getList rt vals ++ [VNum b; VNum 0] ∧
    getList rt' pcs = replaceAt (getList rt pcs) row (VNum (resolvePc yr n)).
Proof.
  intros Hp Hn Hv Hb Hval. destruct forEach_lists_distinct as (Hkv & Hkp & Hvp).
  rewrite buildStateBody_forEachInit. eexists. split.
  - change ([?a; ?b0; ?c; ?d] ++ ?l) with (a :: b0 :: c :: d :: l).
    erewrite exec_step;
      [|apply execStmt_SAddToList, (eval_buildCounterKey userExpr args ctx tid Htid)].
    erewrite exec_step;
      [|apply execStmt_SAddToList; cbn [eval]; fold keys; rewrite Hval; reflexivity].
    erewrite exec_step;
      [|apply execStmt_SAddToList, (eval_buildCounterKey userExpr args ctx tid Htid)].
    erewrite exec_step; [|apply execStmt_SAddToList; reflexivity].
    apply exec_resolveAndWritePc; try done.
  - rewrite !getList_afterPcWrite. fold pcs keys vals.
    rewrite decide_False by done. rewrite decide_False by done.
    rewrite decide_True by done.
    simpl_lists.
    by rewrite <-!app_assoc.
Qed.

(** The check state while the counter is below the bound: the counter is
    incremented in place, the loop variable receives the new value and the
    PC moves to the body. *)
Lemma exec_forEachCheck_next p n fc c b row rt :
  let ic := itemNum (getList rt keys) (counterKey tid (fc_loopCounterStaticId fc)) in
  let ib := itemNum (getList rt keys) (counterKey tid (fc_loopBoundStaticId fc)) in
  let v := default "" (varId fc) in
  rVarId rnd 0 ≠ cachedPcVarId ctx → rVarId rnd 0 ≠ baseIndexVarId ctx →
  v ≠ cachedPcVarId ctx → v ≠ baseIndexVarId ctx →
  inDomain p → inDomain (resolvePc yr (fc_bodyPc fc)) →
  getVar rt (cachedPcVarId ctx) = VNum p →
  getVar rt (baseIndexVarId ctx) = VNum row →
  itemOf (getList rt vals) ic = VNum c → itemOf (getList rt vals) ib = VNum b →
  c < b → - MAX_SAFE <= c < MAX_SAFE →
  ∃ rt',
    exec userExpr userStmt args fuel
      (buildStateBody ctx config yr rnd (forEachCheckState p n fc)) rt = Some rt' ∧
    getList rt' keys = getList rt keys ∧
    getList rt' vals = replaceAt (getList rt vals) ic (VNum (c + 1)) ∧
    getList rt' pcs = replaceAt (getList rt pcs) row (VNum (resolvePc yr (fc_bodyPc fc))) ∧
    (v ≠ keepGoingVarId ctx → getVar rt' v = VNum (c + 1)).
Proof.
  intros ic ib v Ht1 Ht2 Hv1 Hv2 Hp Hn Hc Hb Hic Hib Hlt Hsafe.
  destruct forEach_lists_distinct as (Hkv & Hkp & Hvp).
  rewrite buildStateBody_forEachCheck. eexists. split.
  - rewrite exec_single, execStmt_SIfElse. unfold evalBool. cbn [eval].
    rewrite !(eval_counterRead userExpr args ctx tid Htid). fold keys vals ic ib.
    rewrite Hic, Hib, order_nums.
    rewrite (proj2 (Z.ltb_lt _ _)) by done.
    change ([?a; ?b0; ?d] ++ ?l) with (a :: b0 :: d :: l).
    erewrite exec_step.
    2:{ apply execStmt_SSetVar. cbn [eval].
        rewrite (eval_counterRead userExpr args ctx tid Htid). fold keys vals ic.
        rewrite Hic. apply (arith_exact _ c 1 (c + 1)); unfold MAX_SAFE in *;
          [lia|lia|reflexivity|lia]. }
    erewrite exec_step.
    2:{ apply execStmt_SReplace.
        - apply (eval_counterIndex userExpr args ctx tid Htid).
        - cbn [eval]. by rewrite getVar_setVar_eq. }
    erewrite exec_step.
    2:{ apply execStmt_SSetVar. cbn [eval].
        by rewrite getVar_setList, getVar_setVar_eq. }
    apply exec_resolveAndWritePc; try done.
    + rewrite getVar_setVar_ne by done. rewrite getVar_setList.
      by rewrite getVar_setVar_ne by done.
    + rewrite getVar_setVar_ne by done. rewrite getVar_setList.
      by rewrite getVar_setVar_ne by done.
  - rewrite !getList_afterPcWrite. fold pcs keys vals.
    rewrite decide_False by done. rewrite decide_False by done.
    rewrite decide_True by done. simpl_lists. fold ic.
    split; [done|]. split; [done|]. split; [done|].
    intros Hkg. unfold afterPcWrite.
    destruct (shouldYield yr (fc_bodyPc fc)).
    + rewrite getVar_setVar_ne by done. rewrite getVar_setList. apply getVar_setVar_eq.
    + rewrite getVar_setVar_ne by done. rewrite getVar_setList. apply getVar_setVar_eq.
Qed.

(** The check state once the counter has reached the bound: the counter
    entry and then the bound entry are removed from the counter store and
    the PC moves to the continuation. *)
Lemma exec_forEachCheck_done p n fc c b row rt :
  let ic := itemNum (getList rt keys) (counterKey tid (fc_loopCounterStaticId fc)) in
  let ib := itemNum (getList rt keys) (counterKey tid (fc_loopBoundStaticId fc)) in
  let keys1 := deleteAt (getList rt keys) ic in
  let ib1 := itemNum keys1 (counterKey tid (fc_loopBoundStaticId fc)) in
  rVarId rnd 1 ≠ cachedPcVarId ctx → rVarId rnd 1 ≠ baseIndexVarId ctx →
  rVarId rnd 2 ≠ cachedPcVarId ctx → rVarId rnd 2 ≠ baseIndexVarId ctx →
  inDomain p → inDomain (resolvePc yr (fc_exitPc fc)) →
  getVar rt (cachedPcVarId ctx) = VNum p →
  getVar rt (baseIndexVarId ctx) = VNum row →
  itemOf (getList rt vals) ic = VNum c → itemOf (getList rt vals) ib = VNum b →
  b <= c →
  ∃ rt',
    exec userExpr userStmt args fuel
      (buildStateBody ctx config yr rnd (forEachCheckState p n fc)) rt = Some rt' ∧
    getList rt' keys = deleteAt keys1 ib1 ∧
    getList rt' vals = deleteAt (deleteAt (getList rt vals) ic) ib1 ∧
    getList rt' pcs = replaceAt (getList rt pcs) row (VNum (resolvePc yr (fc_exitPc fc))).
Proof.
  intros ic ib keys1 ib1 Ht1 Ht2 Ht3 Ht4 Hp Hn Hc Hb Hic Hib Hge.
  destruct forEach_lists_distinct as (Hkv & Hkp & Hvp).
  rewrite buildStateBody_forEachCheck. eexists. split.
  - rewrite exec_single, execStmt_SIfElse. unfold evalBool. cbn [eval].
    rewrite !(eval_counterRead userExpr args ctx tid Htid). fold keys vals ic ib.
    rewrite Hic, Hib, order_nums.
    rewrite (proj2 (Z.ltb_ge _ _)) by done.
    rewrite exec_app, exec_deleteCounterEntry. cbn [mbind option_bind].
    rewrite exec_app, exec_deleteCounterEntry. cbn [mbind option_bind].
    apply exec_resolveAndWritePc; try done.
    + simpl_lists. rewrite !getVar_setList. rewrite getVar_setVar_ne by done.
      rewrite !getVar_setList. by rewrite getVar_setVar_ne by done.
    + simpl_lists. rewrite !getVar_setList. rewrite getVar_setVar_ne by done.
      rewrite !getVar_setList. by rewrite getVar_setVar_ne by done.
  - rewrite !getList_afterPcWrite. fold pcs keys vals.
    rewrite decide_False by done. rewrite decide_False by done.
    rewrite decide_True by done. simpl_lists. done.
Qed.

End ForEachLoop.

Lemma itemNumFrom_hit old tok rest : ∀ k,
  freshToken tok old →
  itemNumFrom (old ++ tok :: rest) tok k = k + Z.of_nat (length old).
Proof.
  induction old as [|x old IH]; intros k H; simpl.
  - rewrite looseEq_refl. lia.
  - rewrite (H x) by apply list_elem_of_here.
    rewrite IH; [lia|]. intros y Hy. apply H. by apply list_elem_of_further.
Qed.

Lemma validIndex_app_at (old : list Value) x rest :
  validIndex (old ++ x :: rest) (Z.of_nat (length old) + 1) = true.
Proof.
  unfold validIndex. rewrite length_app. simpl.
  apply andb_true_intro. split; apply Z.leb_le; lia.
Qed.

Lemma itemOf_app_at (old : list Value) x rest :
  itemOf (old ++ x :: rest) (Z.of_nat (length old) + 1) = x.
Proof.
  unfold itemOf. rewrite validIndex_app_at.
  replace (Z.to_nat (Z.of_nat (length old) + 1 - 1)) with (length old) by lia.
  by rewrite list_lookup_middle.
Qed.

Lemma replaceAt_app_at (old : list Value) x rest v :
  replaceAt (old ++ x :: rest) (Z.of_nat (length old) + 1) v = old ++ v :: rest.
Proof.
  unfold replaceAt. rewrite validIndex_app_at.
  replace (Z.to_nat (Z.of_nat (length old) + 1 - 1)) with (length old + 0)%nat by lia.
  by rewrite insert_app_r.
Qed.

Lemma deleteAt_app_at (old : list Value) x rest :
  deleteAt (old ++ x :: rest) (Z.of_nat (length old) + 1) = old ++ rest.
Proof.
  unfold deleteAt. rewrite validIndex_app_at.
  replace (Z.to_nat (Z.of_nat (length old) + 1 - 1)) with (length old) by lia.
  induction old as [|y old IH]; simpl; [done|]. by f_equal.
Qed.

(** X9. The counter protocol of a for-each loop.  The init state appends
    two entries to the counter store, the bound and a counter starting at
    0.  While the counter is below the bound, the check state increments
    the counter in place, gives the loop variable the new value and moves
    to the body; once the counter has reached the bound it removes both
    entries, which restores the counter store the init state found, and
    moves to the continuation. *)
Theorem X9_for_each_counter_protocol
    userExpr userStmt args fuel ctx config yr rnd tid
    (oldK oldV : list Value) valueId cid bid (vName : string) (vId : option string) :
  let keys := counterKeyId (lists ctx) in
  let vals := counterValId (lists ctx) in
  let pcs := pcValId (lists ctx) in
  let kb := counterKey tid bid in
  let kc := counterKey tid cid in
  let v := default "" vId in
  args !! stepThreadArg ctx = Some tid →
  (∀ k, 1000 <= rScramble rnd k <= 99999) →
  NoDup [keys; vals; pcs] →
  (∀ k, rVarId rnd k ≠ cachedPcVarId ctx ∧ rVarId rnd k ≠ baseIndexVarId ctx) →
  v ≠ cachedPcVarId ctx → v ≠ baseIndexVarId ctx → v ≠ keepGoingVarId ctx →
  freshToken kb oldK → freshToken kc oldK → looseEq kb kc = false →
  length oldK = length oldV →
  (∀ p checkPc row b rt,
     inDomain p → inDomain (resolvePc yr checkPc) →
     getVar rt (cachedPcVarId ctx) = VNum p →
     getVar rt (baseIndexVarId ctx) = VNum row →
     getList rt keys = oldK → getList rt vals = oldV →
     userExpr valueId (setList rt keys (oldK ++ [kb])) = Some (VNum b) →
     ∃ rt',
       exec userExpr userStmt args fuel
         (buildStateBody ctx config yr rnd
            (forEachInitState p checkPc (mkForEachInit valueId cid bid))) rt = Some rt' ∧
       getList rt' keys = oldK ++ [kb; kc] ∧
       getList rt' vals = oldV ++ [VNum b; VNum 0] ∧
       getList rt' pcs = replaceAt (getList rt pcs) row (VNum (resolvePc yr checkPc))) ∧
  (∀ p n bodyPc exitPc row b c rt,
     inDomain p →
     getVar rt (cachedPcVarId ctx) = VNum p →
     getVar rt (baseIndexVarId ctx) = VNum row →
     getList rt keys = oldK ++ [kb; kc] →
     getList rt vals = oldV ++ [VNum b; VNum c] →
     let check := buildStateBody ctx config yr rnd
                    (forEachCheckState p n
                       (mkForEachCheck vName vId cid bid bodyPc exitPc)) in
     (c < b → - MAX_SAFE <= c < MAX_SAFE → inDomain (resolvePc yr bodyPc) →
      ∃ rt',
        exec userExpr userStmt args fuel check rt = Some rt' ∧
        getList rt' keys = oldK ++ [kb; kc] ∧
        getList rt' vals = oldV ++ [VNum b; VNum (c + 1)] ∧
        getList rt' pcs = replaceAt (getList rt pcs) row (VNum (resolvePc yr bodyPc)) ∧
        getVar rt' v = VNum (c + 1)) ∧
     (b <= c → inDomain (resolvePc yr exitPc) →
      ∃ rt',
        exec userExpr userStmt args fuel check rt = Some rt' ∧
        getList rt' keys = oldK ∧
        getList rt' vals = oldV ∧
        getList rt' pcs = replaceAt (getList rt pcs) row (VNum (resolvePc yr exitPc)))).
Proof.
  intros keys vals pcs kb kc v Htid Hscr Hnd Htmp Hv1 Hv2 Hv3 Hfb Hfc Hbc Hlen.
  assert (Hfc' : freshToken kc (oldK ++ [kb])).
  { intros x Hx. apply elem_of_app in Hx as [Hx|Hx]; [by apply Hfc|].
    apply list_elem_of_singleton in Hx. by subst. }
  assert (Hic : itemNum (oldK ++ [kb; kc]) kc = Z.of_nat (length (oldK ++ [kb])) + 1).
  { unfold itemNum. change (oldK ++ [kb; kc]) with (oldK ++ [kb] ++ [kc]).
    rewrite app_assoc, itemNumFrom_last by done. lia. }
  assert (Hib : itemNum (oldK ++ [kb; kc]) kb = Z.of_nat (length oldK) + 1).
  { unfold itemNum. rewrite itemNumFrom_hit by done. lia. }
  assert (Hlen' : length (oldK ++ [kb]) = length (oldV ++ [VNum 0])).
  { rewrite !length_app. simpl. lia. }
  split.
  - intros p checkPc row b rt Hp Hn Hc Hb Hk Hvl Hval.
    destruct (exec_forEachInit userExpr userStmt args fuel ctx config yr rnd tid
                Htid Hscr Hnd p checkPc (mkForEachInit valueId cid bid) b row rt
                Hp Hn Hc Hb) as (rt' & E & G1 & G2 & G3).
    { simpl. fold keys. by rewrite Hk. }
    exists rt'. split; [exact E|]. fold keys vals pcs in G1, G2, G3.
    rewrite Hk in G1. rewrite Hvl in G2. done.
  - intros p n bodyPc exitPc row b c rt Hp Hc Hb Hk Hvl check. split.
    + intros Hlt Hsafe Hn.
      destruct (exec_forEachCheck_next userExpr userStmt args fuel ctx config yr rnd tid
                  Htid Hscr Hnd p n (mkForEachCheck vName vId cid bid bodyPc exitPc)
                  c b row rt) as (rt' & E & G1 & G2 & G3 & G4);
        try done; try apply Htmp.
      * simpl. fold keys vals kc. rewrite Hk, Hvl, Hic.
        change (oldV ++ [VNum b; VNum c]) with (oldV ++ [VNum b] ++ [VNum c]).
        rewrite app_assoc. rewrite !length_app in *. simpl in *.
        replace (length oldK + 1)%nat with (length (oldV ++ [VNum b]))
          by (rewrite length_app; simpl; lia).
        apply itemOf_app_at.
      * simpl. fold keys vals kb. rewrite Hk, Hvl, Hib, Hlen. apply itemOf_app_at.
      * exists rt'. split; [exact E|]. fold keys vals pcs kc in G1, G2, G3.
        simpl in G2. fold kc in G2. rewrite Hk in G1, G2. rewrite Hvl in G2.
        rewrite Hic in G2. split; [done|]. split; [|split; [done|by apply G4]].
        rewrite G2. change (oldV ++ [VNum b; VNum c]) with (oldV ++ [VNum b] ++ [VNum c]).
        rewrite app_assoc.
        replace (length (oldK ++ [kb])) with (length (oldV ++ [VNum b]))
          by (rewrite !length_app; simpl; lia).
        rewrite replaceAt_app_at. by rewrite <-app_assoc.
    + intros Hge Hn.
      destruct (exec_forEachCheck_done userExpr userStmt args fuel ctx config yr rnd tid
                  Htid Hscr Hnd p n (mkForEachCheck vName vId cid bid bodyPc exitPc)
                  c b row rt) as (rt' & E & G1 & G2 & G3);
        try done; try apply Htmp.
      * simpl. fold keys vals kc. rewrite Hk, Hvl, Hic.
        change (oldV ++ [VNum b; VNum c]) with (oldV ++ [VNum b] ++ [VNum c]).
        rewrite app_assoc.
        replace (length (oldK ++ [kb])) with (length (oldV ++ [VNum b]))
          by (rewrite !length_app; simpl; lia).
        apply itemOf_app_at.
      * simpl. fold keys vals kb. rewrite Hk, Hvl, Hib, Hlen. apply itemOf_app_at.
      * exists rt'. split; [exact E|]. fold keys vals pcs in G1, G2, G3.
        simpl in G1, G2. fold kc kb in G1, G2. rewrite Hk in G1, G2. rewrite Hvl in G2.
        rewrite Hic in G1, G2.
        assert (D1 : deleteAt (oldK ++ [kb; kc]) (Z.of_nat (length (oldK ++ [kb])) + 1)
                     = oldK ++ [kb]).
        { change (oldK ++ [kb; kc]) with (oldK ++ [kb] ++ [kc]).
          rewrite app_assoc. rewrite deleteAt_app_at. by rewrite app_nil_r. }
        rewrite D1 in G1, G2.
        assert (Hib1 : itemNum (oldK ++ [kb]) kb = Z.of_nat (length oldK) + 1).
        { unfold itemNum. rewrite itemNumFrom_hit by done. lia. }
        rewrite Hib1 in G1, G2. rewrite deleteAt_app_at, app_nil_r in G1.
        split; [done|]. split; [|done].
        rewrite G2. change (oldV ++ [VNum b; VNum c]) with (oldV ++ [VNum b] ++ [VNum c]).
        rewrite app_assoc.
        replace (length (oldK ++ [kb])) with (length (oldV ++ [VNum b]))
          by (rewrite !length_app; simpl; lia).
        rewrite deleteAt_app_at, app_nil_r. rewrite Hlen.
        by rewrite deleteAt_app_at, app_nil_r.
Qed.

Lemma X9_witness :
  ∃ rt1 rt2,
    exec exDurExpr exUserStmt exArgs 0
      (buildStateBody exCtx exConfig ∅ exRand
         (forEachInitState 7 3 (mkForEachInit "n" "C" "B")))
      (exRuntime [("cachedPc", VNum 7); ("baseIndex", VNum 1)]
                 [("pcIds", [VNum 42]); ("pcVals", [VNum 7])]) = Some rt1 ∧
    getList rt1 "counterVals" = [VNum 2; VNum 0] ∧
    exec exDurExpr exUserStmt exArgs 0
      (buildStateBody exCtx exConfig ∅ exRand
         (forEachCheckState 3 0 (mkForEachCheck "i" (Some "i") "C" "B" 9 0)))
      (exRuntime [("cachedPc", VNum 3); ("baseIndex", VNum 1)]
                 [("pcIds", [VNum 42]); ("pcVals", [VNum 3]);
                  ("counterKeys", [counterKey (VNum 42) "B"; counterKey (VNum 42) "C"]);
                  ("counterVals", [VNum 2; VNum 0])]) = Some rt2 ∧
    getList rt2 "counterVals" = [VNum 2; VNum 1] ∧
    getVar rt2 "i" = VNum 1.
Proof.
  destruct (X9_for_each_counter_protocol exDurExpr exUserStmt exArgs 0%nat exCtx exConfig ∅
              exRand (VNum 42) [] [] "n" "C" "B" "i" (Some "i")) as [Hinit Hcheck].
  - reflexivity.
  - intros k. simpl. lia.
  - simpl. repeat constructor; set_solver.
  - intros k. split; simpl; discriminate.
  - discriminate.
  - discriminate.
  - discriminate.
  - intros x Hx. by apply elem_of_nil in Hx.
  - intros x Hx. by apply elem_of_nil in Hx.
  - vm_compute. reflexivity.
  - reflexivity.
  - destruct (Hinit 7 3 1 2
                (exRuntime [("cachedPc", VNum 7); ("baseIndex", VNum 1)]
                           [("pcIds", [VNum 42]); ("pcVals", [VNum 7])]))
      as (rt1 & E1 & _ & G1 & _);
      [unfold inDomain, PC_MIN, PC_MAX; lia
      |unfold inDomain, PC_MIN, PC_MAX; vm_compute; split; discriminate
      |reflexivity..|].
    destruct (proj1 (Hcheck 3 0 9 0 1 2 0
                (exRuntime [("cachedPc", VNum 3); ("baseIndex", VNum 1)]
                   [("pcIds", [VNum 42]); ("pcVals", [VNum 3]);
                    ("counterKeys", [counterKey (VNum 42) "B"; counterKey (VNum 42) "C"]);
                    ("counterVals", [VNum 2; VNum 0])])
                ltac:(unfold inDomain, PC_MIN, PC_MAX; lia)
                eq_refl eq_refl eq_refl eq_refl)
                ltac:(lia) ltac:(unfold MAX_SAFE; lia)
                ltac:(unfold inDomain, PC_MIN, PC_MAX; vm_compute; split; discriminate))
      as (rt2 & E2 & _ & G2 & _ & G3).
    exists rt1, rt2. split; [exact E1|]. split; [exact G1|]. split; [exact E2|].
    split; [exact G2|exact G3].
Defined.

(** ** One call of the step function *)

Lemma execStmt_SRepeatUntil_once userExpr userStmt args fuel c body rt rt1 :
  (2 <= fuel)%nat →
  evalBool userExpr args rt c = Some false →
  exec userExpr userStmt args fuel body rt = Some rt1 →
  evalBool userExpr args rt1 c = Some true →
  execStmt userExpr userStmt args fuel (SRepeatUntil c body) rt = Some rt1.
Proof.
  intros Hf H0 Hb H1. destruct fuel as [|[|k]]; [lia|lia|].
  cbn [execStmt]. cbn beta iota. rewrite H0.
  match goal with
  | |- match ?e with _ => _ end = _ => replace e with (Some rt1) by (symmetry; exact Hb)
  end.
  cbn beta iota. by rewrite H1.
Qed.

Lemma exec_users_keeps userStmt ctx userExpr args fuel ids :
  userKeeps userStmt ctx →
  ∀ rt rt', exec userExpr userStmt args fuel (SUser <$> ids) rt = Some rt' →
    (∀ l, l ∈ parallelLists (lists ctx) → getList rt' l = getList rt l) ∧
    (∀ x, x ∈ [keepGoingVarId ctx; cachedPcVarId ctx; baseIndexVarId ctx] →
       getVar rt' x = getVar rt x).
Proof.
  intros Hk. induction ids as [|id ids IH]; intros rt rt' H.
  - inversion H; subst. done.
  - rewrite fmap_cons in H. apply exec_cons_inv in H as (rt1 & H1 & H2).
    simpl in H1. destruct (Hk _ _ _ H1) as [Hl Hv].
    destruct (IH _ _ H2) as [Hl' Hv']. split.
    + intros l Hin. by rewrite Hl', Hl.
    + intros x Hin. by rewrite Hv', Hv.
Qed.

Section StepLoop.
Variable userExpr : string → Runtime → option Value.
Variable userStmt : string → Runtime → option Runtime.
Variable fuel : nat.
Variable ctx : ScriptCFFContext.
Variable config : CffConfig.
Variable yr : gmap Z Z.
Variable oracle : nat → Rand.
Variable sts : list CFGState.

Hypothesis Hne : sts ≠ [].
Hypothesis Hnd : NoDup (pc <$> sts).

(** Dispatching on the PC of a state runs the body of that state. *)
Lemma dispatch_runs :
  ∃ bst, buildDispatch ctx config yr oracle sts = Some bst ∧
    ∀ s, s ∈ sts → ∃ i, ∀ args rt,
      getVar rt (cachedPcVarId ctx) = VNum (pc s) →
      exec userExpr userStmt args fuel bst rt =
      exec userExpr userStmt args fuel (buildStateBody ctx config yr (oracle i) s) rt.
Proof.
  assert (Hlen : length (sortByPc sts) = length sts)
    by (apply Permutation_length, sortByPc_Permutation).
  assert (Hpos : (0 < length sts)%nat) by (destruct sts; [done|simpl; lia]).
  destruct (buildBSTNode_spec (sortByPc sts)
              (fun i j a b => sortByPc_ascending sts i j a b Hnd)
              (length (sortByPc sts) - 1 - 0)%nat 0%nat (length (sortByPc sts) - 1)%nat
              eq_refl ltac:(lia) ltac:(lia))
    as (t & Ht & _ & Hls & Hb & Hq).
  exists (emit ctx config yr oracle t). split.
  { unfold buildDispatch. erewrite buildBSTNode_emit by reflexivity. by rewrite Ht. }
  intros s Hs.
  assert (Hs' : s ∈ sortByPc sts) by (by rewrite sortByPc_Permutation).
  apply list_elem_of_lookup in Hs' as [k Hk].
  pose proof (lookup_lt_Some _ _ _ Hk) as Hklt.
  destruct (Hq k s ltac:(lia) Hk) as (n & Hqs & Hn).
  exists k. intros args rt Hv. by eapply exec_emit.
Qed.

Lemma exec_stepPrologue args tok rt :
  args !! stepThreadArg ctx = Some tok →
  exec userExpr userStmt args fuel (stepPrologue ctx) rt =
  Some (setVar (setVar rt (keepGoingVarId ctx) (VNum 1)) (baseIndexVarId ctx)
          (VNum (itemNum (getList rt (pcIdId (lists ctx))) tok))).
Proof.
  intros Ha. unfold stepPrologue. simpl. by rewrite Ha.
Qed.

Lemma exec_iterPrologue args row rt :
  keepGoingVarId ctx ≠ baseIndexVarId ctx →
  getVar rt (baseIndexVarId ctx) = VNum row →
  exec userExpr userStmt args fuel (iterPrologue ctx) rt =
  Some (setVar (setVar rt (keepGoingVarId ctx) (VNum 0)) (cachedPcVarId ctx)
          (itemOf (getList rt (pcValId (lists ctx))) row)).
Proof.
  intros Hkb Hb. unfold iterPrologue. simpl.
  rewrite getVar_setVar_ne by done. by rewrite Hb.
Qed.

(** A call of [step_N] in which one state runs and yields. *)
Lemma stepCall_once extra tok s rt :
  (2 <= fuel)%nat →
  keepGoingVarId ctx ≠ baseIndexVarId ctx →
  s ∈ sts →
  let row := itemNum (getList rt (pcIdId (lists ctx))) tok in
  itemOf (getList rt (pcValId (lists ctx))) row = VNum (pc s) →
  ∃ i, ∀ rtB,
    exec userExpr userStmt (threadArgs ctx extra tok) fuel
         (buildStateBody ctx config yr (oracle i) s)
         (setVar (setVar (setVar (setVar rt (keepGoingVarId ctx) (VNum 1))
                            (baseIndexVarId ctx) (VNum row))
                    (keepGoingVarId ctx) (VNum 0))
            (cachedPcVarId ctx) (VNum (pc s))) = Some rtB →
    getVar rtB (keepGoingVarId ctx) = VNum 0 →
    stepCall userExpr userStmt fuel ctx config yr oracle sts extra tok rt rtB.
Proof.
  intros Hf Hkb Hs row Hpc.
  destruct dispatch_runs as (bst & Hbst & Hrun).
  destruct (Hrun s Hs) as [i Hi]. exists i. intros rtB Hbody Hkg.
  unfold stepCall, buildStepFunction. rewrite Hbst. eexists. split; [reflexivity|].
  cbn [procBody]. rewrite exec_app.
  rewrite (exec_stepPrologue _ tok) by apply threadArgs_step.
  cbn [mbind option_bind]. fold row. rewrite exec_single.
  apply execStmt_SRepeatUntil_once; [done| | |].
  - unfold evalBool, stepLoopCond. cbn [eval].
    rewrite getVar_setVar_ne by done. by rewrite getVar_setVar_eq.
  - rewrite exec_app. rewrite (exec_iterPrologue _ row) by (done || apply getVar_setVar_eq).
    cbn [mbind option_bind]. rewrite !getList_setVar, Hpc.
    rewrite Hi by apply getVar_setVar_eq. exact Hbody.
  - unfold evalBool, stepLoopCond. cbn [eval]. by rewrite Hkg.
Qed.

End StepLoop.

(** ** A straight-line script, from the hat to the end of the thread *)

Lemma segmentize_linear bs ids :
  (∀ id, id ∈ ids →
     ∃ b, getFullBlock bs id = Some b ∧ isControlOpcode (opcode b) = false) →
  ∀ cur, cur ++ ids ≠ [] → segmentize bs ids cur = [SegLinear (cur ++ ids)].
Proof.
  induction ids as [|id ids IH]; intros H cur Hne; simpl.
  - rewrite app_nil_r in *. by rewrite decide_False.
  - destruct (H id) as (b & Hb & Hc); [apply list_elem_of_here|]. rewrite Hb, Hc.
    rewrite IH.
    + by rewrite <-app_assoc.
    + intros id' Hin. apply H. by apply list_elem_of_further.
    + by destruct cur.
Qed.

(** The CFG of a chain without control blocks: one live state that holds
    the whole chain and leads to the exit, and no yield redirect. *)
Lemma decomposeToCFG_linear fuel config deadBody pick bs ds us chain cfg :
  chain ≠ [] →
  (∀ id, id ∈ chain →
     ∃ b, getFullBlock bs id = Some b ∧ isControlOpcode (opcode b) = false) →
  decomposeToCFG fuel config deadBody pick bs ds us chain = Some cfg →
  plainState (entryPc cfg) chain EXIT_PC false ∈ cfgStates cfg ∧
  cfgRedirects cfg = ∅ ∧ NoDup (pc <$> cfgStates cfg) ∧ entryPc cfg ≠ 0.
Proof.
  intros Hne Hlin H. unfold decomposeToCFG in H.
  destruct (decomposeBody fuel config deadBody chain (initialDState bs ds us))
    as [[entry st]|] eqn:E; [|done].
  inversion H; subst; clear H. simpl.
  pose proof (decomposeBody_pcs _ _ _ _ _ _ _ _ _ E) as [Hnd Hnz].
  unfold decomposeBody in E. apply bind_inv in E as (e & st1 & E1 & E). cbv beta in E.
  apply bind_inv in E as (dead & st2 & E2 & E). cbv beta in E.
  inversion E; subst; clear E. simpl in *.
  destruct chain as [|c0 chain']; [done|]. destruct fuel as [|fuel']; [done|].
  cbn [decomposeChain] in E1. apply bind_inv in E1 as (bs1 & sx & Eg & E1).
  inversion Eg; subst; clear Eg. cbv beta in E1.
  rewrite (segmentize_linear _ _ Hlin []) in E1 by done. simpl app in E1.
  cbn [decomposeSegments] in E1.
  apply bind_inv in E1 as (nx & sy & Er & E1). inversion Er; subst; clear Er.
  cbv beta in E1. cbn [decomposeSegment] in E1.
  apply bind_inv in E1 as (p & s1 & Ea & E1). cbv beta in E1.
  apply bind_inv in E1 as (u1 & s2 & Em & E1). cbv beta in E1.
  apply bind_inv in E1 as (u2 & s3 & Ep & E1). cbv beta in E1.
  inversion E1; subst; clear E1.
  apply allocPc_spec in Ea as (Hp0 & _ & _ & Hs1 & Hy1 & _).
  apply modifyBlocks_spec in Em as (Hs2 & _ & Hy2 & _).
  apply pushState_spec in Ep as (Hs3 & _ & Hy3 & _).
  unfold generateDeadStates in E2.
  apply (generateDeadStatesFrom_domain (fun _ => True) (fun _ => True)
           ltac:(done)) in E2 as (_ & Hy4 & Hs4 & _ & _).
  2:{ apply Forall_forall. done. }
  split; [|split; [|split]].
  - rewrite shuffle_Permutation. apply elem_of_app. left.
    rewrite Hs4, Hs3, Hs2, Hs1. simpl. apply list_elem_of_here.
  - by rewrite Hy4, Hy3, Hy2, Hy1.
  - unfold statePcs in Hnd. simpl in Hnd. by rewrite shuffle_Permutation.
  - done.
Qed.

Lemma walkChain_nonempty bs first : first ≠ "" → walkChain bs first ≠ [].
Proof.
  intros Hf. unfold walkChain. simpl.
  rewrite decide_False by done. rewrite decide_False by set_solver. done.
Qed.

Lemma itemOf_last (l : list Value) x n :
  length l = n → itemOf (l ++ [x]) (Z.of_nat n + 1) = x.
Proof. intros <-. apply itemOf_app_at. Qed.

Lemma replaceAt_last (l : list Value) x v n :
  length l = n → replaceAt (l ++ [x]) (Z.of_nat n + 1) v = l ++ [v].
Proof. intros <-. apply replaceAt_app_at. Qed.

Lemma deleteAt_last_n (l : list Value) x n :
  length l = n → deleteAt (l ++ [x]) (Z.of_nat n + 1) = l.
Proof. intros <-. apply deleteAt_last. Qed.

(** X10. Flattening preserves a straight-line script.  When the blocks
    under a hat are all plain stack blocks and the script is flattened,
    one run of the generated [run_N] procedure for a fresh thread token
    registers the thread, calls [step_N] once, in which the blocks of the
    script run once in their original order, sees the exit PC and
    unregisters the thread: the registry lists end as they began, and
    apart from the three variables of the step function the run-time
    state is the one the blocks of the script left. *)
Theorem X10_straight_line_script_runs_once
    fuel config deadBody pick oracle ctx runCall bs ds us hatId hat first f :
  getFullBlock bs hatId = Some hat → next hat = Some first →
  (∀ id, id ∈ walkChain bs first →
     ∃ b, getFullBlock bs id = Some b ∧ isControlOpcode (opcode b) = false) →
  Forall drawOk ds →
  flattenHatScript fuel config deadBody pick oracle ctx runCall bs ds us hatId = Done f →
  ∃ entry yr sts,
    procBody (flRun f) = runRegistration ctx entry ++ [runLoop ctx] ++ runCleanup ctx ∧
    buildStepFunction ctx config yr oracle sts = Some (flStep f) ∧
    ∀ userExpr userStmt loopFuel extra tok rt rtA rtU,
      (2 <= loopFuel)%nat →
      ctxSeparate ctx → keepGoingVarId ctx ≠ cachedPcVarId ctx →
      (∀ i k, 1000 <= rScramble (oracle i) k <= 99999) →
      userKeeps userStmt ctx →
      freshToken tok (getList rt (pcIdId (lists ctx))) →
      aligned (lists ctx) rt (length (getList rt (pcIdId (lists ctx)))) →
      exec userExpr userStmt (threadArgs ctx extra tok) loopFuel
           (runRegistration ctx entry ++ stepPrologue ctx ++ iterPrologue ctx) rt
        = Some rtA →
      exec userExpr userStmt (threadArgs ctx extra tok) loopFuel
           (SUser <$> walkChain bs first) rtA = Some rtU →
      ∃ rt',
        runReturns userExpr userStmt loopFuel ctx config yr oracle sts entry extra
                   tok rt rt' ∧
        (∀ l, l ∈ parallelLists (lists ctx) → getList rt' l = getList rt l) ∧
        (∀ l, l ∉ parallelLists (lists ctx) → getList rt' l = getList rtU l) ∧
        (∀ x, x ∉ [keepGoingVarId ctx; cachedPcVarId ctx; baseIndexVarId ctx] →
           getVar rt' x = getVar rtU x) ∧
        rtTrace rt' = rtTrace rtU.
Proof.
  intros Hhat Hnext Hlin Hds Hf.
  unfold flattenHatScript in Hf. rewrite Hhat, Hnext in Hf.
  case_decide as Hfirst; [done|]. case_decide as Hmin; [done|].
  destruct (decomposeToCFG fuel config deadBody pick bs ds us (walkChain bs first))
    as [cfg|] eqn:Hcfg; [|done].
  case_decide as Hsts; [done|].
  destruct (buildStepFunction ctx config (cfgRedirects cfg) oracle (cfgStates cfg))
    as [step|] eqn:Hstep; [|done].
  inversion Hf; subst f; clear Hf. simpl flRun. simpl flStep.
  exists (entryPc cfg), (cfgRedirects cfg), (cfgStates cfg).
  split; [reflexivity|]. split; [exact Hstep|].
  destruct (decomposeToCFG_linear _ _ _ _ _ _ _ _ _
              (walkChain_nonempty bs first Hfirst) Hlin Hcfg)
    as (Hin & Hyr & Hnd & Hnz).
  destruct (decomposeToCFG_pcs _ _ _ _ _ _ _ _ _ Hds Hcfg) as (Hdom & _ & _).
  set (entry := entryPc cfg) in *. set (chain := walkChain bs first) in *.
  rewrite Hyr in *. clear Hyr.
  intros userExpr userStmt loopFuel extra tok rt rtA rtU
         Hfuel Hctx Hkc Hscr Hkeep Hfresh Hal HA HU.
  pose proof Hctx as ((Hpar & Hck & Hcv & Hq & Hfp & Hbp) & Hkb & Hcb).
  set (L := lists ctx) in *.
  set (old := getList rt (pcIdId L)) in *.
  set (rt1 := applyUpdates (registrationUpdates ctx entry tok) rt).
  set (row := Z.of_nat (length old) + 1).
  (* the registry after registration *)
  destruct (aligned_registration ctx entry tok rt (length old) Hpar Hal) as [Hal1 Hids1].
  fold rt1 L old in Hal1, Hids1.
  destruct (applyUpdates_spec (registrationUpdates ctx entry tok) rt) as (Hv1 & Ht1 & Hin1 & Hout1).
  { by rewrite registrationUpdates_lists. }
  fold rt1 in Hv1, Ht1, Hin1, Hout1.
  assert (Hvals1 : getList rt1 (pcValId L) = getList rt (pcValId L) ++ [VNum entry]).
  { apply (Hin1 _ (fun l => l ++ [VNum entry])). unfold registrationUpdates. set_solver. }
  assert (Hpv : pcIdId L ≠ pcValId L).
  { intros E. unfold parallelLists in Hpar. simpl in Hpar.
    apply NoDup_cons in Hpar as [Hpar _]. apply Hpar. rewrite E. apply list_elem_of_here. }
  assert (Hvin : pcValId L ∈ parallelLists L).
  { unfold parallelLists. simpl. apply list_elem_of_further, list_elem_of_here. }
  assert (Hlenv : length (getList rt (pcValId L)) = length old) by (by apply Hal).
  assert (Hrow1 : itemNum (getList rt1 (pcIdId L)) tok = row).
  { rewrite Hids1. unfold itemNum, row. rewrite itemNumFrom_last by done. lia. }
  (* the state in which the blocks of the script start *)
  rewrite exec_app in HA.
  rewrite (exec_runRegistration _ _ _ _ _ _ tok) in HA by apply threadArgs_run.
  cbn [mbind option_bind] in HA. fold rt1 in HA.
  rewrite exec_app in HA.
  rewrite (exec_stepPrologue _ _ _ _ _ tok) in HA by apply threadArgs_step.
  cbn [mbind option_bind] in HA. fold L in HA. rewrite Hrow1 in HA.
  rewrite (exec_iterPrologue _ _ _ _ _ row) in HA by (done || apply getVar_setVar_eq).
  rewrite !getList_setVar in HA. fold L in HA. rewrite Hvals1 in HA.
  unfold row in HA at 2. rewrite (itemOf_last _ _ _ Hlenv) in HA.
  inversion HA as [HA']; clear HA.
  (* the blocks of the script *)
  destruct (exec_users_keeps _ _ _ _ _ _ Hkeep _ _ HU) as [HUl HUv].
  assert (HAc : getVar rtA (cachedPcVarId ctx) = VNum entry)
    by (rewrite <-HA'; apply getVar_setVar_eq).
  assert (HAb : getVar rtA (baseIndexVarId ctx) = VNum row).
  { rewrite <-HA'. rewrite getVar_setVar_ne by done. rewrite getVar_setVar_ne by done.
    apply getVar_setVar_eq. }
  assert (HAk : getVar rtA (keepGoingVarId ctx) = VNum 0).
  { rewrite <-HA'. rewrite getVar_setVar_ne by done. apply getVar_setVar_eq. }
  assert (HAl : ∀ l, getList rtA l = getList rt1 l).
  { intros l. rewrite <-HA'. by rewrite !getList_setVar. }
  assert (HUc : getVar rtU (cachedPcVarId ctx) = VNum entry).
  { rewrite HUv; [done|]. set_solver. }
  assert (HUb : getVar rtU (baseIndexVarId ctx) = VNum row).
  { rewrite HUv; [done|]. set_solver. }
  assert (HUk : getVar rtU (keepGoingVarId ctx) = VNum 0).
  { rewrite HUv; [done|]. set_solver. }
  (* the call of step_N *)
  destruct (stepCall_once userExpr userStmt loopFuel ctx config ∅ oracle (cfgStates cfg)
              Hsts Hnd extra tok _ rt1 Hfuel Hkb Hin) as [i Hcall].
  { cbn [pc plainState]. fold L. rewrite Hrow1, Hvals1. unfold row.
    by apply itemOf_last. }
  cbn [pc plainState] in Hcall. fold L in Hcall. rewrite Hrow1 in Hcall.
  fold entry in Hcall. rewrite HA' in Hcall.
  set (rtB := afterPcWrite ctx ∅ row EXIT_PC rtU).
  assert (Hbody : exec userExpr userStmt (threadArgs ctx extra tok) loopFuel
                    (buildStateBody ctx config ∅ (oracle i)
                       (plainState entry chain EXIT_PC false)) rtA = Some rtB).
  { rewrite buildStateBody_plain, exec_app, HU. cbn [mbind option_bind].
    apply exec_resolveAndWritePc; done. }
  assert (HBk : getVar rtB (keepGoingVarId ctx) = VNum 0).
  { unfold rtB. rewrite getVar_afterPcWrite_keepGoing by done. done. }
  specialize (Hcall rtB Hbody HBk).
  assert (HBl : ∀ l, getList rtB l =
                     if decide (pcValId L = l)
                     then replaceAt (getList rtU (pcValId L)) row (VNum 0)
                     else getList rtU l).
  { intros l. unfold rtB. by rewrite getList_afterPcWrite. }
  assert (HUids : getList rtU (pcIdId L) = old ++ [tok]).
  { rewrite HUl, HAl; [done|]. apply pcIdId_parallel. }
  assert (HUvals : getList rtU (pcValId L) = getList rt (pcValId L) ++ [VNum entry]).
  { rewrite HUl, HAl; done. }
  assert (HBids : getList rtB (pcIdId L) = old ++ [tok]).
  { rewrite HBl. by rewrite decide_False by done. }
  assert (HBvals : getList rtB (pcValId L) = getList rt (pcValId L) ++ [VNum 0]).
  { rewrite HBl. rewrite decide_True by done. rewrite HUvals. unfold row.
    by apply replaceAt_last. }
  assert (HBrow : itemNum (getList rtB (pcIdId L)) tok = row).
  { rewrite HBids. unfold itemNum, row. rewrite itemNumFrom_last by done. lia. }
  (* the cleanup *)
  set (rtC := setVar rtB (baseIndexVarId ctx) (VNum row)).
  set (rt' := applyUpdates (deletionUpdates ctx row) rtC).
  destruct (applyUpdates_spec (deletionUpdates ctx row) rtC) as (Hv' & Ht' & _ & Hout').
  { by rewrite deletionUpdates_lists. }
  destruct (deletion_spec ctx row rtC Hpar) as [_ Hdel]. fold rt' in Hv', Ht', Hout', Hdel.
  exists rt'. split; [|split; [|split; [|split]]].
  - exists rt1, rtB. split; [|split].
    + apply exec_runRegistration, threadArgs_run.
    + eapply runLoop_iter; [|exact Hcall|].
      * unfold evalBool, runLoopCond. cbn [eval]. rewrite threadArgs_run. simpl.
        fold L. rewrite Hrow1, Hvals1. unfold row.
        rewrite (itemOf_last _ _ _ Hlenv). simpl.
        destruct (entry =? 0) eqn:E0; [apply Z.eqb_eq in E0; done|done].
      * apply runLoop_exit. unfold evalBool, runLoopCond. cbn [eval].
        rewrite threadArgs_run. simpl. fold L. rewrite HBrow, HBvals. unfold row.
        by rewrite (itemOf_last _ _ _ Hlenv).
    + unfold runCleanup. erewrite exec_step.
      2:{ apply execStmt_SSetVar. cbn [eval]. rewrite threadArgs_run. simpl.
          fold L. by rewrite HBrow. }
      fold rtC. apply exec_deleteRow. apply getVar_setVar_eq.
  - intros l Hl. rewrite (Hdel l Hl). unfold rtC. rewrite getList_setVar, HBl.
    case_decide as E.
    + subst l. rewrite HUvals. unfold row.
      rewrite (replaceAt_last _ _ _ _ Hlenv). by apply deleteAt_last_n.
    + rewrite (HUl l Hl), HAl.
      destruct (registration_appends ctx entry tok rt Hpar l Hl) as [v Hv].
      fold rt1 in Hv. rewrite Hv. unfold row. apply deleteAt_last_n. by apply Hal.
  - intros l Hl. rewrite Hout' by (by rewrite deletionUpdates_lists).
    unfold rtC. rewrite getList_setVar, HBl.
    rewrite decide_False; [done|]. intros <-. by apply Hl.
  - intros x Hx. rewrite (getVar_rtVars _ _ _ Hv'). unfold rtC.
    rewrite getVar_setVar_ne by set_solver. unfold rtB.
    apply getVar_afterPcWrite_other; set_solver.
  - rewrite Ht'. unfold rtC, rtB. simpl. apply rtTrace_afterPcWrite.
Qed.

Lemma exUserStmt_keeps ctx : userKeeps exUserStmt ctx.
Proof. intros id rt rt' H. inversion H; subst. done. Qed.

Lemma X10_witness :
  ∃ f entry yr sts rt',
    exLinearOutcome = Done f ∧
    buildStepFunction exCtx exConfig yr (fun _ => exRand) sts = Some (flStep f) ∧
    runReturns exUserExpr exUserStmt 2 exCtx exConfig yr (fun _ => exRand) sts entry ∅
               (VNum 42) exEmptyRuntime rt' ∧
    ∀ l, l ∈ parallelLists exLists → getList rt' l = [].
Proof.
  assert (Hf : ∃ f, exLinearOutcome = Done f) by (eexists; vm_compute; reflexivity).
  destruct Hf as [f Hf]. exists f.
  destruct (X10_straight_line_script_runs_once 5 exConfig (fun _ => []) (fun _ => 0%nat)
              (fun _ => exRand) exCtx "runCall" exLinearStore exDraws [] "hat"
              (mkBlock "event_whenflagclicked" (Some "a") None ∅ ∅ false) "a" f)
    as (entry & yr & sts & _ & Hstep & Hrun).
  - vm_compute. reflexivity.
  - reflexivity.
  - intros id Hid. vm_compute in Hid.
    apply elem_of_cons in Hid as [->|Hid]; [eexists; split; vm_compute; reflexivity|].
    apply elem_of_cons in Hid as [->|Hid]; [eexists; split; vm_compute; reflexivity|].
    by apply elem_of_nil in Hid.
  - repeat constructor; unfold drawOk, PC_MAX, PC_MIN; lia.
  - exact Hf.
  - exists entry, yr, sts.
    destruct (Hrun exUserExpr exUserStmt 2%nat ∅ (VNum 42) exEmptyRuntime
                _ _ ltac:(lia) exCtx_separate ltac:(discriminate)
                ltac:(intros i k; simpl; lia) (exUserStmt_keeps exCtx)
                ltac:(intros x Hx; by apply elem_of_nil in Hx)
                ltac:(intros id _; reflexivity) eq_refl eq_refl)
      as (rt' & Hret & Hl & _).
    exists rt'. split; [exact Hf|]. split; [exact Hstep|]. split; [exact Hret|exact Hl].
Defined.

(** ** Every transition of a live state leads to a state *)

Lemma okT_mono (P P' : gset Z) st t : P ⊆ P' → okT P st t → okT P' st t.
Proof. intros Hs [H|H]; [left; set_solver|by right]. Qed.

Lemma Inv_weaken (P Q F E S P' Q' F' E' S' : gset Z) st :
  P ⊆ P' → Q ⊆ Q' → F' ⊆ F → E' ⊆ E → S' ⊆ S →
  Inv P Q F E S st → Inv P' Q' F' E' S' st.
Proof.
  intros HP HQ HF HE HS (HT & HEn & HV & (HD1 & HD2 & HD3) & HK).
  split; [|split; [|split; [|split]]].
  - intros s Hs. destruct (HT s Hs) as [H1 H2]. split.
    + eapply Forall_impl; [exact H1|]. intros t. by apply okT_mono.
    + eapply Forall_impl; [exact H2|]. intros t [H|H]; [left; set_solver|by right].
  - intros e He. eapply okT_mono; [exact HP|]. apply HEn. set_solver.
  - intros k v Hkv. destruct (HV k v Hkv) as [H|H]; [left; set_solver|by right].
  - split; [done|]. split; [set_solver|]. intros p Hp. apply HD3. set_solver.
  - intros p Hp. apply HK. set_solver.
Qed.

Lemma allocPc_Inv (P Q F E S : gset Z) st p st' :
  Inv P Q F E S st → allocPc st = Some (p, st') →
  Inv ({[p]} ∪ P) Q ({[p]} ∪ F) ({[p]} ∪ E) S st' ∧ p ∉ F.
Proof.
  intros (HT & HEn & HV & (HD1 & HD2 & HD3) & HK) Ha.
  apply allocPc_spec in Ha as (Hp0 & Hpu & Hu & Hs & Hy & _).
  split; [|set_solver].
  assert (Hsp : statePcs st' = statePcs st) by (unfold statePcs; by rewrite Hs).
  assert (Hok : ∀ t, okT P st t → okT ({[p]} ∪ P) st' t).
  { intros t [H|[H|H]]; [left; set_solver|right; left; by rewrite Hsp|
                         right; right; by rewrite Hy]. }
  split; [|split; [|split; [|split]]].
  - intros s Hin. rewrite Hs in Hin. destruct (HT s Hin) as [H1 H2]. split.
    + eapply Forall_impl; [exact H1|]. exact Hok.
    + rewrite Hsp. exact H2.
  - intros e He. apply elem_of_union in He as [He|He].
    + left. set_solver.
    + by apply Hok, HEn.
  - intros k v Hkv. rewrite Hy in *. rewrite Hsp. by apply (HV k).
  - rewrite Hy, Hu. split; [|split].
    + intros k Hk. apply HD1 in Hk. set_solver.
    + set_solver.
    + intros q Hq. apply elem_of_union in Hq as [Hq|Hq]; [|by apply HD3].
      apply elem_of_singleton in Hq as ->.
      destruct (yieldRedirects st !! p) eqn:E1; [|done].
      exfalso. apply Hpu, HD1. by rewrite E1.
  - intros q Hq. rewrite Hsp, Hy. by apply HK.
Qed.

Lemma setRedirect_Inv (P Q F E S : gset Z) st k v u st' :
  Inv P Q F E S st → k ∈ F → setRedirect k v st = Some (u, st') →
  Inv (P ∖ {[k]}) ({[v]} ∪ Q) (F ∖ {[k]}) E S st'.
Proof.
  intros (HT & HEn & HV & (HD1 & HD2 & HD3) & HK) Hk H.
  inversion H; subst; clear H. unfold Inv, okT, statePcs in *; simpl.
  assert (Hnone : yieldRedirects st !! k = None) by (by apply HD3).
  assert (Hok : ∀ t, t ∈ P ∨ t ∈ pc <$> states st ∨ is_Some (yieldRedirects st !! t) →
                 t ∈ P ∖ {[k]} ∨ t ∈ pc <$> states st ∨
                 is_Some (<[k:=v]> (yieldRedirects st) !! t)).
  { intros t [H|[H|H]].
    - destruct (decide (t = k)) as [->|Hne].
      + right. right. rewrite lookup_insert_eq. eauto.
      + left. set_solver.
    - by right; left.
    - right. right. destruct (decide (t = k)) as [->|Hne].
      + rewrite lookup_insert_eq. eauto.
      + by rewrite lookup_insert_ne. }
  split; [|split; [|split; [|split]]].
  - intros s Hs. destruct (HT s Hs) as [H1 H2]. split.
    + eapply Forall_impl; [exact H1|]. exact Hok.
    + eapply Forall_impl; [exact H2|]. intros t [H|H]; [left; set_solver|by right].
  - intros e He. by apply Hok, HEn.
  - intros k' v' Hkv. destruct (decide (k' = k)) as [->|Hne].
    + rewrite lookup_insert_eq in Hkv. inversion Hkv; subst. left. set_solver.
    + rewrite lookup_insert_ne in Hkv by done.
      destruct (HV k' v' Hkv) as [H|[H|H]]; [left; set_solver|by right; left|].
      right. right. rewrite lookup_insert_ne; [done|]. intros <-. congruence.
  - split; [|split].
    + intros q Hq. destruct (decide (q = k)) as [->|Hne]; [by apply HD2|].
      rewrite lookup_insert_ne in Hq by done. by apply HD1.
    + set_solver.
    + intros q Hq. rewrite lookup_insert_ne by set_solver. apply HD3. set_solver.
  - intros q Hq. destruct (HK q Hq) as [H|H]; [by left|]. right.
    rewrite lookup_insert_ne; [done|]. intros <-. congruence.
Qed.

Lemma pushState_Inv (P Q F E S : gset Z) s st u st' :
  Inv P Q F E S st →
  Forall (fun t => t ∈ E ∨ t = pc s) (pcsOf s) →
  Forall (fun p => p ∈ Q) (pollsOf s) →
  pushState s st = Some (u, st') →
  Inv (P ∖ {[pc s]}) (Q ∖ {[pc s]}) F E ({[pc s]} ∪ S) st'.
Proof.
  intros (HT & HEn & HV & (HD1 & HD2 & HD3) & HK) Ht Hp H.
  inversion H; subst; clear H. unfold Inv, okT, statePcs in *; simpl.
  rewrite fmap_app. simpl.
  assert (Hin : ∀ t, t ∈ pc <$> states st → t ∈ (pc <$> states st) ++ [pc s]).
  { intros t H. apply elem_of_app. by left. }
  assert (Hnew : pc s ∈ (pc <$> states st) ++ [pc s]).
  { apply elem_of_app. right. apply list_elem_of_here. }
  assert (Hok : ∀ t, t ∈ P ∨ t ∈ pc <$> states st ∨ is_Some (yieldRedirects st !! t) →
                 t ∈ P ∖ {[pc s]} ∨ t ∈ (pc <$> states st) ++ [pc s] ∨
                 is_Some (yieldRedirects st !! t)).
  { intros t [H|[H|H]].
    - destruct (decide (t = pc s)) as [->|Hne]; [by right; left|left; set_solver].
    - right; left. by apply Hin.
    - by right; right. }
  assert (HokQ : ∀ t, t ∈ Q ∨ t ∈ pc <$> states st →
                  t ∈ Q ∖ {[pc s]} ∨ t ∈ (pc <$> states st) ++ [pc s]).
  { intros t [H|H].
    - destruct (decide (t = pc s)) as [->|Hne]; [by right|left; set_solver].
    - right. by apply Hin. }
  split; [|split; [|split; [|split]]].
  - intros s' Hs'. apply elem_of_app in Hs' as [Hs'|Hs'].
    + destruct (HT s' Hs') as [H1 H2]. split.
      * eapply Forall_impl; [exact H1|]. exact Hok.
      * eapply Forall_impl; [exact H2|]. exact HokQ.
    + apply list_elem_of_singleton in Hs' as ->. split.
      * eapply Forall_impl; [exact Ht|]. intros t [H| ->]; [by apply Hok, HEn|by right; left].
      * eapply Forall_impl; [exact Hp|]. intros t H. apply HokQ. by left.
  - intros e He. by apply Hok, HEn.
  - intros k v Hkv. destruct (HV k v Hkv) as [H|[H|H]].
    + destruct (HokQ v (or_introl H)) as [H'|H']; [by left|by right; left].
    + right; left. by apply Hin.
    + by right; right.
  - done.
  - intros q Hq. apply elem_of_union in Hq as [Hq|Hq].
    + apply elem_of_singleton in Hq as ->. by left.
    + destruct (HK q Hq) as [H|H]; [left; by apply Hin|by right].
Qed.

Lemma quiet_Inv {A} (m : M A) (P Q F E S : gset Z) st a st' :
  neutral m → still m → Inv P Q F E S st → m st = Some (a, st') → Inv P Q F E S st'.
Proof.
  intros Hn Hs HI H. destruct (Hn _ _ _ H) as [E1 E2]. destruct (Hs _ _ _ H) as [E3 _].
  unfold Inv, okT, statePcs in *. by rewrite E1, E2, E3.
Qed.

Lemma entryOk_okT (P Q F E S : gset Z) st c e :
  Inv P Q F E S st → c ∈ E → entryOk c e st → okT P st e.
Proof.
  intros (_ & HEn & _) Hc [->|[H|H]]; [by apply HEn|by right; left|].
  right; right. by rewrite H.
Qed.

Lemma Inv_track (P Q F E S : gset Z) st e :
  Inv P Q F E S st → okT P st e → Inv P Q F ({[e]} ∪ E) S st.
Proof.
  intros (HT & HEn & HV & HD & HK) He. split; [done|]. split; [|done].
  intros x Hx. apply elem_of_union in Hx as [Hx|Hx]; [|by apply HEn].
  apply elem_of_singleton in Hx as ->. done.
Qed.

Lemma Inv_known (P Q F E S : gset Z) st e :
  Inv P Q F E S st →
  e ∈ statePcs st ∨ yieldRedirects st !! e = Some e →
  Inv P Q F E ({[e]} ∪ S) st.
Proof.
  intros (HT & HEn & HV & HD & HK) He. do 4 (split; [done|]).
  intros x Hx. apply elem_of_union in Hx as [Hx|Hx]; [|by apply HK].
  apply elem_of_singleton in Hx as ->. done.
Qed.

Lemma setRedirect_Inv_ok (P Q F E S : gset Z) st k v u st' :
  Inv P Q F E S st → k ∈ F →
  v = k ∨ v ∈ statePcs st ∨ yieldRedirects st !! v = Some v →
  setRedirect k v st = Some (u, st') →
  Inv (P ∖ {[k]}) Q (F ∖ {[k]}) E S st' ∧
  (v ∈ statePcs st' ∨ yieldRedirects st' !! v = Some v).
Proof.
  intros HI Hk Hv H.
  pose proof HI as (_ & _ & _ & (_ & _ & HD3) & _).
  assert (Hnone : yieldRedirects st !! k = None) by (by apply HD3).
  pose proof (setRedirect_Inv _ _ _ _ _ _ _ _ _ _ HI Hk H)
    as (HT & HEn & HV & HD & HK).
  inversion H; subst; clear H. unfold Inv, okT, statePcs in *; simpl in *.
  assert (Hv' : v ∈ pc <$> states st ∨ <[k:=v]> (yieldRedirects st) !! v = Some v).
  { destruct Hv as [->|[Hv|Hv]].
    - right. apply lookup_insert_eq.
    - by left.
    - right. rewrite lookup_insert_ne; [done|]. intros <-. congruence. }
  split; [|exact Hv'].
  split; [|split; [done|split; [|done]]].
  - intros s Hs. destruct (HT s Hs) as [H1 H2]. split; [done|].
    pose proof HI as (HT0 & _). destruct (HT0 s Hs) as [_ H2'].
    exact H2'.
  - intros k' w Hkw. destruct (HV k' w Hkw) as [H|[H|H]]; [|by right; left|by right; right].
    apply elem_of_union in H as [H|H]; [|by left].
    apply elem_of_singleton in H as ->. by right.
Qed.

Lemma pushState_Inv_polls (P Q F E S : gset Z) s st u st' :
  Inv P Q F E S st →
  Forall (fun t => t ∈ E ∨ t = pc s) (pcsOf s) →
  pushState s st = Some (u, st') →
  Inv (P ∖ {[pc s]}) ((list_to_set (pollsOf s) ∪ Q) ∖ {[pc s]}) F E ({[pc s]} ∪ S) st'.
Proof.
  intros HI Ht H.
  eapply pushState_Inv; [|exact Ht| |exact H].
  - eapply Inv_weaken; [..|exact HI]; set_solver.
  - apply Forall_forall. intros p Hp. set_solver.
Qed.

Lemma closes_substackChain rec o c (P Q F E S : gset Z) st e st' :
  closes rec → c ∈ E → EXIT_PC ∈ E → Inv P Q F E S st →
  substackChain rec o c st = Some (e, st') →
  Inv P Q F E S st' ∧ entryOk c e st'.
Proof.
  intros Hrec Hc Hx HI H. destruct o as [first|]; simpl in H.
  - apply bind_inv in H as (bs & st1 & E1 & H). inversion E1; subst.
    by eapply Hrec.
  - inversion H; subst. split; [done|by left].
Qed.

#[local] Hint Resolve neutral_modifyBlocks neutral_setRedirect neutral_getBlocks
  neutral_uid neutral_ret neutral_clearParent neutral_numberLiteral
  neutral_textLiteral : neutral.
Create HintDb stillness.
#[local] Hint Resolve still_modifyBlocks still_getBlocks still_uid still_ret
  still_clearParent still_numberLiteral still_textLiteral : stillness.

Ltac solve_stillness :=
  repeat first
    [ progress eauto with stillness
    | apply still_bind; [|intros ?]
    | case_match
    | case_decide ].

Ltac cstep Hrec H HI :=
  lazymatch type of HI with
  | Inv ?P0 ?Q0 ?F0 ?E0 ?S0 _ =>
  lazymatch type of H with
  | bind allocPc _ _ = _ =>
      let p := fresh "p" in let st1 := fresh "st" in let E := fresh "E" in
      let HI' := fresh "HI" in let Hf := fresh "Hfresh" in
      apply bind_inv in H as (p & st1 & E & H); cbv beta in H;
      destruct (allocPc_Inv _ _ _ _ _ _ _ _ HI E) as [HI' Hf];
      clear HI E; rename HI' into HI
  | bind (pushState ?s) _ _ = _ =>
      let u := fresh "u" in let st1 := fresh "st" in let E := fresh "E" in
      let HI' := fresh "HI" in
      apply bind_inv in H as (u & st1 & E & H); cbv beta in H;
      assert (HI' := pushState_Inv_polls P0 Q0 F0 E0 S0 s _ _ _ HI
                       ltac:(simpl; repeat (apply List.Forall_cons; [set_solver|]);
                             apply List.Forall_nil) E);
      simpl in HI'; clear HI E; rename HI' into HI
  | bind (setRedirect ?k ?v) _ _ = _ =>
      let u := fresh "u" in let st1 := fresh "st" in let E := fresh "E" in
      let HI' := fresh "HI" in let Hv := fresh "Hv" in
      apply bind_inv in H as (u & st1 & E & H); cbv beta in H;
      first
        [ destruct (setRedirect_Inv_ok P0 Q0 F0 E0 S0 _ k v _ _ HI ltac:(set_solver)
                      ltac:(first [assumption | left; reflexivity]) E) as [HI' Hv];
          apply (fun h => Inv_known _ _ _ _ _ _ v h Hv) in HI'
        | assert (HI' := setRedirect_Inv P0 Q0 F0 E0 S0 _ k v _ _ HI ltac:(set_solver) E) ];
      clear HI E; rename HI' into HI
  | bind (substackChain _ ?o ?c) _ _ = _ =>
      let x := fresh "x" in let st1 := fresh "st" in let E := fresh "E" in
      let HI' := fresh "HI" in let Hent := fresh "Hent" in
      apply bind_inv in H as (x & st1 & E & H); cbv beta in H;
      destruct (closes_substackChain _ o c P0 Q0 F0 E0 S0 _ _ _ Hrec ltac:(set_solver)
                  ltac:(set_solver) HI E)
        as [HI' Hent];
      apply (fun h => Inv_track P0 Q0 F0 E0 S0 _ x h
                        (entryOk_okT P0 Q0 F0 E0 S0 _ c x h ltac:(set_solver) Hent)) in HI';
      clear HI E; rename HI' into HI
  | bind _ _ _ = _ =>
      let x := fresh "x" in let st1 := fresh "st" in let E := fresh "E" in
      let HI' := fresh "HI" in let Hent := fresh "Hent" in
      apply bind_inv in H as (x & st1 & E & H); cbv beta in H;
      first
        [ lazymatch type of E with
          | ?m _ = _ =>
              assert (HI' := quiet_Inv m _ _ _ _ _ _ _ _
                               ltac:(solve_neutral) ltac:(solve_stillness) HI E)
          end
        | lazymatch type of E with
          | _ ?ids ?c _ = _ =>
              destruct (Hrec ids c P0 Q0 F0 E0 S0 _ _ _ ltac:(set_solver) ltac:(set_solver) HI E)
                as [HI' Hent];
              apply (fun h => Inv_track P0 Q0 F0 E0 S0 _ x h
                                (entryOk_okT P0 Q0 F0 E0 S0 _ c x h ltac:(set_solver) Hent))
                in HI'
          end ];
      clear HI E; rename HI' into HI
  end
  end.

Ltac cfinish Hrec H HI :=
  lazymatch type of HI with
  | Inv ?P0 ?Q0 ?F0 ?E0 ?S0 _ =>
  first
    [ injection H as <- <-; split;
      [ eapply Inv_weaken; [..|exact HI]; set_solver
      | let HK := fresh "HK" in
        pose proof HI as (_ & _ & _ & _ & HK);
        match goal with
        | |- entryOk _ ?a _ =>
            destruct (HK a ltac:(set_solver)) as [?|?];
            [by right; left|by right; right]
        end ]
    | match type of H with
      | substackChain _ ?o ?c _ = _ =>
          destruct (closes_substackChain _ o c P0 Q0 F0 E0 S0 _ _ _ Hrec
                      ltac:(set_solver) ltac:(set_solver) HI H) as [? ?];
          split; [eapply Inv_weaken; [..|eassumption]; set_solver|assumption]
      end ]
  end.

Lemma closes_decomposeControlBlock rec block blockId :
  closes rec →
  ∀ c P Q F E S st e st',
    c ∈ E → EXIT_PC ∈ E → Inv P Q F E S st →
    decomposeControlBlock rec block blockId c st = Some (e, st') →
    Inv P Q F E S st' ∧ entryOk c e st'.
Proof.
  intros Hrec c P Q F E S st e st' Hc Hx HI H. unfold decomposeControlBlock in H.
  repeat case_decide.
  all: repeat match goal with
              | Hd : opcode _ ≠ _ |- _ => clear Hd
              | Hd : opcode _ = _ |- _ => clear Hd
              | Hd : opcode _ = _ ∨ _ |- _ => clear Hd
              | Hd : ¬ (opcode _ = _ ∨ _) |- _ => clear Hd
              end.
  all: try (destruct (inputRef block "SUBSTACK") eqn:Hsub; clear Hsub).
  all: repeat cstep Hrec H HI.
  all: cfinish Hrec H HI.
Qed.

Lemma closes_decomposeSegment rec seg :
  closes rec →
  ∀ c P Q F E S st e st',
    c ∈ E → EXIT_PC ∈ E → Inv P Q F E S st →
    decomposeSegment rec seg c st = Some (e, st') →
    Inv P Q F E S st' ∧ entryOk c e st'.
Proof.
  intros Hrec c P Q F E S st e st' Hc Hx HI H. destruct seg as [ids|blockId]; simpl in H.
  - repeat cstep Hrec H HI. cfinish Hrec H HI.
  - apply bind_inv in H as (bs & st1 & E1 & H). inversion E1; subst.
    destruct (getFullBlock (blocks st1) blockId) as [block|]; [|done].
    by eapply closes_decomposeControlBlock.
Qed.

Lemma closes_decomposeSegments rec segs :
  closes rec →
  ∀ c P Q F E S st e st',
    c ∈ E → EXIT_PC ∈ E → Inv P Q F E S st →
    decomposeSegments rec segs c st = Some (e, st') →
    Inv P Q F E S st' ∧ entryOk c e st'.
Proof.
  intros Hrec. induction segs as [|seg segs IH]; intros c P Q F E S st e st' Hc Hx HI H;
    simpl in H.
  - inversion H; subst. split; [done|by left].
  - apply bind_inv in H as (n & st1 & E1 & H). cbv beta in H.
    destruct (IH _ _ _ _ _ _ _ _ _ Hc Hx HI E1) as [HI1 Hn].
    destruct Hn as [->|Hn].
    + by eapply closes_decomposeSegment.
    + pose proof (Inv_known _ _ _ _ _ _ n HI1 Hn) as HI2.
      assert (Hok : okT P st1 n).
      { destruct Hn as [Hn|Hn]; [by right; left|right; right; by rewrite Hn]. }
      apply (fun h => Inv_track _ _ _ _ _ _ n h Hok) in HI2.
      destruct (closes_decomposeSegment rec seg Hrec n P Q F ({[n]} ∪ E) ({[n]} ∪ S) _ _ _
                  ltac:(set_solver) ltac:(set_solver) HI2 H) as [HI3 He].
      split; [eapply Inv_weaken; [..|exact HI3]; set_solver|].
      destruct He as [->|He]; [|by right].
      pose proof HI3 as (_ & _ & _ & _ & HK). right. apply HK. set_solver.
Qed.

Lemma closes_decomposeChain fuel : closes (decomposeChain fuel).
Proof.
  induction fuel as [|fuel IH]; intros ids c P Q F E S st e st' Hc Hx HI H.
  - destruct ids; simpl in H; [|done]. inversion H; subst. split; [done|by left].
  - destruct ids as [|i ids]; simpl in H; [inversion H; subst; split; [done|by left]|].
    apply bind_inv in H as (bs & st1 & E1 & H). inversion E1; subst.
    by eapply closes_decomposeSegments.
Qed.

Lemma Inv_initial bs ds us :
  Inv {[EXIT_PC]} ∅ ∅ {[EXIT_PC]} ∅ (initialDState bs ds us).
Proof.
  split; [|split; [|split; [|split]]]; simpl.
  - intros s Hs. by apply elem_of_nil in Hs.
  - intros e He. left. done.
  - intros k v Hkv. by rewrite lookup_empty in Hkv.
  - split; [|split].
    + intros k [v Hk]. by rewrite lookup_empty in Hk.
    + set_solver.
    + intros p Hp. set_solver.
  - intros p Hp. set_solver.
Qed.

(** The closure of a decomposed script, on the decomposer's own terms:
    [live] are the states of the script, [dead] the decoys. *)
Lemma decomposeToCFG_closed fuel config deadBody pick bs ds us chainIds cfg :
  decomposeToCFG fuel config deadBody pick bs ds us chainIds = Some cfg →
  ∃ live dead,
    cfgStates cfg ≡ₚ live ++ dead ∧
    Forall (fun s => isDead s = false) live ∧
    Forall (fun s => isDead s = true) dead ∧
    let ok q := q = EXIT_PC ∨ q ∈ pc <$> live ∨ cfgRedirects cfg !! q = Some q in
    ok (entryPc cfg) ∧
    (∀ s t, s ∈ live → t ∈ pcsOf s → ok (resolvePc (cfgRedirects cfg) t)) ∧
    (∀ s p, s ∈ live → p ∈ pollsOf s → p ∈ pc <$> live).
Proof.
  intros H. unfold decomposeToCFG in H.
  destruct (decomposeBody fuel config deadBody chainIds (initialDState bs ds us))
    as [[entry st]|] eqn:E; [|done].
  inversion H; subst; clear H. simpl.
  unfold decomposeBody in E. apply bind_inv in E as (e & st1 & E1 & E). cbv beta in E.
  apply bind_inv in E as (dead & st2 & E2 & E). cbv beta in E.
  inversion E; subst; clear E. simpl.
  destruct (closes_decomposeChain fuel chainIds EXIT_PC {[EXIT_PC]} ∅ ∅ {[EXIT_PC]} ∅ _ _ _
              ltac:(set_solver) ltac:(set_solver) (Inv_initial bs ds us) E1)
    as [(HT & _ & HV & _ & _) He].
  assert (HK0 : K (fun _ => True) (fun _ => True) bs (initialDState bs ds us)).
  { apply K_initial; [apply blocksStable_refl|]. apply Forall_forall. done. }
  destruct (decomposeChain_K (fun _ => True) (fun _ => True) (fun _ _ => I) I bs fuel
              chainIds EXIT_PC _ _ _ HK0 I E1)
    as [(_ & _ & Hlive & _) _].
  pose proof (generateDeadStatesFrom_shape _ _ _ _ _ _ E2) as Hshape.
  unfold generateDeadStates in E2.
  apply (generateDeadStatesFrom_domain (fun _ => True) (fun _ => True)
           ltac:(done)) in E2 as (_ & Hy & Hs & _ & _).
  2:{ apply Forall_forall. done. }
  rewrite Hy, Hs.
  assert (Hval : ∀ k v, yieldRedirects st1 !! k = Some v →
            v ∈ pc <$> states st1 ∨ yieldRedirects st1 !! v = Some v).
  { intros k v Hkv. destruct (HV k v Hkv) as [Hq|Hq]; [set_solver|done]. }
  assert (Hres : ∀ t, okT {[EXIT_PC]} st1 t →
            resolvePc (yieldRedirects st1) t = EXIT_PC ∨
            resolvePc (yieldRedirects st1) t ∈ pc <$> states st1 ∨
            yieldRedirects st1 !! resolvePc (yieldRedirects st1) t
              = Some (resolvePc (yieldRedirects st1) t)).
  { intros t Ht. unfold resolvePc.
    destruct (yieldRedirects st1 !! t) as [v|] eqn:Hk; simpl.
    - right. by eapply Hval.
    - destruct Ht as [Ht|[Ht|Ht]].
      + left. set_solver.
      + by right; left.
      + rewrite Hk in Ht. by destruct Ht. }
  exists (states st1), dead. split; [apply shuffle_Permutation|].
  split; [eapply Forall_impl; [exact Hlive|]; by intros s [_ ?]|].
  split.
  { apply Forall_forall. intros s Hs'. destruct (Hshape s Hs') as (p & b & n & ->). done. }
  split; [|split].
  - destruct He as [->|[He|He]]; [by left|by right; left|by right; right].
  - intros s t Hs' Ht. apply Hres. destruct (HT s Hs') as [H1 _].
    by eapply Forall_forall in H1.
  - intros s p Hs' Hp. destruct (HT s Hs') as [_ H2].
    eapply Forall_forall in H2; [|exact Hp]. destruct H2 as [H2|H2]; [set_solver|done].
Qed.

(** ** The PC writes of a state body *)

Lemma pcWrites_app pcs ss1 ss2 :
  pcWrites pcs (ss1 ++ ss2) = pcWrites pcs ss1 ++ pcWrites pcs ss2.
Proof. induction ss1 as [|x ss1 IH]; simpl; [done|]. by rewrite IH, app_assoc. Qed.

Lemma pcWrites_users pcs ids : pcWrites pcs (map SUser ids) = [].
Proof. induction ids as [|i ids IH]; simpl; [done|exact IH]. Qed.

Lemma pcWrites_resolveAndWritePc ctx config yr rnd n p cur :
  pcWrites (pcValId (lists ctx)) (resolveAndWritePc ctx config yr rnd n p cur).1
  = [pcValue ctx config rnd n cur (resolvePc yr p)].
Proof.
  unfold resolveAndWritePc. destruct (shouldYield yr p); simpl; by rewrite decide_True.
Qed.

Lemma buildStateBody_default ctx config yr rnd s :
  branch s = None → repeatInit s = None → repeatCheck s = None →
  forEachInit s = None → forEachCheck s = None → isTerminal s = false →
  waitStart s = None → broadcastWaitStart s = None → waitPoll s = None →
  buildStateBody ctx config yr rnd s =
  map SUser (bodyBlockIds s) ++
  [writePcToList ctx (pcValue ctx config rnd 0 (pc s) (resolvePc yr (nextPc s)));
   if shouldYield yr (nextPc s)
   then SSetVar (cachedPcVarId ctx) (ENum (resolvePc yr (nextPc s)))
   else if isDead s then SSetVar (keepGoingVarId ctx) (ENum 0)
        else SSetVar (keepGoingVarId ctx) (ENum 1)].
Proof.
  intros H1 H2 H3 H4 H5 H6 H7 H8 H9. unfold buildStateBody.
  rewrite H1, H2, H3, H4, H5, H6, H7, H8, H9. unfold resolveAndWritePc.
  destruct (shouldYield yr (nextPc s)), (isDead s); simpl.
  all: match goal with
       | |- match ?l with _ => _ end = _ => destruct l eqn:E
       end;
       [apply app_eq_nil in E as [_ E]; done|].
  all: rewrite <-E; by rewrite linkBlocks_users.
Qed.

Lemma pcWrites_deleteRow ctx : pcWrites (pcValId (lists ctx)) (deleteRow ctx) = [].
Proof. unfold deleteRow. by destruct (needsWait (lists ctx)). Qed.

Lemma pcWrites_cons pcs x r :
  pcWrites pcs (x :: r) = pcWritesOf pcs x ++ pcWrites pcs r.
Proof. reflexivity. Qed.

Lemma pcWrites_SIfElse pcs c t e :
  pcWritesOf pcs (SIfElse c t e) = pcWrites pcs t ++ pcWrites pcs e.
Proof. reflexivity. Qed.

Lemma pcWrites_deleteCounterEntry ctx id tmp :
  pcWrites (pcValId (lists ctx)) (deleteCounterEntry ctx id tmp) = [].
Proof. reflexivity. Qed.

Lemma pcWrites_buildStateBody ctx config yr rnd s :
  pcValId (lists ctx) ∉
    [counterValId (lists ctx); waitFlagId (lists ctx); bcastPendingMsgId (lists ctx)] →
  ∀ e, e ∈ pcWrites (pcValId (lists ctx)) (buildStateBody ctx config yr rnd s) →
    ∃ n q, q ∈ writtenPcs yr s ∧ e = pcValue ctx config rnd n (pc s) q.
Proof.
  intros Hsep e He.
  assert (Hcv : counterValId (lists ctx) ≠ pcValId (lists ctx)) by set_solver.
  assert (Hwf : waitFlagId (lists ctx) ≠ pcValId (lists ctx)) by set_solver.
  assert (Hbp : bcastPendingMsgId (lists ctx) ≠ pcValId (lists ctx)) by set_solver.
  unfold writtenPcs.
  destruct (branch s) as [br|] eqn:H1.
  { unfold buildStateBody in He. rewrite H1 in He. case_decide; cbn [linkBlocks] in He.
    - rewrite pcWrites_resolveAndWritePc in He.
      apply list_elem_of_singleton in He as ->.
      exists 1%nat, (resolvePc yr (falsePc br)). split; [set_solver|done].
    - rewrite pcWrites_cons, pcWrites_SIfElse, !pcWrites_resolveAndWritePc in He.
      simpl in He.
      apply elem_of_cons in He as [->|He];
        [exists 0%nat, (resolvePc yr (truePc br)); split; [set_solver|done]|].
      apply list_elem_of_singleton in He as ->.
      exists 1%nat, (resolvePc yr (falsePc br)). split; [set_solver|done]. }
  destruct (repeatInit s) as [ri|] eqn:H2.
  { unfold buildStateBody in He. rewrite H1, H2 in He. cbn [linkBlocks take app] in He.
    rewrite !pcWrites_cons, pcWrites_resolveAndWritePc in He. simpl in He.
    apply list_elem_of_singleton in He as ->.
    exists 0%nat, (resolvePc yr (nextPc s)). split; [set_solver|done]. }
  destruct (repeatCheck s) as [rc|] eqn:H3.
  { unfold buildStateBody in He. rewrite H1, H2, H3 in He. cbn [linkBlocks] in He.
    rewrite pcWrites_cons, pcWrites_SIfElse in He.
    rewrite pcWrites_cons, pcWrites_app, pcWrites_deleteCounterEntry in He.
    rewrite !pcWrites_resolveAndWritePc in He. simpl in He.
    rewrite decide_False in He by done. simpl in He.
    apply elem_of_cons in He as [->|He];
      [exists 0%nat, (resolvePc yr (rc_bodyPc rc)); split; [set_solver|done]|].
    apply list_elem_of_singleton in He as ->.
    exists 1%nat, (resolvePc yr (rc_exitPc rc)). split; [set_solver|done]. }
  destruct (forEachInit s) as [fi|] eqn:H4.
  { unfold buildStateBody in He. rewrite H1, H2, H3, H4 in He.
    cbn [linkBlocks take app] in He.
    rewrite !pcWrites_cons, pcWrites_resolveAndWritePc in He. simpl in He.
    apply list_elem_of_singleton in He as ->.
    exists 0%nat, (resolvePc yr (nextPc s)). split; [set_solver|done]. }
  destruct (forEachCheck s) as [fc|] eqn:H5.
  { unfold buildStateBody in He. rewrite H1, H2, H3, H4, H5 in He. cbn [linkBlocks] in He.
    rewrite pcWrites_cons, pcWrites_SIfElse in He.
    rewrite !pcWrites_app, !pcWrites_deleteCounterEntry in He.
    rewrite !pcWrites_resolveAndWritePc in He. simpl in He.
    rewrite decide_False in He by done. simpl in He.
    apply elem_of_cons in He as [->|He];
      [exists 0%nat, (resolvePc yr (fc_bodyPc fc)); split; [set_solver|done]|].
    apply list_elem_of_singleton in He as ->.
    exists 1%nat, (resolvePc yr (fc_exitPc fc)). split; [set_solver|done]. }
  destruct (isTerminal s) eqn:H6.
  { rewrite buildStateBody_terminal in He.
    2:{ unfold runsTerminalBody. by rewrite H1, H2, H3, H4, H5. }
    rewrite pcWrites_app, pcWrites_deleteRow, pcWrites_cons, pcWrites_users in He.
    by apply elem_of_nil in He. }
  destruct (waitStart s) as [ws|] eqn:H7.
  { unfold buildStateBody in He. rewrite H1, H2, H3, H4, H5, H6, H7 in He.
    simpl in He. rewrite !decide_False in He by done.
    rewrite decide_True in He by done. simpl in He.
    apply list_elem_of_singleton in He as ->.
    exists 0%nat, (ws_pollPc ws). split; [set_solver|done]. }
  destruct (broadcastWaitStart s) as [bws|] eqn:H8.
  { unfold buildStateBody in He. rewrite H1, H2, H3, H4, H5, H6, H7, H8 in He.
    simpl in He. rewrite !decide_False in He by done.
    rewrite decide_True in He by done. simpl in He.
    apply list_elem_of_singleton in He as ->.
    exists 0%nat, (bws_pollPc bws). split; [set_solver|done]. }
  destruct (waitPoll s) as [wp|] eqn:H9.
  { unfold buildStateBody in He. rewrite H1, H2, H3, H4, H5, H6, H7, H8, H9 in He.
    cbn [linkBlocks] in He. rewrite pcWrites_cons, pcWrites_SIfElse in He.
    destruct (shouldYield yr (continuationPc wp)); simpl in He;
      rewrite decide_True in He by done; simpl in He;
      apply list_elem_of_singleton in He as ->.
    all: exists 0%nat, (resolvePc yr (continuationPc wp)).
    all: split; [set_solver|done]. }
  rewrite buildStateBody_default in He by done.
  rewrite pcWrites_app, pcWrites_users in He. simpl in He.
  rewrite decide_True in He by done.
  destruct (shouldYield yr (nextPc s)); [|destruct (isDead s)]; simpl in He;
    apply list_elem_of_singleton in He as ->.
  all: exists 0%nat, (resolvePc yr (nextPc s)).
  all: split; [set_solver|done].
Qed.

(** The decoys take PCs that nothing allocated before them uses. *)
Lemma generateDeadStatesFrom_fresh deadBody count : ∀ i st dead st',
  generateDeadStatesFrom deadBody i count st = Some (dead, st') →
  ∀ d, d ∈ dead → pc d ≠ EXIT_PC ∧ pc d ∉ usedPcs st.
Proof.
  induction count as [|count IH]; intros i st dead st' H d Hd; simpl in H.
  - inversion H; subst. by apply elem_of_nil in Hd.
  - apply bind_inv in H as (p & st1 & E1 & H). cbv beta in H.
    unfold allocDeadPc in E1.
    apply allocPc_spec in E1 as (Hz & Hfresh & Hu1 & _).
    apply bind_inv in H as (u & st2 & E2 & H). cbv beta in H.
    apply neutral_modifyBlocks in E2 as [_ Hu2].
    apply bind_inv in H as (n & st3 & E3 & H). cbv beta in H.
    apply neutral_drawNextPc in E3 as [_ Hu3].
    apply bind_inv in H as (rest & st4 & E4 & H). cbv beta in H.
    inversion H; subst; clear H.
    apply elem_of_cons in Hd as [->|Hd]; [done|].
    destruct (IH _ _ _ _ E4 d Hd) as [H1 H2]. split; [done|].
    rewrite Hu3, Hu2, Hu1 in H2. set_solver.
Qed.

Lemma decomposeToCFG_decoys_apart fuel config deadBody pick bs ds us chainIds cfg :
  decomposeToCFG fuel config deadBody pick bs ds us chainIds = Some cfg →
  ∀ d, d ∈ cfgStates cfg → isDead d = true →
    pc d ≠ EXIT_PC ∧ cfgRedirects cfg !! pc d = None ∧
    ∀ s, s ∈ cfgStates cfg → isDead s = false → pc s ≠ pc d.
Proof.
  intros H. unfold decomposeToCFG in H.
  destruct (decomposeBody fuel config deadBody chainIds (initialDState bs ds us))
    as [[entry st]|] eqn:E; [|done].
  inversion H; subst; clear H. simpl.
  unfold decomposeBody in E. apply bind_inv in E as (e & st1 & E1 & E). cbv beta in E.
  apply bind_inv in E as (dead & st2 & E2 & E). cbv beta in E.
  inversion E; subst; clear E. simpl.
  destruct (closes_decomposeChain fuel chainIds EXIT_PC {[EXIT_PC]} ∅ ∅ {[EXIT_PC]} ∅ _ _ _
              ltac:(set_solver) ltac:(set_solver) (Inv_initial bs ds us) E1)
    as [(_ & _ & _ & (Hdom & _ & _) & _) _].
  destruct (framed_decomposeChain _ _ _ _ _ _ _ (J_initial bs ds us) E1)
    as (_ & Hused & _).
  assert (HK0 : K (fun _ => True) (fun _ => True) bs (initialDState bs ds us)).
  { apply K_initial; [apply blocksStable_refl|]. apply Forall_forall. done. }
  destruct (decomposeChain_K (fun _ => True) (fun _ => True) (fun _ _ => I) I bs fuel
              chainIds EXIT_PC _ _ _ HK0 I E1)
    as [(_ & _ & Hlive & _) _].
  pose proof (generateDeadStatesFrom_shape _ _ _ _ _ _ E2) as Hshape.
  pose proof (generateDeadStatesFrom_fresh _ _ _ _ _ _ E2) as Hfresh.
  unfold generateDeadStates in E2.
  apply (generateDeadStatesFrom_domain (fun _ => True) (fun _ => True)
           ltac:(done)) in E2 as (_ & Hy & Hs & _ & _).
  2:{ apply Forall_forall. done. }
  rewrite Hy, Hs.
  assert (Hsplit : ∀ s, s ∈ shuffle pick (states st1 ++ dead) →
            (s ∈ states st1 ∧ isDead s = false) ∨ (s ∈ dead ∧ isDead s = true)).
  { intros s Hin. rewrite shuffle_Permutation in Hin.
    apply elem_of_app in Hin as [Hin|Hin].
    - left. split; [done|]. eapply Forall_forall in Hlive; [|exact Hin]. apply Hlive.
    - right. split; [done|]. destruct (Hshape s Hin) as (p & b & n & ->). done. }
  intros d Hd Hdd.
  destruct (Hsplit d Hd) as [[_ Hc]|[Hin _]]; [congruence|].
  destruct (Hfresh d Hin) as [Hne Hnu].
  split; [done|]. split.
  - destruct (yieldRedirects st1 !! pc d) as [v|] eqn:Hk; [|done].
    exfalso. apply Hnu, Hdom. by exists v.
  - intros s Hs' Hsl Heq.
    destruct (Hsplit s Hs') as [[Hin' _]|[_ Hc]]; [|congruence].
    apply Hnu. rewrite <-Heq. apply Hused. unfold statePcs.
    apply list_elem_of_fmap. by exists s.
Qed.

(** X11. The transitions of a flattened script stay inside its CFG.  The
    entry PC, and every PC that the body of a live state can store in the
    PC list (the value of each block of the body that replaces an item of
    that list), is the exit PC, the PC of a live state of the same CFG,
    or a PC that the yield redirects map onto itself; the last case is a
    forever loop whose body produced no state.  It is never the PC of a
    decoy state. *)
Theorem X11_pc_writes_stay_in_the_cfg
    fuel config deadBody pick bs ds us chainIds cfg ctx :
  decomposeToCFG fuel config deadBody pick bs ds us chainIds = Some cfg →
  pcValId (lists ctx) ∉
    [counterValId (lists ctx); waitFlagId (lists ctx); bcastPendingMsgId (lists ctx)] →
  okPc cfg (entryPc cfg) ∧
  ∀ s rnd e, s ∈ cfgStates cfg → isDead s = false →
    e ∈ pcWrites (pcValId (lists ctx))
          (buildStateBody ctx config (cfgRedirects cfg) rnd s) →
    ∃ n q, e = pcValue ctx config rnd n (pc s) q ∧ okPc cfg q ∧
      ∀ d, d ∈ cfgStates cfg → isDead d = true → pc d ≠ q.
Proof.
  intros Hcfg Hsep.
  pose proof (decomposeToCFG_decoys_apart _ _ _ _ _ _ _ _ _ Hcfg) as Hapart.
  destruct (decomposeToCFG_closed _ _ _ _ _ _ _ _ _ Hcfg)
    as (live & dead & Hperm & Hlive & Hdead & Hentry & Htargets & Hpolls).
  assert (Hok : ∀ q, q = EXIT_PC ∨ q ∈ pc <$> live ∨ cfgRedirects cfg !! q = Some q →
                 okPc cfg q).
  { intros q [H|[H|H]]; [by left| |by right; right].
    right; left. apply list_elem_of_fmap in H as (s' & -> & Hs').
    exists s'. split; [|split; [|done]].
    - rewrite Hperm. apply elem_of_app. by left.
    - by eapply Forall_forall in Hlive. }
  split; [by apply Hok|].
  intros s rnd e Hs Hl He.
  assert (Hsl : s ∈ live).
  { rewrite Hperm in Hs. apply elem_of_app in Hs as [Hs|Hs]; [done|].
    eapply Forall_forall in Hdead; [|exact Hs]. congruence. }
  destruct (pcWrites_buildStateBody _ _ _ _ _ Hsep e He) as (n & q & Hq & ->).
  exists n, q. split; [done|].
  cut (okPc cfg q).
  { intros Hq'. split; [done|]. intros d Hd Hdd Heq.
    destruct (Hapart d Hd Hdd) as (H1 & H2 & H3).
    destruct Hq' as [->|[(s' & Hs' & Hl' & Hp')|Hr]].
    - done.
    - by apply (H3 s' Hs' Hl'); rewrite Hp'.
    - rewrite <-Heq in Hr. congruence. }
  clear Hapart. apply Hok.
  assert (Hres : ∀ t, t ∈ pcsOf s →
            resolvePc (cfgRedirects cfg) t = EXIT_PC ∨
            resolvePc (cfgRedirects cfg) t ∈ pc <$> live ∨
            cfgRedirects cfg !! resolvePc (cfgRedirects cfg) t
              = Some (resolvePc (cfgRedirects cfg) t))
    by (intros t Ht; by eapply Htargets).
  assert (Hpoll : ∀ p, p ∈ pollsOf s → p ∈ pc <$> live)
    by (intros p Hp; by eapply Hpolls).
  unfold writtenPcs in Hq. unfold pcsOf in Hres. unfold pollsOf in Hpoll.
  destruct (branch s) as [br|].
  { case_decide.
    - apply list_elem_of_singleton in Hq as ->. apply Hres. set_solver.
    - apply elem_of_cons in Hq as [->|Hq]; [apply Hres; set_solver|].
      apply list_elem_of_singleton in Hq as ->. apply Hres. set_solver. }
  destruct (repeatInit s).
  { apply list_elem_of_singleton in Hq as ->. apply Hres. set_solver. }
  destruct (repeatCheck s) as [rc|].
  { apply elem_of_cons in Hq as [->|Hq]; [apply Hres; set_solver|].
    apply list_elem_of_singleton in Hq as ->. apply Hres. set_solver. }
  destruct (forEachInit s).
  { apply list_elem_of_singleton in Hq as ->. apply Hres. set_solver. }
  destruct (forEachCheck s) as [fc|].
  { apply elem_of_cons in Hq as [->|Hq]; [apply Hres; set_solver|].
    apply list_elem_of_singleton in Hq as ->. apply Hres. set_solver. }
  destruct (isTerminal s); [by apply elem_of_nil in Hq|].
  destruct (waitStart s) as [ws|].
  { apply list_elem_of_singleton in Hq as ->. right; left. apply Hpoll. set_solver. }
  destruct (broadcastWaitStart s) as [bws|].
  { apply list_elem_of_singleton in Hq as ->. right; left. apply Hpoll. set_solver. }
  destruct (waitPoll s) as [wp|].
  { apply list_elem_of_singleton in Hq as ->. apply Hres. set_solver. }
  apply list_elem_of_singleton in Hq as ->. apply Hres. set_solver.
Qed.

Lemma X11_witness :
  ∃ cfg,
    decomposeToCFG 5 exConfig (fun _ => []) (fun _ => 0%nat) exStore exDraws [] ["ife"]
      = Some cfg ∧
    okPc cfg (entryPc cfg) ∧
    ∀ s rnd e, s ∈ cfgStates cfg → isDead s = false →
      e ∈ pcWrites (pcValId (lists exCtx))
            (buildStateBody exCtx exConfig (cfgRedirects cfg) rnd s) →
      ∃ n q, e = pcValue exCtx exConfig rnd n (pc s) q ∧ okPc cfg q ∧
        ∀ d, d ∈ cfgStates cfg → isDead d = true → pc d ≠ q.
Proof.
  eexists. split; [vm_compute; reflexivity|].
  apply (X11_pc_writes_stay_in_the_cfg 5 exConfig (fun _ => []) (fun _ => 0%nat)
           exStore exDraws [] ["ife"] _ exCtx).
  - vm_compute. reflexivity.
  - simpl. set_solver.
Defined.

(** ** Dispatching on a value that is no state's PC *)

Section DispatchFloor.
Variable sorted : list CFGState.
Hypothesis ascending : ∀ i j a b,
  sorted !! i = Some a → sorted !! j = Some b → (i < j)%nat → pc a < pc b.

(** The comparisons lead to the last state of the range whose PC is not
    above the value, and to the first state of the range when there is
    none. *)
Lemma query_floor m : ∀ lo hi t,
  (hi - lo = m)%nat → (lo <= hi)%nat → (hi < length sorted)%nat →
  buildBSTNode (fun i s => Some (DLeaf i s)) (nodeOpt DNode) None sorted lo hi = Some t →
  ∀ c, ∃ k s n, query t c = (k, s, n) ∧ (lo <= k <= hi)%nat ∧ sorted !! k = Some s ∧
    ((lo < k)%nat → pc s <= c) ∧
    (∀ j s', (k < j <= hi)%nat → sorted !! j = Some s' → c < pc s').
Proof.
  induction m as [m IH] using lt_wf_ind. intros lo hi t Hm Hle Hlen H c.
  rewrite buildBSTNode_step in H. unfold leafAt, pivotAt in H.
  destruct (decide (lo = hi)) as [->|Hne].
  { destruct (sorted !! hi) as [a|] eqn:Ea; [|done]. inversion H; subst.
    exists hi, a, 0%nat. simpl. repeat split; try done; lia. }
  destruct (decide (lo + 1 = hi)%nat) as [<-|Hne2].
  { destruct (sorted !! (lo + 1)%nat) as [b|] eqn:Eb; [|done].
    destruct (sorted !! lo) as [a|] eqn:Ea; [|done].
    simpl in H. inversion H; subst. simpl.
    destruct (c <? pc b) eqn:Hc.
    - apply Z.ltb_lt in Hc. exists lo, a, 1%nat. repeat split; try done; try lia.
      intros j s' Hj Hs'. assert (j = (lo + 1)%nat) as -> by lia.
      rewrite Eb in Hs'. by inversion Hs'; subst.
    - apply Z.ltb_ge in Hc. exists (lo + 1)%nat, b, 1%nat.
      repeat split; try done; try lia. }
  destruct (decide (hi < lo)%nat) as [Hbad|Hge]; [done|]. cbv zeta in H.
  set (mid := ((lo + hi) / 2)%nat) in *.
  assert (Hmid : (lo <= mid ∧ mid + 1 <= hi)%nat).
  { pose proof (Nat.div_mod_eq (lo + hi) 2) as Hd.
    pose proof (Nat.mod_upper_bound (lo + hi) 2 ltac:(lia)) as Hu.
    fold mid in Hd. lia. }
  destruct (sorted !! (mid + 1)%nat) as [b|] eqn:Eb; [|done].
  destruct (buildBSTNode _ _ _ sorted lo mid) as [tl|] eqn:El; [|done].
  destruct (buildBSTNode _ _ _ sorted (mid + 1) hi) as [tr|] eqn:Er; [|done].
  simpl in H. inversion H; subst. simpl.
  destruct (c <? pc b) eqn:Hc.
  - apply Z.ltb_lt in Hc.
    destruct (IH (mid - lo)%nat ltac:(lia) lo mid tl eq_refl ltac:(lia) ltac:(lia) El c)
      as (k & s & n & Hq & Hk & Hs & Hlow & Hup).
    rewrite Hq. exists k, s, (S n). repeat split; try done; try lia.
    intros j s' Hj Hs'. destruct (decide (j <= mid)%nat) as [Hjm|Hjm].
    + apply (Hup j s'); [lia|done].
    + destruct (decide (j = mid + 1)%nat) as [->|Hj'].
      * rewrite Eb in Hs'. by inversion Hs'; subst.
      * pose proof (ascending (mid + 1)%nat j b s' Eb Hs' ltac:(lia)). lia.
  - apply Z.ltb_ge in Hc.
    destruct (IH (hi - (mid + 1))%nat ltac:(lia) (mid + 1)%nat hi tr eq_refl
                ltac:(lia) Hlen Er c)
      as (k & s & n & Hq & Hk & Hs & Hlow & Hup).
    rewrite Hq. exists k, s, (S n). repeat split; try done; try lia.
    intros _. destruct (decide (k = mid + 1)%nat) as [->|Hk'].
    + rewrite Eb in Hs. inversion Hs; subst. done.
    + apply Hlow. lia.
Qed.

End DispatchFloor.

(** X12. The dispatch code has no default case.  For whatever number the
    cached PC variable holds, the dispatch code of a non-empty set of
    states with distinct PCs runs the body of exactly one state of the
    set: the state with the greatest PC that is not above the value, and
    the state with the least PC when every PC is above it.  A value that
    is no state's PC therefore runs the body of a neighbouring state. *)
Theorem X12_dispatch_without_default ctx config yr oracle sts :
  sts ≠ [] → NoDup (pc <$> sts) →
  ∃ bst, buildDispatch ctx config yr oracle sts = Some bst ∧
    ∀ c, ∃ i s, s ∈ sts ∧
      (∀ userExpr userStmt args fuel rt,
         getVar rt (cachedPcVarId ctx) = VNum c →
         exec userExpr userStmt args fuel bst rt =
         exec userExpr userStmt args fuel (buildStateBody ctx config yr (oracle i) s) rt) ∧
      (∀ s', s' ∈ sts → pc s' <= c → pc s' <= pc s ∧ pc s <= c) ∧
      ((∀ s', s' ∈ sts → c < pc s') → ∀ s', s' ∈ sts → pc s <= pc s').
Proof.
  intros Hne Hnd.
  assert (Hlen : length (sortByPc sts) = length sts)
    by (apply Permutation_length, sortByPc_Permutation).
  assert (Hpos : (0 < length sts)%nat) by (destruct sts; [done|simpl; lia]).
  pose proof (fun i j a b => sortByPc_ascending sts i j a b Hnd) as Hasc.
  destruct (buildBSTNode_spec (sortByPc sts) Hasc
              (length (sortByPc sts) - 1 - 0)%nat 0%nat (length (sortByPc sts) - 1)%nat
              eq_refl ltac:(lia) ltac:(lia))
    as (t & Ht & _).
  exists (emit ctx config yr oracle t). split.
  { unfold buildDispatch. erewrite buildBSTNode_emit by reflexivity. by rewrite Ht. }
  intros c.
  destruct (query_floor (sortByPc sts) Hasc (length (sortByPc sts) - 1 - 0)%nat 0%nat
              (length (sortByPc sts) - 1)%nat t eq_refl ltac:(lia) ltac:(lia) Ht c)
    as (k & s & n & Hq & Hk & Hs & Hlow & Hup).
  assert (Hidx : ∀ s', s' ∈ sts → ∃ j, sortByPc sts !! j = Some s' ∧
                   (j <= length (sortByPc sts) - 1)%nat).
  { intros s' Hs'. rewrite <-sortByPc_Permutation in Hs'.
    apply list_elem_of_lookup in Hs' as [j Hj]. exists j. split; [done|].
    apply lookup_lt_Some in Hj. lia. }
  assert (Hmono : ∀ j s', (j <= k)%nat → sortByPc sts !! j = Some s' → pc s' <= pc s).
  { intros j s' Hj Hs'. destruct (decide (j = k)) as [->|Hjk].
    - rewrite Hs in Hs'. inversion Hs'; lia.
    - pose proof (Hasc j k s' s Hs' Hs ltac:(lia)). lia. }
  exists k, s. split; [|split; [|split]].
  - rewrite <-(sortByPc_Permutation sts). by eapply list_elem_of_lookup_2.
  - intros userExpr userStmt args fuel rt Hv. by eapply exec_emit.
  - intros s' Hs' Hc. destruct (Hidx s' Hs') as (j & Hj & Hjl).
    destruct (decide (j <= k)%nat) as [Hjk|Hjk].
    + split; [by eapply Hmono|].
      destruct (decide (0 < k)%nat) as [Hk0|Hk0]; [by apply Hlow|].
      assert (j = k) as -> by lia. rewrite Hs in Hj. inversion Hj; subst. done.
    + pose proof (Hup j s' ltac:(lia) Hj). lia.
  - intros Hall s' Hs'. destruct (Hidx s' Hs') as (j & Hj & Hjl).
    destruct (decide (j <= k)%nat) as [Hjk|Hjk].
    + destruct (decide (0 < k)%nat) as [Hk0|Hk0].
      * pose proof (Hlow Hk0).
        assert (Hin : s ∈ sts).
        { rewrite <-(sortByPc_Permutation sts). by eapply list_elem_of_lookup_2. }
        pose proof (Hall s Hin). lia.
      * assert (j = k) as -> by lia. rewrite Hs in Hj. inversion Hj; subst. done.
    + pose proof (Hasc k j s s' Hs Hj ltac:(lia)). lia.
Qed.

Lemma X12_witness :
  ∃ bst,
    buildDispatch exCtx exConfig ∅ (fun _ : nat => exRand)
      [plainState 9 [] 0 false; plainState 5 [] 9 false] = Some bst ∧
    ∀ c, ∃ i s, s ∈ [plainState 9 [] 0 false; plainState 5 [] 9 false] ∧
      (∀ userExpr userStmt args fuel rt,
         getVar rt (cachedPcVarId exCtx) = VNum c →
         exec userExpr userStmt args fuel bst rt =
         exec userExpr userStmt args fuel
              (buildStateBody exCtx exConfig ∅ ((fun _ : nat => exRand) i) s) rt) ∧
      (∀ s', s' ∈ [plainState 9 [] 0 false; plainState 5 [] 9 false] →
             pc s' <= c → pc s' <= pc s ∧ pc s <= c) ∧
      ((∀ s', s' ∈ [plainState 9 [] 0 false; plainState 5 [] 9 false] → c < pc s') →
       ∀ s', s' ∈ [plainState 9 [] 0 false; plainState 5 [] 9 false] → pc s <= pc s').
Proof.
  apply (X12_dispatch_without_default exCtx exConfig ∅ (fun _ : nat => exRand)
           [plainState 9 [] 0 false; plainState 5 [] 9 false]).
  - discriminate.
  - simpl. repeat constructor; set_solver.
Defined.

(** ** The orders [shuffle] can return *)

Lemma swapAt_length {A} (a : list A) i j : length (swapAt a i j) = length a.
Proof.
  unfold swapAt. destruct (a !! i); [|done]. destruct (a !! j); [|done].
  by rewrite !length_insert.
Qed.

Lemma swapAt_lookup_i {A} (a : list A) i j y :
  (i < length a)%nat → a !! j = Some y → swapAt a i j !! i = Some y.
Proof.
  intros Hi Hj. unfold swapAt.
  destruct (lookup_lt_is_Some_2 a i Hi) as [x Hx]. rewrite Hx, Hj.
  apply list_lookup_insert_eq. by rewrite length_insert.
Qed.

Lemma swapAt_take {A} (a : list A) i j n :
  (i < n)%nat → (j < n)%nat → take n (swapAt a i j) = swapAt (take n a) i j.
Proof.
  intros Hi Hj. unfold swapAt. rewrite !lookup_take_lt by done.
  destruct (a !! i); [|done]. destruct (a !! j); [|done].
  by rewrite !take_insert_lt.
Qed.

Lemma swapAt_drop {A} (a : list A) i j n :
  (i < n)%nat → (j < n)%nat → drop n (swapAt a i j) = drop n a.
Proof.
  intros Hi Hj. unfold swapAt.
  destruct (a !! i); [|done]. destruct (a !! j); [|done].
  by rewrite !drop_insert_lt.
Qed.

(** [shuffle] consults the random source once for each index it visits. *)
Lemma shuffleFrom_ext {A} pick pick' i : ∀ a : list A,
  (∀ k, (1 <= k <= i)%nat → pick k = pick' k) →
  shuffleFrom pick i a = shuffleFrom pick' i a.
Proof.
  induction i as [|i IH]; intros a H; simpl; [done|].
  rewrite (H (S i)) by lia. apply IH. intros k Hk. apply H. lia.
Qed.

Lemma shuffleFrom_reaches {A} i : ∀ a target : list A,
  (i < length a)%nat → length target = length a →
  drop (S i) a = drop (S i) target →
  take (S i) a ≡ₚ take (S i) target →
  ∃ pick, shuffleFrom pick i a = target.
Proof.
  induction i as [|i IH]; intros a target Hi Hlen Hd Ht.
  - exists (fun _ => 0%nat). simpl.
    destruct a as [|x a]; [simpl in Hi; lia|].
    destruct target as [|y target]; [done|].
    simpl in Hd, Ht. rewrite !take_0 in Ht. rewrite !drop_0 in Hd.
    apply Permutation_singleton_l in Ht. inversion Ht; subst. done.
  - destruct (lookup_lt_is_Some_2 target (S i) ltac:(lia)) as [y Hy].
    assert (Hin : y ∈ take (S (S i)) a).
    { rewrite Ht. apply list_elem_of_lookup. exists (S i).
      rewrite lookup_take_lt by lia. done. }
    apply list_elem_of_lookup in Hin as [j Hj].
    assert (Hjlt : (j < S (S i))%nat).
    { apply lookup_lt_Some in Hj. rewrite length_take in Hj. lia. }
    rewrite lookup_take_lt in Hj by done.
    set (a1 := swapAt a (S i) j).
    assert (Hy1 : a1 !! S i = Some y) by (by apply swapAt_lookup_i).
    assert (Hd1 : drop (S (S i)) a1 = drop (S (S i)) target).
    { unfold a1. rewrite swapAt_drop by lia. done. }
    destruct (IH a1 target) as [pick' Hp].
    + unfold a1. rewrite swapAt_length. lia.
    + unfold a1. by rewrite swapAt_length.
    + rewrite (drop_S a1 y (S i)) by done. rewrite (drop_S target y (S i)) by done.
      by rewrite Hd1.
    + apply (Permutation_app_inv_r [y]).
      rewrite <-(take_S_r a1 (S i) y) by done.
      rewrite <-(take_S_r target (S i) y) by done.
      rewrite <-Ht. unfold a1. rewrite swapAt_take by lia. apply swapAt_Permutation.
    + exists (fun k => if decide (k = S i) then j else pick' k). cbn [shuffleFrom].
      rewrite decide_True by done.
      replace (j mod (S i + 1))%nat with j by (symmetry; apply Nat.mod_small; lia).
      fold a1. rewrite <-Hp. apply shuffleFrom_ext.
      intros k Hk. rewrite decide_False by lia. done.
Qed.

(** X13. The orders [shuffle] can return are exactly the permutations of
    its argument: whatever the random source gives, the result is a
    permutation of the argument, and for every permutation of the argument
    there is a run of the random source for which [shuffle] returns it. *)
Theorem X13_shuffle_returns_exactly_the_permutations {A} (arr l : list A) :
  (∃ pick, shuffle pick arr = l) ↔ l ≡ₚ arr.
Proof.
  split.
  - intros [pick <-]. apply shuffle_Permutation.
  - intros Hp. unfold shuffle.
    destruct arr as [|x arr].
    { apply Permutation_nil_r in Hp. subst. by exists (fun _ => 0%nat). }
    pose proof (Permutation_length Hp) as Hlen.
    apply shuffleFrom_reaches.
    + simpl. lia.
    + done.
    + rewrite !drop_ge; [done|lia|simpl; lia].
    + rewrite !take_ge; [done|lia|simpl; lia].
Qed.

Lemma X13_witness : ∃ pick, shuffle pick [1; 2; 3] = [3; 1; 2].
Proof.
  apply (proj2 (X13_shuffle_returns_exactly_the_permutations [1; 2; 3] [3; 1; 2])).
  change [3; 1; 2] with ([3] ++ [1; 2]). change [1; 2; 3] with ([1; 2] ++ [3]).
  apply Permutation_app_comm.
Defined.

(** ** No cycle of transitions within a tick *)

Lemma shouldYield_false yr t :
  shouldYield yr t = false ↔ yr !! t = None ∧ t ≠ EXIT_PC.
Proof.
  unfold shouldYield, resolvePc. rewrite orb_false_iff, !bool_decide_eq_false. split.
  - intros [H1 H2]. destruct (yr !! t) eqn:E; [exfalso; apply H1; eauto|]. done.
  - intros [H1 H2]. rewrite H1. split; [by intros [? ?]|done].
Qed.

Lemma shouldYield_insert (yr : gmap Z Z) k v t :
  shouldYield (<[k:=v]> yr) t = false → t ≠ k ∧ shouldYield yr t = false.
Proof.
  rewrite !shouldYield_false. intros [H1 H2].
  destruct (decide (t = k)) as [->|Hne]; [by rewrite lookup_insert_eq in H1|].
  rewrite lookup_insert_ne in H1 by done. done.
Qed.

Lemma G_weaken (W W' N N' E E' : gset Z) rank st :
  G W' N' E' rank st → W' ≡ W → N ⊆ N' → E ⊆ E' → G W N E rank st.
Proof.
  intros (HR & HE & (HU1 & HU2 & HU3) & HD) HW HN HEs.
  apply leibniz_equiv in HW. subst W'.
  split; [done|]. split; [|split].
  - intros e He. apply HE. set_solver.
  - split; [done|]. split; [done|set_solver].
  - intros p Hp. apply HD. set_solver.
Qed.

Lemma G_track (W N E : gset Z) rank st e :
  G W N E rank st → goodT W st e → G W N ({[e]} ∪ E) rank st.
Proof.
  intros (HR & HE & HU & HD) He. split; [done|]. split; [|done].
  intros x Hx. apply elem_of_union in Hx as [Hx|Hx]; [|by apply HE].
  apply elem_of_singleton in Hx as ->. done.
Qed.

Lemma G_owe (W N E : gset Z) rank st p :
  G W N E rank st → p ∈ N → G ({[p]} ∪ W) (N ∖ {[p]}) ({[p]} ∪ E) rank st.
Proof.
  intros (HR & HE & (HU1 & HU2 & HU3) & HD) Hp.
  split; [|split; [|split]].
  - intros s t Hs Ht Hy. destruct (HR s t Hs Ht Hy) as [H1 H2].
    split; [done|]. destruct H2; [by left|right; set_solver].
  - intros e He Hy. apply elem_of_union in He as [He|He]; [right; set_solver|].
    destruct (HE e He Hy); [by left|right; set_solver].
  - split; [done|]. split; set_solver.
  - intros q Hq. destruct (HD q ltac:(set_solver)). split; [done|set_solver].
Qed.

Lemma allocPc_G (W N E : gset Z) rank st p st' :
  G W N E rank st → allocPc st = Some (p, st') →
  G W ({[p]} ∪ N) E rank st' ∧ (p ∉ W) ∧ (p ∉ N).
Proof.
  intros (HR & HE & (HU1 & HU2 & HU3) & HD) Ha.
  apply allocPc_spec in Ha as (Hp0 & Hpu & Hu & Hs & Hy & _).
  assert (Hsp : statePcs st' = statePcs st) by (unfold statePcs; by rewrite Hs).
  split; [|set_solver].
  unfold G, goodT. rewrite Hsp, Hy, Hs, Hu.
  split; [done|]. split; [done|]. split.
  - split; [|split]; [|set_solver..]. intros q Hq. apply HU1 in Hq. set_solver.
  - intros q Hq. apply elem_of_union in Hq as [Hq|Hq]; [|by apply HD].
    apply elem_of_singleton in Hq as ->. split; [|set_solver].
    intros Hc. by apply Hpu, HU1.
Qed.

Lemma setRedirect_G (W N E : gset Z) rank st k v u st' :
  G W N E rank st → setRedirect k v st = Some (u, st') →
  G (W ∖ {[k]}) N ({[k]} ∪ E) rank st'.
Proof.
  intros (HR & HE & (HU1 & HU2 & HU3) & HD) H. inversion H; subst; clear H.
  unfold G, goodT, statePcs in *; simpl.
  split; [|split; [|split]].
  - intros s t Hs Ht Hy. apply shouldYield_insert in Hy as [Hne Hy].
    destruct (HR s t Hs Ht Hy) as [H1 H2]. split; [done|].
    destruct H2; [by left|right; set_solver].
  - intros e He Hy. apply shouldYield_insert in Hy as [Hne Hy].
    apply elem_of_union in He as [He|He]; [set_solver|].
    destruct (HE e He Hy); [by left|right; set_solver].
  - split; [done|]. split; set_solver.
  - intros p Hp. destruct (HD p Hp). split; [done|set_solver].
Qed.

Lemma quiet_G {A} (m : M A) (W N E : gset Z) rank st a st' :
  neutral m → still m → G W N E rank st → m st = Some (a, st') → G W N E rank st'.
Proof.
  intros Hn Hs HG H. destruct (Hn _ _ _ H) as [E1 E2]. destruct (Hs _ _ _ H) as [E3 _].
  unfold G, goodT, statePcs in *. by rewrite E1, E2, E3.
Qed.

(** A new state takes a rank above the ranks of its targets. *)
Lemma pushState_G (W N E : gset Z) rank st s u st' :
  G W N E rank st → pc s ∈ N → Forall (fun t => t ∈ E) (targetsOf s) →
  pushState s st = Some (u, st') →
  ∃ rank', G W (N ∖ {[pc s]}) ({[pc s]} ∪ E) rank' st'.
Proof.
  intros (HR & HE & (HU1 & HU2 & HU3) & HD) Hp Ht H. inversion H; subst; clear H.
  destruct (HD _ Hp) as [Hns HnW].
  set (m := max_list (rank <$> targetsOf s)).
  exists (fun q => if decide (q = pc s) then S m else rank q).
  unfold G, goodT, statePcs in *; simpl. rewrite fmap_app. simpl.
  split; [|split; [|split]].
  - intros s0 t Hs0 Ht0 Hy. apply elem_of_app in Hs0 as [Hs0|Hs0].
    + destruct (HR s0 t Hs0 Ht0 Hy) as [H1 H2].
      assert (t ≠ pc s) by (intros ->; destruct H2; done).
      assert (pc s0 ≠ pc s).
      { intros Heq. apply Hns. rewrite <-Heq. apply list_elem_of_fmap. by exists s0. }
      rewrite !decide_False by done. split; [done|].
      destruct H2; [left; apply elem_of_app; by left|by right].
    + apply list_elem_of_singleton in Hs0 as ->.
      eapply Forall_forall in Ht; [|exact Ht0].
      destruct (HE t Ht Hy) as [H2|H2].
      * assert (t ≠ pc s) by (by intros ->).
        rewrite decide_False by done. rewrite decide_True by done. split.
        -- apply Nat.lt_succ_r. apply max_list_elem_of_le.
           apply list_elem_of_fmap. by exists t.
        -- left. apply elem_of_app. by left.
      * assert (t ≠ pc s) by (by intros ->).
        rewrite decide_False by done. rewrite decide_True by done. split.
        -- apply Nat.lt_succ_r. apply max_list_elem_of_le.
           apply list_elem_of_fmap. by exists t.
        -- by right.
  - intros e He Hy. apply elem_of_union in He as [He|He].
    + apply elem_of_singleton in He as ->. left. apply elem_of_app. right.
      apply list_elem_of_here.
    + destruct (HE e He Hy); [left; apply elem_of_app; by left|by right].
  - split; [|split; [done|set_solver]].
    intros q Hq. apply elem_of_app in Hq as [Hq|Hq]; [by apply HU1|].
    apply list_elem_of_singleton in Hq as ->. set_solver.
  - intros q Hq. destruct (HD q ltac:(set_solver)) as [H1 H2]. split; [|done].
    intros Hc. apply elem_of_app in Hc as [Hc|Hc]; [done|].
    apply list_elem_of_singleton in Hc. set_solver.
Qed.

(** The init state and the check state of a counted loop: the init state
    names the check state before the check state exists. *)
Lemma pushState2_G (W N E : gset Z) rank st s1 s2 u1 st1 u2 st2 :
  G W N E rank st → pc s1 ∈ N → pc s2 ∈ N → pc s1 ≠ pc s2 →
  targetsOf s1 = [pc s2] → Forall (fun t => t ∈ E) (targetsOf s2) →
  pushState s1 st = Some (u1, st1) → pushState s2 st1 = Some (u2, st2) →
  ∃ rank', G W (N ∖ {[pc s1]} ∖ {[pc s2]}) ({[pc s1]} ∪ E) rank' st2.
Proof.
  intros (HR & HE & (HU1 & HU2 & HU3) & HD) Hp1 Hp2 Hne Ht1 Ht2 H1 H2.
  inversion H1; subst; clear H1. inversion H2; subst; clear H2.
  destruct (HD _ Hp1) as [Hns1 HnW1]. destruct (HD _ Hp2) as [Hns2 HnW2].
  set (m := max_list (rank <$> targetsOf s2)).
  exists (fun q => if decide (q = pc s2) then S m
                   else if decide (q = pc s1) then S (S m) else rank q).
  unfold G, goodT, statePcs in *; simpl. rewrite !fmap_app. simpl.
  assert (Hold : ∀ q, q ∈ pc <$> states st → q ∈ ((pc <$> states st) ++ [pc s1]) ++ [pc s2]).
  { intros q Hq. apply elem_of_app. left. apply elem_of_app. by left. }
  assert (Hout : ∀ t, t ∈ pc <$> states st ∨ t ∈ W → t ≠ pc s1 ∧ t ≠ pc s2).
  { intros t [H|H]; split; by intros ->. }
  split; [|split; [|split]].
  - intros s0 t Hs0 Ht0 Hy. apply elem_of_app in Hs0 as [Hs0|Hs0];
      [apply elem_of_app in Hs0 as [Hs0|Hs0]|].
    + destruct (HR s0 t Hs0 Ht0 Hy) as [H1 H2].
      destruct (Hout t H2) as [Ha Hb].
      assert (Hs0' : pc s0 ∈ pc <$> states st) by (apply list_elem_of_fmap; by exists s0).
      destruct (Hout (pc s0) (or_introl Hs0')) as [Hc Hd].
      rewrite !decide_False by done. split; [done|].
      destruct H2; [left; by apply Hold|by right].
    + apply list_elem_of_singleton in Hs0 as ->. rewrite Ht1 in Ht0.
      apply list_elem_of_singleton in Ht0 as ->.
      rewrite decide_True by done. rewrite decide_False by done.
      rewrite decide_True by done. split; [lia|].
      left. apply elem_of_app. right. apply list_elem_of_here.
    + apply list_elem_of_singleton in Hs0 as ->.
      eapply Forall_forall in Ht2; [|exact Ht0].
      pose proof (HE t Ht2 Hy) as H2. destruct (Hout t H2) as [Ha Hb].
      rewrite !decide_False by done. rewrite decide_True by done. split.
      * apply Nat.lt_succ_r. apply max_list_elem_of_le.
        apply list_elem_of_fmap. by exists t.
      * destruct H2; [left; by apply Hold|by right].
  - intros e He Hy. apply elem_of_union in He as [He|He].
    + apply elem_of_singleton in He as ->. left. apply elem_of_app. left.
      apply elem_of_app. right. apply list_elem_of_here.
    + destruct (HE e He Hy); [left; by apply Hold|by right].
  - split; [|split; [done|set_solver]].
    intros q Hq. apply elem_of_app in Hq as [Hq|Hq];
      [apply elem_of_app in Hq as [Hq|Hq]|].
    + by apply HU1.
    + apply list_elem_of_singleton in Hq as ->. set_solver.
    + apply list_elem_of_singleton in Hq as ->. set_solver.
  - intros q Hq. destruct (HD q ltac:(set_solver)) as [H1 H2]. split; [|done].
    intros Hc. apply elem_of_app in Hc as [Hc|Hc];
      [apply elem_of_app in Hc as [Hc|Hc]|].
    + done.
    + apply list_elem_of_singleton in Hc. set_solver.
    + apply list_elem_of_singleton in Hc. set_solver.
Qed.

(** The state of an empty forever loop names itself, and the redirect set
    right after it turns that transition into a yield. *)
Lemma pushSelf_G (W N E : gset Z) rank st s u1 st1 v u2 st2 :
  G W N E rank st → pc s ∈ N → targetsOf s = [pc s] →
  pushState s st = Some (u1, st1) → setRedirect (pc s) v st1 = Some (u2, st2) →
  G W (N ∖ {[pc s]}) ({[pc s]} ∪ E) rank st2.
Proof.
  intros (HR & HE & (HU1 & HU2 & HU3) & HD) Hp Ht H1 H2.
  inversion H1; subst; clear H1. inversion H2; subst; clear H2.
  destruct (HD _ Hp) as [Hns HnW].
  unfold G, goodT, statePcs in *; simpl. rewrite fmap_app. simpl.
  split; [|split; [|split]].
  - intros s0 t Hs0 Ht0 Hy. apply shouldYield_insert in Hy as [Hne Hy].
    apply elem_of_app in Hs0 as [Hs0|Hs0].
    + destruct (HR s0 t Hs0 Ht0 Hy) as [H1 H2]. split; [done|].
      destruct H2; [left; apply elem_of_app; by left|by right].
    + apply list_elem_of_singleton in Hs0 as ->. rewrite Ht in Ht0.
      apply list_elem_of_singleton in Ht0. done.
  - intros e He Hy. apply shouldYield_insert in Hy as [Hne Hy].
    apply elem_of_union in He as [He|He]; [set_solver|].
    destruct (HE e He Hy); [left; apply elem_of_app; by left|by right].
  - split; [|split; [done|set_solver]].
    intros q Hq. apply elem_of_app in Hq as [Hq|Hq]; [by apply HU1|].
    apply list_elem_of_singleton in Hq as ->. set_solver.
  - intros q Hq. destruct (HD q ltac:(set_solver)) as [H1 H2]. split; [|done].
    intros Hc. apply elem_of_app in Hc as [Hc|Hc]; [done|].
    apply list_elem_of_singleton in Hc. set_solver.
Qed.

Lemma ranks_substackChain rec o c (W N E : gset Z) rank st e st' :
  ranks rec → c ∈ E → G W N E rank st →
  substackChain rec o c st = Some (e, st') →
  ∃ rank', G W N E rank' st' ∧ goodT W st' e.
Proof.
  intros Hrec Hc HG H. destruct o as [first|]; simpl in H.
  - apply bind_inv in H as (bs & st1 & E1 & H). inversion E1; subst.
    by eapply Hrec.
  - inversion H; subst. exists rank. split; [done|].
    destruct HG as (_ & HE & _). by apply HE.
Qed.

#[local] Hint Resolve neutral_modifyBlocks neutral_setRedirect neutral_getBlocks
  neutral_uid neutral_ret neutral_clearParent neutral_numberLiteral
  neutral_textLiteral : neutral.
#[local] Hint Resolve still_modifyBlocks still_getBlocks still_uid still_ret
  still_clearParent still_numberLiteral still_textLiteral : stillness.

Lemma targets_branch (E : gset Z) p n br :
  truePc br ∈ E → falsePc br ∈ E → Forall (fun t => t ∈ E) (targetsOf (branchState p n br)).
Proof.
  intros H1 H2. unfold targetsOf, branchState; cbn [branch]. case_decide.
  - by apply List.Forall_cons.
  - apply List.Forall_cons; [done|]. by apply List.Forall_cons.
Qed.

Lemma targets_plain (E : gset Z) p body n dead :
  n ∈ E → Forall (fun t => t ∈ E) (targetsOf (plainState p body n dead)).
Proof. intros H. by apply List.Forall_cons. Qed.

Lemma targets_terminal (E : gset Z) p body :
  Forall (fun t => t ∈ E) (targetsOf (terminalState p body)).
Proof. apply List.Forall_nil. Qed.

Lemma targets_waitStart (E : gset Z) p n w :
  Forall (fun t => t ∈ E) (targetsOf (waitStartState p n w)).
Proof. apply List.Forall_nil. Qed.

Lemma targets_broadcastWaitStart (E : gset Z) p n w :
  Forall (fun t => t ∈ E) (targetsOf (broadcastWaitStartState p n w)).
Proof. apply List.Forall_nil. Qed.

Lemma targets_waitPoll (E : gset Z) p n w :
  continuationPc w ∈ E → Forall (fun t => t ∈ E) (targetsOf (waitPollState p n w)).
Proof. intros H. by apply List.Forall_cons. Qed.

Lemma targets_repeatInit (E : gset Z) p n r :
  n ∈ E → Forall (fun t => t ∈ E) (targetsOf (repeatInitState p n r)).
Proof. intros H. by apply List.Forall_cons. Qed.

Lemma targets_repeatCheck (E : gset Z) p n r :
  rc_bodyPc r ∈ E → rc_exitPc r ∈ E →
  Forall (fun t => t ∈ E) (targetsOf (repeatCheckState p n r)).
Proof. intros H1 H2. apply List.Forall_cons; [done|]. by apply List.Forall_cons. Qed.

Lemma targets_forEachInit (E : gset Z) p n f :
  n ∈ E → Forall (fun t => t ∈ E) (targetsOf (forEachInitState p n f)).
Proof. intros H. by apply List.Forall_cons. Qed.

Lemma targets_forEachCheck (E : gset Z) p n f :
  fc_bodyPc f ∈ E → fc_exitPc f ∈ E →
  Forall (fun t => t ∈ E) (targetsOf (forEachCheckState p n f)).
Proof. intros H1 H2. apply List.Forall_cons; [done|]. by apply List.Forall_cons. Qed.

(** Membership in a union of singletons and a base set, by search. *)
Ltac inE :=
  first
    [ assumption
    | apply elem_of_singleton_2; reflexivity
    | apply elem_of_union_l; inE
    | apply elem_of_union_r; inE ].

Ltac solve_targets :=
  first
    [ apply targets_branch | apply targets_plain | apply targets_terminal
    | apply targets_waitStart | apply targets_broadcastWaitStart
    | apply targets_waitPoll | apply targets_repeatInit | apply targets_repeatCheck
    | apply targets_forEachInit | apply targets_forEachCheck ];
  cbn [truePc falsePc continuationPc rc_bodyPc rc_exitPc fc_bodyPc fc_exitPc];
  inE.

Ltac rstep Hrec H HG :=
  lazymatch type of HG with
  | G ?W0 ?N0 ?E0 ?r0 _ =>
  lazymatch type of H with
  | bind allocPc _ _ = _ =>
      let p := fresh "p" in let st1 := fresh "st" in let E := fresh "E" in
      let HG' := fresh "HG" in let Hf := fresh "Hfresh" in
      apply bind_inv in H as (p & st1 & E & H); cbv beta in H;
      destruct (allocPc_G _ _ _ _ _ _ _ HG E) as [HG' Hf];
      clear HG E; rename HG' into HG
  | bind (pushState ?s) _ _ = _ =>
      let u := fresh "u" in let st1 := fresh "st" in let E := fresh "E" in
      let HG' := fresh "HG" in let r' := fresh "rank" in
      apply bind_inv in H as (u & st1 & E & H); cbv beta in H;
      first
        [ destruct (pushState_G W0 N0 E0 r0 _ s _ _ HG ltac:(simpl; set_solver)
                      ltac:(solve_targets) E) as [r' HG'];
          simpl in HG'; clear HG E; rename HG' into HG
        | lazymatch type of H with
          | bind (pushState ?s2) _ _ = _ =>
              let u2 := fresh "u" in let st2 := fresh "st" in let E2 := fresh "E" in
              apply bind_inv in H as (u2 & st2 & E2 & H); cbv beta in H;
              destruct (pushState2_G W0 N0 E0 r0 _ s s2 _ _ _ _ HG
                          ltac:(simpl; set_solver) ltac:(simpl; set_solver)
                          ltac:(simpl; set_solver) ltac:(reflexivity)
                          ltac:(solve_targets) E E2) as [r' HG'];
              simpl in HG'; clear HG E E2; rename HG' into HG
          | bind (setRedirect _ ?v) _ _ = _ =>
              let u2 := fresh "u" in let st2 := fresh "st" in let E2 := fresh "E" in
              apply bind_inv in H as (u2 & st2 & E2 & H); cbv beta in H;
              assert (HG' := pushSelf_G W0 N0 E0 r0 _ s _ _ v _ _ HG
                               ltac:(simpl; set_solver) ltac:(reflexivity) E E2);
              simpl in HG'; clear HG E E2; rename HG' into HG
          end ]
  | bind (setRedirect ?k ?v) _ _ = _ =>
      let u := fresh "u" in let st1 := fresh "st" in let E := fresh "E" in
      let HG' := fresh "HG" in
      apply bind_inv in H as (u & st1 & E & H); cbv beta in H;
      assert (HG' := setRedirect_G W0 N0 E0 r0 _ k v _ _ HG E);
      clear HG E; rename HG' into HG
  | bind (substackChain _ ?o ?c) _ _ = _ =>
      let x := fresh "x" in let st1 := fresh "st" in let E := fresh "E" in
      let HG' := fresh "HG" in let Hent := fresh "Hent" in let r' := fresh "rank" in
      apply bind_inv in H as (x & st1 & E & H); cbv beta in H;
      destruct (ranks_substackChain _ o c W0 N0 E0 r0 _ _ _ Hrec ltac:(inE) HG E)
        as (r' & HG' & Hent);
      apply (fun h => G_track W0 N0 E0 r' _ x h Hent) in HG';
      clear HG E; rename HG' into HG
  | bind _ _ _ = _ =>
      let x := fresh "x" in let st1 := fresh "st" in let E := fresh "E" in
      let HG' := fresh "HG" in let Hent := fresh "Hent" in let r' := fresh "rank" in
      apply bind_inv in H as (x & st1 & E & H); cbv beta in H;
      first
        [ lazymatch type of E with
          | ?m _ = _ =>
              assert (HG' := quiet_G m _ _ _ _ _ _ _
                               ltac:(solve_neutral) ltac:(solve_stillness) HG E)
          end
        | lazymatch type of E with
          | _ ?ids ?c _ = _ =>
              first
                [ destruct (Hrec ids c W0 N0 E0 r0 _ _ _ ltac:(inE) HG E)
                    as (r' & HG' & Hent);
                  apply (fun h => G_track W0 N0 E0 r' _ x h Hent) in HG'
                | apply (fun h => G_owe W0 N0 E0 r0 _ c h ltac:(set_solver)) in HG;
                  destruct (Hrec ids c ({[c]} ∪ W0) (N0 ∖ {[c]}) ({[c]} ∪ E0) r0 _ _ _
                              ltac:(inE) HG E)
                    as (r' & HG' & Hent);
                  apply (fun h => G_track ({[c]} ∪ W0) (N0 ∖ {[c]}) ({[c]} ∪ E0) r' _ x h Hent)
                    in HG' ]
          end ];
      clear HG E; rename HG' into HG
  end
  end.

Ltac rfinish Hrec H HG :=
  lazymatch type of HG with
  | G ?W0 ?N0 ?E0 ?r0 _ =>
  first
    [ injection H as <- <-;
      match goal with
      | |- ∃ r, G ?W ?N ?E r _ ∧ goodT _ _ ?a =>
          let HGw := fresh "HGw" in
          assert (HGw : G W N ({[a]} ∪ E) r0 _)
            by (eapply G_weaken; [exact HG|set_solver..]);
          exists r0; split;
          [ eapply G_weaken; [exact HGw|set_solver..]
          | destruct HGw as (_ & HGw & _); apply HGw; set_solver ]
      end
    | match type of H with
      | substackChain _ ?o ?c _ = _ =>
          let r' := fresh "rank" in let HG' := fresh "HG" in let Hent := fresh "Hent" in
          destruct (ranks_substackChain _ o c W0 N0 E0 r0 _ _ _ Hrec
                      ltac:(inE) HG H) as (r' & HG' & Hent);
          exists r'; split; [eapply G_weaken; [exact HG'|set_solver..]|exact Hent]
      end ]
  end.

Lemma ranks_decomposeControlBlock rec block blockId :
  ranks rec →
  ∀ c W N E rank st e st',
    c ∈ E → G W N E rank st →
    decomposeControlBlock rec block blockId c st = Some (e, st') →
    ∃ rank', G W N E rank' st' ∧ goodT W st' e.
Proof.
  intros Hrec c W N E rank st e st' Hc HG H. unfold decomposeControlBlock in H.
  repeat case_decide.
  all: repeat match goal with
              | Hd : opcode _ ≠ _ |- _ => clear Hd
              | Hd : opcode _ = _ |- _ => clear Hd
              | Hd : opcode _ = _ ∨ _ |- _ => clear Hd
              | Hd : ¬ (opcode _ = _ ∨ _) |- _ => clear Hd
              end.
  all: try (destruct (inputRef block "SUBSTACK") eqn:Hsub; clear Hsub).
  all: repeat rstep Hrec H HG.
  all: rfinish Hrec H HG.
Qed.

Lemma ranks_decomposeSegment rec seg :
  ranks rec →
  ∀ c W N E rank st e st',
    c ∈ E → G W N E rank st →
    decomposeSegment rec seg c st = Some (e, st') →
    ∃ rank', G W N E rank' st' ∧ goodT W st' e.
Proof.
  intros Hrec c W N E rank st e st' Hc HG H. destruct seg as [ids|blockId]; simpl in H.
  - repeat rstep Hrec H HG. rfinish Hrec H HG.
  - apply bind_inv in H as (bs & st1 & E1 & H). inversion E1; subst.
    destruct (getFullBlock (blocks st1) blockId) as [block|]; [|done].
    by eapply ranks_decomposeControlBlock.
Qed.

Lemma ranks_decomposeSegments rec segs :
  ranks rec →
  ∀ c W N E rank st e st',
    c ∈ E → G W N E rank st →
    decomposeSegments rec segs c st = Some (e, st') →
    ∃ rank', G W N E rank' st' ∧ goodT W st' e.
Proof.
  intros Hrec. induction segs as [|seg segs IH]; intros c W N E rank st e st' Hc HG H;
    simpl in H.
  - inversion H; subst. exists rank. split; [done|].
    destruct HG as (_ & HE & _). by apply HE.
  - apply bind_inv in H as (n & st1 & E1 & H). cbv beta in H.
    destruct (IH _ _ _ _ _ _ _ _ Hc HG E1) as (r1 & HG1 & Hn).
    apply (fun h => G_track W N E r1 _ n h Hn) in HG1.
    destruct (ranks_decomposeSegment rec seg Hrec n W N ({[n]} ∪ E) r1 _ _ _
                ltac:(set_solver) HG1 H) as (r2 & HG2 & He).
    exists r2. split; [|done]. eapply G_weaken; [exact HG2|set_solver..].
Qed.

Lemma ranks_decomposeChain fuel : ranks (decomposeChain fuel).
Proof.
  induction fuel as [|fuel IH]; intros ids c W N E rank st e st' Hc HG H.
  - destruct ids; simpl in H; [|done]. inversion H; subst. exists rank. split; [done|].
    destruct HG as (_ & HE & _). by apply HE.
  - destruct ids as [|i ids]; simpl in H.
    { inversion H; subst. exists rank. split; [done|].
      destruct HG as (_ & HE & _). by apply HE. }
    apply bind_inv in H as (bs & st1 & E1 & H). inversion E1; subst.
    by eapply ranks_decomposeSegments.
Qed.

Lemma G_initial bs ds us :
  G ∅ ∅ {[EXIT_PC]} (fun _ => 0%nat) (initialDState bs ds us).
Proof.
  split; [|split; [|split]]; simpl.
  - intros s t Hs. by apply elem_of_nil in Hs.
  - intros e He Hy. apply elem_of_singleton in He as ->.
    apply shouldYield_false in Hy as [_ Hy]. done.
  - split; [|set_solver]. intros p Hp. by apply elem_of_nil in Hp.
  - intros p Hp. set_solver.
Qed.

(** The live states of a decomposed script can be ranked so that every
    transition written without a yield leads to a live state of a lower
    rank. *)
Lemma decomposeToCFG_ranked fuel config deadBody pick bs ds us chainIds cfg :
  decomposeToCFG fuel config deadBody pick bs ds us chainIds = Some cfg →
  ∃ rank : Z → nat,
    ∀ s t, s ∈ cfgStates cfg → isDead s = false → t ∈ targetsOf s →
      shouldYield (cfgRedirects cfg) t = false →
      (rank t < rank (pc s))%nat ∧
      ∃ s', s' ∈ cfgStates cfg ∧ isDead s' = false ∧ pc s' = t.
Proof.
  intros H. unfold decomposeToCFG in H.
  destruct (decomposeBody fuel config deadBody chainIds (initialDState bs ds us))
    as [[entry st]|] eqn:E; [|done].
  inversion H; subst; clear H. simpl.
  unfold decomposeBody in E. apply bind_inv in E as (e & st1 & E1 & E). cbv beta in E.
  apply bind_inv in E as (dead & st2 & E2 & E). cbv beta in E.
  inversion E; subst; clear E. simpl.
  destruct (ranks_decomposeChain fuel chainIds EXIT_PC ∅ ∅ {[EXIT_PC]} _ _ _ _
              ltac:(set_solver) (G_initial bs ds us) E1)
    as (rank & (HR & _) & _).
  assert (HK0 : K (fun _ => True) (fun _ => True) bs (initialDState bs ds us)).
  { apply K_initial; [apply blocksStable_refl|]. apply Forall_forall. done. }
  destruct (decomposeChain_K (fun _ => True) (fun _ => True) (fun _ _ => I) I bs fuel
              chainIds EXIT_PC _ _ _ HK0 I E1)
    as [(_ & _ & Hlive & _) _].
  pose proof (generateDeadStatesFrom_shape _ _ _ _ _ _ E2) as Hshape.
  unfold generateDeadStates in E2.
  apply (generateDeadStatesFrom_domain (fun _ => True) (fun _ => True)
           ltac:(done)) in E2 as (_ & Hy & Hs & _ & _).
  2:{ apply Forall_forall. done. }
  rewrite Hy, Hs. exists rank. intros s t Hin Hl Ht Hyld.
  rewrite shuffle_Permutation in Hin. apply elem_of_app in Hin as [Hin|Hin].
  2:{ destruct (Hshape s Hin) as (p & b & n & ->). done. }
  destruct (HR s t Hin Ht Hyld) as [Hlt [Hst|Hw]]; [|set_solver].
  split; [done|]. unfold statePcs in Hst.
  apply list_elem_of_fmap in Hst as (s' & -> & Hs').
  exists s'. split; [|split; [|done]].
  - rewrite shuffle_Permutation. apply elem_of_app. by left.
  - eapply Forall_forall in Hlive; [|exact Hs']. apply Hlive.
Qed.

(** ** The blocks that keep the step loop going *)

Lemma goOns_SIfElse kg c t e :
  goOns kg [SIfElse c t e] = goOnsFrom kg None t ++ goOnsFrom kg None e.
Proof. unfold goOns. simpl. by rewrite app_nil_r. Qed.

Lemma goOnsFrom_quiet kg (a : list Stmt) : ∀ prev,
  Forall (fun x => isGoOn kg x = false ∧ goOnsOf kg x = []) a →
  goOnsFrom kg prev a = [].
Proof.
  induction a as [|x a IH]; intros prev Ha; [done|].
  apply Forall_cons in Ha as [[H1 H2] Ha]. cbn [goOnsFrom].
  rewrite H1, H2. simpl. by apply IH.
Qed.

Lemma goOnsFrom_rw ctx config yr rnd n p cur prev :
  keepGoingVarId ctx ≠ cachedPcVarId ctx →
  goOnsFrom (keepGoingVarId ctx) prev (resolveAndWritePc ctx config yr rnd n p cur).1
  = if shouldYield yr p then []
    else [Some (writePcToList ctx (pcValue ctx config rnd n cur (resolvePc yr p)))].
Proof.
  intros Hne. unfold resolveAndWritePc. destruct (shouldYield yr p); simpl.
  - rewrite bool_decide_eq_false_2 by done. done.
  - rewrite bool_decide_eq_true_2 by done. done.
Qed.

Lemma goOnsFrom_app_rw ctx config yr rnd n p cur (a : list Stmt) : ∀ prev,
  keepGoingVarId ctx ≠ cachedPcVarId ctx →
  Forall (fun x => isGoOn (keepGoingVarId ctx) x = false ∧
                   goOnsOf (keepGoingVarId ctx) x = []) a →
  goOnsFrom (keepGoingVarId ctx) prev
    (a ++ (resolveAndWritePc ctx config yr rnd n p cur).1)
  = if shouldYield yr p then []
    else [Some (writePcToList ctx (pcValue ctx config rnd n cur (resolvePc yr p)))].
Proof.
  induction a as [|x a IH]; intros prev Hne Ha.
  - by apply goOnsFrom_rw.
  - apply Forall_cons in Ha as [[H1 H2] Ha].
    change ((x :: a) ++ ?r) with (x :: (a ++ r)). cbn [goOnsFrom].
    rewrite H1, H2. simpl. by apply IH.
Qed.

Lemma isGoOn_zero kg v : isGoOn kg (SSetVar v (ENum 0)) = false.
Proof.
  unfold isGoOn. rewrite (bool_decide_eq_false_2 (0 = 1)) by done. apply andb_false_r.
Qed.

Lemma quiet_users kg ids :
  Forall (fun x => isGoOn kg x = false ∧ goOnsOf kg x = []) (map SUser ids).
Proof. induction ids as [|i ids IH]; simpl; [constructor|]. by constructor. Qed.

Lemma quiet_deleteRow kg ctx :
  Forall (fun x => isGoOn kg x = false ∧ goOnsOf kg x = []) (deleteRow ctx).
Proof. unfold deleteRow. destruct (needsWait (lists ctx)); by repeat constructor. Qed.

Lemma quiet_deleteCounterEntry kg ctx id tmp :
  Forall (fun x => isGoOn kg x = false ∧ goOnsOf kg x = []) (deleteCounterEntry ctx id tmp).
Proof. by repeat constructor. Qed.

Lemma goOns_buildStateBody ctx config yr rnd s :
  keepGoingVarId ctx ≠ cachedPcVarId ctx →
  ∀ o, o ∈ goOns (keepGoingVarId ctx) (buildStateBody ctx config yr rnd s) →
    ∃ n t, t ∈ targetsOf s ∧ shouldYield yr t = false ∧
      o = Some (writePcToList ctx (pcValue ctx config rnd n (pc s) (resolvePc yr t))).
Proof.
  intros Hne o Ho. unfold targetsOf.
  assert (Hrw : ∀ n p (a : list Stmt) prev,
            Forall (fun x => isGoOn (keepGoingVarId ctx) x = false ∧
                             goOnsOf (keepGoingVarId ctx) x = []) a →
            o ∈ goOnsFrom (keepGoingVarId ctx) prev
                  (a ++ (resolveAndWritePc ctx config yr rnd n p (pc s)).1) →
            shouldYield yr p = false ∧
            o = Some (writePcToList ctx (pcValue ctx config rnd n (pc s) (resolvePc yr p)))).
  { intros n p a prev Ha Hin. rewrite goOnsFrom_app_rw in Hin by done.
    destruct (shouldYield yr p); [by apply elem_of_nil in Hin|].
    apply list_elem_of_singleton in Hin. done. }
  assert (Hrw0 : ∀ n p prev,
            o ∈ goOnsFrom (keepGoingVarId ctx) prev
                  (resolveAndWritePc ctx config yr rnd n p (pc s)).1 →
            shouldYield yr p = false ∧
            o = Some (writePcToList ctx (pcValue ctx config rnd n (pc s) (resolvePc yr p)))).
  { intros n p prev Hin. apply (Hrw n p [] prev); [constructor|done]. }
  destruct (branch s) as [br|] eqn:H1.
  { unfold buildStateBody in Ho. rewrite H1 in Ho. case_decide; cbn [linkBlocks] in Ho.
    - apply Hrw0 in Ho as [Hy ->]. exists 1%nat, (falsePc br). split; [set_solver|done].
    - rewrite goOns_SIfElse in Ho. apply elem_of_app in Ho as [Ho|Ho].
      + apply Hrw0 in Ho as [Hy ->]. exists 0%nat, (truePc br). split; [set_solver|done].
      + apply Hrw0 in Ho as [Hy ->]. exists 1%nat, (falsePc br). split; [set_solver|done]. }
  destruct (repeatInit s) as [ri|] eqn:H2.
  { unfold buildStateBody in Ho. rewrite H1, H2 in Ho. cbn [linkBlocks take app] in Ho.
    apply (Hrw 0%nat (nextPc s) [_; _]) in Ho as [Hy ->]; [|by repeat constructor].
    exists 0%nat, (nextPc s). split; [set_solver|done]. }
  destruct (repeatCheck s) as [rc|] eqn:H3.
  { unfold buildStateBody in Ho. rewrite H1, H2, H3 in Ho. cbn [linkBlocks] in Ho.
    rewrite goOns_SIfElse in Ho. apply elem_of_app in Ho as [Ho|Ho].
    - apply (Hrw 0%nat (rc_bodyPc rc) [_]) in Ho as [Hy ->]; [|by repeat constructor].
      exists 0%nat, (rc_bodyPc rc). split; [set_solver|done].
    - apply Hrw in Ho as [Hy ->]; [|apply quiet_deleteCounterEntry].
      exists 1%nat, (rc_exitPc rc). split; [set_solver|done]. }
  destruct (forEachInit s) as [fi|] eqn:H4.
  { unfold buildStateBody in Ho. rewrite H1, H2, H3, H4 in Ho.
    cbn [linkBlocks take app] in Ho.
    apply (Hrw 0%nat (nextPc s) [_; _; _; _]) in Ho as [Hy ->]; [|by repeat constructor].
    exists 0%nat, (nextPc s). split; [set_solver|done]. }
  destruct (forEachCheck s) as [fc|] eqn:H5.
  { unfold buildStateBody in Ho. rewrite H1, H2, H3, H4, H5 in Ho. cbn [linkBlocks] in Ho.
    rewrite goOns_SIfElse in Ho. apply elem_of_app in Ho as [Ho|Ho].
    - apply Hrw in Ho as [Hy ->]; [|by repeat constructor].
      exists 0%nat, (fc_bodyPc fc). split; [set_solver|done].
    - rewrite app_assoc in Ho. apply Hrw in Ho as [Hy ->].
      2:{ apply Forall_app. split; apply quiet_deleteCounterEntry. }
      exists 1%nat, (fc_exitPc fc). split; [set_solver|done]. }
  destruct (isTerminal s) eqn:H6.
  { rewrite buildStateBody_terminal in Ho.
    2:{ unfold runsTerminalBody. by rewrite H1, H2, H3, H4, H5. }
    unfold goOns in Ho. rewrite goOnsFrom_quiet in Ho; [by apply elem_of_nil in Ho|].
    apply Forall_app. split; [apply quiet_deleteRow|].
    constructor; [|apply quiet_users]. split; [apply isGoOn_zero|done]. }
  destruct (waitStart s) as [ws|] eqn:H7.
  { unfold buildStateBody in Ho. rewrite H1, H2, H3, H4, H5, H6, H7 in Ho.
    cbn [linkBlocks take app] in Ho.
    unfold goOns in Ho. rewrite goOnsFrom_quiet in Ho; [by apply elem_of_nil in Ho|].
    repeat constructor. simpl. by rewrite bool_decide_eq_false_2. }
  destruct (broadcastWaitStart s) as [bws|] eqn:H8.
  { unfold buildStateBody in Ho. rewrite H1, H2, H3, H4, H5, H6, H7, H8 in Ho.
    cbn [linkBlocks take app] in Ho.
    unfold goOns in Ho. rewrite goOnsFrom_quiet in Ho; [by apply elem_of_nil in Ho|].
    repeat constructor. simpl. by rewrite bool_decide_eq_false_2. }
  destruct (waitPoll s) as [wp|] eqn:H9.
  { unfold buildStateBody in Ho. rewrite H1, H2, H3, H4, H5, H6, H7, H8, H9 in Ho.
    cbn [linkBlocks] in Ho. rewrite goOns_SIfElse in Ho.
    apply elem_of_app in Ho as [Ho|Ho].
    - destruct (shouldYield yr (continuationPc wp)) eqn:Hy; simpl in Ho.
      + rewrite bool_decide_eq_false_2 in Ho by done. by apply elem_of_nil in Ho.
      + rewrite bool_decide_eq_true_2 in Ho by done. simpl in Ho.
        apply list_elem_of_singleton in Ho as ->.
        exists 0%nat, (continuationPc wp). split; [set_solver|done].
    - simpl in Ho. rewrite bool_decide_eq_false_2 in Ho by done.
      by apply elem_of_nil in Ho. }
  rewrite buildStateBody_default in Ho by done. unfold goOns in Ho.
  destruct (shouldYield yr (nextPc s)) eqn:Hy.
  { rewrite goOnsFrom_quiet in Ho; [by apply elem_of_nil in Ho|].
    apply Forall_app. split; [apply quiet_users|].
    repeat constructor. simpl. by rewrite bool_decide_eq_false_2. }
  destruct (isDead s).
  { rewrite goOnsFrom_quiet in Ho; [by apply elem_of_nil in Ho|].
    apply Forall_app. split; [apply quiet_users|].
    constructor; [done|]. constructor; [|constructor]. split; [apply isGoOn_zero|done]. }
  assert (Hshape : map SUser (bodyBlockIds s) ++
            [writePcToList ctx (pcValue ctx config rnd 0 (pc s) (resolvePc yr (nextPc s)));
             SSetVar (keepGoingVarId ctx) (ENum 1)]
          = map SUser (bodyBlockIds s) ++
            (resolveAndWritePc ctx config yr rnd 0 (nextPc s) (pc s)).1).
  { unfold resolveAndWritePc. by rewrite Hy. }
  rewrite Hshape in Ho. apply Hrw in Ho as [_ ->]; [|apply quiet_users].
  exists 0%nat, (nextPc s). split; [set_solver|done].
Qed.

(** X14. No tick runs in a cycle.  The live states of a flattened script
    can be ranked so that, in the body of every live state, each block
    that sets the keep-going variable to 1 stands right after the block
    that stores in the PC list the PC of a live state of a strictly lower
    rank.  The loop of the step procedure goes on to another state only
    when the keep-going variable was set to 1, so the states it runs within
    one call strictly descend in rank: every cycle of the script passes
    through a transition that yields. *)
Theorem X14_no_cycle_within_a_tick
    fuel config deadBody pick bs ds us chainIds cfg ctx :
  decomposeToCFG fuel config deadBody pick bs ds us chainIds = Some cfg →
  keepGoingVarId ctx ≠ cachedPcVarId ctx →
  ∃ rank : Z → nat,
    ∀ s rnd o, s ∈ cfgStates cfg → isDead s = false →
      o ∈ goOns (keepGoingVarId ctx)
            (buildStateBody ctx config (cfgRedirects cfg) rnd s) →
      ∃ n s', o = Some (writePcToList ctx (pcValue ctx config rnd n (pc s) (pc s'))) ∧
        s' ∈ cfgStates cfg ∧ isDead s' = false ∧
        (rank (pc s') < rank (pc s))%nat.
Proof.
  intros Hcfg Hne.
  destruct (decomposeToCFG_ranked _ _ _ _ _ _ _ _ _ Hcfg) as [rank Hrank].
  exists rank. intros s rnd o Hs Hl Ho.
  destruct (goOns_buildStateBody _ _ _ _ _ Hne o Ho) as (n & t & Ht & Hy & ->).
  destruct (Hrank s t Hs Hl Ht Hy) as (Hlt & s' & Hs' & Hl' & <-).
  exists n, s'. split; [|done].
  apply shouldYield_false in Hy as [Hy _]. unfold resolvePc. by rewrite Hy.
Qed.

Lemma X14_witness :
  ∃ cfg,
    decomposeToCFG 5 exConfig (fun _ => []) (fun _ => 0%nat) exStore exDraws [] ["ife"]
      = Some cfg ∧
    ∃ rank : Z → nat,
      ∀ s rnd o, s ∈ cfgStates cfg → isDead s = false →
        o ∈ goOns (keepGoingVarId exCtx)
              (buildStateBody exCtx exConfig (cfgRedirects cfg) rnd s) →
        ∃ n s', o = Some (writePcToList exCtx
                            (pcValue exCtx exConfig rnd n (pc s) (pc s'))) ∧
          s' ∈ cfgStates cfg ∧ isDead s' = false ∧
          (rank (pc s') < rank (pc s))%nat.
Proof.
  eexists. split; [vm_compute; reflexivity|].
  apply (X14_no_cycle_within_a_tick 5 exConfig (fun _ => []) (fun _ => 0%nat)
           exStore exDraws [] ["ife"] _ exCtx).
  - vm_compute. reflexivity.
  - discriminate.
Defined.

(** ** The wait receiver and the green-flag cleanup, as generated *)

Lemma exec_waitReceiverBody_empty
    userExpr userStmt args fuel (l : TargetCFFLists) hwProccode savedTidId rt :
  getList rt (waitQueueId l) = [] →
  exec userExpr userStmt args fuel (waitReceiverBody l hwProccode savedTidId) rt
    = Some rt.
Proof.
  intros Hq. unfold waitReceiverBody.
  rewrite exec_single, execStmt_SIf. unfold evalBool. cbn [eval].
  by rewrite Hq.
Qed.

Lemma exec_waitReceiverBody_token
    userExpr userStmt args fuel (l : TargetCFFLists) hwProccode savedTidId rt tok rest :
  getList rt (waitQueueId l) = tok :: rest →
  exec userExpr userStmt args fuel (waitReceiverBody l hwProccode savedTidId) rt
    = Some (mkRuntime
              (<[savedTidId := tok]> (rtVars rt))
              (<[waitQueueId l := rest]> (rtLists rt))
              (rtTrace rt ++
               (if decide (rest = []) then [] else [EvBroadcast (waitBroadcastId l)]) ++
               [EvCall hwProccode [tok]])).
Proof.
  intros Hq. unfold waitReceiverBody.
  rewrite exec_single, execStmt_SIf. unfold evalBool.
  cbn [eval]. rewrite Hq, order_nums.
  replace (Z.of_nat (length (tok :: rest)) >? 0) with true
    by (symmetry; apply Z.gtb_lt; simpl; lia).
  cbn [exec execStmt eval evalNum]. rewrite Hq. simpl fmap. cbv beta iota.
  rewrite getList_setVar, Hq.
  unfold deleteAt, itemOf. rewrite validIndex_cons_1. simpl delete. simpl lookup. simpl default.
  unfold evalBool. cbn [eval]. rewrite getList_setList_eq, order_nums.
  destruct rest as [|r rest].
  + cbn [length]. change (Z.of_nat 0 >? 0) with false. cbv beta iota.
    rewrite getVar_setList, getVar_setVar_eq.
    rewrite decide_True by done. done.
  + replace (Z.of_nat (length (r :: rest)) >? 0) with true
      by (symmetry; apply Z.gtb_lt; simpl; lia).
    cbv beta iota. rewrite getVar_emitEvent, getVar_setList, getVar_setVar_eq.
    rewrite decide_False by done. unfold emitEvent, setList, setVar; simpl.
    by rewrite <-app_assoc.
Qed.

(** C7. [buildWaitHandler] generates the [handleWait] procedure and a
    script whose hat receives the wait broadcast of the target.  One
    activation of that script: on an empty queue nothing changes;
    otherwise the first token is saved and removed from the queue, the
    wait signal is broadcast again exactly when tokens remain, and the
    generated [handleWait] procedure is then called with the removed
    token as its only argument. *)
Theorem C7_wait_receiver_activation
    userExpr userStmt args fuel (l : TargetCFFLists)
    hwArgName hwProccode savedTidId rt :
  let hw := (buildWaitHandler l hwArgName hwProccode savedTidId).1 in
  let receiver := (buildWaitHandler l hwArgName hwProccode savedTidId).2 in
  hatOpcode receiver = "event_whenbroadcastreceived" ∧
  hatFields receiver
    = {[ "BROADCAST_OPTION" := (waitBroadcastName l, Some (waitBroadcastId l)) ]} ∧
  argNames hw = [hwArgName] ∧ warp hw = false ∧
  procBody hw = handleWaitBody l hwArgName ∧
  (getList rt (waitQueueId l) = [] →
   exec userExpr userStmt args fuel (scriptBody receiver) rt = Some rt) ∧
  (∀ tok rest, getList rt (waitQueueId l) = tok :: rest →
   exec userExpr userStmt args fuel (scriptBody receiver) rt
     = Some (mkRuntime
               (<[savedTidId := tok]> (rtVars rt))
               (<[waitQueueId l := rest]> (rtLists rt))
               (rtTrace rt ++
                (if decide (rest = []) then [] else [EvBroadcast (waitBroadcastId l)]) ++
                [EvCall (proccode hw) [tok]]))).
Proof.
  cbn zeta. unfold buildWaitHandler. cbn [fst snd hatOpcode hatFields argNames warp
    procBody scriptBody proccode].
  repeat (split; [reflexivity|]). split.
  - apply exec_waitReceiverBody_empty.
  - intros tok rest. apply exec_waitReceiverBody_token.
Qed.

Lemma C7_witness :
  exec exUserExpr exUserStmt exArgs 0
       (scriptBody (buildWaitHandler exLists "tid" "handleWait %s" "savedTid").2)
       (exRuntime [] [("waitQueue", [VNum 42; VNum 43])])
  = Some (mkRuntime {[ "savedTid" := VNum 42 ]}
            (<[ "waitQueue" := [VNum 43] ]> {[ "waitQueue" := [VNum 42; VNum 43] ]})
            [EvBroadcast "waitSignalId"; EvCall "handleWait %s" [VNum 42]]).
Proof.
  apply (proj2 (proj2 (proj2 (proj2 (proj2 (proj2
           (C7_wait_receiver_activation exUserExpr exUserStmt exArgs 0%nat
              exLists "tid" "handleWait %s" "savedTid"
              (exRuntime [] [("waitQueue", [VNum 42; VNum 43])]))))))) 
           (VNum 42) [VNum 43]).
  reflexivity.
Defined.

Lemma exec_clears_prefix userExpr userStmt args fuel ids (tl : list Stmt) (k : nat) rt :
  (k ≤ length ids)%nat →
  ∃ r, exec userExpr userStmt args fuel (take k ((SDeleteAll <$> ids) ++ tl)) rt = Some r ∧
       rtTrace r = rtTrace rt.
Proof.
  intros Hk.
  rewrite take_app_le by (rewrite length_fmap; lia).
  rewrite <-fmap_take, exec_deleteAll.
  eexists. split; [reflexivity|].
  apply (foldl_clear_spec (take k ids) rt).
Qed.



(** ** Conditionals and forever loops: what the decomposer returns *)

Lemma bind_ok {A B} (m : M A) (k : A → M B) st a st1 :
  m st = Some (a, st1) → bind m k st = k a st1.
Proof. intros H. unfold bind. by rewrite H. Qed.

Lemma allocPc_first st d rest :
  draws st = d :: rest → d + PC_MIN ≠ 0 → d + PC_MIN ∉ usedPcs st →
  ∃ st1, allocPc st = Some (d + PC_MIN, st1) ∧ draws st1 = rest ∧
         usedPcs st1 = {[d + PC_MIN]} ∪ usedPcs st ∧ states st1 = states st ∧
         yieldRedirects st1 = yieldRedirects st ∧ blocks st1 = blocks st ∧
         uids st1 = uids st.
Proof.
  intros Hd H0 Hu.
  destruct (allocPc_retries st [] d rest Hd ltac:(constructor) H0 Hu) as (st1 & Ha & Hr).
  exists st1. split; [done|]. split; [done|].
  by destruct (allocPc_spec _ _ _ Ha) as (_ & _ & ? & ? & ? & ? & ?).
Qed.

(** A substack, decomposed with [rec]: its entry PC, or the continuation
    when the input is absent. *)
Lemma substackChain_entry rec o c st t st' :
  match o with
  | Some first => rec (walkChain (blocks st) first) c st = Some (t, st')
  | None => t = c ∧ st' = st
  end ↔ substackChain rec o c st = Some (t, st').
Proof.
  destruct o as [first|]; simpl; [done|]. unfold ret. split.
  - by intros [-> ->].
  - by intros [= -> ->].
Qed.

Lemma decompose_if_else_returns rec b blockId c st p st1 t st2 f st3 :
  opcode b = "control_if_else" →
  allocPc st = Some (p, st1) →
  substackChain rec (inputRef b "SUBSTACK") c st1 = Some (t, st2) →
  substackChain rec (inputRef b "SUBSTACK2") c st2 = Some (f, st3) →
  ∃ st', decomposeControlBlock rec b blockId c st = Some (p, st') ∧
    states st' = states st3 ++
      [branchState p c (mkBranch (default "" (inputRef b "CONDITION")) t f)] ∧
    yieldRedirects st' = yieldRedirects st3 ∧ usedPcs st' = usedPcs st3 ∧
    draws st' = draws st3.
Proof.
  intros Hop Ha Ht Hf. unfold decomposeControlBlock. rewrite Hop.
  rewrite decide_False by done. rewrite decide_True by done.
  rewrite (bind_ok _ _ _ _ _ Ha), (bind_ok _ _ _ _ _ Ht), (bind_ok _ _ _ _ _ Hf).
  destruct (inputRef b "CONDITION"); eexists; (split; [reflexivity|done]).
Qed.

(** A chain of one block that is not a control block: one state, with the
    first acceptable draw as its PC. *)
Lemma decomposeChain_linear_returns fuel s b c st p st1 :
  getFullBlock (blocks st) s = Some b → isControlOpcode (opcode b) = false →
  allocPc st = Some (p, st1) →
  ∃ st', decomposeChain (S fuel) [s] c st = Some (p, st') ∧
    states st' = states st ++ [plainState p [s] c false] ∧
    blocks st' = unlinkBlock (blocks st) s ∧
    yieldRedirects st' = yieldRedirects st ∧
    usedPcs st' = usedPcs st1 ∧ draws st' = draws st1 ∧ uids st' = uids st.
Proof.
  intros Hb Hc Ha.
  pose proof (allocPc_spec _ _ _ Ha) as (_ & _ & _ & Hs1 & Hy1 & Hb1 & Hu1).
  cbn [decomposeChain]. rewrite (bind_ok getBlocks _ st (blocks st) st) by done.
  cbn [segmentize]. rewrite Hb, Hc. cbn [segmentize app]. rewrite decide_False by done.
  cbn [decomposeSegments decomposeSegment].
  rewrite (bind_ok (ret c) _ st c st) by done.
  rewrite (bind_ok _ _ _ _ _ Ha).
  eexists. split; [reflexivity|]. simpl. rewrite Hs1, Hy1, Hb1, Hu1. done.
Qed.

(** A chain that consists of one control block decomposes as that block. *)
Lemma decomposeChain_control fuel s b c st :
  getFullBlock (blocks st) s = Some b → isControlOpcode (opcode b) = true →
  decomposeChain (S fuel) [s] c st
    = decomposeControlBlock (decomposeChain fuel) b s c st.
Proof.
  intros Hb Hc. cbn [decomposeChain].
  rewrite (bind_ok getBlocks _ st (blocks st) st) by done.
  cbn [segmentize]. rewrite Hb, Hc. rewrite !decide_True by done. cbn [app].
  cbn [decomposeSegments decomposeSegment].
  rewrite (bind_ok (ret c) _ st c st) by done.
  rewrite (bind_ok getBlocks _ st (blocks st) st) by done.
  by rewrite Hb.
Qed.



(** The forever case of [decomposeControlBlock], forwards. *)
Lemma decompose_forever_body_returns rec b blockId c st first y st1 a st2 :
  opcode b = "control_forever" → inputRef b "SUBSTACK" = Some first →
  allocPc st = Some (y, st1) →
  rec (walkChain (blocks st) first) y st1 = Some (a, st2) →
  ∃ st', decomposeControlBlock rec b blockId c st = Some (a, st') ∧
    states st' = states st2 ∧
    yieldRedirects st' = <[y := a]> (yieldRedirects st2).
Proof.
  intros Hop Hsub Ha Hr. unfold decomposeControlBlock. rewrite Hop.
  do 2 rewrite decide_False by done. rewrite decide_True by done. rewrite Hsub.
  rewrite (bind_ok getBlocks _ st (blocks st) st) by done.
  rewrite (bind_ok _ _ _ _ _ Ha), (bind_ok _ _ _ _ _ Hr).
  eexists. split; [reflexivity|done].
Qed.

Lemma decompose_forever_empty_returns rec b blockId c st a st1 :
  opcode b = "control_forever" → inputRef b "SUBSTACK" = None →
  allocPc st = Some (a, st1) →
  ∃ st', decomposeControlBlock rec b blockId c st = Some (a, st') ∧
    states st' = states st ++ [plainState a [] a false] ∧
    yieldRedirects st' = <[a := a]> (yieldRedirects st).
Proof.
  intros Hop Hsub Ha. unfold decomposeControlBlock. rewrite Hop.
  do 2 rewrite decide_False by done. rewrite decide_True by done. rewrite Hsub.
  rewrite (bind_ok _ _ _ _ _ Ha).
  destruct (allocPc_spec _ _ _ Ha) as (_ & _ & _ & Hs & Hy & _).
  eexists. split; [reflexivity|]. simpl. by rewrite Hs, Hy.
Qed.

Lemma redirect_resolves (yr : gmap Z Z) y a :
  yr !! y = Some a → resolvePc yr y = a ∧ shouldYield yr y = true.
Proof.
  intros H. unfold shouldYield, resolvePc. rewrite H. split; [done|].
  rewrite bool_decide_eq_true_2 by eauto. done.
Qed.

(** C8. Decomposing a forever loop.  With a body: as soon as a PC is
    allocated for the body's continuation and the body is decomposed with
    it, the loop returns the body's entry PC, adds no state of its own,
    and the yield-redirect map sends that continuation to the body's
    entry.  With no body: as soon as a PC is allocated (the first draw,
    when it is nonzero and unused), the loop returns it after pushing
    exactly one state, whose successor is its own PC, redirected to
    itself.  Every result arises in one of these two ways, and the
    continuation of the surrounding chain plays no part in it: the call
    gives the same result whatever the continuation is. *)
Theorem C8_forever_is_a_cycle rec b blockId c st :
  opcode b = "control_forever" →
  (∀ first y st1 a st2,
     inputRef b "SUBSTACK" = Some first →
     allocPc st = Some (y, st1) →
     rec (walkChain (blocks st) first) y st1 = Some (a, st2) →
     ∃ st', decomposeControlBlock rec b blockId c st = Some (a, st') ∧
       states st' = states st2 ∧
       yieldRedirects st' = <[y := a]> (yieldRedirects st2) ∧
       resolvePc (yieldRedirects st') y = a ∧
       shouldYield (yieldRedirects st') y = true) ∧
  (inputRef b "SUBSTACK" = None →
   (∀ a st1, allocPc st = Some (a, st1) →
      ∃ st', decomposeControlBlock rec b blockId c st = Some (a, st') ∧
        states st' = states st ++ [plainState a [] a false] ∧
        nextPc (plainState a [] a false) = pc (plainState a [] a false) ∧
        yieldRedirects st' = <[a := a]> (yieldRedirects st) ∧
        resolvePc (yieldRedirects st') a = a ∧
        shouldYield (yieldRedirects st') a = true) ∧
   (∀ d rest, draws st = d :: rest → d + PC_MIN ≠ 0 → d + PC_MIN ∉ usedPcs st →
      ∃ st', decomposeControlBlock rec b blockId c st = Some (d + PC_MIN, st') ∧
        states st' = states st ++ [plainState (d + PC_MIN) [] (d + PC_MIN) false])) ∧
  (∀ a st', decomposeControlBlock rec b blockId c st = Some (a, st') →
     match inputRef b "SUBSTACK" with
     | Some first =>
         ∃ y st1 st2,
           allocPc st = Some (y, st1) ∧
           rec (walkChain (blocks st) first) y st1 = Some (a, st2) ∧
           states st' = states st2 ∧
           yieldRedirects st' !! y = Some a ∧
           resolvePc (yieldRedirects st') y = a ∧
           shouldYield (yieldRedirects st') y = true
     | None =>
         ∃ st1, allocPc st = Some (a, st1) ∧
           states st' = states st ++ [plainState a [] a false] ∧
           nextPc (plainState a [] a false) = pc (plainState a [] a false) ∧
           resolvePc (yieldRedirects st') a = a ∧
           shouldYield (yieldRedirects st') a = true
     end) ∧
  (∀ c', decomposeControlBlock rec b blockId c' st
         = decomposeControlBlock rec b blockId c st).
Proof.
  intros Hop. split; [|split; [|split]].
  - intros first y st1 a st2 Hsub Ha Hr.
    destruct (decompose_forever_body_returns rec b blockId c st first y st1 a st2
                Hop Hsub Ha Hr) as (st' & H & Hs & Hy).
    exists st'. split; [done|]. split; [done|]. split; [done|].
    apply redirect_resolves. rewrite Hy. apply lookup_insert_eq.
  - intros Hsub.
    assert (Hret : ∀ a st1, allocPc st = Some (a, st1) →
      ∃ st', decomposeControlBlock rec b blockId c st = Some (a, st') ∧
        states st' = states st ++ [plainState a [] a false] ∧
        nextPc (plainState a [] a false) = pc (plainState a [] a false) ∧
        yieldRedirects st' = <[a := a]> (yieldRedirects st) ∧
        resolvePc (yieldRedirects st') a = a ∧
        shouldYield (yieldRedirects st') a = true).
    { intros a st1 Ha.
      destruct (decompose_forever_empty_returns rec b blockId c st a st1 Hop Hsub Ha)
        as (st' & H & Hs & Hy).
      exists st'. split; [done|]. split; [done|]. split; [done|]. split; [done|].
      apply redirect_resolves. rewrite Hy. apply lookup_insert_eq. }
    split; [exact Hret|].
    intros d rest Hd H0 Hu.
    destruct (allocPc_first st d rest Hd H0 Hu) as (st1 & Ha & _).
    destruct (Hret _ _ Ha) as (st' & H & Hs & _). by exists st'.
  - intros a st' H. destruct (inputRef b "SUBSTACK") as [first|] eqn:Hsub.
    + destruct (decompose_forever_body _ _ _ _ _ _ _ _ Hop Hsub H)
        as (y & st1 & st2 & Ha & Hr & Hy & Hs).
      exists y, st1, st2. split; [done|]. split; [done|]. split; [done|].
      assert (Hl : yieldRedirects st' !! y = Some a)
        by (rewrite Hy; apply lookup_insert_eq).
      split; [done|]. by apply redirect_resolves.
    + destruct (decompose_forever_empty _ _ _ _ _ _ _ Hop Hsub H) as (Hs & Hy & _).
      unfold decomposeControlBlock in H. rewrite Hop in H.
      do 2 rewrite decide_False in H by done. rewrite decide_True in H by done.
      rewrite Hsub in H.
      apply bind_inv in H as (p & sx1 & Ex1 & H). cbv beta in H.
      apply bind_inv in H as (u0 & sx2 & Ex2 & H). cbv beta in H.
      apply bind_inv in H as (u1 & sx3 & Ex3 & H). cbv beta in H.
      apply bind_inv in H as (u2 & sx4 & Ex4 & H). cbv beta in H.
      inversion H; subst; clear H.
      exists sx1. split; [done|]. split; [done|]. split; [done|].
      apply redirect_resolves. rewrite Hy. apply lookup_insert_eq.
  - intros c'. by apply decompose_forever_continuation.
Qed.

Lemma C8_witness :
  (∃ st',
     decomposeControlBlock (decomposeChain 3)
       (mkBlock "control_forever" None None (list_to_map [("SUBSTACK", IVId "s1")]) ∅ false)
       "loop" 77 (initialDState exForeverStore exDraws []) = Some (3, st') ∧
     yieldRedirects st' !! 7 = Some 3 ∧
     pc <$> states st' = [3] ∧ nextPc <$> states st' = [7]) ∧
  (∃ st',
     decomposeControlBlock (decomposeChain 3)
       (mkBlock "control_forever" None None ∅ ∅ false)
       "loop" 77 (initialDState exForeverStore exDraws []) = Some (7, st') ∧
     states st' = [] ++ [plainState 7 [] 7 false]) ∧
  ∀ c', decomposeControlBlock (decomposeChain 3)
          (mkBlock "control_forever" None None
             (list_to_map [("SUBSTACK", IVId "s1")]) ∅ false)
          "loop" c' (initialDState exForeverStore exDraws [])
        = decomposeControlBlock (decomposeChain 3)
          (mkBlock "control_forever" None None
             (list_to_map [("SUBSTACK", IVId "s1")]) ∅ false)
          "loop" 77 (initialDState exForeverStore exDraws []).
Proof.
  split; [|split].
  - eexists. split; [vm_compute; reflexivity|].
    split; [vm_compute; reflexivity|]. split; vm_compute; reflexivity.
  - refine (proj2 (proj1 (proj2
              (C8_forever_is_a_cycle (decomposeChain 3)
                 (mkBlock "control_forever" None None ∅ ∅ false)
                 "loop" 77 (initialDState exForeverStore exDraws []) _)) _)
              10000000000007 _ _ _ _);
      try (vm_compute; reflexivity); [discriminate|].
    vm_compute. set_solver.
  - refine (proj2 (proj2 (proj2
              (C8_forever_is_a_cycle (decomposeChain 3)
                 (mkBlock "control_forever" None None
                    (list_to_map [("SUBSTACK", IVId "s1")]) ∅ false)
                 "loop" 77 (initialDState exForeverStore exDraws []) _))));
      reflexivity.
Defined.

(** ** The repeat loop: redirects set by the decomposer stay *)

Section KeepsRedirects.
Variable U : gset Z.

Lemma kr_quiet {A} (m : M A) :
  (∀ st a st', m st = Some (a, st') →
     usedPcs st' = usedPcs st ∧ yieldRedirects st' = yieldRedirects st) →
  keepsRedirects U m.
Proof.
  intros Hq st a st' HU H. destruct (Hq _ _ _ H) as [Hu Hy].
  rewrite Hu, Hy. done.
Qed.

Lemma kr_ret {A} (a : A) : keepsRedirects U (ret a).
Proof. apply kr_quiet. intros st x st' H. by inversion H. Qed.

Lemma kr_failM {A} : keepsRedirects U (@failM A).
Proof. intros st a st' _ H. done. Qed.

Lemma kr_getBlocks : keepsRedirects U getBlocks.
Proof. apply kr_quiet. intros st x st' H. by inversion H. Qed.

Lemma kr_modifyBlocks f : keepsRedirects U (modifyBlocks f).
Proof. apply kr_quiet. intros st x st' H. by inversion H. Qed.

Lemma kr_pushState s : keepsRedirects U (pushState s).
Proof. apply kr_quiet. intros st x st' H. by inversion H. Qed.

Lemma kr_uid : keepsRedirects U uid.
Proof.
  apply kr_quiet. intros st x st' H. unfold uid in H.
  destruct (uids st); [done|]. by inversion H.
Qed.

Lemma kr_clearParent o : keepsRedirects U (clearParent o).
Proof. destruct o; [apply kr_modifyBlocks|apply kr_ret]. Qed.

Lemma kr_bind {A B} (m : M A) (k : A → M B) :
  keepsRedirects U m → (∀ a, keepsRedirects U (k a)) → keepsRedirects U (bind m k).
Proof.
  intros Hm Hk st b st' HU H. apply bind_inv in H as (a & st1 & E & H).
  destruct (Hm _ _ _ HU E) as [HU1 Hy1].
  destruct (Hk a _ _ _ HU1 H) as [HU2 Hy2].
  split; [done|]. intros k0 Hk0. rewrite Hy2, Hy1; done.
Qed.

(** A program counter that [allocPc] returns is new, so it is none of [U]. *)
Lemma kr_alloc {B} (k : Z → M B) :
  (∀ p, p ∉ U → keepsRedirects U (k p)) → keepsRedirects U (bind allocPc k).
Proof.
  intros Hk st b st' HU H. apply bind_inv in H as (p & st1 & E & H).
  apply allocPc_spec in E as (_ & Hn & Hu & _ & Hy & _).
  assert (Hp : p ∉ U) by (intros Hp; apply Hn, HU, Hp).
  destruct (Hk p Hp st1 b st') as [HU2 Hy2]; [rewrite Hu; by apply union_subseteq_r'|done|].
  split; [done|]. intros k0 Hk0. rewrite Hy2, Hy; done.
Qed.

Lemma kr_setRedirect k v : k ∉ U → keepsRedirects U (setRedirect k v).
Proof.
  intros Hk st x st' HU H. inversion H; subst; simpl. split; [done|].
  intros k0 Hk0. apply lookup_insert_ne. intros ->. done.
Qed.

Lemma kr_numberLiteral l : keepsRedirects U (numberLiteral l).
Proof.
  unfold numberLiteral. apply kr_bind; [apply kr_uid|]. intros id.
  apply kr_bind; [apply kr_modifyBlocks|]. intros _. apply kr_ret.
Qed.

Lemma kr_textLiteral t : keepsRedirects U (textLiteral t).
Proof.
  unfold textLiteral. apply kr_bind; [apply kr_uid|]. intros id.
  apply kr_bind; [apply kr_modifyBlocks|]. intros _. apply kr_ret.
Qed.

Lemma kr_substackChain rec o c :
  (∀ ids c', keepsRedirects U (rec ids c')) → keepsRedirects U (substackChain rec o c).
Proof.
  intros Hrec. destruct o as [first|]; simpl; [|apply kr_ret].
  apply kr_bind; [apply kr_getBlocks|]. intros bs. apply Hrec.
Qed.

Ltac kr_step Hrec :=
  first
    [ apply kr_ret | apply kr_failM | apply kr_getBlocks | apply kr_modifyBlocks
    | apply kr_pushState | apply kr_uid | apply kr_clearParent
    | apply kr_numberLiteral | apply kr_textLiteral
    | apply kr_setRedirect; assumption
    | apply kr_substackChain; exact Hrec
    | apply Hrec
    | apply kr_alloc; intros ? ?
    | apply kr_bind; [|intros ?] ].

Lemma kr_decomposeControlBlock rec b blockId c :
  (∀ ids c', keepsRedirects U (rec ids c')) →
  keepsRedirects U (decomposeControlBlock rec b blockId c).
Proof.
  intros Hrec. unfold decomposeControlBlock.
  repeat case_decide; try (repeat kr_step Hrec; fail).
  - destruct (inputRef b "SUBSTACK"); repeat kr_step Hrec.
  - apply kr_bind.
    + destruct (inputs b !! "DURATION") as [[id|tag text|]|]; repeat kr_step Hrec.
    + intros d. repeat kr_step Hrec.
  - apply kr_bind.
    + destruct (inputs b !! "BROADCAST_INPUT") as [[id|tag text|]|];
        repeat kr_step Hrec.
      destruct (getFullBlock _ id) as [refBlock|]; [|repeat kr_step Hrec].
      case_decide; repeat kr_step Hrec.
    + intros d. repeat kr_step Hrec.
Qed.

Lemma kr_decomposeSegment rec seg c :
  (∀ ids c', keepsRedirects U (rec ids c')) →
  keepsRedirects U (decomposeSegment rec seg c).
Proof.
  intros Hrec. destruct seg as [ids|blockId]; simpl.
  - repeat kr_step Hrec.
  - apply kr_bind; [apply kr_getBlocks|]. intros bs.
    destruct (getFullBlock bs blockId); [by apply kr_decomposeControlBlock|apply kr_failM].
Qed.

Lemma kr_decomposeSegments rec segs c :
  (∀ ids c', keepsRedirects U (rec ids c')) →
  keepsRedirects U (decomposeSegments rec segs c).
Proof.
  intros Hrec. induction segs as [|seg segs IH]; simpl; [apply kr_ret|].
  apply kr_bind; [exact IH|]. intros n. by apply kr_decomposeSegment.
Qed.

Lemma kr_decomposeChain fuel : ∀ ids c, keepsRedirects U (decomposeChain fuel ids c).
Proof.
  induction fuel as [|fuel IH]; intros ids c.
  - destruct ids; simpl; [apply kr_ret|apply kr_failM].
  - destruct ids as [|i ids]; simpl; [apply kr_ret|].
    apply kr_bind; [apply kr_getBlocks|]. intros bs. by apply kr_decomposeSegments.
Qed.

End KeepsRedirects.

(** The repeat case of [decomposeControlBlock], forwards. *)
Lemma decompose_repeat_returns fuel b blockId c st
    loopId s0 initPc s1 checkPc s2 s3 y s4 s5 bodyEntry s6 :
  opcode b = "control_repeat" →
  uid st = Some (loopId, s0) →
  allocPc s0 = Some (initPc, s1) →
  allocPc s1 = Some (checkPc, s2) →
  clearParent (inputRef b "TIMES") s2 = Some (tt, s3) →
  allocPc s3 = Some (y, s4) →
  setRedirect y checkPc s4 = Some (tt, s5) →
  substackChain (decomposeChain fuel) (inputRef b "SUBSTACK") y s5
    = Some (bodyEntry, s6) →
  ∃ st',
    decomposeControlBlock (decomposeChain fuel) b blockId c st = Some (initPc, st') ∧
    states st' = states s6 ++
      [repeatInitState initPc checkPc
         (mkRepeatInit (default "" (inputRef b "TIMES")) loopId);
       repeatCheckState checkPc c (mkRepeatCheck loopId bodyEntry c)] ∧
    yieldRedirects st' = yieldRedirects s6 ∧
    yieldRedirects st' !! y = Some checkPc ∧
    yieldRedirects st' !! checkPc = yieldRedirects st !! checkPc ∧
    (checkPc ∉ usedPcs st) ∧
    initPc ≠ EXIT_PC ∧ checkPc ≠ EXIT_PC ∧ y ≠ EXIT_PC ∧
    initPc ≠ checkPc ∧ initPc ≠ y ∧ checkPc ≠ y.
Proof.
  intros Hop E0 E1 E2 E3 E4 E5 E6.
  assert (H : decomposeControlBlock (decomposeChain fuel) b blockId c st
              = (pushState (repeatInitState initPc checkPc
                   (mkRepeatInit (default "" (inputRef b "TIMES")) loopId)) ;;
                 pushState (repeatCheckState checkPc c
                   (mkRepeatCheck loopId bodyEntry c)) ;;
                 modifyBlocks (fun bs => deleteBlock bs blockId) ;;
                 ret initPc) s6).
  { unfold decomposeControlBlock. rewrite Hop.
    do 3 rewrite decide_False by done. rewrite decide_True by done.
    rewrite (bind_ok _ _ _ _ _ E0), (bind_ok _ _ _ _ _ E1), (bind_ok _ _ _ _ _ E2),
      (bind_ok _ _ _ _ _ E3), (bind_ok _ _ _ _ _ E4), (bind_ok _ _ _ _ _ E5),
      (bind_ok _ _ _ _ _ E6). done. }
  eexists. split; [rewrite H; reflexivity|]. cbn [states yieldRedirects].
  apply neutral_uid in E0 as Hn0. destruct Hn0 as (_ & Hu0).
  apply still_uid in E0 as (Hy0 & _).
  apply allocPc_spec in E1 as (Hz1 & Hn1 & Hu1 & _ & Hy1 & _).
  apply allocPc_spec in E2 as (Hz2 & Hn2 & Hu2 & _ & Hy2 & _).
  apply clearParent_spec in E3 as (_ & Hy3 & Hu3).
  apply allocPc_spec in E4 as (Hz4 & Hn4 & Hu4 & _ & Hy4 & _).
  apply setRedirect_spec in E5 as (_ & _ & Hy5 & Hu5).
  destruct (kr_substackChain (usedPcs s5) (decomposeChain fuel)
              (inputRef b "SUBSTACK") y (kr_decomposeChain (usedPcs s5) fuel)
              s5 bodyEntry s6 ltac:(done) E6) as [_ Hkeep].
  assert (Hiy : initPc ∈ usedPcs s3) by (rewrite Hu3, Hu2, Hu1; set_solver).
  assert (Hcy : checkPc ∈ usedPcs s3) by (rewrite Hu3, Hu2; set_solver).
  assert (Hne : checkPc ≠ y) by (intros ->; done).
  split; [by rewrite <-app_assoc|]. split; [done|]. split; [|split; [|split]].
  - rewrite Hkeep by (rewrite Hu5, Hu4; set_solver).
    rewrite Hy5. apply lookup_insert_eq.
  - rewrite Hkeep by (rewrite Hu5, Hu4; set_solver).
    rewrite Hy5, lookup_insert_ne by done. congruence.
  - intros Hin. apply Hn2. rewrite Hu1, Hu0. set_solver.
  - unfold EXIT_PC. repeat split; try done.
    + intros ->. apply Hn2. rewrite Hu1. set_solver.
    + intros ->. done.
Qed.

(** The steps behind a result of the repeat case. *)
Lemma decompose_repeat_steps rec b blockId c st a st' :
  opcode b = "control_repeat" →
  decomposeControlBlock rec b blockId c st = Some (a, st') →
  ∃ loopId s0 s1 checkPc s2 s3 y s4 s5 bodyEntry s6,
    uid st = Some (loopId, s0) ∧
    allocPc s0 = Some (a, s1) ∧
    allocPc s1 = Some (checkPc, s2) ∧
    clearParent (inputRef b "TIMES") s2 = Some (tt, s3) ∧
    allocPc s3 = Some (y, s4) ∧
    setRedirect y checkPc s4 = Some (tt, s5) ∧
    substackChain rec (inputRef b "SUBSTACK") y s5 = Some (bodyEntry, s6).
Proof.
  intros Hop H. unfold decomposeControlBlock in H. rewrite Hop in H.
  do 3 rewrite decide_False in H by done. rewrite decide_True in H by done.
  apply bind_inv in H as (loopId & sx0 & Ex0 & H). cbv beta in H.
  apply bind_inv in H as (initPc & sx1 & Ex1 & H). cbv beta in H.
  apply bind_inv in H as (checkPc & sx2 & Ex2 & H). cbv beta in H.
  apply bind_inv in H as ([] & sx3 & Ex3 & H). cbv beta in H.
  apply bind_inv in H as (y & sx4 & Ex4 & H). cbv beta in H.
  apply bind_inv in H as ([] & sx5 & Ex5 & H). cbv beta in H.
  apply bind_inv in H as (bodyEntry & sx6 & Ex6 & H). cbv beta in H.
  apply bind_inv in H as (u7 & sx7 & Ex7 & H). cbv beta in H.
  apply bind_inv in H as (u8 & sx8 & Ex8 & H). cbv beta in H.
  apply bind_inv in H as (u9 & sx9 & Ex9 & H). cbv beta in H.
  inversion H; subst; clear H.
  by exists loopId, sx0, sx1, checkPc, sx2, sx3, y, sx4, sx5, bodyEntry, sx6.
Qed.

(** A repeat loop around one block that is not a control block, with
    four fresh draws at hand. *)
Lemma decompose_repeat_one_block fuel b blockId c st s1 b1 loopId us d1 d2 d3 d4 rest :
  opcode b = "control_repeat" →
  inputRef b "SUBSTACK" = Some s1 → inputRef b "TIMES" ≠ Some s1 →
  getFullBlock (blocks st) s1 = Some b1 → isControlOpcode (opcode b1) = false →
  next b1 = None →
  uids st = loopId :: us →
  draws st = d1 :: d2 :: d3 :: d4 :: rest →
  NoDup [d1 + PC_MIN; d2 + PC_MIN; d3 + PC_MIN; d4 + PC_MIN] →
  (∀ p, p ∈ [d1 + PC_MIN; d2 + PC_MIN; d3 + PC_MIN; d4 + PC_MIN] →
     p ≠ 0 ∧ p ∉ usedPcs st) →
  ∃ st',
    decomposeControlBlock (decomposeChain (S fuel)) b blockId c st
      = Some (d1 + PC_MIN, st') ∧
    states st' = states st ++
      [plainState (d4 + PC_MIN) [s1] (d3 + PC_MIN) false;
       repeatInitState (d1 + PC_MIN) (d2 + PC_MIN)
         (mkRepeatInit (default "" (inputRef b "TIMES")) loopId);
       repeatCheckState (d2 + PC_MIN) c (mkRepeatCheck loopId (d4 + PC_MIN) c)] ∧
    yieldRedirects st' = <[d3 + PC_MIN := d2 + PC_MIN]> (yieldRedirects st).
Proof.
  intros Hop Hsub Htimes Hb1 Hc1 Hn1 Hus Hds Hnd Hfresh.
  apply NoDup_cons in Hnd as [H12 Hnd]. apply NoDup_cons in Hnd as [H23 Hnd].
  apply NoDup_cons in Hnd as [H34 _].
  apply not_elem_of_cons in H12 as [H12 H13].
  apply not_elem_of_cons in H13 as [H13 H14].
  apply not_elem_of_cons in H14 as [H14 _].
  apply not_elem_of_cons in H23 as [H23 H24].
  apply not_elem_of_cons in H24 as [H24 _].
  apply not_elem_of_cons in H34 as [H34 _].
  destruct (Hfresh (d1 + PC_MIN)) as [Hz1 Hf1]; [repeat constructor|].
  destruct (Hfresh (d2 + PC_MIN)) as [Hz2 Hf2]; [repeat constructor|].
  destruct (Hfresh (d3 + PC_MIN)) as [Hz3 Hf3]; [repeat constructor|].
  destruct (Hfresh (d4 + PC_MIN)) as [Hz4 Hf4]; [repeat constructor|].
  clear Hfresh.
  assert (E0 : uid st = Some (loopId, mkDState (blocks st) (states st) (usedPcs st)
                                       (yieldRedirects st) (draws st) us))
    by (unfold uid; by rewrite Hus).
  set (s0 := mkDState _ _ _ _ _ _) in E0.
  destruct (allocPc_first s0 d1 _ Hds Hz1 Hf1)
    as (s1' & E1 & Hd1 & Hu1 & Hs1 & Hy1 & Hbl1 & _).
  destruct (allocPc_first s1' d2 _ Hd1 Hz2)
    as (s2 & E2 & Hd2 & Hu2 & Hs2 & Hy2 & Hbl2 & _).
  { rewrite Hu1. apply not_elem_of_union. by rewrite not_elem_of_singleton. }
  assert (∃ s3, clearParent (inputRef b "TIMES") s2 = Some (tt, s3) ∧
            draws s3 = draws s2 ∧ usedPcs s3 = usedPcs s2 ∧ states s3 = states s2 ∧
            yieldRedirects s3 = yieldRedirects s2 ∧
            getFullBlock (blocks s3) s1 = Some b1) as (s3 & E3 & Hd3 & Hu3 & Hs3 & Hy3 & Hbl3).
  { destruct (inputRef b "TIMES") as [t|] eqn:Ht; simpl.
    - eexists. split; [reflexivity|]. simpl. repeat split.
      rewrite getFullBlock_setParent, decide_False by congruence.
      by rewrite Hbl2, Hbl1.
    - eexists. split; [reflexivity|]. repeat split. by rewrite Hbl2, Hbl1. }
  destruct (allocPc_first s3 d3 (d4 :: rest))
    as (s4 & E4 & Hd4 & Hu4 & Hs4 & Hy4 & Hbl4 & _).
  { by rewrite Hd3. }
  { done. }
  { rewrite Hu3, Hu2, Hu1. rewrite !not_elem_of_union, !not_elem_of_singleton. done. }
  assert (E5 : setRedirect (d3 + PC_MIN) (d2 + PC_MIN) s4
               = Some (tt, mkDState (blocks s4) (states s4) (usedPcs s4)
                             (<[d3 + PC_MIN := d2 + PC_MIN]> (yieldRedirects s4))
                             (draws s4) (uids s4))) by done.
  set (s5 := mkDState _ _ _ _ _ _) in E5.
  destruct (allocPc_first s5 d4 rest Hd4 Hz4) as (s6a & E6a & _).
  { simpl. rewrite Hu4, Hu3, Hu2, Hu1.
    rewrite !not_elem_of_union, !not_elem_of_singleton. done. }
  destruct (decomposeChain_linear_returns fuel s1 b1 (d3 + PC_MIN) s5 _ s6a
              ltac:(simpl; by rewrite Hbl4) Hc1 E6a)
    as (s6 & E6 & Hs6 & _ & Hy6 & _).
  destruct (decompose_repeat_returns (S fuel) b blockId c st _ _ _ _ _ _ _ _ _ _
              (d4 + PC_MIN) s6 Hop E0 E1 E2 E3 E4 E5) as (st' & H & Hs & Hy & _).
  { rewrite Hsub. simpl. rewrite (bind_ok getBlocks _ s5 (blocks s5) s5) by done.
    rewrite (walkChain_single _ s1 b1);
      [done|by eapply inputRef_nonempty|simpl; by rewrite Hbl4|done]. }
  exists st'. split; [done|]. split.
  - rewrite Hs, Hs6. simpl. rewrite Hs4, Hs3, Hs2, Hs1. simpl. by rewrite <-app_assoc.
  - rewrite Hy, Hy6. simpl. by rewrite Hy4, Hy3, Hy2, Hy1.
Qed.

Lemma no_redirect_stays (yr : gmap Z Z) p :
  yr !! p = None → p ≠ EXIT_PC →
  resolvePc yr p = p ∧ shouldYield yr p = false.
Proof.
  intros H Hp. unfold shouldYield, resolvePc. rewrite H. split; [done|].
  apply orb_false_intro.
  - apply bool_decide_eq_false_2. by intros [? ?].
  - by apply bool_decide_eq_false_2.
Qed.

(** C3. Decomposing a repeat-N loop returns as soon as the loop id, the
    three program counters and the body are there, and adds exactly two
    states to those of the body: an init state and a check state sharing
    the loop id.  The body is decomposed with a fresh continuation, which
    the yield-redirect map of the result sends to the check state; the
    check PC itself has no redirect.  Every result arises this way.  The
    init body appends the key (thread token, space, loop id) and the value
    of the ceiling block over the count reporter to the counter store and
    writes the check PC; the check body tests the stored counter against
    zero and, when it is positive, replaces it by its predecessor at an
    index looked up afresh and writes the body PC; otherwise it removes
    the key/value pair and writes the continuation.  The run-time model
    evaluates integer counts, whose ceiling they are themselves. *)
Theorem C3_repeat_two_state_protocol
    fuel b blockId c st userExpr userStmt args loopFuel ctx config rnd tid :
  opcode b = "control_repeat" →
  args !! stepThreadArg ctx = Some tid →
  (∀ n, 1000 <= rScramble rnd n <= 99999) →
  NoDup [counterKeyId (lists ctx); counterValId (lists ctx); pcValId (lists ctx)] →
  rVarId rnd 0 ≠ cachedPcVarId ctx → rVarId rnd 0 ≠ baseIndexVarId ctx →
  let rec := decomposeChain fuel in
  let count := default "" (inputRef b "TIMES") in
  let keys := counterKeyId (lists ctx) in
  let vals := counterValId (lists ctx) in
  let pcs := pcValId (lists ctx) in
  let shape st' loopId initPc checkPc y bodyEntry s6 :=
    states st' = states s6 ++
      [repeatInitState initPc checkPc (mkRepeatInit count loopId);
       repeatCheckState checkPc c (mkRepeatCheck loopId bodyEntry c)] ∧
    yieldRedirects st' !! y = Some checkPc ∧
    resolvePc (yieldRedirects st') y = checkPc ∧
    shouldYield (yieldRedirects st') y = true ∧
    ((∀ k, is_Some (yieldRedirects st !! k) → k ∈ usedPcs st) →
     yieldRedirects st' !! checkPc = None ∧
     resolvePc (yieldRedirects st') checkPc = checkPc ∧
     shouldYield (yieldRedirects st') checkPc = false) ∧
    initPc ≠ checkPc ∧ initPc ≠ EXIT_PC ∧ checkPc ≠ EXIT_PC ∧ y ≠ checkPc in
  (∀ loopId s0 initPc s1 checkPc s2 s3 y s4 s5 bodyEntry s6,
     uid st = Some (loopId, s0) →
     allocPc s0 = Some (initPc, s1) →
     allocPc s1 = Some (checkPc, s2) →
     clearParent (inputRef b "TIMES") s2 = Some (tt, s3) →
     allocPc s3 = Some (y, s4) →
     setRedirect y checkPc s4 = Some (tt, s5) →
     match inputRef b "SUBSTACK" with
     | Some first => rec (walkChain (blocks s5) first) y s5 = Some (bodyEntry, s6)
     | None => bodyEntry = y ∧ s6 = s5
     end →
     ∃ st', decomposeControlBlock rec b blockId c st = Some (initPc, st') ∧
            shape st' loopId initPc checkPc y bodyEntry s6) ∧
  (∀ fuel' s1 b1 loopId us d1 d2 d3 d4 rest,
     fuel = S fuel' →
     inputRef b "SUBSTACK" = Some s1 → inputRef b "TIMES" ≠ Some s1 →
     getFullBlock (blocks st) s1 = Some b1 → isControlOpcode (opcode b1) = false →
     next b1 = None →
     uids st = loopId :: us →
     draws st = d1 :: d2 :: d3 :: d4 :: rest →
     NoDup [d1 + PC_MIN; d2 + PC_MIN; d3 + PC_MIN; d4 + PC_MIN] →
     (∀ p, p ∈ [d1 + PC_MIN; d2 + PC_MIN; d3 + PC_MIN; d4 + PC_MIN] →
        p ≠ 0 ∧ p ∉ usedPcs st) →
     ∃ st',
       decomposeControlBlock rec b blockId c st = Some (d1 + PC_MIN, st') ∧
       states st' = states st ++
         [plainState (d4 + PC_MIN) [s1] (d3 + PC_MIN) false;
          repeatInitState (d1 + PC_MIN) (d2 + PC_MIN) (mkRepeatInit count loopId);
          repeatCheckState (d2 + PC_MIN) c (mkRepeatCheck loopId (d4 + PC_MIN) c)] ∧
       yieldRedirects st' = <[d3 + PC_MIN := d2 + PC_MIN]> (yieldRedirects st)) ∧
  (∀ a st', decomposeControlBlock rec b blockId c st = Some (a, st') →
     ∃ loopId s0 checkPc y s5 bodyEntry s6,
       uid st = Some (loopId, s0) ∧
       states s5 = states st ∧
       yieldRedirects s5 = <[y := checkPc]> (yieldRedirects st) ∧
       match inputRef b "SUBSTACK" with
       | Some first => rec (walkChain (blocks s5) first) y s5 = Some (bodyEntry, s6)
       | None => bodyEntry = y ∧ s6 = s5
       end ∧
       shape st' loopId a checkPc y bodyEntry s6) ∧
  (∀ yr initPc checkPc loopId bodyEntry,
     buildStateBody ctx config yr rnd
       (repeatInitState initPc checkPc (mkRepeatInit count loopId))
     = [SAddToList keys (buildCounterKey ctx loopId);
        SAddToList vals (ECeiling (EUser count))] ++
       (resolveAndWritePc ctx config yr rnd 0 checkPc initPc).1 ∧
     buildStateBody ctx config yr rnd
       (repeatCheckState checkPc c (mkRepeatCheck loopId bodyEntry c))
     = [SIfElse (EGt (counterRead ctx loopId) (ENum 0))
          (SReplace vals (counterIndex ctx loopId)
             (ESub (counterRead ctx loopId) (ENum 1))
           :: (resolveAndWritePc ctx config yr rnd 0 bodyEntry checkPc).1)
          ([SSetVar (rVarId rnd 0) (counterIndex ctx loopId);
            SDeleteOfList keys (EVar (rVarId rnd 0));
            SDeleteOfList vals (EVar (rVarId rnd 0))] ++
           (resolveAndWritePc ctx config yr rnd 1 c checkPc).1)] ∧
     counterRead ctx loopId = EItemOf vals (counterIndex ctx loopId) ∧
     counterIndex ctx loopId = EItemNum keys (buildCounterKey ctx loopId)) ∧
  ∀ yr initPc checkPc loopId bodyEntry row rt,
    let init := repeatInitState initPc checkPc (mkRepeatInit count loopId) in
    let check := repeatCheckState checkPc c (mkRepeatCheck loopId bodyEntry c) in
    getVar rt (baseIndexVarId ctx) = VNum row →
    PC_MIN <= initPc <= PC_MAX → PC_MIN <= checkPc <= PC_MAX →
    (∀ n,
       getVar rt (cachedPcVarId ctx) = VNum initPc →
       PC_MIN <= resolvePc yr checkPc <= PC_MAX →
       userExpr count
         (setList rt keys (getList rt keys ++ [counterKey tid loopId])) = Some (VNum n) →
       ∃ rt',
         exec userExpr userStmt args loopFuel (buildStateBody ctx config yr rnd init) rt
           = Some rt' ∧
         getList rt' keys = getList rt keys ++ [counterKey tid loopId] ∧
         getList rt' vals = getList rt vals ++ [VNum n] ∧
         getList rt' pcs = replaceAt (getList rt pcs) row (VNum (resolvePc yr checkPc))) ∧
    (∀ n,
       let i := itemNum (getList rt keys) (counterKey tid loopId) in
       getVar rt (cachedPcVarId ctx) = VNum checkPc →
       itemOf (getList rt vals) i = VNum n →
       (0 < n <= MAX_SAFE → PC_MIN <= resolvePc yr bodyEntry <= PC_MAX →
        ∃ rt',
          exec userExpr userStmt args loopFuel (buildStateBody ctx config yr rnd check) rt
            = Some rt' ∧
          getList rt' keys = getList rt keys ∧
          getList rt' vals = replaceAt (getList rt vals) i (VNum (n - 1)) ∧
          getList rt' pcs = replaceAt (getList rt pcs) row (VNum (resolvePc yr bodyEntry))) ∧
       (n <= 0 → PC_MIN <= resolvePc yr c <= PC_MAX →
        ∃ rt',
          exec userExpr userStmt args loopFuel (buildStateBody ctx config yr rnd check) rt
            = Some rt' ∧
          getList rt' keys = deleteAt (getList rt keys) i ∧
          getList rt' vals = deleteAt (getList rt vals) i ∧
          getList rt' pcs = replaceAt (getList rt pcs) row (VNum (resolvePc yr c)))).
Proof.
  intros Hop Htid Hscr Hlists Ht1 Ht2 rec count keys vals pcs shape.
  assert (Hret : ∀ loopId s0 initPc s1 checkPc s2 s3 y s4 s5 bodyEntry s6,
     uid st = Some (loopId, s0) →
     allocPc s0 = Some (initPc, s1) →
     allocPc s1 = Some (checkPc, s2) →
     clearParent (inputRef b "TIMES") s2 = Some (tt, s3) →
     allocPc s3 = Some (y, s4) →
     setRedirect y checkPc s4 = Some (tt, s5) →
     substackChain rec (inputRef b "SUBSTACK") y s5 = Some (bodyEntry, s6) →
     ∃ st', decomposeControlBlock rec b blockId c st = Some (initPc, st') ∧
            shape st' loopId initPc checkPc y bodyEntry s6).
  { intros loopId s0 initPc s1 checkPc s2 s3 y s4 s5 bodyEntry s6 E0 E1 E2 E3 E4 E5 E6.
    destruct (decompose_repeat_returns fuel b blockId c st _ _ _ _ _ _ _ _ _ _ _ _
                Hop E0 E1 E2 E3 E4 E5 E6)
      as (st' & H & Hs & _ & Hy & Hc & Hcu & Hi0 & Hc0 & _ & Hic & _ & Hcy).
    exists st'. split; [done|]. unfold shape.
    split; [done|]. split; [done|].
    destruct (redirect_resolves _ _ _ Hy) as [Hr1 Hr2].
    split; [done|]. split; [done|]. split; [|by repeat split].
    intros Hdom.
    assert (Hnone : yieldRedirects st' !! checkPc = None).
    { rewrite Hc. destruct (yieldRedirects st !! checkPc) eqn:Hl; [|done].
      exfalso. apply Hcu, Hdom. eauto. }
    split; [done|]. by apply no_redirect_stays. }
  split; [|split; [|split; [|split]]].
  - intros loopId s0 initPc s1 checkPc s2 s3 y s4 s5 bodyEntry s6 E0 E1 E2 E3 E4 E5 E6.
    apply substackChain_entry in E6. eauto.
  - intros fuel' s1 b1 loopId us d1 d2 d3 d4 rest -> Hsub Htimes Hb1 Hc1 Hn1 Hus Hds
      Hnd Hfresh.
    by eapply decompose_repeat_one_block.
  - intros a st' H.
    destruct (decompose_repeat_steps _ _ _ _ _ _ _ Hop H)
      as (loopId & s0 & s1 & checkPc & s2 & s3 & y & s4 & s5 & bodyEntry & s6 &
          E0 & E1 & E2 & E3 & E4 & E5 & E6).
    destruct (Hret _ _ _ _ _ _ _ _ _ _ _ _ E0 E1 E2 E3 E4 E5 E6) as (st'' & H' & Hsh).
    rewrite H in H'. inversion H'; subst st''; clear H'.
    exists loopId, s0, checkPc, y, s5, bodyEntry, s6.
    split; [done|].
    apply neutral_uid in E0 as Hn0. destruct Hn0 as (Hs0 & _).
    apply still_uid in E0 as Hq0. destruct Hq0 as (Hy0 & _).
    apply allocPc_spec in E1 as (_ & _ & _ & Hs1 & Hy1 & _).
    apply allocPc_spec in E2 as (_ & _ & _ & Hs2 & Hy2 & _).
    apply clearParent_spec in E3 as (Hs3 & Hy3 & _).
    apply allocPc_spec in E4 as (_ & _ & _ & Hs4 & Hy4 & _).
    apply setRedirect_spec in E5 as (Hs5 & _ & Hy5 & _).
    split; [congruence|]. split; [congruence|].
    split; [by apply substackChain_entry|done].
  - intros yr initPc checkPc loopId bodyEntry.
    split; [apply buildStateBody_repeatInit|].
    split; [apply buildStateBody_repeatCheck|done].
  - intros yr initPc checkPc loopId bodyEntry row rt init check Hrow Hda Hdc. split.
    + intros n Hv Hr Hn.
      apply (exec_repeatInit userExpr userStmt args loopFuel ctx config yr rnd tid
               Htid Hscr Hlists initPc checkPc _ loopId n row rt); assumption.
    + intros n Hv Hn. split.
      * intros Hpos Hr.
        apply (exec_repeatCheck_positive userExpr userStmt args loopFuel ctx config yr
                 rnd tid Htid Hscr Hlists checkPc c loopId bodyEntry c n row rt);
          assumption.
      * intros Hneg Hr.
        apply (exec_repeatCheck_done userExpr userStmt args loopFuel ctx config yr
                 rnd tid Htid Hscr Hlists checkPc c loopId bodyEntry c n row rt);
          assumption.
Qed.

Lemma C3_witness :
  ∃ st',
    decomposeControlBlock (decomposeChain 3) exRepeatBlock "rep" 0
      (initialDState exRepeatStore
         [10000000000007; 10000000000003; 10000000000009; 10000000000012] ["loopA"])
      = Some (7, st') ∧
    states st' =
      [plainState 12 ["s1"] 9 false;
       repeatInitState 7 3 (mkRepeatInit "times" "loopA");
       repeatCheckState 3 0 (mkRepeatCheck "loopA" 12 0)] ∧
    yieldRedirects st' = <[9 := 3]> ∅.
Proof.
  refine (proj1 (proj2
           (C3_repeat_two_state_protocol 3 exRepeatBlock "rep" 0
              (initialDState exRepeatStore
                 [10000000000007; 10000000000003; 10000000000009; 10000000000012]
                 ["loopA"])
              exUserExpr exUserStmt exArgs 0%nat exCtx exConfig exRand (VNum 42)
              _ _ _ _ _ _))
           2%nat "s1" (mkBlock "data_changevariableby" None None ∅ ∅ false)
           "loopA" [] 10000000000007 10000000000003 10000000000009 10000000000012 []
           _ _ _ _ _ _ _ _ _ _);
    try reflexivity; try discriminate.
  - intros n. simpl. lia.
  - simpl. repeat constructor; set_solver.
  - vm_compute. repeat constructor; set_solver.
  - intros p Hp. vm_compute in Hp. split; [|set_solver].
    repeat (apply elem_of_cons in Hp as [->|Hp]; [done|]).
    by apply elem_of_nil in Hp.
Defined.

(** ** The registry over whole threads *)

Section Runs.
Variable userExpr : string → Runtime → option Value.
Variable userStmt : string → Runtime → option Runtime.
Variable halts : string → bool.
Variable procs : string → option Procedure.

Local Notation "'runs'" := (runs userExpr userStmt halts procs).
Local Notation "'calmAll'" := (calmAll halts procs).

Lemma runs_nil_inv args rt o : runs args [] rt o → o = Returned rt.
Proof. intros H. by inversion H. Qed.

Lemma calmAll_app ss1 ss2 : calmAll (ss1 ++ ss2) ↔ calmAll ss1 ∧ calmAll ss2.
Proof. induction ss1 as [|x r IH]; simpl; [tauto|]. rewrite IH. tauto. Qed.

Lemma execStmt_atomic args fuel s rt :
  atomic halts procs s = true →
  execStmt userExpr userStmt args fuel s rt = execStmt userExpr userStmt args 0 s rt.
Proof. by destruct s. Qed.

(** Calm blocks run as [exec] says, whatever the fuel. *)
Lemma runs_calm args ss rt o :
  runs args ss rt o → calmAll ss →
  ∃ rt', o = Returned rt' ∧ ∀ fuel, exec userExpr userStmt args fuel ss rt = Some rt'.
Proof.
  induction 1 as
    [args rt
    |args s l rt rt1 o Ha He _ IH
    |args id l rt rt1 Hh Hu
    |args c t l rt rt1 o Hc _ IHt _ IHl
    |args c t l rt rt1 Hc _ IHt
    |args c t l rt o Hc _ IHl
    |args c t e l rt rt1 o Hc _ IHt _ IHl
    |args c t e l rt rt1 Hc _ IHt
    |args c t e l rt rt1 o Hc _ IHe _ IHl
    |args c t e l rt rt1 Hc _ IHe
    |args c body l rt o Hc _ IHl
    |args c body l rt rt1 o Hc _ IHb _ IHl
    |args c body l rt rt1 Hc _ IHb
    |args p es q vs l rt rt1 o Hp Hv _ IHq _ IHl
    |args p es q vs l rt rt1 Hp Hv _ IHq]; intros Hcalm.
  - exists rt. done.
  - destruct Hcalm as [_ Hl]. destruct (IH Hl) as (rt' & -> & Hex).
    exists rt'. split; [done|]. intros fuel.
    rewrite exec_cons, (execStmt_atomic _ _ _ _ Ha), He. apply Hex.
  - destruct Hcalm as [Hx _]. simpl in Hx. congruence.
  - destruct Hcalm as [Ht Hl]. destruct (IHt Ht) as (r & [= <-] & Hext).
    destruct (IHl Hl) as (rt' & -> & Hexl). exists rt'. split; [done|]. intros fuel.
    rewrite exec_cons, execStmt_SIf, Hc, Hext. apply Hexl.
  - destruct Hcalm as [Ht _]. by destruct (IHt Ht) as (r & ? & _).
  - destruct Hcalm as [_ Hl]. destruct (IHl Hl) as (rt' & -> & Hexl).
    exists rt'. split; [done|]. intros fuel.
    rewrite exec_cons, execStmt_SIf, Hc. apply Hexl.
  - destruct Hcalm as [[Ht _] Hl]. destruct (IHt Ht) as (r & [= <-] & Hext).
    destruct (IHl Hl) as (rt' & -> & Hexl). exists rt'. split; [done|]. intros fuel.
    rewrite exec_cons, execStmt_SIfElse, Hc, Hext. apply Hexl.
  - destruct Hcalm as [[Ht _] _]. by destruct (IHt Ht) as (r & ? & _).
  - destruct Hcalm as [[_ He] Hl]. destruct (IHe He) as (r & [= <-] & Hexe).
    destruct (IHl Hl) as (rt' & -> & Hexl). exists rt'. split; [done|]. intros fuel.
    rewrite exec_cons, execStmt_SIfElse, Hc, Hexe. apply Hexl.
  - destruct Hcalm as [[_ He] _]. by destruct (IHe He) as (r & ? & _).
  - by destruct Hcalm as [[] _].
  - by destruct Hcalm as [[] _].
  - by destruct Hcalm as [[] _].
  - destruct Hcalm as [Hx _]. simpl in Hx. congruence.
  - destruct Hcalm as [Hx _]. simpl in Hx. congruence.
Qed.

(** A stack in two parts: the first part runs to its end and the second
    takes over, or the first part ends the thread. *)
Lemma runs_app_inv args stmts rt o :
  runs args stmts rt o → ∀ l1 l2, stmts = l1 ++ l2 →
  (∃ rt1, runs args l1 rt (Returned rt1) ∧ runs args l2 rt1 o) ∨
  (∃ rt1, o = Stopped rt1 ∧ runs args l1 rt (Stopped rt1)).
Proof.
  induction 1 as
    [args rt
    |args s l rt rt1 o Ha He Hl IH
    |args id l rt rt1 Hh Hu
    |args c t l rt rt1 o Hc Ht _ Hl IHl
    |args c t l rt rt1 Hc Ht _
    |args c t l rt o Hc Hl IHl
    |args c t e l rt rt1 o Hc Ht _ Hl IHl
    |args c t e l rt rt1 Hc Ht _
    |args c t e l rt rt1 o Hc He _ Hl IHl
    |args c t e l rt rt1 Hc He _
    |args c body l rt o Hc Hl IHl
    |args c body l rt rt1 o Hc Hb _ Hl IHl
    |args c body l rt rt1 Hc Hb _
    |args p es q vs l rt rt1 o Hp Hv Hq _ Hl IHl
    |args p es q vs l rt rt1 Hp Hv Hq _]; intros l1 l2 E.
  - symmetry in E. apply app_eq_nil in E as [-> ->]. left. exists rt.
    split; constructor.
  - destruct l1 as [|x l1]; simpl in E.
    + subst l2. left. exists rt. split; [constructor|]. by eapply runs_atomic.
    + injection E as <- ->. destruct (IH _ _ eq_refl) as [(r & H1 & H2)|(r & -> & H1)].
      * left. exists r. split; [by eapply runs_atomic|done].
      * right. exists r. split; [done|]. by eapply runs_atomic.
  - destruct l1 as [|x l1]; simpl in E.
    + subst l2. left. exists rt. split; [constructor|]. by eapply runs_halt.
    + injection E as <- ->. right. exists rt1. split; [done|]. by eapply runs_halt.
  - destruct l1 as [|x l1]; simpl in E.
    + subst l2. left. exists rt. split; [constructor|]. by eapply runs_if_true.
    + injection E as <- ->. destruct (IHl _ _ eq_refl) as [(r & H1 & H2)|(r & -> & H1)].
      * left. exists r. split; [by eapply runs_if_true|done].
      * right. exists r. split; [done|]. by eapply runs_if_true.
  - destruct l1 as [|x l1]; simpl in E.
    + subst l2. left. exists rt. split; [constructor|]. by eapply runs_if_true_stop.
    + injection E as <- ->. right. exists rt1. split; [done|].
      by eapply runs_if_true_stop.
  - destruct l1 as [|x l1]; simpl in E.
    + subst l2. left. exists rt. split; [constructor|]. by eapply runs_if_false.
    + injection E as <- ->. destruct (IHl _ _ eq_refl) as [(r & H1 & H2)|(r & -> & H1)].
      * left. exists r. split; [by eapply runs_if_false|done].
      * right. exists r. split; [done|]. by eapply runs_if_false.
  - destruct l1 as [|x l1]; simpl in E.
    + subst l2. left. exists rt. split; [constructor|]. by eapply runs_ifelse_true.
    + injection E as <- ->. destruct (IHl _ _ eq_refl) as [(r & H1 & H2)|(r & -> & H1)].
      * left. exists r. split; [by eapply runs_ifelse_true|done].
      * right. exists r. split; [done|]. by eapply runs_ifelse_true.
  - destruct l1 as [|x l1]; simpl in E.
    + subst l2. left. exists rt. split; [constructor|]. by eapply runs_ifelse_true_stop.
    + injection E as <- ->. right. exists rt1. split; [done|].
      by eapply runs_ifelse_true_stop.
  - destruct l1 as [|x l1]; simpl in E.
    + subst l2. left. exists rt. split; [constructor|]. by eapply runs_ifelse_false.
    + injection E as <- ->. destruct (IHl _ _ eq_refl) as [(r & H1 & H2)|(r & -> & H1)].
      * left. exists r. split; [by eapply runs_ifelse_false|done].
      * right. exists r. split; [done|]. by eapply runs_ifelse_false.
  - destruct l1 as [|x l1]; simpl in E.
    + subst l2. left. exists rt. split; [constructor|]. by eapply runs_ifelse_false_stop.
    + injection E as <- ->. right. exists rt1. split; [done|].
      by eapply runs_ifelse_false_stop.
  - destruct l1 as [|x l1]; simpl in E.
    + subst l2. left. exists rt. split; [constructor|]. by eapply runs_until_exit.
    + injection E as <- ->. destruct (IHl _ _ eq_refl) as [(r & H1 & H2)|(r & -> & H1)].
      * left. exists r. split; [by eapply runs_until_exit|done].
      * right. exists r. split; [done|]. by eapply runs_until_exit.
  - destruct l1 as [|x l1]; simpl in E.
    + subst l2. left. exists rt. split; [constructor|]. by eapply runs_until_iter.
    + injection E as <- ->.
      destruct (IHl (SRepeatUntil c body :: l1) l2 eq_refl)
        as [(r & H1 & H2)|(r & -> & H1)].
      * left. exists r. split; [by eapply runs_until_iter|done].
      * right. exists r. split; [done|]. by eapply runs_until_iter.
  - destruct l1 as [|x l1]; simpl in E.
    + subst l2. left. exists rt. split; [constructor|]. by eapply runs_until_iter_stop.
    + injection E as <- ->. right. exists rt1. split; [done|].
      by eapply runs_until_iter_stop.
  - destruct l1 as [|x l1]; simpl in E.
    + subst l2. left. exists rt. split; [constructor|]. by eapply runs_call.
    + injection E as <- ->. destruct (IHl _ _ eq_refl) as [(r & H1 & H2)|(r & -> & H1)].
      * left. exists r. split; [by eapply runs_call|done].
      * right. exists r. split; [done|]. by eapply runs_call.
  - destruct l1 as [|x l1]; simpl in E.
    + subst l2. left. exists rt. split; [constructor|]. by eapply runs_call_stop.
    + injection E as <- ->. right. exists rt1. split; [done|].
      by eapply runs_call_stop.
Qed.

(** A calm first part runs as [exec] says. *)
Lemma runs_calm_prefix args l1 l2 rt o :
  calmAll l1 → runs args (l1 ++ l2) rt o →
  ∃ rt1, (∀ fuel, exec userExpr userStmt args fuel l1 rt = Some rt1) ∧
         runs args l2 rt1 o.
Proof.
  intros Hc H.
  destruct (runs_app_inv _ _ _ _ H l1 l2 eq_refl) as [(r & H1 & H2)|(r & -> & H1)].
  - destruct (runs_calm _ _ _ _ H1 Hc) as (r' & [= <-] & Hex). by exists r.
  - by destruct (runs_calm _ _ _ _ H1 Hc) as (r' & ? & _).
Qed.

(** Conversely, what [exec] says of calm blocks is a run of them. *)
Lemma calm_runs args fuel : ∀ s l rt rt1 o,
  calm halts procs s →
  execStmt userExpr userStmt args fuel s rt = Some rt1 →
  runs args l rt1 o →
  runs args (s :: l) rt o.
Proof.
  fix IH 1. intros s.
  assert (IHall : ∀ ss rt rt',
            (fix all (ss : list Stmt) : Prop :=
               match ss with
               | [] => True
               | x :: r => calm halts procs x ∧ all r
               end) ss →
            exec userExpr userStmt args fuel ss rt = Some rt' →
            runs args ss rt (Returned rt')).
  { clear s. intros ss. induction ss as [|x r IHr]; intros rt rt' Hc H.
    - inversion H; subst. constructor.
    - destruct Hc as [Hx Hr]. apply exec_cons_inv in H as (rt1 & H1 & H2).
      eapply IH; [exact Hx|exact H1|]. by apply IHr. }
  assert (Hatomic : ∀ l rt rt1 o,
            atomic halts procs s = true →
            execStmt userExpr userStmt args fuel s rt = Some rt1 →
            runs args l rt1 o → runs args (s :: l) rt o).
  { intros l rt rt1 o Hat H Hl. eapply runs_atomic; [exact Hat| |exact Hl].
    by rewrite <-(execStmt_atomic args fuel). }
  destruct s; intros l rt rt1 o Hc H Hl; simpl in Hc;
    try (by eapply Hatomic).
  - rewrite execStmt_SIf in H.
    destruct (evalBool userExpr args rt c) as [[|]|] eqn:E; [| |done].
    + eapply runs_if_true; [done| |done]. by eapply IHall.
    + inversion H; subst. by eapply runs_if_false.
  - rewrite execStmt_SIfElse in H. destruct Hc as [Ht He].
    destruct (evalBool userExpr args rt c) as [[|]|] eqn:E; [| |done].
    + eapply runs_ifelse_true; [done| |done]. by eapply IHall.
    + eapply runs_ifelse_false; [done| |done]. by eapply IHall.
  - eapply Hatomic; [simpl; by rewrite Hc|done|done].
  - eapply Hatomic; [simpl; by rewrite Hc|done|done].
Qed.

Lemma calmAll_runs args fuel ss : ∀ rt rt',
  calmAll ss → exec userExpr userStmt args fuel ss rt = Some rt' →
  runs args ss rt (Returned rt').
Proof.
  induction ss as [|x r IH]; intros rt rt' Hc H.
  - inversion H; subst. constructor.
  - destruct Hc as [Hx Hr]. apply exec_cons_inv in H as (rt1 & H1 & H2).
    eapply calm_runs; [exact Hx|exact H1|]. by apply IH.
Qed.

End Runs.

Lemma lookup_foldl_insert_ne (k : string) (l : list (string * Value)) :
  ∀ m : gmap string Value, k ∉ l.*1 →
    foldl (fun m nv => <[nv.1 := nv.2]> m) m l !! k = m !! k.
Proof.
  induction l as [|[n v] l IH]; intros m Hk; simpl; [done|].
  simpl in Hk. apply not_elem_of_cons in Hk as [Hne Hk].
  rewrite IH by done. by apply lookup_insert_ne.
Qed.

(** The first parameter of a procedure gets the first value of the call,
    when no later parameter has its name. *)
Lemma bindArgs_first n rest v vs :
  n ∉ rest → bindArgs (n :: rest) (v :: vs) !! n = Some v.
Proof.
  intros Hn. unfold bindArgs. simpl. rewrite lookup_foldl_insert_ne.
  - apply lookup_insert_eq.
  - intros Hin. apply list_elem_of_fmap in Hin as ([a b] & -> & Hab).
    apply Hn. simpl. by apply elem_of_zip_l in Hab.
Qed.

Section RunsRegistry.
Variable userExpr : string → Runtime → option Value.
Variable userStmt : string → Runtime → option Runtime.
Variable halts : string → bool.
Variable procs : string → option Procedure.
Variable ctx : ScriptCFFContext.
Variable config : CffConfig.
Variable yr : gmap Z Z.
Variable oracle : nat → Rand.
Variable states : list CFGState.
Variable entry : Z.
Variable step : Procedure.

Hypothesis Hctx : ctxSeparate ctx.
Hypothesis Hids : ∀ i s, s ∈ states → idsSeparate ctx (oracle i) s.
Hypothesis Huser : userFrame userStmt (lists ctx) (baseIndexVarId ctx).
Hypothesis Hstep : buildStepFunction ctx config yr oracle states = Some step.
Hypothesis Hprocs : procs (stepProccode ctx) = Some step.
Hypothesis Hhalts : ∀ s id, s ∈ states → runsTerminalBody s = false →
  id ∈ bodyBlockIds s → halts id = false.
Hypothesis Hnames : ∃ n rest, stepArgNames ctx = n :: rest ∧ n ∉ rest.

Local Notation "'runs'" := (runs userExpr userStmt halts procs).
Local Notation "'calmAll'" := (calmAll halts procs).

Lemma calmAll_take k ss : calmAll ss → calmAll (take k ss).
Proof.
  revert k. induction ss as [|x r IH]; intros [|k] H; simpl; try done.
  destruct H as [Hx Hr]. split; [done|by apply IH].
Qed.

Lemma calmAll_linkBlocks blocks :
  Forall (fun ss => calmAll ss) blocks → calmAll (linkBlocks blocks).
Proof.
  induction 1 as [|c rest Hc Hrest IH]; [done|].
  destruct rest as [|c' rest']; [done|].
  change (linkBlocks (c :: c' :: rest')) with (take 1 c ++ linkBlocks (c' :: rest')).
  apply calmAll_app. split; [by apply calmAll_take|done].
Qed.

Lemma calmAll_finish blocks d :
  calmAll d → Forall (fun ss => calmAll ss) blocks →
  calmAll (match blocks with [] => d | _ => linkBlocks blocks end).
Proof.
  intros Hd Hb. destruct blocks; [done|]. by apply calmAll_linkBlocks.
Qed.

Lemma calmAll_resolveAndWritePc rnd n p cur :
  calmAll (resolveAndWritePc ctx config yr rnd n p cur).1.
Proof. unfold resolveAndWritePc. cbv zeta. by destruct (shouldYield yr p). Qed.

(** The body of a state that is not terminal is calm, when none of its
    blocks ends the thread. *)
Lemma calmAll_buildStateBody rnd s :
  runsTerminalBody s = false →
  (∀ id, id ∈ bodyBlockIds s → halts id = false) →
  calmAll (buildStateBody ctx config yr rnd s).
Proof.
  intros Hterm Hb.
  assert (Hrw : ∀ n p cur, calmAll (resolveAndWritePc ctx config yr rnd n p cur).1)
    by (intros; apply calmAll_resolveAndWritePc).
  unfold buildStateBody. cbv zeta. apply calmAll_finish; [apply Hrw|].
  unfold runsTerminalBody in Hterm.
  destruct (branch s) as [br|].
  { case_decide; repeat constructor; apply Hrw. }
  destruct (repeatInit s) as [ri|].
  { repeat constructor; try done; apply Hrw. }
  destruct (repeatCheck s) as [rc|].
  { repeat constructor; try done; apply Hrw. }
  destruct (forEachInit s) as [fi|].
  { repeat constructor; try done; apply Hrw. }
  destruct (forEachCheck s) as [fc|].
  { repeat constructor; try done; apply Hrw. }
  rewrite Hterm.
  destruct (waitStart s) as [ws|].
  { repeat constructor; done. }
  destruct (broadcastWaitStart s) as [bws|].
  { repeat constructor; done. }
  destruct (waitPoll s) as [wp|].
  { repeat constructor; try done. destruct (shouldYield _ _); done. }
  specialize (Hrw 0%nat (nextPc s) (pc s)).
  destruct (resolveAndWritePc _ _ _ _ _ _ _) as [setPc yielded]. simpl in Hrw.
  apply Forall_app. split.
  { apply Forall_forall. intros c Hc'. apply list_elem_of_fmap in Hc' as (bid & -> & Hin).
    split; [|done]. simpl. by apply Hb. }
  apply Forall_app. split; [by repeat constructor|].
  destruct (isDead s && negb yielded); repeat constructor; done.
Qed.

Lemma calmAll_deleteRow : calmAll (deleteRow ctx).
Proof. unfold deleteRow. by destruct (needsWait (lists ctx)). Qed.

Lemma calmAll_runRegistration : calmAll (runRegistration ctx entry).
Proof. unfold runRegistration. by destruct (needsWait (lists ctx)). Qed.

Lemma calmAll_runCleanup : calmAll (runCleanup ctx).
Proof. unfold runCleanup. split; [done|apply calmAll_deleteRow]. Qed.

(** The blocks of the project at the end of a terminal body: the row is
    gone already, whether one of them ends the thread or not. *)
Lemma users_offRow args old ids : ∀ rt o,
  offRow ctx old rt → runs args (map SUser ids) rt o →
  offRow ctx old (endState o).
Proof.
  induction ids as [|id ids IH]; intros rt o Hoff H; simpl in H.
  - apply runs_nil_inv in H as ->. done.
  - inversion H; subst.
    + eapply IH; [|eassumption].
      eapply offRow_rowsKept; [|exact Hoff].
      eapply (rowSafeAll_exec userExpr userStmt args 0%nat _ _ Huser [SUser id]);
        [by split|]. rewrite exec_single. eassumption.
    + simpl. eapply offRow_rowsKept; [|exact Hoff].
      eapply (rowSafeAll_exec userExpr userStmt args 0%nat _ _ Huser [SUser id]);
        [by split|]. rewrite exec_single. simpl. eassumption.
Qed.

Lemma stateBody_settled args tok old i s rt o :
  s ∈ states → within ctx tok old rt →
  runs args (buildStateBody ctx config yr (oracle i) s) rt o →
  settled ctx tok old o.
Proof.
  intros Hs Hw H. pose proof Hctx as (Hl & Hkg & Hc).
  destruct (runsTerminalBody s) eqn:Ht.
  - rewrite buildStateBody_terminal in H by done.
    apply (runs_calm_prefix _ _ _ _ _ _ _ _ _ calmAll_deleteRow) in H
      as (rt1 & H1 & H).
    assert (Hoff1 : offRow ctx old rt1).
    { eapply (deleteRow_within userExpr userStmt args 0%nat);
        [by apply parallel_NoDup|exact Hw|apply H1]. }
    change (SSetVar (keepGoingVarId ctx) (ENum 0) :: map SUser (bodyBlockIds s))
      with ([SSetVar (keepGoingVarId ctx) (ENum 0)] ++ map SUser (bodyBlockIds s)) in H.
    apply (runs_calm_prefix _ _ _ _ _ _ _ _ _) in H as (rt2 & H2 & H); [|by split].
    assert (Hoff2 : offRow ctx old rt2).
    { eapply offRow_rowsKept; [|exact Hoff1].
      eapply (rowSafeAll_exec userExpr userStmt args 0%nat _ _ Huser); [|apply H2].
      by split. }
    pose proof (users_offRow _ _ _ _ _ Hoff2 H) as Hoff.
    destruct o as [r|r]; simpl in *; [by right|apply Hoff].
  - destruct (runs_calm _ _ _ _ _ _ _ _ H) as (rt' & -> & Hex).
    { apply calmAll_buildStateBody; [done|]. intros id Hid. by eapply Hhalts. }
    simpl. eapply (stateBody_within userExpr userStmt 0%nat ctx config yr oracle states
                     Hctx Hids Huser); [exact Hs|exact Hw|apply Hex].
Qed.

Lemma emit_settled args tok old t : ∀ rt o,
  (∀ i s, (i, s) ∈ leaves t → s ∈ states) →
  within ctx tok old rt →
  runs args (emit ctx config yr oracle t) rt o →
  settled ctx tok old o.
Proof.
  induction t as [j u|p l IHl r IHr]; intros rt o Hin Hw H; cbn [emit] in H.
  - eapply stateBody_settled; [|exact Hw|exact H]. apply (Hin j). apply list_elem_of_here.
  - unfold ifLess in H.
    assert (Hinl : ∀ i s, (i, s) ∈ leaves l → s ∈ states).
    { intros i s Hi. apply (Hin i). cbn [leaves]. apply elem_of_app. by left. }
    assert (Hinr : ∀ i s, (i, s) ∈ leaves r → s ∈ states).
    { intros i s Hi. apply (Hin i). cbn [leaves]. apply elem_of_app. by right. }
    inversion H; subst; try done.
    + match goal with Hn : runs _ [] _ _ |- _ => apply runs_nil_inv in Hn as -> end.
      eapply IHl; eassumption.
    + eapply IHl; eassumption.
    + match goal with Hn : runs _ [] _ _ |- _ => apply runs_nil_inv in Hn as -> end.
      eapply IHr; eassumption.
    + eapply IHr; eassumption.
Qed.

Lemma iteration_settled args tok old bst rt o :
  buildDispatch ctx config yr oracle states = Some bst →
  within ctx tok old rt →
  runs args (iterPrologue ctx ++ bst) rt o →
  settled ctx tok old o.
Proof.
  intros Hb Hw H. apply buildDispatch_emit in Hb as (t & Ht & ->).
  apply runs_calm_prefix in H as (rt1 & H1 & H); [|by repeat split].
  eapply emit_settled; [|eapply within_rowsKept; [|exact Hw]|exact H].
  - intros i s Hi. by eapply dispatchTree_leaves.
  - eapply (iterPrologue_rowsKept userExpr userStmt 0%nat ctx Hctx Huser). apply H1.
Qed.

Lemma stepLoop_settled args tok old bst stmts rt o :
  buildDispatch ctx config yr oracle states = Some bst →
  runs args stmts rt o →
  stmts = [SRepeatUntil (stepLoopCond ctx) (iterPrologue ctx ++ bst)] →
  within ctx tok old rt →
  settled ctx tok old o.
Proof.
  intros Hb H.
  induction H as
    [args rt
    |args s l rt rt1 o Ha He _ _
    |args id l rt rt1 Hh Hu
    |args c t l rt rt1 o Hc _ _ _ _
    |args c t l rt rt1 Hc _ _
    |args c t l rt o Hc _ _
    |args c t e l rt rt1 o Hc _ _ _ _
    |args c t e l rt rt1 Hc _ _
    |args c t e l rt rt1 o Hc _ _ _ _
    |args c t e l rt rt1 Hc _ _
    |args c body l rt o Hc Hl _
    |args c body l rt rt1 o Hc Hbody _ _ IHl
    |args c body l rt rt1 Hc Hbody _
    |args p es q vs l rt rt1 o Hp Hv _ _ _ _
    |args p es q vs l rt rt1 Hp Hv _ _]; intros E Hw; try discriminate E.
  - injection E as -> ->. done.
  - injection E as -> -> ->. apply runs_nil_inv in Hl as ->. done.
  - injection E as -> -> ->. apply IHl; [done|].
    apply (iteration_settled _ tok old _ _ _ Hb Hw Hbody).
  - injection E as -> -> ->.
    apply (iteration_settled _ tok old _ _ _ Hb Hw Hbody).
Qed.

(** A call of [step_N]: the row of the thread stays or goes, and is gone
    if the thread ends during the call. *)
Lemma stepBody_settled args tok old rt o :
  args !! stepThreadArg ctx = Some tok → freshToken tok old →
  registered (lists ctx) tok old rt ∨ released (lists ctx) old rt →
  runs args (procBody step) rt o →
  settled ctx tok old o.
Proof.
  intros Harg Hfresh Hr H. pose proof Hstep as Hp. unfold buildStepFunction in Hp.
  destruct (buildDispatch ctx config yr oracle states) as [bst|] eqn:Hb; [|done].
  assert (Hbody : procBody step = stepPrologue ctx ++
            [SRepeatUntil (stepLoopCond ctx) (iterPrologue ctx ++ bst)])
    by (by inversion Hp).
  rewrite Hbody in H.
  apply runs_calm_prefix in H as (rt1 & H1 & H); [|by repeat split].
  eapply stepLoop_settled; [exact Hb|exact H|reflexivity|].
  eapply (stepPrologue_within userExpr userStmt 0%nat); [exact Harg|done|exact Hr|apply H1].
Qed.

Lemma settled_tracked tok old o :
  settled ctx tok old o →
  registered (lists ctx) tok old (endState o) ∨
  released (lists ctx) old (endState o).
Proof. destruct o; simpl; [apply within_tracked|by right]. Qed.

(** The call of [step_N] that [run_N] makes, followed into [step_N]. *)
Lemma stepCall_settled args tok old rt o :
  args !! runThreadArg ctx = Some tok → freshToken tok old →
  registered (lists ctx) tok old rt ∨ released (lists ctx) old rt →
  runs args
    [SCall (stepProccode ctx)
       (EArg (runThreadArg ctx) :: forwardArgs (drop 1 (runArgNames ctx)) (runArgTypes ctx))]
    rt o →
  settled ctx tok old o.
Proof.
  intros Harg Hfresh Hr H. destruct Hnames as (n & rest & Hn & Hnot).
  assert (Hbind : ∀ vs,
            mapM (eval userExpr args rt)
              (EArg (runThreadArg ctx)
                 :: forwardArgs (drop 1 (runArgNames ctx)) (runArgTypes ctx)) = Some vs →
            bindArgs (argNames step) vs !! stepThreadArg ctx = Some tok).
  { intros vs Hvs. apply mapM_Some in Hvs.
    apply Forall2_cons_inv_l in Hvs as (v & vs' & Hv & _ & ->).
    cbn [eval] in Hv. rewrite Harg in Hv. simpl in Hv. inversion Hv; subst v.
    assert (argNames step = stepArgNames ctx) as ->.
    { unfold buildStepFunction in Hstep.
      destruct (buildDispatch ctx config yr oracle states); [|done].
      by inversion Hstep. }
    unfold stepThreadArg. rewrite Hn. simpl. by apply bindArgs_first. }
  inversion H; subst.
  - match goal with Ha : atomic _ _ _ = true |- _ => simpl in Ha; by rewrite Hprocs in Ha end.
  - match goal with Hq : procs _ = Some ?q |- _ =>
      rewrite Hprocs in Hq; inversion Hq; subst q end.
    match goal with Hn' : runs _ [] _ _ |- _ => apply runs_nil_inv in Hn' as -> end.
    eapply stepBody_settled; [by apply Hbind|done|exact Hr|eassumption].
  - match goal with Hq : procs _ = Some ?q |- _ =>
      rewrite Hprocs in Hq; inversion Hq; subst q end.
    eapply stepBody_settled; [by apply Hbind|done|exact Hr|eassumption].
Qed.

(** The loop and the cleanup of [run_N]: however the thread comes to its
    end, its row is deleted and no other. *)
Lemma runLoop_released args tok old stmts rt o :
  args !! runThreadArg ctx = Some tok → freshToken tok old →
  runs args stmts rt o →
  stmts = runLoop ctx :: runCleanup ctx →
  registered (lists ctx) tok old rt ∨ released (lists ctx) old rt →
  released (lists ctx) old (endState o).
Proof.
  intros Harg Hfresh H. unfold runLoop.
  induction H as
    [args rt
    |args s l rt rt1 o Ha He _ _
    |args id l rt rt1 Hh Hu
    |args c t l rt rt1 o Hc _ _ _ _
    |args c t l rt rt1 Hc _ _
    |args c t l rt o Hc _ _
    |args c t e l rt rt1 o Hc _ _ _ _
    |args c t e l rt rt1 Hc _ _
    |args c t e l rt rt1 o Hc _ _ _ _
    |args c t e l rt rt1 Hc _ _
    |args c body l rt o Hc Hl _
    |args c body l rt rt1 o Hc Hbody _ _ IHl
    |args c body l rt rt1 Hc Hbody _
    |args p es q vs l rt rt1 o Hp Hv _ _ _ _
    |args p es q vs l rt rt1 Hp Hv _ _]; intros E Hr; try discriminate E.
  - injection E as -> ->. done.
  - injection E as -> -> ->. destruct Hr as [Hr|Hr].
    + destruct (runs_calm _ _ _ _ _ _ _ _ Hl calmAll_runCleanup) as (rt' & -> & Hex).
      simpl. eapply (runCleanup_released userExpr userStmt 0%nat ctx Hctx);
        [exact Harg|done|exact Hr|apply Hex].
    + rewrite (runLoopCond_released userExpr ctx _ tok old _ Harg Hfresh Hr) in Hc.
      done.
  - injection E as -> -> ->. apply (IHl Harg); [done|].
    apply (settled_tracked tok old (Returned rt1)).
    apply (stepCall_settled _ tok old _ _ Harg Hfresh Hr Hbody).
  - injection E as -> -> ->.
    apply (stepCall_settled _ tok old _ _ Harg Hfresh Hr Hbody).
Qed.

(** One thread, from the first block of [run_N] to its end. *)
Lemma thread_released args tok rt o n :
  args !! runThreadArg ctx = Some tok →
  aligned (lists ctx) rt n →
  freshToken tok (getList rt (pcIdId (lists ctx))) →
  runs args (procBody (buildRunFunction ctx entry)) rt o →
  released (lists ctx) (getList rt (pcIdId (lists ctx))) (endState o).
Proof.
  intros Harg Ha Hfresh H. unfold buildRunFunction in H. cbn [procBody] in H.
  apply runs_calm_prefix in H as (rt1 & H1 & H); [|apply calmAll_runRegistration].
  eapply runLoop_released; [exact Harg|done|exact H|reflexivity|].
  left. eapply (registration_registered userExpr userStmt 0%nat ctx entry Hctx);
    [exact Harg|exact Ha|apply H1].
Qed.

Lemma threadsRun_aligned argss : ∀ rt rt' n,
  Forall (fun args => ∃ tok, args !! runThreadArg ctx = Some tok ∧
            freshToken tok (getList rt (pcIdId (lists ctx)))) argss →
  aligned (lists ctx) rt n →
  threadsRun userExpr userStmt halts procs (procBody (buildRunFunction ctx entry))
    argss rt rt' →
  aligned (lists ctx) rt' n ∧
  getList rt' (pcIdId (lists ctx)) = getList rt (pcIdId (lists ctx)).
Proof.
  induction argss as [|args argss IH]; intros rt rt' n Hargs Ha H; inversion H; subst.
  - done.
  - apply Forall_cons in Hargs as [(tok & Harg & Hfresh) Hargs].
    match goal with Hr : runs _ _ _ ?o |- _ =>
      destruct (thread_released args tok rt o n Harg Ha Hfresh Hr) as [Hp Ha1] end.
    rewrite <-(Ha _ (pcIdId_parallel _)).
    match goal with Hs : threadsRun _ _ _ _ _ _ ?r _ |- _ =>
      destruct (IH r rt' (length (getList rt (pcIdId (lists ctx))))) as [Ha2 Hp2];
        [|exact Ha1|exact Hs|] end.
    + rewrite Hp. exact Hargs.
    + split; [done|congruence].
Qed.

End RunsRegistry.

(** The cleanup blocks of [run_N] for a token that is not in the token
    list: nothing is deleted. *)
Lemma runCleanup_absent userExpr userStmt args fuel ctx tok rt :
  NoDup (parallelLists (lists ctx)) →
  args !! runThreadArg ctx = Some tok →
  freshToken tok (getList rt (pcIdId (lists ctx))) →
  ∃ rt', exec userExpr userStmt args fuel (runCleanup ctx) rt = Some rt' ∧
    ∀ id, id ∈ parallelLists (lists ctx) → getList rt' id = getList rt id.
Proof.
  intros Hnd Harg Hfresh.
  assert (Hset : execStmt userExpr userStmt args fuel
            (SSetVar (baseIndexVarId ctx)
               (EItemNum (pcIdId (lists ctx)) (EArg (runThreadArg ctx)))) rt
          = Some (setVar rt (baseIndexVarId ctx) (VNum 0))).
  { apply execStmt_SSetVar. cbn [eval]. rewrite Harg. simpl.
    unfold itemNum. by rewrite itemNumFrom_fresh. }
  eexists. split.
  { unfold runCleanup. rewrite (exec_step _ _ _ _ _ _ _ _ Hset).
    apply (exec_deleteRow _ _ _ _ _ 0). apply getVar_setVar_eq. }
  intros id Hid.
  destruct (deletion_spec ctx 0 (setVar rt (baseIndexVarId ctx) (VNum 0)) Hnd) as [_ Hl].
  rewrite Hl by done. rewrite getList_setVar. apply deleteAt_outside. by left.
Qed.

(** C6. The token list and the lists parallel to it keep one common
    length.  The body of [run_N] is its registration blocks, its loop and
    its cleanup blocks.  The registration blocks append one item to each
    list, the token to the token list.  The body of a state that is not
    terminal, the wait handler and the receiver of the wait signal,
    whatever they replace, leave the token list and the length of every
    parallel list as they are.  The cleanup blocks, for a token that is in
    the token list, and the body of a terminal state, with the base index
    on a row, take one item from each list; the cleanup blocks take none
    when the token is not in the token list.  A thread that runs the body
    of [run_N] to its end, with the calls of [step_N] followed into
    [step_N], whether it returns from [run_N] or ends at a block of a
    terminal state that ends the thread, leaves the token list as it found
    it and every parallel list at the length it had; so threads started on
    an empty registry and completed one after the other leave it empty. *)
Theorem C6_parallel_lists_stay_aligned userExpr userStmt fuel ctx config yr oracle
    (states : list CFGState) entry :
  ctxSeparate ctx →
  (∀ i s, s ∈ states → idsSeparate ctx (oracle i) s) →
  userFrame userStmt (lists ctx) (baseIndexVarId ctx) →
  (proccode (buildRunFunction ctx entry) = runProccode ctx ∧
   argNames (buildRunFunction ctx entry) = runArgNames ctx ∧
   procBody (buildRunFunction ctx entry)
     = runRegistration ctx entry ++ [runLoop ctx] ++ runCleanup ctx) ∧
  (∀ args tok rt n, args !! runThreadArg ctx = Some tok →
     aligned (lists ctx) rt n →
     ∃ rt',
       exec userExpr userStmt args fuel (runRegistration ctx entry) rt = Some rt' ∧
       aligned (lists ctx) rt' (S n) ∧
       getList rt' (pcIdId (lists ctx)) = getList rt (pcIdId (lists ctx)) ++ [tok] ∧
       ∀ id, id ∈ parallelLists (lists ctx) →
         ∃ v, getList rt' id = getList rt id ++ [v]) ∧
  (∀ args i s rt rt', s ∈ states → runsTerminalBody s = false →
     exec userExpr userStmt args fuel (buildStateBody ctx config yr (oracle i) s) rt
       = Some rt' →
     getList rt' (pcIdId (lists ctx)) = getList rt (pcIdId (lists ctx)) ∧
     ∀ id, id ∈ parallelLists (lists ctx) →
       length (getList rt' id) = length (getList rt id)) ∧
  (∀ args hw hwProc saved body rt rt', saved ≠ baseIndexVarId ctx →
     body = handleWaitBody (lists ctx) hw ∨
     body = waitReceiverBody (lists ctx) hwProc saved →
     exec userExpr userStmt args fuel body rt = Some rt' →
     getList rt' (pcIdId (lists ctx)) = getList rt (pcIdId (lists ctx)) ∧
     ∀ id, id ∈ parallelLists (lists ctx) →
       length (getList rt' id) = length (getList rt id)) ∧
  (∀ args tok rt n, args !! runThreadArg ctx = Some tok →
     aligned (lists ctx) rt (S n) →
     tok ∈ getList rt (pcIdId (lists ctx)) →
     ∃ rt',
       exec userExpr userStmt args fuel (runCleanup ctx) rt = Some rt' ∧
       aligned (lists ctx) rt' n) ∧
  (∀ args tok rt, args !! runThreadArg ctx = Some tok →
     freshToken tok (getList rt (pcIdId (lists ctx))) →
     ∃ rt',
       exec userExpr userStmt args fuel (runCleanup ctx) rt = Some rt' ∧
       ∀ id, id ∈ parallelLists (lists ctx) → getList rt' id = getList rt id) ∧
  (∀ args i s rt rt' n k, runsTerminalBody s = true →
     aligned (lists ctx) rt (S n) →
     getVar rt (baseIndexVarId ctx) = VNum k → 1 <= k <= Z.of_nat (S n) →
     exec userExpr userStmt args fuel (buildStateBody ctx config yr (oracle i) s) rt
       = Some rt' →
     aligned (lists ctx) rt' n) ∧
  (∀ halts procs step,
     buildStepFunction ctx config yr oracle states = Some step →
     procs (stepProccode ctx) = Some step →
     (∀ s id, s ∈ states → runsTerminalBody s = false → id ∈ bodyBlockIds s →
        halts id = false) →
     (∃ n rest, stepArgNames ctx = n :: rest ∧ n ∉ rest) →
     (∀ args tok rt o n,
        args !! runThreadArg ctx = Some tok →
        aligned (lists ctx) rt n →
        freshToken tok (getList rt (pcIdId (lists ctx))) →
        runs userExpr userStmt halts procs args
          (procBody (buildRunFunction ctx entry)) rt o →
        aligned (lists ctx) (endState o) n ∧
        getList (endState o) (pcIdId (lists ctx))
          = getList rt (pcIdId (lists ctx))) ∧
     (∀ argss rt rt',
        Forall (fun args => is_Some (args !! runThreadArg ctx)) argss →
        aligned (lists ctx) rt 0 →
        threadsRun userExpr userStmt halts procs
          (procBody (buildRunFunction ctx entry)) argss rt rt' →
        aligned (lists ctx) rt' 0)).
Proof.
  intros Hctx Hids Huser.
  pose proof Hctx as (Hsep & Hkg & _). pose proof Hsep as (Hnd & _).
  split; [done|]. split; [|split; [|split; [|split; [|split; [|split]]]]].
  - intros args tok rt n Harg Ha. eexists. split.
    { by apply exec_runRegistration. }
    destruct (aligned_registration ctx entry tok rt n Hnd Ha) as [Ha' Hp].
    split; [done|]. split; [done|]. by apply registration_appends.
  - intros args i s rt rt' Hs Hterm H.
    assert (rowsKept (lists ctx) (baseIndexVarId ctx) rt rt') as (Hp & Hl & _); [|done].
    eapply rowSafeAll_exec; [exact Huser| |exact H].
    apply rowSafe_buildStateBody; [done|by apply Hids|done].
  - intros args hw hwProc saved body rt rt' Hsaved Hbody H.
    assert (rowsKept (lists ctx) (baseIndexVarId ctx) rt rt') as (Hp & Hlen & _); [|done].
    eapply rowSafeAll_exec; [exact Huser| |exact H].
    destruct Hbody as [->| ->];
      [by apply rowSafeAll_handleWaitBody|by apply rowSafeAll_waitReceiverBody].
  - intros args tok rt n Harg Ha Htok.
    pose proof (itemNum_present _ _ Htok) as Hk.
    rewrite (Ha _ (pcIdId_parallel _)) in Hk.
    eexists. split.
    { unfold runCleanup. erewrite exec_step.
      - apply (exec_deleteRow _ _ _ _ _ (itemNum (getList rt (pcIdId (lists ctx))) tok)).
        apply getVar_setVar_eq.
      - apply execStmt_SSetVar. cbn [eval]. by rewrite Harg. }
    apply aligned_deletion; [done| |done].
    intros id Hid. rewrite getList_setVar. by apply Ha.
  - intros args tok rt Harg Hfresh.
    by apply (runCleanup_absent _ _ _ _ _ tok).
  - intros args i s rt rt' n k Hterm Ha Hb Hk H.
    rewrite buildStateBody_terminal in H by done.
    apply exec_app_inv in H as (rt1 & H1 & H2).
    rewrite (exec_deleteRow _ _ _ _ _ k) in H1 by done. inversion H1; subst rt1. clear H1.
    assert (rowsKept (lists ctx) (baseIndexVarId ctx)
              (applyUpdates (deletionUpdates ctx k) rt) rt') as (_ & Hl & _).
    { eapply rowSafeAll_exec; [exact Huser| |exact H2].
      split; [exact Hkg|apply rowSafeAll_users]. }
    intros id Hid. rewrite Hl by done. by apply aligned_deletion.
  - intros halts procs step Hstep Hprocs Hhalts Hnames. split.
    + intros args tok rt o n Harg Ha Hfresh H.
      destruct (thread_released userExpr userStmt halts procs ctx config yr oracle
                  states entry step Hctx Hids Huser Hstep Hprocs Hhalts Hnames
                  args tok rt o n Harg Ha Hfresh H) as [Hp Hal].
      split; [|done]. by rewrite (Ha _ (pcIdId_parallel _)) in Hal.
    + intros argss rt rt' Hargs Ha H.
      eapply (threadsRun_aligned userExpr userStmt halts procs ctx config yr oracle
                states entry step Hctx Hids Huser Hstep Hprocs Hhalts Hnames
                argss rt rt' 0%nat); [|exact Ha|exact H].
      eapply Forall_impl; [exact Hargs|]. intros args [tok Htok]. exists tok.
      split; [done|]. intros x Hx.
      pose proof (Ha _ (pcIdId_parallel _)) as Hlen.
      destruct (getList rt (pcIdId (lists ctx))); [by apply elem_of_nil in Hx|done].
Qed.

(** The rules of [runs] for blocks with a substack or a call, whichever
    way the substack or the call ends. *)
Section RunsAny.
Variable userExpr : string → Runtime → option Value.
Variable userStmt : string → Runtime → option Runtime.
Variable halts : string → bool.
Variable procs : string → option Procedure.

Local Notation "'runs'" := (runs userExpr userStmt halts procs).

Lemma runs_if_true_any args c t l rt o1 o :
  evalBool userExpr args rt c = Some true →
  runs args t rt o1 →
  match o1 with Returned rt1 => runs args l rt1 o | Stopped rt1 => o = Stopped rt1 end →
  runs args (SIf c t :: l) rt o.
Proof.
  intros Hc Ht Hl. destruct o1 as [rt1|rt1]; [by eapply runs_if_true|].
  subst o. by eapply runs_if_true_stop.
Qed.

Lemma runs_ifelse_true_any args c t e l rt o1 o :
  evalBool userExpr args rt c = Some true →
  runs args t rt o1 →
  match o1 with Returned rt1 => runs args l rt1 o | Stopped rt1 => o = Stopped rt1 end →
  runs args (SIfElse c t e :: l) rt o.
Proof.
  intros Hc Ht Hl. destruct o1 as [rt1|rt1]; [by eapply runs_ifelse_true|].
  subst o. by eapply runs_ifelse_true_stop.
Qed.

Lemma runs_ifelse_false_any args c t e l rt o1 o :
  evalBool userExpr args rt c = Some false →
  runs args e rt o1 →
  match o1 with Returned rt1 => runs args l rt1 o | Stopped rt1 => o = Stopped rt1 end →
  runs args (SIfElse c t e :: l) rt o.
Proof.
  intros Hc He Hl. destruct o1 as [rt1|rt1]; [by eapply runs_ifelse_false|].
  subst o. by eapply runs_ifelse_false_stop.
Qed.

Lemma runs_until_iter_any args c body l rt o1 o :
  evalBool userExpr args rt c = Some false →
  runs args body rt o1 →
  match o1 with
  | Returned rt1 => runs args (SRepeatUntil c body :: l) rt1 o
  | Stopped rt1 => o = Stopped rt1
  end →
  runs args (SRepeatUntil c body :: l) rt o.
Proof.
  intros Hc Hb Hl. destruct o1 as [rt1|rt1]; [by eapply runs_until_iter|].
  subst o. by eapply runs_until_iter_stop.
Qed.

Lemma runs_call_any args p es q vs l rt o1 o :
  procs p = Some q →
  mapM (eval userExpr args rt) es = Some vs →
  runs (bindArgs (argNames q) vs) (procBody q) rt o1 →
  match o1 with Returned rt1 => runs args l rt1 o | Stopped rt1 => o = Stopped rt1 end →
  runs args (SCall p es :: l) rt o.
Proof.
  intros Hp Hv Hq Hl. destruct o1 as [rt1|rt1]; [by eapply runs_call|].
  subst o. by eapply runs_call_stop.
Qed.

End RunsAny.

(** Building the run of blocks on a concrete run-time state. *)
Ltac run_blocks :=
  cbv beta iota;
  lazymatch goal with
  | |- runs _ _ _ _ _ [] _ _ => apply runs_done
  | |- runs _ _ _ _ _ (_ :: _) _ _ =>
      first
        [ eapply runs_atomic; [reflexivity|vm_compute; reflexivity|run_blocks]
        | eapply runs_halt; [reflexivity|vm_compute; reflexivity]
        | eapply runs_if_false; [vm_compute; reflexivity|run_blocks]
        | eapply runs_if_true_any; [vm_compute; reflexivity|run_blocks|run_blocks]
        | eapply runs_ifelse_true_any; [vm_compute; reflexivity|run_blocks|run_blocks]
        | eapply runs_ifelse_false_any; [vm_compute; reflexivity|run_blocks|run_blocks]
        | eapply runs_until_exit; [vm_compute; reflexivity|run_blocks]
        | eapply runs_until_iter_any; [vm_compute; reflexivity|run_blocks|run_blocks]
        | eapply runs_call_any;
            [vm_compute; reflexivity|vm_compute; reflexivity|run_blocks|run_blocks] ]
  | |- runs ?ue ?us ?h ?p ?a ?l ?rt ?o =>
      let l' := eval vm_compute in l in
      change (runs ue us h p a l' rt o); run_blocks
  | |- _ = _ => reflexivity
  end.

(** Two threads of the one-state script, one after the other, and one
    thread of the script whose only block ends it. *)
Lemma exOneState_threadsRun :
  ∃ rt',
    threadsRun exUserExpr exUserStmt exHalts (exProcs exOneState)
      (procBody (buildRunFunction exCtx 5))
      [{[ "tid" := VNum 42 ]}; {[ "tid" := VNum 43 ]}] exEmptyRuntime rt'.
Proof.
  eexists. eapply threadsRun_cons; [run_blocks|].
  eapply threadsRun_cons; [run_blocks|]. apply threadsRun_nil.
Qed.

Lemma exStopState_runs :
  ∃ rt',
    runs exUserExpr exUserStmt exHalts (exProcs exStopState) {[ "tid" := VNum 42 ]}
      (procBody (buildRunFunction exCtx 5)) exEmptyRuntime (Stopped rt').
Proof. eexists. run_blocks. Qed.

Lemma exStates_separate (states : list CFGState) :
  (∀ s, s ∈ states → forEachCheck s = None) →
  ∀ (i : nat) s, s ∈ states → idsSeparate exCtx exRand s.
Proof.
  intros H. apply exRand_separate. intros s fc Hs Hfc. by rewrite (H s Hs) in Hfc.
Qed.

Lemma C6_witness :
  (∃ rt',
     threadsRun exUserExpr exUserStmt exHalts (exProcs exOneState)
       (procBody (buildRunFunction exCtx 5))
       [{[ "tid" := VNum 42 ]}; {[ "tid" := VNum 43 ]}] exEmptyRuntime rt' ∧
     aligned exLists rt' 0) ∧
  (∃ rt',
     runs exUserExpr exUserStmt exHalts (exProcs exStopState) {[ "tid" := VNum 42 ]}
       (procBody (buildRunFunction exCtx 5)) exEmptyRuntime (Stopped rt') ∧
     aligned exLists rt' 0).
Proof.
  split.
  - destruct exOneState_threadsRun as [rt' Hrun]. exists rt'. split; [exact Hrun|].
    destruct (C6_parallel_lists_stay_aligned exUserExpr exUserStmt 3 exCtx exConfig ∅
                (fun _ => exRand) exOneState 5)
      as (_ & _ & _ & _ & _ & _ & _ & Hthreads).
    + apply exCtx_separate.
    + apply exStates_separate. intros s Hs.
      apply elem_of_cons in Hs as [->|Hs]; [done|by apply elem_of_nil in Hs].
    + apply exUserStmt_frame.
    + destruct (Hthreads exHalts (exProcs exOneState)
                  (default (mkProcedure "" [] false [])
                     (buildStepFunction exCtx exConfig ∅ (fun _ => exRand) exOneState)))
        as [_ Hseq].
      * vm_compute. reflexivity.
      * vm_compute. reflexivity.
      * intros s id Hs _ Hid.
        apply elem_of_cons in Hs as [->|Hs]; [|by apply elem_of_nil in Hs].
        apply elem_of_cons in Hid as [->|Hid]; [done|by apply elem_of_nil in Hid].
      * exists "tid", []. split; [done|]. apply not_elem_of_nil.
      * eapply Hseq; [|apply aligned_empty|exact Hrun].
        repeat constructor; by eexists.
  - destruct exStopState_runs as [rt' Hrun]. exists rt'. split; [exact Hrun|].
    destruct (C6_parallel_lists_stay_aligned exUserExpr exUserStmt 3 exCtx exConfig ∅
                (fun _ => exRand) exStopState 5)
      as (_ & _ & _ & _ & _ & _ & _ & Hthreads).
    + apply exCtx_separate.
    + apply exStates_separate. intros s Hs.
      apply elem_of_cons in Hs as [->|Hs]; [done|by apply elem_of_nil in Hs].
    + apply exUserStmt_frame.
    + destruct (Hthreads exHalts (exProcs exStopState)
                  (default (mkProcedure "" [] false [])
                     (buildStepFunction exCtx exConfig ∅ (fun _ => exRand) exStopState)))
        as [Hone _].
      * vm_compute. reflexivity.
      * vm_compute. reflexivity.
      * intros s id Hs Hterm _.
        apply elem_of_cons in Hs as [->|Hs]; [done|by apply elem_of_nil in Hs].
      * exists "tid", []. split; [done|]. apply not_elem_of_nil.
      * apply (Hone {[ "tid" := VNum 42 ]} (VNum 42) exEmptyRuntime (Stopped rt') 0%nat);
          [reflexivity|apply aligned_empty| |exact Hrun].
        intros x Hx. by apply elem_of_nil in Hx.
Defined.
